(** * SEP aperture photometry ([src/aper.c]): a shallow embedding

    The C functions of [aper.c] are transcribed once, over an abstract
    interface [Arith] for the arithmetic of the C type [double].  The
    interface has two instances:

    - [Float64]: IEEE-754 binary64 as the machine executes it (Rocq's
      primitive floats), with NaN, infinities and rounding, and the
      narrowing to binary32 where the code stores a value in a [float];
    - [RealArith]: exact arithmetic on the real numbers, the reading in
      which the closed formulas of the specification are meant: no
      rounding and no special values.  A real number has no counterpart
      for the infinity of [x / 0.0] or the NaN of [sqrt] of a negative
      number ([Rdiv] and [sqrt] give 0 there), so a statement on
      [RealArith] about code that divides or takes a root carries the
      hypotheses that keep the divisors away from zero and the
      arguments of [sqrt] non-negative.

    In both instances the cast [(int)] is undefined ([None]) on a value
    whose truncation does not fit a 32-bit [int], and so is an [int]
    operation that overflows.

    Statements that only depend on the control flow are proved for every
    instance; statements that depend on arithmetic laws are proved for
    [RealArith]; concrete runs are evaluated on [Float64]. *)

From Stdlib Require Import ZArith List Bool Reals Lra Lia Psatz.
From Stdlib Require PrimFloat FloatOps SpecFloat Uint63 FloatAxioms.
Import ListNotations.

Set Implicit Arguments.
Open Scope Z_scope.

(* ================================================================= *)
(** ** The arithmetic interface *)

(** The C type [int]: 32 bits.  The result of an [int] operation is
    undefined when it overflows. *)
Definition INT_MIN : Z := - 2 ^ 31.
Definition INT_MAX : Z := 2 ^ 31 - 1.

Definition int_val (z : Z) : option Z :=
  if (INT_MIN <=? z) && (z <=? INT_MAX) then Some z else None.

(** Operations of C [double] used by [aper.c].  [lit n d] is the decimal
    literal [n/d]; [of_int] is the implicit conversion [int -> double];
    [to_int] is the cast [(int)], truncation toward zero, [None] where C
    leaves the conversion undefined; [to_float] is the conversion to
    [float] of a value stored in a variable of type [float] (or
    [PIXTYPE], which is [float]) and read back as a [double]. *)
Class Arith (D : Type) : Type := {
  of_int : Z -> D;
  to_float : D -> D;
  lit : Z -> positive -> D;
  add : D -> D -> D;
  sub : D -> D -> D;
  mul : D -> D -> D;
  div : D -> D -> D;
  neg : D -> D;
  dsqrt : D -> D;
  dfmod : D -> D -> D;
  ltb : D -> D -> bool;
  leb : D -> D -> bool;
  eqb : D -> D -> bool;
  to_int : D -> option Z
}.

(** Functions of [math.h] that have no executable counterpart on
    primitive floats, and the constant [PI] of [sepcore.h]. *)
Class Libm (D : Type) : Type := {
  dsin : D -> D;
  dcos : D -> D;
  datan : D -> D;
  PI : D
}.

(** Macros of [sep.h] and [sepcore.h] used by [aper.c]; these headers are
    not among the sources at hand, so their values are parameters: the
    input option bits, the output flag bits and the bad-pixel floor
    [BIG]. *)
Class Macros (D : Type) : Type := {
  SEP_ERROR_IS_VAR : Z;
  SEP_ERROR_IS_ARRAY : Z;
  SEP_MASK_IGNORE : Z;
  SEP_APER_TRUNC : Z;
  SEP_APER_HASMASKED : Z;
  SEP_APER_ALLMASKED : Z;
  SEP_APER_NONPOSITIVE : Z;
  BIG : D
}.

Declare Scope dbl_scope.
Delimit Scope dbl_scope with D.
Infix "+" := add : dbl_scope.
Infix "-" := sub : dbl_scope.
Infix "*" := mul : dbl_scope.
Infix "/" := div : dbl_scope.
Notation "- x" := (neg x) : dbl_scope.
Infix "<?" := ltb (at level 70, no associativity) : dbl_scope.
Infix "<=?" := leb (at level 70, no associativity) : dbl_scope.
Infix "==?" := eqb (at level 70, no associativity) : dbl_scope.
Notation "x >? y" := (ltb y x) (at level 70, no associativity) : dbl_scope.
Notation "x >=? y" := (leb y x) (at level 70, no associativity) : dbl_scope.

(** Status codes of [sepcore.h].  Modelled from the spec: the header is
    not among the sources; section 7 of the specification names the
    failure kinds, [RETURN_OK] is the success status (0 in C, the only
    status that the tests [if ((status = ...))] let through). *)
Inductive status : Type :=
| RETURN_OK
| ILLEGAL_DTYPE
| ILLEGAL_SUBPIX
| NON_ELLIPSE_PARAMS
| ILLEGAL_APER_PARAMS.

Definition is_ok (s : status) : bool :=
  match s with RETURN_OK => true | _ => false end.

(** Undefined behaviour of C is [None]; [let*] sequences steps that may be
    undefined. *)
Definition bind {A B : Type} (m : option A) (k : A -> option B) : option B :=
  match m with Some a => k a | None => None end.

Notation "'let*' x ':=' m 'in' k" := (bind m (fun x => k))
  (at level 10, x pattern, m at level 100, k at level 200).

(* ================================================================= *)
(** ** Instance: IEEE binary64 *)

Module F64.
Import PrimFloat FloatOps SpecFloat.

(** An integer as a double, rounded to nearest even when it has more
    than 53 significant bits. *)
Definition of_int (z : Z) : float :=
  SF2Prim (binary_normalize prec emax z 0 false).

(** A double narrowed to binary32 (24 significant bits, infinite from
    [2^128] on), rounded to nearest even. *)
Definition to_float (f : float) : float :=
  match Prim2SF f with
  | S754_finite s m e => SF2Prim (binary_round 24 128 s m e)
  | _ => f
  end.

(** A decimal literal, rounded to nearest: numerator and denominator of
    every literal of [aper.c] are below [2^53], so they convert exactly
    and the quotient is the correctly rounded value of the literal. *)
Definition lit (n : Z) (d : positive) : float :=
  div (of_int n) (of_int (Z.pos d)).

(** [(int)] on a double: defined when the truncated value fits a 32-bit
    [int]. *)
Definition to_int (f : float) : option Z :=
  match Prim2SF f with
  | S754_zero _ => Some 0
  | S754_finite s m e =>
      let mag := if 0 <=? e then Z.pos m * 2 ^ e else Z.pos m / 2 ^ (- e) in
      let v := if s then - mag else mag in
      if (- 2 ^ 31 <=? v) && (v <? 2 ^ 31) then Some v else None
  | S754_infinity _ | S754_nan => None
  end.

(** [fmod] of [math.h]: the exact remainder of [x / y] with the sign of
    [x]; NaN when [x] is infinite or [y] is zero. *)
Definition fmod (x y : float) : float :=
  match Prim2SF x, Prim2SF y with
  | S754_nan, _ | _, S754_nan => nan
  | S754_infinity _, _ => nan
  | _, S754_zero _ => nan
  | S754_zero _, _ => x
  | _, S754_infinity _ => x
  | S754_finite sx mx ex, S754_finite _ my ey =>
      let e := Z.min ex ey in
      let r := (Z.pos mx * 2 ^ (ex - e)) mod (Z.pos my * 2 ^ (ey - e)) in
      let f := Z.ldexp (of_uint63 (Uint63.of_Z r)) e in
      if sx then opp f else f
  end.

(** A double that is neither NaN nor infinite. *)
Definition finite (f : float) : bool :=
  match Prim2SF f with
  | S754_zero _ | S754_finite _ _ _ => true
  | _ => false
  end.

(** A double that is [+0.] or [-0.]. *)
Definition is_zero (f : float) : bool :=
  match Prim2SF f with
  | S754_zero _ => true
  | _ => false
  end.
End F64.

#[export] Instance Float64 : Arith PrimFloat.float := {
of_int := F64.of_int;
to_float := F64.to_float;
lit := F64.lit;
add := PrimFloat.add;
sub := PrimFloat.sub;
mul := PrimFloat.mul;
div := PrimFloat.div;
neg := PrimFloat.opp;
dsqrt := PrimFloat.sqrt;
dfmod := F64.fmod;
ltb := PrimFloat.ltb;
leb := PrimFloat.leb;
eqb := PrimFloat.eqb;
to_int := F64.to_int
}.

(* ================================================================= *)
(** ** Instance: exact real arithmetic *)

Module RA.
Open Scope R_scope.

Definition ltb (x y : R) : bool := if Rlt_dec x y then true else false.
Definition leb (x y : R) : bool := if Rle_dec x y then true else false.
Definition eqb (x y : R) : bool := if Req_dec_T x y then true else false.

(** Truncation toward zero. *)
Definition trunc (x : R) : Z := if Rle_dec 0 x then Zfloor x else Zceil x.

(** [fmod x y = x - trunc (x / y) * y]. *)
Definition fmod (x y : R) : R := x - IZR (trunc (x / y)) * y.

(** [(int)] on a real number: defined when the truncated value fits a
    32-bit [int]. *)
Definition to_int (x : R) : option Z :=
  let v := trunc x in
  if ((- 2 ^ 31 <=? v) && (v <? 2 ^ 31))%Z then Some v else None.
End RA.

#[export] Instance RealArith : Arith R := {
of_int := IZR;
to_float := fun x => x;
lit := fun n d => (IZR n / IZR (Z.pos d))%R;
add := Rplus;
sub := Rminus;
mul := Rmult;
div := Rdiv;
neg := Ropp;
dsqrt := sqrt;
dfmod := RA.fmod;
ltb := RA.ltb;
leb := RA.leb;
eqb := RA.eqb;
to_int := RA.to_int
}.

#[export] Instance RealLibm : Libm R := {
dsin := sin;
dcos := cos;
datan := atan;
PI := Rtrigo1.PI
}.

(* ================================================================= *)
(** ** Conversions between ellipse representations *)

Section Ellipse.
Context {D : Type} {A : Arith D} {L : Libm D}.

(** [sep_ellipse_axes]: the three outputs are written on success only. *)
Definition sep_ellipse_axes (cxx cyy cxy : D) : status * option (D * D * D) :=
  let p := (cxx + cyy)%D in
  let q := (cxx - cyy)%D in
  let t := dsqrt (q * q + cxy * cxy)%D in
  if ((cxx * cyy - cxy * cxy / lit 4 1 <=? lit 0 1) || (p <=? lit 0 1))%D
  then (NON_ELLIPSE_PARAMS, None)
  else
    let a := dsqrt (lit 2 1 / (p - t))%D in
    let b := dsqrt (lit 2 1 / (p + t))%D in
    let theta :=
      if (cxy ==? lit 0 1)%D then lit 0 1
      else ((if (q ==? lit 0 1)%D then lit 0 1 else datan (cxy / q)%D)
            / lit 2 1)%D in
    let theta := if (cxx >? cyy)%D then (theta + PI / lit 2 1)%D else theta in
    let theta := if (theta >? PI / lit 2 1)%D then (theta - PI)%D else theta in
    (RETURN_OK, Some (a, b, theta)).

Definition sep_ellipse_coeffs (a b theta : D) : D * D * D :=
  let costheta := dcos theta in
  let sintheta := dsin theta in
  let cxx := (costheta * costheta / (a * a) + sintheta * sintheta / (b * b))%D in
  let cyy := (sintheta * sintheta / (a * a) + costheta * costheta / (b * b))%D in
  let cxy := (lit 2 1 * costheta * sintheta
              * (lit 1 1 / (a * a) - lit 1 1 / (b * b)))%D in
  (cxx, cyy, cxy).
End Ellipse.

(* ================================================================= *)
(** ** Helper functions for aperture functions *)

(** The box [xmin <= ix < xmax], [ymin <= iy < ymax]. *)
Record box : Type := Box { xmin : Z; xmax : Z; ymin : Z; ymax : Z }.

Section BoxExtent.
Context {D : Type} {A : Arith D} {M : Macros D}.

(** [boxextent]: the four casts, then the four clamps; [flag] is the
    content of [*flag] on entry, the result carries its content on
    exit ([|=] on the few low bits of a [short]). *)
Definition boxextent (x y rx ry : D) (w h : Z) (flag : Z) : option (box * Z) :=
  let* xmin := to_int (x - rx + lit 5 10)%D in
  let* xmax := to_int (x + rx + lit 14999999 10000000)%D in
  let* ymin := to_int (y - ry + lit 5 10)%D in
  let* ymax := to_int (y + ry + lit 14999999 10000000)%D in
  let '(xmin, flag) :=
    if xmin <? 0 then (0, Z.lor flag SEP_APER_TRUNC) else (xmin, flag) in
  let '(xmax, flag) :=
    if xmax >? w then (w, Z.lor flag SEP_APER_TRUNC) else (xmax, flag) in
  let '(ymin, flag) :=
    if ymin <? 0 then (0, Z.lor flag SEP_APER_TRUNC) else (ymin, flag) in
  let '(ymax, flag) :=
    if ymax >? h then (h, Z.lor flag SEP_APER_TRUNC) else (ymax, flag) in
  Some (Box xmin xmax ymin ymax, flag).

Definition boxextent_ellipse (x y cxx cyy cxy r : D) (w h : Z) (flag : Z)
  : option (box * Z) :=
  let dxlim := (cxx - cxy * cxy / (lit 4 1 * cyy))%D in
  let dxlim := if (dxlim >? lit 0 1)%D then (r / dsqrt dxlim)%D else lit 0 1 in
  let dylim := (cyy - cxy * cxy / (lit 4 1 * cxx))%D in
  let dylim := if (dylim >? lit 0 1)%D then (r / dsqrt dylim)%D else lit 0 1 in
  boxextent x y dxlim dylim w h flag.
End BoxExtent.

(* ================================================================= *)
(** ** Percentile interpolation: [sep_ppf] *)

Section Ppf.
Context {D : Type} {A : Arith D}.

(** [y[i]]; the loops of [sep_ppf] only read below the declared count. *)
Definition yget (y : list D) (i : Z) : D := nth (Z.to_nat i) y (lit 0 1).

(** [for (j=0; j<n; j++) sum += y[j];] from [sum = 0.0]. *)
Definition ppf_sum (y : list D) (n : Z) : D :=
  fold_left add (firstn (Z.to_nat n) y) (lit 0 1).

(** [while (i < n && cumsum < targsum) { cumsum += y[i]; i++; }];
    [k] bounds the number of iterations. *)
Fixpoint ppf_while (k : nat) (y : list D) (n : Z) (targsum : D)
         (i : Z) (cumsum : D) : Z * D :=
  match k with
  | O => (i, cumsum)
  | S k' =>
      if (i <? n) && (cumsum <? targsum)%D
      then ppf_while k' y n targsum (i + 1) (cumsum + yget y i)%D
      else (i, cumsum)
  end.

(** The body of the loop over the requested fractions: [xout[j]] from
    [frac[j]].  Starting at [i = 0] the [while] makes at most [n]
    iterations. *)
Definition ppf_one (xmax : D) (y : list D) (n : Z) (sum : D) (frac : D) : D :=
  let step := (xmax / of_int n)%D in
  let targsum := (frac * sum)%D in
  let '(i, cumsum) := ppf_while (Z.to_nat n) y n targsum 0 (lit 0 1) in
  if i =? 0 then lit 0 1
  else if i =? n then xmax
  else (step * (of_int i + (targsum - cumsum) / yget y (i - 1)))%D.

Definition sep_ppf (xmax : D) (y : list D) (n : Z) (frac : list D) (nfrac : Z)
  : list D :=
  let sum := ppf_sum y n in
  map (ppf_one xmax y n sum) (firstn (Z.to_nat nfrac) frac).
End Ppf.

(* ================================================================= *)
(** ** Pixel buffers, converters and output arrays *)

(** [get_converter] of [util.c] (not among the sources): from an encoding
    tag, a status, the function that decodes one element, and the size
    of an element in bytes.  [elem] is what a pointer into a pixel buffer
    points at.  The decoding function gives the value of the element as
    it is stored; a converter of C returns it as a [PIXTYPE], that is a
    [float], and the scans keep it in the locals [pix] and [varpix] of
    that type: what a call of a converter yields is [converted] below. *)
Class Converters (D : Type) : Type := {
  elem : Type;
  get_converter : Z -> status * (elem -> D) * Z
}.

(** The value of a call [convert(ptr)]: the decoded element, narrowed
    to [float]. *)
Definition converted {D : Type} {A : Arith D} {C : Converters D}
  (conv : elem -> D) (e : elem) : D := to_float (conv e).

(** A caller-supplied buffer, by byte offset from its base pointer; an
    optional buffer is [None] when the pointer is [NULL]. *)
Definition buffer {D : Type} {C : Converters D} : Type := Z -> elem.

(** The pixel grids of the scanning functions, and one access into a
    grid: the logical pixel [(ix, iy)] it is made for and the offset it
    is made at (in bytes for the typed buffers, in elements for the byte
    array of [sep_set_ellipse]).  The scanning functions below carry the
    list of their accesses; it has no counterpart in the C code. *)
Inductive grid : Type := DATA | ERROR | MASK | ARR.

Record access : Type := Access { a_grid : grid; a_iy : Z; a_ix : Z; a_ptr : Z }.

(** [p[j]], [p[j] = v] and [p[j] += v] on an array of known extent;
    outside the extent the access is undefined. *)
Definition aget {T : Type} (l : list T) (j : Z) : option T :=
  if j <? 0 then None else nth_error l (Z.to_nat j).

Fixpoint upd {T : Type} (l : list T) (k : nat) (v : T) : list T :=
  match l, k with
  | [], _ => []
  | _ :: t, O => v :: t
  | a :: t, S k' => a :: upd t k' v
  end.

Definition aset {T : Type} (l : list T) (j : Z) (v : T) : option (list T) :=
  if (0 <=? j) && (j <? Z.of_nat (length l)) then Some (upd l (Z.to_nat j) v)
  else None.

(** [memset(p, 0, n*sizeof(double))]: the first [n] entries become [0.0]. *)
Definition memset0 {D : Type} {A : Arith D} (l : list D) (n : Z) : option (list D) :=
  if n <=? Z.of_nat (length l)
  then Some (repeat (lit 0 1) (Z.to_nat n) ++ skipn (Z.to_nat n) l)
  else None.

(** [for (j=n; j--;) body]: [j] runs from [n-1] down to [0]. *)
Fixpoint down_loop {S : Type} (k : nat) (body : Z -> S -> option S) (s : S)
  : option S :=
  match k with
  | O => Some s
  | S k' => let* s := body (Z.of_nat k') s in down_loop k' body s
  end.

(** The four output arrays of the multi-annulus sum. *)
Record accum (D : Type) : Type := Accum {
  o_sum : list D;
  o_sumvar : list D;
  o_area : list D;
  o_maskarea : list D
}.

(** Locals of [sep_sum_circann_multi] that live across pixels. *)
Record mstate (D : Type) : Type := MState {
  m_out : accum D;
  m_flag : Z;
  m_varpix : D;
  m_ismasked : bool;
  m_log : list access
}.

(** Reading through a converter: undefined when the buffer is [NULL] or
    the converter was never resolved. *)
Definition rd {D : Type} {A : Arith D} {C : Converters D}
  (conv : option (elem -> D)) (buf : option buffer) (ptr : Z) : option D :=
  match conv, buf with
  | Some c, Some b => Some (converted c (b ptr))
  | _, _ => None
  end.

(* ================================================================= *)
(** ** The multi-annulus sum: [sep_sum_circann_multi] *)

Section MultiScan.
Context {D : Type} {A : Arith D} {M : Macros D} {C : Converters D}.
Variables (data : buffer) (error mask : option buffer).
Variables (convert : elem -> D) (econvert mconvert : option (elem -> D)).
Variables (size esize msize : Z).
Variables (w h : Z) (maskthresh x y : D) (n subpix : Z).
Variables (errisarray errisstd : bool).
Variables (scale scale2 offset r_out2 step stepdens : D).
Variables (prevbinmargin nextbinmargin : D).

Definition addto (l : list D) (j : Z) (v : D) : option (list D) :=
  let* old := aget l j in aset l j (old + v)%D.

(** The block guarded by [if (j < n)], with the four increments of the
    place it stands at: [dm] for [maskarea[j]], [ds] for [sum[j]], [dv]
    for [sumvar[j]] and [da] for [area[j]]. *)
Definition deposit (ismasked : bool) (j : Z) (dm ds dv da : D) (o : accum D)
  : option (accum D) :=
  if j <? n then
    let* o :=
      if ismasked then
        let* m := addto (o_maskarea o) j dm in
        Some (Accum (o_sum o) (o_sumvar o) (o_area o) m)
      else
        let* s := addto (o_sum o) j ds in
        let* v := addto (o_sumvar o) j dv in
        Some (Accum s v (o_area o) (o_maskarea o)) in
    let* a := addto (o_area o) j da in
    Some (Accum (o_sum o) (o_sumvar o) a (o_maskarea o))
  else Some o.

(** [for (sx=subpix; sx--; dx1+=scale)]: [k] iterations left. *)
Fixpoint sx_loop (k : nat) (pix varpix : D) (ismasked : bool) (dx1 dy2 : D)
         (o : accum D) : option (accum D) :=
  match k with
  | O => Some o
  | S k' =>
      let* j := to_int (dsqrt (dx1 * dx1 + dy2) * stepdens)%D in
      let* o := deposit ismasked j scale2 (scale2 * pix)%D (scale2 * varpix)%D
                        scale2 o in
      sx_loop k' pix varpix ismasked (dx1 + scale)%D dy2 o
  end.

(** [for (sy=subpix; sy--; dy+=scale)]: [k] iterations left. *)
Fixpoint sy_loop (k : nat) (pix varpix : D) (ismasked : bool) (dx dy : D)
         (o : accum D) : option (accum D) :=
  match k with
  | O => Some o
  | S k' =>
      let dx1 := dx in
      let dy2 := (dy * dy)%D in
      let* o := sx_loop (Z.to_nat subpix) pix varpix ismasked dx1 dy2 o in
      sy_loop k' pix varpix ismasked dx (dy + scale)%D o
  end.

(** What is done with a pixel that passed [rpix2 < r_out2], once its
    value, variance and mask state are known. *)
Definition bin_pixel (pix varpix : D) (ismasked : bool) (dx dy rpix2 : D)
           (o : accum D) : option (accum D) :=
  let rpix := dsqrt rpix2 in
  let d := dfmod rpix step in
  if ((d <? prevbinmargin) || (d >? nextbinmargin))%D then
    let dx := (dx + offset)%D in
    let dy := (dy + offset)%D in
    sy_loop (Z.to_nat subpix) pix varpix ismasked dx dy o
  else
    let* j := to_int (rpix * stepdens)%D in
    deposit ismasked j (lit 1 1) pix varpix (lit 1 1) o.

(** The body of the loop over the pixels of a row, for pixel [(ix, iy)]
    with the three running pointers. *)
Definition multi_pixel (ix iy datat errort maskt : Z) (st : mstate D)
  : option (mstate D) :=
  let dx := (of_int ix - x)%D in
  let dy := (of_int iy - y)%D in
  let rpix2 := (dx * dx + dy * dy)%D in
  if (rpix2 <? r_out2)%D then
    let pix := converted convert (data datat) in
    let log := Access DATA iy ix datat :: m_log st in
    let* (varpix, log) :=
      if errisarray then
        let* v := rd econvert error errort in
        Some (if errisstd then to_float (v * v)%D else v,
              Access ERROR iy ix errort :: log)
      else Some (m_varpix st, log) in
    let* (flag, ismasked, log) :=
      match mask with
      | Some _ =>
          let* m := rd mconvert mask maskt in
          let log := Access MASK iy ix maskt :: log in
          if (m >? maskthresh)%D
          then Some (Z.lor (m_flag st) SEP_APER_HASMASKED, true, log)
          else Some (m_flag st, false, log)
      | None => Some (m_flag st, m_ismasked st, log)
      end in
    let* o := bin_pixel pix varpix ismasked dx dy rpix2 (m_out st) in
    Some (MState o flag varpix ismasked log)
  else Some st.

(** [for (ix=xmin; ix<xmax; ix++)] with the pointer increments at the end
    of its body; [k] iterations left. *)
Fixpoint multi_pixels (k : nat) (ix iy datat errort maskt : Z) (st : mstate D)
  : option (mstate D) :=
  match k with
  | O => Some st
  | S k' =>
      let* st := multi_pixel ix iy datat errort maskt st in
      multi_pixels k' (ix + 1) iy (datat + size)
                   (if errisarray then errort + esize else errort)
                   (maskt + msize) st
  end.

(** The body of the loop over rows; [%] of C is [Z.rem], undefined for a
    zero divisor.  [(iy%h) * w + xmin] is computed in [int] before it is
    stored in the [long pos]; the products [pos*size] are computed in
    [long].  [errort] and [maskt] keep their initial value (the base
    pointer, offset 0) when they are not reset here. *)
Definition multi_row (bx : box) (iy : Z) (st : mstate D) : option (mstate D) :=
  if h =? 0 then None
  else
    let* rowstart := int_val (Z.rem iy h * w) in
    let* pos := int_val (rowstart + xmin bx) in
    let datat := pos * size in
    let errort := if errisarray then pos * esize else 0 in
    let maskt := match mask with Some _ => pos * msize | None => 0 end in
    multi_pixels (Z.to_nat (xmax bx - xmin bx)) (xmin bx) iy datat errort maskt st.

(** [for (iy=ymin; iy<ymax; iy++)]; [k] iterations left. *)
Fixpoint multi_rows (k : nat) (bx : box) (iy : Z) (st : mstate D)
  : option (mstate D) :=
  match k with
  | O => Some st
  | S k' => let* st := multi_row bx iy st in multi_rows k' bx (iy + 1) st
  end.
End MultiScan.

Section Multi.
Context {D : Type} {A : Arith D} {M : Macros D} {C : Converters D}.

(** [area[j] -= maskarea[j];] *)
Definition mask_ignore_body (j : Z) (o : accum D) : option (accum D) :=
  let* a := aget (o_area o) j in
  let* m := aget (o_maskarea o) j in
  let* area := aset (o_area o) j (a - m)%D in
  Some (Accum (o_sum o) (o_sumvar o) area (o_maskarea o)).

(** [tmp = area[j] == maskarea[j]? 0.0: area[j]/(area[j]-maskarea[j]);
    sum[j] *= tmp; sumvar[j] *= tmp;] *)
Definition mask_rescale_body (j : Z) (o : accum D) : option (accum D) :=
  let* a := aget (o_area o) j in
  let* m := aget (o_maskarea o) j in
  let tmp := if (a ==? m)%D then lit 0 1 else (a / (a - m))%D in
  let* s := aget (o_sum o) j in
  let* sum := aset (o_sum o) j (s * tmp)%D in
  let* v := aget (o_sumvar o) j in
  let* sumvar := aset (o_sumvar o) j (v * tmp)%D in
  Some (Accum sum sumvar (o_area o) (o_maskarea o)).

(** The block "correct for masked values", entered when [mask] is not
    [NULL]. *)
Definition correct_masked (inflag n : Z) (o : accum D) : option (accum D) :=
  if negb (Z.land inflag SEP_MASK_IGNORE =? 0)
  then down_loop (Z.to_nat n) mask_ignore_body o
  else down_loop (Z.to_nat n) mask_rescale_body o.

(** [if (sum[j] > 0.0) sumvar[j] += sum[j]/gain;] *)
Definition poisson_body (gain : D) (j : Z) (o : accum D) : option (accum D) :=
  let* s := aget (o_sum o) j in
  if (s >? lit 0 1)%D then
    let* sumvar := addto (o_sumvar o) j (s / gain)%D in
    Some (Accum (o_sum o) sumvar (o_area o) (o_maskarea o))
  else Some o.

(** What a call leaves behind: the returned status, the four output
    arrays, [*flag], and the accesses made into the pixel grids. *)
Record mresult : Type := MResult {
  r_status : status;
  r_out : accum D;
  r_flag : Z;
  r_log : list access
}.

(** [sep_sum_circann_multi]; [o] and [flag] are the contents of the output
    arrays and of [*flag] on entry. *)
Definition sep_sum_circann_multi
  (data : buffer) (error mask : option buffer)
  (dtype edtype mdtype w h : Z) (maskthresh gain : D) (inflag : Z)
  (x y rmax : D) (n subpix : Z) (o : accum D) (flag : Z) : option mresult :=
  (* input checks *)
  if (rmax <? lit 0 1)%D || (n <? 1) then Some (MResult ILLEGAL_APER_PARAMS o flag [])
  else if subpix <? 1 then Some (MResult ILLEGAL_SUBPIX o flag [])
  else
    (* clear results arrays *)
    let* sum := memset0 (o_sum o) n in
    let* sumvar := memset0 (o_sumvar o) n in
    let* area := memset0 (o_area o) n in
    let* maskarea :=
      match mask with
      | Some _ => memset0 (o_maskarea o) n
      | None => Some (o_maskarea o)
      end in
    let o := Accum sum sumvar area maskarea in
    (* initializations *)
    let flag := 0 in
    let varpix := lit 0 1 in
    let scale := (lit 1 1 / of_int subpix)%D in
    let scale2 := (scale * scale)%D in
    let offset := (lit 5 10 * (scale - lit 1 1))%D in
    let r_out := (rmax + lit 15 10)%D in
    let r_out2 := (r_out * r_out)%D in
    let step := (rmax / of_int n)%D in
    let stepdens := (lit 1 1 / step)%D in
    let prevbinmargin := lit 7072 10000 in
    let nextbinmargin := (step - lit 7072 10000)%D in
    (* get data converter(s) for input array(s) *)
    let '(status, convert, size) := get_converter dtype in
    if negb (is_ok status) then Some (MResult status o flag [])
    else
      let '(status, econvert, esize) :=
        match error with
        | Some _ => let '(s, c, z) := get_converter edtype in (s, Some c, z)
        | None => (status, None, 0)
        end in
      if negb (is_ok status) then Some (MResult status o flag [])
      else
        let '(status, mconvert, msize) :=
          match mask with
          | Some _ => let '(s, c, z) := get_converter mdtype in (s, Some c, z)
          | None => (status, None, 0)
          end in
        if negb (is_ok status) then Some (MResult status o flag [])
        else
          (* get options *)
          let errisarray :=
            match error with
            | Some _ => negb (Z.land inflag SEP_ERROR_IS_ARRAY =? 0)
            | None => false
            end in
          let errisstd := Z.land inflag SEP_ERROR_IS_VAR =? 0 in
          (* If error exists and is scalar, set the pixel variance now *)
          let* varpix :=
            match error with
            | Some _ =>
                if errisarray then Some varpix
                else
                  let* v := rd econvert error 0 in
                  Some (if errisstd then to_float (v * v)%D else v)
            | None => Some varpix
            end in
          (* get extent of box *)
          let* (bx, flag) := boxextent x y r_out r_out w h flag in
          (* loop over rows in the box *)
          let* st :=
            multi_rows data error mask convert econvert mconvert
                       size esize msize w h maskthresh x y n subpix
                       errisarray errisstd scale scale2 offset r_out2
                       step stepdens prevbinmargin nextbinmargin
                       (Z.to_nat (ymax bx - ymin bx)) bx (ymin bx)
                       (MState o flag varpix false []) in
          (* correct for masked values *)
          let* o :=
            match mask with
            | Some _ => correct_masked inflag n (m_out st)
            | None => Some (m_out st)
            end in
          (* add poisson noise, only if gain > 0 *)
          let* o :=
            if (gain >? lit 0 1)%D
            then down_loop (Z.to_nat n) (poisson_body gain) o
            else Some o in
          Some (MResult status o (m_flag st) (m_log st)).

(** The state in which the loop over the rows leaves a call of
    [sep_sum_circann_multi] that passed the input checks and whose
    converters resolved: the part of the function from "clear results
    arrays" to the end of the loop, before "correct for masked
    values". *)
Definition multi_scan
  (data : buffer) (error mask : option buffer)
  (dtype edtype mdtype w h : Z) (maskthresh : D) (inflag : Z)
  (x y rmax : D) (n subpix : Z) (o : accum D) : option (mstate D) :=
  (* clear results arrays *)
  let* sum := memset0 (o_sum o) n in
  let* sumvar := memset0 (o_sumvar o) n in
  let* area := memset0 (o_area o) n in
  let* maskarea :=
    match mask with
    | Some _ => memset0 (o_maskarea o) n
    | None => Some (o_maskarea o)
    end in
  let o := Accum sum sumvar area maskarea in
  (* initializations *)
  let flag := 0 in
  let varpix := lit 0 1 in
  let scale := (lit 1 1 / of_int subpix)%D in
  let scale2 := (scale * scale)%D in
  let offset := (lit 5 10 * (scale - lit 1 1))%D in
  let r_out := (rmax + lit 15 10)%D in
  let r_out2 := (r_out * r_out)%D in
  let step := (rmax / of_int n)%D in
  let stepdens := (lit 1 1 / step)%D in
  let prevbinmargin := lit 7072 10000 in
  let nextbinmargin := (step - lit 7072 10000)%D in
  (* the resolved converters *)
  let '(_, convert, size) := get_converter dtype in
  let '(econvert, esize) :=
    match error with
    | Some _ => let '(_, c, z) := get_converter edtype in (Some c, z)
    | None => (None, 0)
    end in
  let '(mconvert, msize) :=
    match mask with
    | Some _ => let '(_, c, z) := get_converter mdtype in (Some c, z)
    | None => (None, 0)
    end in
  (* get options *)
  let errisarray :=
    match error with
    | Some _ => negb (Z.land inflag SEP_ERROR_IS_ARRAY =? 0)
    | None => false
    end in
  let errisstd := Z.land inflag SEP_ERROR_IS_VAR =? 0 in
  (* If error exists and is scalar, set the pixel variance now *)
  let* varpix :=
    match error with
    | Some _ =>
        if errisarray then Some varpix
        else
          let* v := rd econvert error 0 in
          Some (if errisstd then to_float (v * v)%D else v)
    | None => Some varpix
    end in
  (* get extent of box *)
  let* (bx, flag) := boxextent x y r_out r_out w h flag in
  (* loop over rows in the box *)
  multi_rows data error mask convert econvert mconvert
             size esize msize w h maskthresh x y n subpix
             errisarray errisstd scale scale2 offset r_out2
             step stepdens prevbinmargin nextbinmargin
             (Z.to_nat (ymax bx - ymin bx)) bx (ymin bx)
             (MState o flag varpix false []).
End Multi.

(* ================================================================= *)
(** ** Kron radius: [sep_kron_radius] *)

(** Locals of [sep_kron_radius] that live across pixels. *)
Record kstate (D : Type) : Type := KState {
  k_r1 : D;
  k_v1 : D;
  k_area : D;
  k_flag : Z;
  k_log : list access
}.

Section KronScan.
Context {D : Type} {A : Arith D} {M : Macros D} {C : Converters D}.
Variables (data : buffer) (mask : option buffer).
Variables (convert : elem -> D) (mconvert : option (elem -> D)).
Variables (size msize : Z).
Variables (w h : Z) (maskthresh x y cxx cyy cxy r2 : D).

(** The body of the loop over the pixels of a row; [pix] is a [float].
    The test [(pix < -BIG) || (mask && mconvert(maskt) > maskthresh)]
    reads the mask only when its first operand is false. *)
Definition kron_pixel (ix iy datat maskt : Z) (st : kstate D)
  : option (kstate D) :=
  let dx := (of_int ix - x)%D in
  let dy := (of_int iy - y)%D in
  let rpix2 := (cxx * dx * dx + cyy * dy * dy + cxy * dx * dy)%D in
  if (rpix2 <=? r2)%D then
    let pix := converted convert (data datat) in
    let log := Access DATA iy ix datat :: k_log st in
    let* (bad, log) :=
      if (pix <? - BIG)%D then Some (true, log)
      else
        match mask with
        | Some _ =>
            let* m := rd mconvert mask maskt in
            Some ((m >? maskthresh)%D, Access MASK iy ix maskt :: log)
        | None => Some (false, log)
        end in
    if bad then
      Some (KState (k_r1 st) (k_v1 st) (k_area st)
                   (Z.lor (k_flag st) SEP_APER_HASMASKED) log)
    else
      Some (KState (k_r1 st + dsqrt rpix2 * pix)%D (k_v1 st + pix)%D
                   (k_area st + lit 1 1)%D (k_flag st) log)
  else Some st.

Fixpoint kron_pixels (k : nat) (ix iy datat maskt : Z) (st : kstate D)
  : option (kstate D) :=
  match k with
  | O => Some st
  | S k' =>
      let* st := kron_pixel ix iy datat maskt st in
      kron_pixels k' (ix + 1) iy (datat + size) (maskt + msize) st
  end.

(** The body of the loop over rows, with [(iy%h) * w + xmin] computed
    in [int] as in [multi_row]. *)
Definition kron_row (bx : box) (iy : Z) (st : kstate D) : option (kstate D) :=
  if h =? 0 then None
  else
    let* rowstart := int_val (Z.rem iy h * w) in
    let* pos := int_val (rowstart + xmin bx) in
    let datat := pos * size in
    let maskt := match mask with Some _ => pos * msize | None => 0 end in
    kron_pixels (Z.to_nat (xmax bx - xmin bx)) (xmin bx) iy datat maskt st.

Fixpoint kron_rows (k : nat) (bx : box) (iy : Z) (st : kstate D)
  : option (kstate D) :=
  match k with
  | O => Some st
  | S k' => let* st := kron_row bx iy st in kron_rows k' bx (iy + 1) st
  end.
End KronScan.

Section Kron.
Context {D : Type} {A : Arith D} {M : Macros D} {C : Converters D}.

(** What a call leaves behind: the returned status, [*kronrad], [*flag],
    and the accesses made into the pixel grids. *)
Record kresult : Type := KResult {
  kr_status : status;
  kr_kronrad : D;
  kr_flag : Z;
  kr_log : list access
}.

(** [sep_kron_radius]; [kronrad] is the content of [*kronrad] on entry. *)
Definition sep_kron_radius
  (data : buffer) (mask : option buffer) (dtype mdtype w h : Z)
  (maskthresh x y cxx cyy cxy r : D) (kronrad : D) : option kresult :=
  let r2 := (r * r)%D in
  let r1 := lit 0 1 in
  let v1 := lit 0 1 in
  let area := lit 0 1 in
  let flag := 0 in
  (* get data converter(s) for input array(s) *)
  let '(status, convert, size) := get_converter dtype in
  if negb (is_ok status) then Some (KResult status kronrad flag [])
  else
    let '(status, mconvert, msize) :=
      match mask with
      | Some _ => let '(s, c, z) := get_converter mdtype in (s, Some c, z)
      | None => (status, None, 0)
      end in
    if negb (is_ok status) then Some (KResult status kronrad flag [])
    else
      (* get extent of ellipse in x and y *)
      let* (bx, flag) := boxextent_ellipse x y cxx cyy cxy r w h flag in
      (* loop over rows in the box *)
      let* st :=
        kron_rows data mask convert mconvert size msize w h maskthresh
                  x y cxx cyy cxy r2
                  (Z.to_nat (ymax bx - ymin bx)) bx (ymin bx)
                  (KState r1 v1 area flag []) in
      if (k_area st ==? of_int 0)%D then
        Some (KResult RETURN_OK (lit 0 1)
                      (Z.lor (k_flag st) SEP_APER_ALLMASKED) (k_log st))
      else if ((k_r1 st <=? lit 0 1) || (k_v1 st <=? lit 0 1))%D then
        Some (KResult RETURN_OK (lit 0 1)
                      (Z.lor (k_flag st) SEP_APER_NONPOSITIVE) (k_log st))
      else
        Some (KResult RETURN_OK (k_r1 st / k_v1 st)%D (k_flag st) (k_log st)).
End Kron.

(* ================================================================= *)
(** ** Ellipse rasterizer: [sep_set_ellipse] *)

Section SetEllipse.
Context {D : Type} {A : Arith D} {M : Macros D}.
Variables (w h : Z) (x y cxx cyy cxy r2 : D) (val : Z).

(** [for (xi=xmin; xi<xmax; xi++, arrt++)]; the state is the byte array
    and the accesses made so far. *)
Fixpoint set_pixels (k : nat) (xi yi arrt : Z) (dy dy2 : D)
         (st : list Z * list access) : option (list Z * list access) :=
  match k with
  | O => Some st
  | S k' =>
      let dx := (of_int xi - x)%D in
      let* st :=
        if (cxx * dx * dx + cyy * dy2 + cxy * dx * dy <=? r2)%D then
          let* arr := aset (fst st) arrt val in
          Some (arr, Access ARR yi xi arrt :: snd st)
        else Some st in
      set_pixels k' (xi + 1) yi (arrt + 1) dy dy2 st
  end.

(** The body of the loop over rows: the offset [yi*w + xmin] is
    computed in [int], with no [%]. *)
Definition set_row (bx : box) (yi : Z) (st : list Z * list access)
  : option (list Z * list access) :=
  let* rowstart := int_val (yi * w) in
  let* arrt := int_val (rowstart + xmin bx) in
  let dy := (of_int yi - y)%D in
  let dy2 := (dy * dy)%D in
  set_pixels (Z.to_nat (xmax bx - xmin bx)) (xmin bx) yi arrt dy dy2 st.

Fixpoint set_rows (k : nat) (bx : box) (yi : Z) (st : list Z * list access)
  : option (list Z * list access) :=
  match k with
  | O => Some st
  | S k' => let* st := set_row bx yi st in set_rows k' bx (yi + 1) st
  end.
End SetEllipse.

(** [sep_set_ellipse]: the array [arr] after the call, and the writes
    made into it. *)
Definition sep_set_ellipse {D : Type} {A : Arith D} {M : Macros D}
  (arr : list Z) (w h : Z) (x y cxx cyy cxy r : D) (val : Z)
  : option (list Z * list access) :=
  let flag := 0 in
  let r2 := (r * r)%D in
  let* (bx, flag) := boxextent_ellipse x y cxx cyy cxy r w h flag in
  set_rows w x y cxx cyy cxy r2 val
           (Z.to_nat (ymax bx - ymin bx)) bx (ymin bx) (arr, []).

(* ================================================================= *)
(** ** Concrete parameters for evaluation *)

(** Flag bits as in SEP's public header, and [BIG = 1e30]; only used to
    run the functions on concrete inputs. *)
#[export] Instance Macros64 : Macros PrimFloat.float := {
  SEP_ERROR_IS_VAR := 1;
  SEP_ERROR_IS_ARRAY := 2;
  SEP_MASK_IGNORE := 4;
  SEP_APER_TRUNC := 16;
  SEP_APER_HASMASKED := 32;
  SEP_APER_ALLMASKED := 64;
  SEP_APER_NONPOSITIVE := 128;
  BIG := F64.lit (10 ^ 30) 1
}.

#[export] Instance MacrosR : Macros R := {
  SEP_ERROR_IS_VAR := 1;
  SEP_ERROR_IS_ARRAY := 2;
  SEP_MASK_IGNORE := 4;
  SEP_APER_TRUNC := 16;
  SEP_APER_HASMASKED := 32;
  SEP_APER_ALLMASKED := 64;
  SEP_APER_NONPOSITIVE := 128;
  BIG := IZR (10 ^ 30)
}.

(** A converter table with one supported encoding, tag 82, whose
    elements are 8-byte doubles: the decoding is the stored double, which
    the call of the converter narrows to [float] ([converted]). *)
Definition one_converter {D : Type} (t : Z) : status * (D -> D) * Z :=
  if t =? 82 then (RETURN_OK, fun e => e, 8) else (ILLEGAL_DTYPE, fun e => e, 0).

#[export] Instance Converters64 : Converters PrimFloat.float := {
  elem := PrimFloat.float;
  get_converter := one_converter
}.

#[export] Instance ConvertersR : Converters R := {
  elem := R;
  get_converter := one_converter
}.

(** A double written as a decimal fraction. *)
Definition f64 (n : Z) (d : positive) : PrimFloat.float := F64.lit n d.

(* ================================================================= *)
(** ** Specification-side definitions *)

Section PpfSpec.
Context {D : Type} {A : Arith D}.

(** The sum of the first [k] bins, added in index order from [0.0]. *)
Definition ppf_cum (y : list D) (k : nat) : D :=
  fold_left add (firstn k y) (lit 0 1).

(** "The cumulative sum of [k] bins reaches the target": the negation of
    the loop test [cumsum < targsum]. *)
Definition ppf_reaches (y : list D) (targsum : D) (k : nat) : bool :=
  negb (ppf_cum y k <? targsum)%D.

(** The interpolated radius at a count [i] of bins. *)
Definition ppf_interp (xmax : D) (y : list D) (targsum : D) (i : nat) : D :=
  (xmax / of_int (Z.of_nat (length y))
   * (of_int (Z.of_nat i)
      + (targsum - ppf_cum y i) / yget y (Z.of_nat i - 1)))%D.

(** The percentile radius as the code computes it: the smallest count
    is searched among the counts [0 .. n-1]; when none of them reaches
    the target the result is [xmax]. *)
Definition ppf_spec (xmax : D) (y : list D) (frac : D) : D :=
  let n := length y in
  let targsum := (frac * ppf_cum y n)%D in
  match find (ppf_reaches y targsum) (seq 0 n) with
  | Some O => lit 0 1
  | Some i => ppf_interp xmax y targsum i
  | None => xmax
  end.

(** The percentile radius as the specification words it: the smallest
    count is searched among all prefixes, [0 .. n]; [xmax] only when no
    prefix reaches the target. *)
Definition ppf_claimed (xmax : D) (y : list D) (frac : D) : D :=
  let n := length y in
  let targsum := (frac * ppf_cum y n)%D in
  match find (ppf_reaches y targsum) (seq 0 (S n)) with
  | Some O => lit 0 1
  | Some i => ppf_interp xmax y targsum i
  | None => xmax
  end.
End PpfSpec.

Section BoxSpec.
Context {D : Type} {A : Arith D}.

(** The four casts of [boxextent], before any clamping. *)
Definition box_casts (x y rx ry : D) : option (Z * Z * Z * Z) :=
  let* a := to_int (x - rx + lit 5 10)%D in
  let* b := to_int (x + rx + lit 14999999 10000000)%D in
  let* c := to_int (y - ry + lit 5 10)%D in
  let* d := to_int (y + ry + lit 14999999 10000000)%D in
  Some (a, b, c, d).
End BoxSpec.

(** The position angle computed by [sep_ellipse_axes], in exact
    arithmetic, as a function of the three coefficients. *)
Definition axes_theta (cxx cyy cxy : R) : R :=
  let q := (cxx - cyy)%R in
  let theta :=
    if RA.eqb cxy 0 then 0%R
    else ((if RA.eqb q 0 then 0 else atan (cxy / q)) / 2)%R in
  let theta := if RA.ltb cyy cxx then (theta + Rtrigo1.PI / 2)%R else theta in
  if RA.ltb (Rtrigo1.PI / 2) theta then (theta - Rtrigo1.PI)%R else theta.

Section MaskSpec.
Context {D : Type} {A : Arith D}.

(** The factor [tmp] of the rescale policy. *)
Definition rescale_factor (a m : D) : D :=
  if (a ==? m)%D then lit 0 1 else (a / (a - m))%D.

(** The variance of a bin after "add poisson noise", from its sum [s]
    and its variance [v] before: [s / gain] is added when [gain > 0] and
    [s > 0]. *)
Definition with_noise (gain s v : D) : D :=
  if (gain >? lit 0 1)%D && (s >? lit 0 1)%D then (v + s / gain)%D else v.

(** All four arrays have at least [n] entries. *)
Definition holds (n : Z) (o : accum D) : Prop :=
  n <= Z.of_nat (length (o_sum o)) /\ n <= Z.of_nat (length (o_sumvar o))
  /\ n <= Z.of_nat (length (o_area o)) /\ n <= Z.of_nat (length (o_maskarea o)).

(** What the loop of the [SEP_MASK_IGNORE] policy leaves in bin [j], from
    what it found there. *)
Definition ignored (o o' : accum D) (j : Z) : Prop :=
  forall a m, aget (o_area o) j = Some a -> aget (o_maskarea o) j = Some m ->
    aget (o_area o') j = Some (a - m)%D.

(** What the loop of the rescale policy leaves in bin [j], from what it found there. *)
Definition rescaled (o o' : accum D) (j : Z) : Prop :=
  forall s v a m,
    aget (o_sum o) j = Some s -> aget (o_sumvar o) j = Some v ->
    aget (o_area o) j = Some a -> aget (o_maskarea o) j = Some m ->
    aget (o_sum o') j = Some (s * rescale_factor a m)%D
    /\ aget (o_sumvar o') j = Some (v * rescale_factor a m)%D.

End MaskSpec.

Section FailSpec.
Context {D : Type} {A : Arith D} {C : Converters D}.

(** An array whose first [n] entries were set to [0.0]. *)
Definition zeroed (n : Z) (l : list D) : list D :=
  repeat (lit 0 1) (Z.to_nat n) ++ skipn (Z.to_nat n) l.

(** The output arrays after "clear results arrays": [maskarea] is
    cleared only under [if (mask)]. *)
Definition cleared (mask : option buffer) (n : Z) (o : accum D) : accum D :=
  Accum (zeroed n (o_sum o)) (zeroed n (o_sumvar o)) (zeroed n (o_area o))
        (match mask with
         | Some _ => zeroed n (o_maskarea o)
         | None => o_maskarea o
         end).

(** The output arrays as the specification words them after a converter
    failure: all four cleared. *)
Definition cleared_claimed (n : Z) (o : accum D) : accum D :=
  Accum (zeroed n (o_sum o)) (zeroed n (o_sumvar o)) (zeroed n (o_area o))
        (zeroed n (o_maskarea o)).

(** The arrays that the clearing touches hold [n] entries. *)
Definition clearable (mask : option buffer) (n : Z) (o : accum D) : Prop :=
  n <= Z.of_nat (length (o_sum o)) /\ n <= Z.of_nat (length (o_sumvar o))
  /\ n <= Z.of_nat (length (o_area o))
  /\ match mask with
     | Some _ => n <= Z.of_nat (length (o_maskarea o))
     | None => True
     end.

(** The status of "get data converter(s) for input array(s)": the first
    failure among the data converter, the error converter when [error]
    is not [NULL], the mask converter when [mask] is not [NULL]. *)
Definition converter_status (error mask : option buffer) (dtype edtype mdtype : Z)
  : status :=
  let s := fst (fst (get_converter dtype)) in
  if negb (is_ok s) then s
  else
    let s := match error with
             | Some _ => fst (fst (get_converter edtype))
             | None => s
             end in
    if negb (is_ok s) then s
    else match mask with
         | Some _ => fst (fst (get_converter mdtype))
         | None => s
         end.
End FailSpec.

(** A buffer of 8-byte doubles that holds the value 1 everywhere. *)
Definition flat_image : @buffer PrimFloat.float Converters64 := fun _ => f64 1 1.

(** A mask buffer of doubles that holds 1 in the element at byte offset
    32, the middle pixel of a 3 x 3 grid, and 0 elsewhere. *)
Definition middle_mask : @buffer PrimFloat.float Converters64 :=
  fun off => if off =? 32 then f64 1 1 else f64 0 1.

(** An access into a grid of [w] columns and [h] rows: it is made for a
    pixel of the grid, at the row-major offset of that pixel, in units
    of the element size of its grid. *)
Definition row_major (w h : Z) (size : grid -> Z) (a : access) : Prop :=
  0 <= a_ix a < w /\ 0 <= a_iy a < h
  /\ a_ptr a = (a_iy a * w + a_ix a) * size (a_grid a).

(** Windowed addressing as the specification words it.  The access for
    the logical pixel [p] of grid [g] is made in the physical row
    [iy mod h]; a scan addresses a wrapped window when it makes that
    access for every pixel, of whatever logical row, that lies in the
    columns of the grid and passes its geometric test. *)
Definition wrapped_access (w h size : Z) (g : grid) (p : Z * Z) : access :=
  Access g (snd p) (fst p) ((snd p mod h * w + fst p) * size).

(** The test [rpix2 < r_out2] of the multi-annulus scan, for the pixel
    [p]. *)
Definition multi_hit {D : Type} {A : Arith D} (x y r_out2 : D) (p : Z * Z)
  : bool :=
  let dx := (of_int (fst p) - x)%D in
  let dy := (of_int (snd p) - y)%D in
  (dx * dx + dy * dy <? r_out2)%D.

Definition addresses_wrapped (w h size : Z) (g : grid) (test : Z * Z -> bool)
  (log : list access) : Prop :=
  forall p, 0 <= fst p < w -> test p = true ->
    In (wrapped_access w h size g p) log.

(** Element sizes of the grids of a scan, from the resolved converters. *)
Definition grid_size {D : Type} {C : Converters D} (dtype edtype mdtype : Z)
  (g : grid) : Z :=
  match g with
  | DATA => snd (get_converter dtype)
  | ERROR => snd (get_converter edtype)
  | MASK => snd (get_converter mdtype)
  | ARR => 1
  end.

(** *** Pixels of a box and the sums of [sep_kron_radius] *)

(** The integers [a, a+1, ..., b-1]. *)
Definition zrange (a b : Z) : list Z :=
  map (fun i => a + Z.of_nat i) (seq 0 (Z.to_nat (b - a))).

(** The pixels [(ix, iy)] of a box, in scan order: rows from [ymin],
    columns from [xmin] within a row. *)
Definition box_pixels (bx : box) : list (Z * Z) :=
  flat_map (fun iy => map (fun ix => (ix, iy)) (zrange (xmin bx) (xmax bx)))
           (zrange (ymin bx) (ymax bx)).

Section KronSpec.
Context {D : Type} {A : Arith D} {M : Macros D} {C : Converters D}.
Variables (data : buffer) (mask : option buffer).
Variables (convert : elem -> D) (mconvert : option (elem -> D)).
Variables (size msize : Z).
Variables (w h : Z) (maskthresh x y cxx cyy cxy r2 : D).

(** The value of pixel [(ix, iy)], read in row [iy mod h] of the window. *)
Definition pix_at (p : Z * Z) : D :=
  converted convert (data ((snd p mod h * w + fst p) * size)).

(** The quadratic-form radius squared of the pixel center. *)
Definition rpix2_at (p : Z * Z) : D :=
  let dx := (of_int (fst p) - x)%D in
  let dy := (of_int (snd p) - y)%D in
  (cxx * dx * dx + cyy * dy * dy + cxy * dx * dy)%D.

Definition in_ellipse (p : Z * Z) : bool := (rpix2_at p <=? r2)%D.

(** A pixel is masked when a mask is supplied and its mask value
    exceeds the threshold. *)
Definition masked_at (p : Z * Z) : bool :=
  match mask, mconvert with
  | Some m, Some c =>
      let v := converted c (m ((snd p mod h * w + fst p) * msize)) in
      (v >? maskthresh)%D
  | _, _ => false
  end.

(** A pixel counts when it is in the ellipse, not below the bad-pixel
    floor [-BIG], and not masked. *)
Definition usable (p : Z * Z) : bool :=
  in_ellipse p && negb (pix_at p <? - BIG)%D && negb (masked_at p).

(** A pixel of the ellipse that does not count. *)
Definition unusable (p : Z * Z) : bool := in_ellipse p && negb (usable p).

(** The three sums over a list of pixels, accumulated in list order from
    given initial values: radius times value, value, and the count. *)
Definition kron_sums (l : list (Z * Z)) (s : D * D * D) : D * D * D :=
  fold_left
    (fun (s : D * D * D) p =>
       let '(r1, v1, area) := s in
       (r1 + dsqrt (rpix2_at p) * pix_at p, v1 + pix_at p, area + lit 1 1)%D)
    l s.

(** The accumulators and the flag after a list of pixels, from those
    before it. *)
Definition kron_after (l : list (Z * Z)) (c : D * D * D * Z) : D * D * D * Z :=
  (kron_sums (filter usable l) (fst c),
   if existsb unusable l then Z.lor (snd c) SEP_APER_HASMASKED else snd c).

(** The accumulators and the flag of a scan state. *)
Definition k_core (st : kstate D) : D * D * D * Z :=
  (k_r1 st, k_v1 st, k_area st, k_flag st).
End KronSpec.

(** The pixels [ix, ix+1, ..., ix+k-1] of row [iy]. *)
Definition row_from (ix iy : Z) (k : nat) : list (Z * Z) :=
  map (fun i => (ix + Z.of_nat i, iy)) (seq 0 k).

(** The pixels of rows [iy, ..., iy+k-1] of a box, in scan order. *)
Definition rows_from (bx : box) (iy : Z) (k : nat) : list (Z * Z) :=
  flat_map (fun iy => map (fun ix => (ix, iy)) (zrange (xmin bx) (xmax bx)))
           (map (fun i => iy + Z.of_nat i) (seq 0 k)).

(** ** The contribution of one pixel to the radial bins, as specified *)

(** Sequencing a step over a list, stopping at the first undefined one. *)
Fixpoint fold_opt {S T : Type} (f : T -> S -> option S) (l : list T) (s : S)
  : option S :=
  match l with
  | [] => Some s
  | a :: l' => let* s := f a s in fold_opt f l' s
  end.

Section ContributionSpec.
Variables (n subpix : Z) (rmax : R) (pix varpix : R) (ismasked : bool).

(** The bin of a radius: [floor (r / (rmax/n))]. *)
Definition bin_index (r : R) : Z := Zfloor (r / (rmax / IZR n)).

(** A point sample of weight [wgt] at offset [(cx, cy)] from the
    center: when its bin index is below [n], the weight goes to the
    area of the bin, and to its mask area if the pixel is masked, else
    the weighted value and variance go to its sum and variance sum. *)
Definition sample (wgt : R) (c : R * R) (o : accum R) : option (accum R) :=
  deposit n ismasked
          (bin_index (sqrt (fst c * fst c + snd c * snd c)))
          wgt (wgt * pix)%R (wgt * varpix)%R wgt o.

(** Centers of the [subpix * subpix] sub-cells of the unit pixel centered
    at [(dx, dy)], row by row. *)
Definition subcell_centers (dx dy : R) : list (R * R) :=
  flat_map
    (fun ky =>
       map (fun kx => ((dx - 1 / 2 + (IZR kx + 1 / 2) / IZR subpix)%R,
                       (dy - 1 / 2 + (IZR ky + 1 / 2) / IZR subpix)%R))
           (zrange 0 subpix))
    (zrange 0 subpix).

(** Modelled from the specification: the contribution of a pixel whose
    center is at offset [(dx, dy)] from the aperture center.  With
    [d = fmod (rpix, rmax/n)] in [[0.7072, rmax/n - 0.7072]] the whole
    pixel is one sample of weight 1 at its center; otherwise each of its
    sub-cells is a sample of weight [1/subpix^2] at the sub-cell center. *)
Definition claimed_contribution (dx dy : R) (o : accum R) : option (accum R) :=
  let step := (rmax / IZR n)%R in
  let rpix := sqrt (dx * dx + dy * dy) in
  let d := RA.fmod rpix step in
  if RA.leb (7072 / 10000) d && RA.leb d (step - 7072 / 10000)
  then sample 1 (dx, dy) o
  else fold_opt (sample (1 / (IZR subpix * IZR subpix))) (subcell_centers dx dy) o.
End ContributionSpec.

(* ================================================================= *)
(** ** Oversampling bands *)

Section Oversamp.
Context {D : Type} {A : Arith D}.

(** [oversamp_ann_circle]: the pair [(r_in2, r_out2)] it writes. *)
Definition oversamp_ann_circle (r : D) : D * D :=
  let r_in2 := (r - lit 7072 10000)%D in
  let r_in2 := if (r_in2 >? lit 0 1)%D then (r_in2 * r_in2)%D else lit 0 1 in
  let r_out2 := (r + lit 7072 10000)%D in
  let r_out2 := (r_out2 * r_out2)%D in
  (r_in2, r_out2).

(** [oversamp_ann_ellipse]: the pair [(r_in2, r_out2)] it writes. *)
Definition oversamp_ann_ellipse (r b : D) : D * D :=
  let r_in2 := (r - lit 7072 10000 / b)%D in
  let r_in2 := if (r_in2 >? lit 0 1)%D then (r_in2 * r_in2)%D else lit 0 1 in
  let r_out2 := (r + lit 7072 10000 / b)%D in
  let r_out2 := (r_out2 * r_out2)%D in
  (r_in2, r_out2).
End Oversamp.

(* ================================================================= *)
(** ** The cumulative profile behind [sep_ppf] *)

(** The cumulative sum of a profile of equal-width bins out to [xmax],
    made continuous by spreading each bin evenly over its width: at the
    radius [r], in bin [k = floor (r / step)], it is the sum of the bins
    before [k] plus the part [r / step - k] of bin [k]. *)
Definition ppf_profile (xmax : R) (y : list R) (r : R) : R :=
  let step := (xmax / IZR (Z.of_nat (length y)))%R in
  let k := Zfloor (r / step) in
  (ppf_cum y (Z.to_nat k) + (r / step - IZR k) * yget y k)%R.

(* ================================================================= *)
(** ** What [sep_set_ellipse] does to one pixel *)

Section SetSpec.
Context {D : Type} {A : Arith D}.
Variables (w : Z) (x y cxx cyy cxy r2 : D) (val : Z).

(** The test of the inner loop for the pixel [(xi, yi)]. *)
Definition set_hit (p : Z * Z) : bool :=
  let dx := (of_int (fst p) - x)%D in
  let dy := (of_int (snd p) - y)%D in
  (cxx * dx * dx + cyy * (dy * dy) + cxy * dx * dy <=? r2)%D.

(** The write of the inner loop for the pixel [(xi, yi)], at the offset
    [yi * w + xi]. *)
Definition paint (p : Z * Z) (arr : list Z) : option (list Z) :=
  if set_hit p then aset arr (snd p * w + fst p) val else Some arr.

(** Some pixel of [l] that passes the test is stored at offset [k]. *)
Definition painted (l : list (Z * Z)) (k : Z) : bool :=
  existsb (fun p => set_hit p && (snd p * w + fst p =? k)) l.
End SetSpec.

(* ================================================================= *)
(** ** The shape of the output arrays *)

(** The four arrays of [o'] are as long as those of [o]. *)
Definition same_shape {D : Type} (o o' : accum D) : Prop :=
  length (o_sum o') = length (o_sum o)
  /\ length (o_sumvar o') = length (o_sumvar o)
  /\ length (o_area o') = length (o_area o)
  /\ length (o_maskarea o') = length (o_maskarea o).

(** What a step on the output arrays keeps: their lengths, and
    [maskarea] itself when the pixel is not masked. *)
Definition keeps {D : Type} (ismasked : bool) (o o' : accum D) : Prop :=
  same_shape o o' /\ (ismasked = false -> o_maskarea o' = o_maskarea o).

(** What the scan keeps of its state: the lengths of the arrays, and
    without a mask: the pixel state "not masked", [maskarea], and the
    flag. *)
Definition scan_keeps {D : Type} {T : Type} (mask : option T) (st st' : mstate D)
  : Prop :=
  same_shape (m_out st) (m_out st')
  /\ (mask = None -> m_ismasked st = false ->
      m_ismasked st' = false
      /\ o_maskarea (m_out st') = o_maskarea (m_out st)
      /\ m_flag st' = m_flag st).

(* ================================================================= *)
(** ** Flux radius: [sep_flux_radius] *)

Definition FLUX_RADIUS_BUFSIZE : Z := 64.

Section FluxRadius.
Context {D : Type} {A : Arith D} {M : Macros D} {C : Converters D}.

(** What a call leaves behind: the returned status, the radii written
    to [r[0 .. n-1]], [*flag], and the accesses made into the pixel
    grids. *)
Record fresult : Type := FResult {
  f_status : status;
  f_r : list D;
  f_flag : Z;
  f_log : list access
}.

(** [sep_flux_radius].  Of its four automatic arrays only [sumbuf] has an
    initializer ([{0.}]: every entry is zero); the contents of the other
    three on entry are indeterminate and are taken from [stack].  The
    status of the sum is returned after [sep_ppf] has run, whatever it
    is. *)
Definition sep_flux_radius
  (stack : Z -> D)
  (data : buffer) (error mask : option buffer)
  (dtype edtype mdtype w h : Z) (maskthresh gain : D) (inflag : Z)
  (x y rmax : D) (subpix : Z) (fluxfrac : list D) (n : Z) (flag : Z)
  : option fresult :=
  let sumbuf := repeat (lit 0 1) (Z.to_nat FLUX_RADIUS_BUFSIZE) in
  let sumvarbuf := map stack (zrange 0 FLUX_RADIUS_BUFSIZE) in
  let areabuf :=
    map stack (zrange FLUX_RADIUS_BUFSIZE (2 * FLUX_RADIUS_BUFSIZE)) in
  let maskareabuf :=
    map stack (zrange (2 * FLUX_RADIUS_BUFSIZE) (3 * FLUX_RADIUS_BUFSIZE)) in
  (* measure FLUX_RADIUS_BUFSIZE annuli out to rmax. *)
  let* res :=
    sep_sum_circann_multi data error mask dtype edtype mdtype w h
                          maskthresh gain inflag x y rmax
                          FLUX_RADIUS_BUFSIZE subpix
                          (Accum sumbuf sumvarbuf areabuf maskareabuf) flag in
  (* Use ppf to get the radii corresponding to the requested flux fracs *)
  let r := sep_ppf rmax (o_sum (r_out res)) FLUX_RADIUS_BUFSIZE fluxfrac n in
  Some (FResult (r_status res) r (r_flag res) (r_log res)).
End FluxRadius.

Section ChecksSpec.
Context {D : Type} {A : Arith D} {C : Converters D}.

(** The status of the first check of [sep_sum_circann_multi] that
    fails, [RETURN_OK] when none does. *)
Definition first_failure (rmax : D) (n subpix : Z) (error mask : option buffer)
           (dtype edtype mdtype : Z) : status :=
  if (rmax <? lit 0 1)%D || (n <? 1) then ILLEGAL_APER_PARAMS
  else if subpix <? 1 then ILLEGAL_SUBPIX
  else converter_status error mask dtype edtype mdtype.
End ChecksSpec.

(* ================================================================= *)
(** ** Sums over an image of constant value *)

(** In each of the first [n] bins the sum is [c] times the area. *)
Definition proportional (c : R) (n : Z) (o : accum R) : Prop :=
  forall (j : Z) (s a : R), 0 <= j < n ->
    aget (o_sum o) j = Some s -> aget (o_area o) j = Some a -> s = (c * a)%R.

(* ================================================================= *)
(** * Properties *)

Unset Implicit Arguments.

(** ** Comparisons and truncation on the reals *)

Module RFacts.
Open Scope R_scope.

Lemma ltb_true (x y : R) : x < y -> RA.ltb x y = true.
Proof. intros H. unfold RA.ltb. destruct (Rlt_dec x y); [reflexivity | contradiction]. Qed.

Lemma ltb_false (x y : R) : y <= x -> RA.ltb x y = false.
Proof. intros H. unfold RA.ltb. destruct (Rlt_dec x y); [lra | reflexivity]. Qed.

Lemma leb_true (x y : R) : x <= y -> RA.leb x y = true.
Proof. intros H. unfold RA.leb. destruct (Rle_dec x y); [reflexivity | contradiction]. Qed.

Lemma leb_false (x y : R) : y < x -> RA.leb x y = false.
Proof. intros H. unfold RA.leb. destruct (Rle_dec x y); [lra | reflexivity]. Qed.

Lemma eqb_true (x y : R) : x = y -> RA.eqb x y = true.
Proof. intros H. unfold RA.eqb. destruct (Req_dec_T x y); [reflexivity | contradiction]. Qed.

Lemma eqb_false (x y : R) : x <> y -> RA.eqb x y = false.
Proof. intros H. unfold RA.eqb. destruct (Req_dec_T x y); [contradiction | reflexivity]. Qed.

Lemma ltb_iff (x y : R) : RA.ltb x y = true <-> x < y.
Proof. unfold RA.ltb. destruct (Rlt_dec x y); split; intros; try easy. Qed.

Lemma leb_iff (x y : R) : RA.leb x y = true <-> x <= y.
Proof. unfold RA.leb. destruct (Rle_dec x y); split; intros; try easy. Qed.

Lemma eqb_iff (x y : R) : RA.eqb x y = true <-> x = y.
Proof. unfold RA.eqb. destruct (Req_dec_T x y); split; intros; try easy. Qed.

Lemma ltb_false_iff (x y : R) : RA.ltb x y = false <-> y <= x.
Proof.
  unfold RA.ltb. destruct (Rlt_dec x y); split; intros; try easy; lra.
Qed.

Lemma leb_false_iff (x y : R) : RA.leb x y = false <-> y < x.
Proof.
  unfold RA.leb. destruct (Rle_dec x y); split; intros; try easy; lra.
Qed.

(** Truncation of a non-negative real is its floor. *)
Lemma trunc_nonneg (x : R) : 0 <= x -> RA.trunc x = Zfloor x.
Proof. intros H. unfold RA.trunc. destruct (Rle_dec 0 x); [reflexivity | contradiction]. Qed.

Lemma trunc_eq_nonneg (x : R) (z : Z) :
  0 <= x -> IZR z <= x < IZR z + 1 -> RA.trunc x = z.
Proof. intros H0 H. rewrite trunc_nonneg by assumption. now apply Zfloor_eq. Qed.

Lemma trunc_eq_neg (x : R) (z : Z) :
  x < 0 -> IZR z - 1 < x <= IZR z -> RA.trunc x = z.
Proof.
  intros H0 H. unfold RA.trunc. destruct (Rle_dec 0 x); [lra|]. now apply Zceil_eq.
Qed.

(** The cast of a real whose truncation fits an [int]. *)
Lemma to_int_eq (x : R) (z : Z) :
  RA.trunc x = z -> (- 2 ^ 31 <= z < 2 ^ 31)%Z -> RA.to_int x = Some z.
Proof.
  intros <- H. unfold RA.to_int. cbv zeta.
  destruct (Z.leb_spec (- 2 ^ 31) (RA.trunc x)); [|lia].
  destruct (Z.ltb_spec (RA.trunc x) (2 ^ 31)); [reflexivity | lia].
Qed.

Lemma to_int_some (x : R) (z : Z) :
  RA.to_int x = Some z -> RA.trunc x = z /\ (- 2 ^ 31 <= z < 2 ^ 31)%Z.
Proof.
  unfold RA.to_int. cbv zeta.
  destruct (Z.leb_spec (- 2 ^ 31) (RA.trunc x));
    destruct (Z.ltb_spec (RA.trunc x) (2 ^ 31)); cbn [andb]; try discriminate.
  intros E. injection E as <-. split; [reflexivity | lia].
Qed.
End RFacts.

(** ** Operations on [int] *)

Lemma int_val_some (z v : Z) :
  int_val z = Some v -> v = z /\ INT_MIN <= z <= INT_MAX.
Proof.
  unfold int_val.
  destruct (Z.leb_spec INT_MIN z); destruct (Z.leb_spec z INT_MAX);
    cbn [andb]; try discriminate.
  intros E. injection E as <-. split; [reflexivity | lia].
Qed.

Lemma int_val_eq (z : Z) : INT_MIN <= z <= INT_MAX -> int_val z = Some z.
Proof.
  intros H. unfold int_val.
  destruct (Z.leb_spec INT_MIN z); [|lia].
  destruct (Z.leb_spec z INT_MAX); [reflexivity | lia].
Qed.

(** Decide the comparisons of a goal on the reals by linear arithmetic. *)
Ltac rbool :=
  repeat first
    [ rewrite RFacts.ltb_true by lra
    | rewrite RFacts.ltb_false by lra
    | rewrite RFacts.leb_true by lra
    | rewrite RFacts.leb_false by lra
    | rewrite RFacts.eqb_true by lra
    | rewrite RFacts.eqb_false by lra ].

(* ================================================================= *)
(** ** [sep_ppf]: the scan and the interpolation *)

Section PpfProps.
Context {D : Type} {A : Arith D}.

Lemma fold_left_firstn_S (y : list D) (d : D) :
  forall (k : nat) (c : D), (k < length y)%nat ->
  fold_left add (firstn (S k) y) c = (fold_left add (firstn k y) c + nth k y d)%D.
Proof.
  induction y as [|a y IH]; intros k c Hk; simpl in Hk; [lia|].
  destruct k as [|k]; [reflexivity|].
  cbn [firstn fold_left nth]. apply IH. lia.
Qed.

(** One more bin in the prefix sum is one more iteration of the loop. *)
Lemma ppf_cum_S (y : list D) (k : nat) :
  (k < length y)%nat ->
  ppf_cum y (S k) = (ppf_cum y k + yget y (Z.of_nat k))%D.
Proof.
  intros Hk. unfold ppf_cum, yget. rewrite Nat2Z.id.
  now apply fold_left_firstn_S.
Qed.

Lemma ppf_sum_cum (y : list D) :
  ppf_sum y (Z.of_nat (length y)) = ppf_cum y (length y).
Proof. unfold ppf_sum, ppf_cum. now rewrite Nat2Z.id. Qed.

(** [find] over a range returns the first hit. *)
Lemma find_seq_first (f : nat -> bool) :
  forall (k i j : nat), find f (seq i k) = Some j ->
  (i <= j < i + k)%nat /\ f j = true /\ forall m, (i <= m < j)%nat -> f m = false.
Proof.
  induction k as [|k IH]; intros i j H; simpl in H; [discriminate|].
  destruct (f i) eqn:Hf.
  - injection H as <-. split; [lia|]. split; [assumption|]. intros m Hm. lia.
  - apply IH in H. destruct H as (Hr & Hj & Hm).
    split; [lia|]. split; [assumption|].
    intros m Hm'. destruct (Nat.eq_dec m i) as [->|Hne]; [assumption|].
    apply Hm. lia.
Qed.

Lemma find_seq_none (f : nat -> bool) :
  forall (k i : nat), find f (seq i k) = None ->
  forall m, (i <= m < i + k)%nat -> f m = false.
Proof.
  intros k i H m Hm. apply (find_none f (seq i k) H). apply in_seq. lia.
Qed.

(** The [while] loop of [sep_ppf], started in the state reached after [i]
    iterations, stops at the first count that reaches the target, or at
    the end of its [k] further iterations. *)
Lemma ppf_while_find (y : list D) (targsum : D) :
  forall (k i : nat), (i + k <= length y)%nat ->
  ppf_while k y (Z.of_nat (length y)) targsum (Z.of_nat i) (ppf_cum y i)
  = match find (ppf_reaches y targsum) (seq i k) with
    | Some j => (Z.of_nat j, ppf_cum y j)
    | None => (Z.of_nat (i + k), ppf_cum y (i + k))
    end.
Proof.
  induction k as [|k IH]; intros i Hik.
  - simpl. now rewrite Nat.add_0_r.
  - cbn [ppf_while seq find]. unfold ppf_reaches at 1.
    replace (Z.of_nat i <? Z.of_nat (length y)) with true
      by (symmetry; apply Z.ltb_lt; lia).
    destruct (ppf_cum y i <? targsum)%D; cbn [andb negb]; [|reflexivity].
    rewrite <- ppf_cum_S by lia.
    replace (Z.of_nat i + 1) with (Z.of_nat (S i)) by lia.
    rewrite IH by lia. now replace (S i + k)%nat with (i + S k)%nat by lia.
Qed.

(** The body of the loop over fractions computes [ppf_spec]. *)
Lemma ppf_one_spec (xmax : D) (y : list D) (frac : D) :
  y <> [] ->
  ppf_one xmax y (Z.of_nat (length y)) (ppf_sum y (Z.of_nat (length y))) frac
  = ppf_spec xmax y frac.
Proof.
  intros Hy. assert (Hn : (0 < length y)%nat) by (destruct y; [congruence | simpl; lia]).
  unfold ppf_one, ppf_spec. rewrite ppf_sum_cum, Nat2Z.id.
  change 0 with (Z.of_nat 0) at 1. change (lit 0 1) with (ppf_cum y 0) at 1.
  rewrite ppf_while_find by lia. cbn [Nat.add].
  destruct (find _ _) as [j|] eqn:Hf.
  - apply find_seq_first in Hf. destruct Hf as (Hj & _ & _).
    destruct j as [|j]; [reflexivity|].
    replace (Z.of_nat (S j) =? 0) with false by (symmetry; apply Z.eqb_neq; lia).
    replace (Z.of_nat (S j) =? Z.of_nat (length y)) with false
      by (symmetry; apply Z.eqb_neq; lia).
    reflexivity.
  - replace (Z.of_nat (length y) =? 0) with false
      by (symmetry; apply Z.eqb_neq; lia).
    now rewrite Z.eqb_refl.
Qed.
End PpfProps.

(** Evaluate a closed term over the reals: unfold, normalise the
    positive numbers that index lists, decide the comparisons. *)
Ltac pos_eval :=
  repeat match goal with
    | |- context [Pos.to_nat ?p] =>
        let v := eval vm_compute in (Pos.to_nat p) in
        change (Pos.to_nat p) with v
    end.

Ltac reval := repeat progress (cbn; pos_eval; rbool).

Ltac ppf_eval :=
  unfold ppf_spec, ppf_claimed, ppf_reaches, ppf_interp, ppf_cum, yget; reval.

(** [sep_ppf] maps [ppf_spec] over the requested fractions, in every
    arithmetic. *)
Lemma sep_ppf_spec {D : Type} {A : Arith D}
      (xmax : D) (y frac : list D) (nfrac : Z) :
  y <> [] ->
  sep_ppf xmax y (Z.of_nat (length y)) frac nfrac
  = map (ppf_spec xmax y) (firstn (Z.to_nat nfrac) frac).
Proof.
  intros Hy. unfold sep_ppf. apply map_ext. intros f. now apply ppf_one_spec.
Qed.

(** Four equal bins of value 10, in exact arithmetic. *)
Lemma ppf_equal_bins (xmax : R) :
  (ppf_spec xmax [10; 10; 10; 10] (1 / 2) = 2 * (xmax / 4)
   /\ ppf_spec xmax [10; 10; 10; 10] 0 = 0
   /\ ppf_spec xmax [10; 10; 10; 10] 1 = xmax)%R.
Proof.
  split; [|split]; ppf_eval; lra.
Qed.

(** C3 (amended).  For a profile [y] of [n >= 1] bins and a fraction [f],
    with [targsum = f * sum], [sep_ppf] returns [0] when the target is
    reached by the empty prefix; [step * (i + (targsum - cumsum_i) / y[i-1])]
    when [0 < i < n] is the smallest count of bins whose cumulative sum
    reaches the target; and [xmax] when no count below [n] reaches it,
    whether or not the [n] bins together do.  This holds in every
    arithmetic, IEEE doubles included.  In exact arithmetic, for four
    equal bins of value 10, the fraction 1/2 yields [2 * step], the
    fraction 0 yields 0 and the fraction 1 yields [xmax]. *)
Theorem sep_ppf_amended :
  (forall (D : Type) (A : Arith D) (xmax : D) (y frac : list D) (nfrac : Z),
      y <> [] ->
      sep_ppf xmax y (Z.of_nat (length y)) frac nfrac
      = map (ppf_spec xmax y) (firstn (Z.to_nat nfrac) frac))
  /\ (forall xmax : R,
        sep_ppf xmax [10; 10; 10; 10] 4 [1 / 2; 0; 1] 3
        = [2 * (xmax / 4); 0; xmax])%R.
Proof.
  split.
  - intros. now apply sep_ppf_spec.
  - intros xmax.
    rewrite (sep_ppf_spec xmax [10; 10; 10; 10]%R [1 / 2; 0; 1]%R 3) by discriminate.
    change (Z.to_nat 3) with 3%nat. cbn [firstn map].
    destruct (ppf_equal_bins xmax) as (-> & -> & ->). reflexivity.
Qed.

(** The general part of C3 (amended), applied to IEEE doubles. *)
Lemma sep_ppf_amended_witness :
  sep_ppf (f64 4 1) [f64 10 1; f64 10 1; f64 10 1; f64 10 1] 4
          [f64 5 10; f64 0 1; f64 1 1; f64 9 10] 4
  = map (ppf_spec (f64 4 1) [f64 10 1; f64 10 1; f64 10 1; f64 10 1])
        [f64 5 10; f64 0 1; f64 1 1; f64 9 10].
Proof.
  apply (proj1 sep_ppf_amended PrimFloat.float Float64 (f64 4 1)
               [f64 10 1; f64 10 1; f64 10 1; f64 10 1]). discriminate.
Defined.

(** C3 as stated fails.  Four bins of value 10, [xmax = 4], fraction
    9/10: the target 36 is reached by the prefix of all four bins and by
    no shorter one, so the stated rule interpolates at [i = 4] and gives
    [1 * (4 + (36 - 40) / 10) = 3.6]; [sep_ppf] returns [xmax = 4].  The
    first three conjuncts are in exact arithmetic, the last two on IEEE
    doubles (where the stated rule gives a value below 4.0). *)
Lemma sep_ppf_last_bin_counterexample :
  (sep_ppf 4 [10; 10; 10; 10] 4 [9 / 10] 1 = [4]
   /\ map (ppf_claimed 4 [10; 10; 10; 10]) [9 / 10] = [36 / 10]
   /\ 4 <> 36 / 10)%R
  /\ sep_ppf (f64 4 1) [f64 10 1; f64 10 1; f64 10 1; f64 10 1] 4 [f64 9 10] 1
     = [f64 4 1]
  /\ map (fun r => PrimFloat.ltb r (f64 4 1))
         (map (ppf_claimed (f64 4 1) [f64 10 1; f64 10 1; f64 10 1; f64 10 1])
              [f64 9 10])
     = [true].
Proof.
  split; [|split; vm_compute; reflexivity].
  split; [|split].
  - rewrite (sep_ppf_spec 4%R [10; 10; 10; 10]%R [9 / 10]%R 1) by discriminate.
    change (Z.to_nat 1) with 1%nat. cbn [firstn map]. f_equal.
    ppf_eval. reflexivity.
  - cbn [map]. f_equal. ppf_eval. lra.
  - lra.
Qed.

(** C10.  In exact arithmetic: when the scan of [sep_ppf] stops at a count
    [i] with [0 < i < n], the divisor [y[i-1]] of the interpolation is
    strictly positive (the bin just added raised the cumulative sum from
    below the target to at or above it).  The hypotheses are those of the
    claim: non-negative bins and a positive target. *)
Theorem ppf_divisor_positive (y : list R) (frac : R) (i : Z) (cumsum : R) :
  let n := Z.of_nat (length y) in
  let targsum := (frac * ppf_sum y n)%R in
  (forall v, In v y -> 0 <= v)%R ->
  (0 < targsum)%R ->
  ppf_while (Z.to_nat n) y n targsum 0 (lit 0 1) = (i, cumsum) ->
  0 < i < n ->
  (0 < yget y (i - 1))%R.
Proof.
  intros n targsum _ _ Hw Hi. subst n.
  rewrite Nat2Z.id in Hw.
  change 0 with (Z.of_nat 0) in Hw at 1. change (lit 0 1) with (ppf_cum y 0) in Hw.
  rewrite ppf_while_find in Hw by lia. cbn [Nat.add] in Hw.
  destruct (find _ _) as [j|] eqn:Hf.
  - injection Hw as <- <-. apply find_seq_first in Hf.
    destruct Hf as (Hj & Hreach & Hfirst).
    destruct j as [|j]; [lia|].
    specialize (Hfirst j ltac:(lia)).
    unfold ppf_reaches in Hreach, Hfirst.
    apply negb_true_iff in Hreach. apply negb_false_iff in Hfirst.
    cbn [ltb RealArith] in Hreach, Hfirst.
    apply RFacts.ltb_false_iff in Hreach. apply RFacts.ltb_iff in Hfirst.
    rewrite ppf_cum_S in Hreach by lia. cbn [add RealArith] in Hreach.
    replace (Z.of_nat (S j) - 1) with (Z.of_nat j) by lia. lra.
  - injection Hw as <- <-. lia.
Qed.

(** C10 at four bins of value 10 and the fraction 1/2: the scan stops at
    [i = 2]. *)
Lemma ppf_divisor_positive_witness :
  (0 < yget [10; 10; 10; 10] (2 - 1))%R.
Proof.
  apply (ppf_divisor_positive [10; 10; 10; 10]%R (1 / 2)%R 2 (0 / 1 + 10 + 10)%R).
  - intros v Hv. simpl in Hv. intuition lra.
  - reval. lra.
  - reval. reflexivity.
  - cbn. lia.
Defined.

(* ================================================================= *)
(** ** [boxextent]: clamping and the truncation flag *)

Section BoxProps.
Context {D : Type} {A : Arith D} {M : Macros D}.

(** [boxextent] clamps the cast bounds to the image and raises
    [SEP_APER_TRUNC] exactly when one of them is clamped. *)
Lemma boxextent_clamp (x y rx ry : D) (w h flag : Z) :
  boxextent x y rx ry w h flag
  = let* (a, b, c, d) := box_casts x y rx ry in
    Some (Box (Z.max 0 a) (Z.min w b) (Z.max 0 c) (Z.min h d),
          if (a <? 0) || (b >? w) || (c <? 0) || (d >? h)
          then Z.lor flag SEP_APER_TRUNC else flag).
Proof.
  unfold boxextent, box_casts.
  destruct (to_int (x - rx + lit 5 10)%D) as [a|]; [|reflexivity].
  destruct (to_int (x + rx + lit 14999999 10000000)%D) as [b|]; [|reflexivity].
  destruct (to_int (y - ry + lit 5 10)%D) as [c|]; [|reflexivity].
  destruct (to_int (y + ry + lit 14999999 10000000)%D) as [d|]; [|reflexivity].
  cbn [bind].
  assert (Hl : forall f, Z.lor (Z.lor f SEP_APER_TRUNC) SEP_APER_TRUNC
                         = Z.lor f SEP_APER_TRUNC)
    by (intros f; now rewrite <- Z.lor_assoc, Z.lor_diag).
  destruct (a <? 0) eqn:Ha, (b >? w) eqn:Hb, (c <? 0) eqn:Hc, (d >? h) eqn:Hd;
    cbn [orb]; rewrite ?Hl;
    repeat f_equal; lia.
Qed.

(** The box handed to the scans lies inside the image, row-wise and
    column-wise. *)
Lemma boxextent_inside (x y rx ry : D) (w h flag : Z) (bx : box) (flag' : Z) :
  boxextent x y rx ry w h flag = Some (bx, flag') ->
  0 <= xmin bx /\ xmax bx <= w /\ 0 <= ymin bx /\ ymax bx <= h.
Proof.
  rewrite boxextent_clamp. destruct (box_casts x y rx ry) as [[[[a b] c] d]|];
    [|discriminate].
  cbn [bind]. intros H. injection H as <- _. cbn [xmin xmax ymin ymax]. lia.
Qed.
End BoxProps.

(** C4 (the code misses the claim).  Center [x = 0.2], [y = 5], radii 1,
    a 10 x 10 image, flag 0 on entry.  The circle reaches [x = -0.8],
    inside pixel column -1, and the geometric lower bound is
    [floor (0.2 - 1 + 0.5) = -1 < 0]; the cast [(int)(-0.3)] truncates
    toward zero, so [boxextent] computes [xmin = 0], clamps nothing and
    leaves the truncation flag unset.  In exact arithmetic and on IEEE
    doubles. *)
Theorem boxextent_lower_bound_truncated :
  boxextent (2 / 10)%R 5%R 1%R 1%R 10 10 0 = Some (Box 0 2 4 7, 0)
  /\ Zfloor (2 / 10 - 1 + 5 / 10)%R = -1
  /\ boxextent (f64 2 10) (f64 5 1) (f64 1 1) (f64 1 1) 10 10 0
     = Some (Box 0 2 4 7, 0).
Proof.
  split; [|split].
  - rewrite boxextent_clamp. unfold box_casts. cbn [to_int RealArith bind].
    cbn [add sub lit RealArith].
    rewrite (RFacts.to_int_eq _ 0)
      by first [lia | apply RFacts.trunc_eq_neg; lra].
    rewrite (RFacts.to_int_eq _ 2)
      by first [lia | apply RFacts.trunc_eq_nonneg; lra].
    rewrite (RFacts.to_int_eq _ 4)
      by first [lia | apply RFacts.trunc_eq_nonneg; lra].
    rewrite (RFacts.to_int_eq _ 7)
      by first [lia | apply RFacts.trunc_eq_nonneg; lra].
    reflexivity.
  - apply Zfloor_eq. lra.
  - vm_compute. reflexivity.
Qed.

(* ================================================================= *)
(** ** [sep_ellipse_axes] and [sep_ellipse_coeffs] in exact arithmetic *)

Section AxesR.
Open Scope R_scope.
Variables cxx cyy cxy : R.
Let p := cxx + cyy.
Let q := cxx - cyy.
Let t := sqrt (q * q + cxy * cxy).

Lemma axes_theta_range :
  - (Rtrigo1.PI / 2) < axes_theta cxx cyy cxy <= Rtrigo1.PI / 2.
Proof.
  pose proof PI_RGT_0 as Hpi.
  assert (Hb : - (Rtrigo1.PI / 4)
               < (if RA.eqb cxy 0 then 0
                  else (if RA.eqb q 0 then 0 else atan (cxy / q)) / 2)
               < Rtrigo1.PI / 4).
  { destruct (RA.eqb cxy 0); [lra|].
    destruct (RA.eqb q 0); [lra|].
    pose proof (atan_bound (cxy / q)). lra. }
  unfold axes_theta. fold q.
  set (th := if RA.eqb cxy 0 then _ else _) in *.
  destruct (RA.ltb cyy cxx).
  - destruct (RA.ltb (Rtrigo1.PI / 2) (th + Rtrigo1.PI / 2)) eqn:E.
    + apply RFacts.ltb_iff in E. lra.
    + apply RFacts.ltb_false_iff in E. lra.
  - destruct (RA.ltb (Rtrigo1.PI / 2) th) eqn:E.
    + apply RFacts.ltb_iff in E. lra.
    + lra.
Qed.

Lemma axes_error :
  cxx * cyy - cxy * cxy / 4 <= 0 \/ p <= 0 ->
  sep_ellipse_axes cxx cyy cxy = (NON_ELLIPSE_PARAMS, None).
Proof.
  intros H. unfold sep_ellipse_axes. cbn.
  destruct H as [H|H].
  - rewrite RFacts.leb_true by lra. reflexivity.
  - rewrite (RFacts.leb_true (cxx + cyy)) by (unfold p in H; lra).
    now rewrite orb_true_r.
Qed.

Lemma axes_ok :
  0 < cxx * cyy - cxy * cxy / 4 -> 0 < p ->
  sep_ellipse_axes cxx cyy cxy
  = (RETURN_OK,
     Some (sqrt (2 / (p - t)), sqrt (2 / (p + t)), axes_theta cxx cyy cxy)).
Proof.
  intros H1 H2. unfold sep_ellipse_axes. cbn.
  rewrite RFacts.leb_false by lra.
  rewrite RFacts.leb_false by (unfold p in H2; lra).
  cbn [orb]. rewrite !Rdiv_1_r. reflexivity.
Qed.

Lemma axes_t_lt_p :
  0 < cxx * cyy - cxy * cxy / 4 -> 0 < p -> 0 <= t < p.
Proof.
  intros H1 H2.
  assert (Hq : 0 <= q * q + cxy * cxy) by nra.
  pose proof (sqrt_pos (q * q + cxy * cxy)) as Ht0.
  pose proof (sqrt_sqrt _ Hq) as Ht2. fold t in Ht0, Ht2.
  split; [assumption|].
  assert (Hpt : t * t < p * p) by (rewrite Ht2; unfold p, q; nra).
  nra.
Qed.

Lemma axes_order :
  0 < cxx * cyy - cxy * cxy / 4 -> 0 < p ->
  sqrt (2 / (p + t)) <= sqrt (2 / (p - t)).
Proof.
  intros H1 H2. destruct (axes_t_lt_p H1 H2) as [Ht0 Htp].
  apply sqrt_le_1_alt. unfold Rdiv.
  apply Rmult_le_compat_l; [lra|].
  apply Rinv_le_contravar; lra.
Qed.
End AxesR.

(** The status and the three outputs of [sep_ellipse_axes] in exact
    arithmetic: [NON_ELLIPSE_PARAMS] (and nothing written) exactly when
    [cxx*cyy - cxy^2/4 <= 0] or [cxx + cyy <= 0]; otherwise success with
    [a = sqrt (2/(p-t))], [b = sqrt (2/(p+t))], where [p = cxx+cyy] and
    [t = sqrt ((cxx-cyy)^2 + cxy^2)], so that [b <= a], and the angle
    [axes_theta cxx cyy cxy], which lies in [(-PI/2, PI/2]]. *)
Lemma sep_ellipse_axes_cases (cxx cyy cxy : R) :
  let p := (cxx + cyy)%R in
  let t := sqrt ((cxx - cyy) * (cxx - cyy) + cxy * cxy) in
  let a := sqrt (2 / (p - t)) in
  let b := sqrt (2 / (p + t)) in
  ((cxx * cyy - cxy * cxy / 4 <= 0 \/ cxx + cyy <= 0)%R
   /\ sep_ellipse_axes cxx cyy cxy = (NON_ELLIPSE_PARAMS, None))
  \/
  (~ (cxx * cyy - cxy * cxy / 4 <= 0 \/ cxx + cyy <= 0)%R
   /\ sep_ellipse_axes cxx cyy cxy
      = (RETURN_OK, Some (a, b, axes_theta cxx cyy cxy))
   /\ (b <= a)%R
   /\ (- (Rtrigo1.PI / 2) < axes_theta cxx cyy cxy <= Rtrigo1.PI / 2)%R).
Proof.
  intros p t a b.
  destruct (Rle_dec (cxx * cyy - cxy * cxy / 4) 0) as [H1|H1];
    [left; split; [now left | apply axes_error; now left]|].
  destruct (Rle_dec (cxx + cyy) 0) as [H2|H2];
    [left; split; [now right | apply axes_error; now right]|].
  right. split; [intros [H|H]; contradiction|].
  split; [|split].
  - apply axes_ok; lra.
  - apply axes_order; lra.
  - apply axes_theta_range.
Qed.

(* ================================================================= *)
(** ** The round trip through the quadratic form *)

(** The tangent has period [PI]. *)
Lemma tan_shift (x : R) : cos x <> 0%R -> tan (x + Rtrigo1.PI) = tan x.
Proof. intros H. unfold tan. rewrite neg_sin, neg_cos. field. assumption. Qed.

(** From axes to coefficients and back.  [A] and [B] are the inverse
    squares of the semi-axes, [K = A - B <= 0]. *)
Section RoundTrip.
Open Scope R_scope.
Variables a b theta : R.
Hypothesis Hb : 0 < b.
Hypothesis Hab : b <= a.
Hypothesis Hth : - (Rtrigo1.PI / 2) < theta <= Rtrigo1.PI / 2.

Let A := / (a * a).
Let B := / (b * b).
Let c := cos theta.
Let s := sin theta.
Let K := A - B.

Lemma rt_AB : 0 < A <= B.
Proof.
  assert (Ha : 0 < a) by lra.
  assert (Hbb : 0 < b * b) by (apply Rmult_lt_0_compat; lra).
  assert (Haa : 0 < a * a) by (apply Rmult_lt_0_compat; lra).
  unfold A, B. split.
  - now apply Rinv_0_lt_compat.
  - apply Rinv_le_contravar; [assumption | nra].
Qed.

Lemma rt_AB_strict : b < a -> A < B.
Proof.
  intros H.
  assert (Ha : 0 < a) by lra.
  assert (Hbb : 0 < b * b) by (apply Rmult_lt_0_compat; lra).
  assert (Haa : 0 < a * a) by (apply Rmult_lt_0_compat; lra).
  unfold A, B. apply Rinv_lt_contravar; [now apply Rmult_lt_0_compat | nra].
Qed.

Lemma rt_cs : s * s + c * c = 1.
Proof. unfold s, c. pose proof (sin2_cos2 theta) as H. unfold Rsqr in H. exact H. Qed.

Lemma rt_coeffs :
  sep_ellipse_coeffs a b theta
  = (c * c * A + s * s * B, s * s * A + c * c * B, sin (2 * theta) * K).
Proof.
  unfold sep_ellipse_coeffs. cbn. fold c s. rewrite sin_2a. fold c s.
  unfold K, A, B. apply f_equal2; [apply f_equal2|]; field; lra.
Qed.

Let cxx := c * c * A + s * s * B.
Let cyy := s * s * A + c * c * B.
Let cxy := sin (2 * theta) * K.

Lemma rt_q : cxx - cyy = cos (2 * theta) * K.
Proof. rewrite cos_2a. fold c s. unfold cxx, cyy, K. ring. Qed.

Lemma rt_p : cxx + cyy = A + B.
Proof.
  pose proof rt_cs as H. unfold cxx, cyy.
  replace (c * c * A + s * s * B + (s * s * A + c * c * B))
    with ((s * s + c * c) * (A + B)) by ring.
  rewrite H. ring.
Qed.

Lemma rt_det : cxx * cyy - cxy * cxy / 4 = A * B.
Proof.
  pose proof rt_cs as H. unfold cxx, cyy, cxy. rewrite sin_2a. fold c s. unfold K.
  replace ((c * c * A + s * s * B) * (s * s * A + c * c * B)
           - 2 * s * c * (A - B) * (2 * s * c * (A - B)) / 4)
    with ((s * s + c * c) * (s * s + c * c) * (A * B)) by field.
  rewrite H. ring.
Qed.

Lemma rt_t : sqrt ((cxx - cyy) * (cxx - cyy) + cxy * cxy) = B - A.
Proof.
  pose proof rt_AB as HAB.
  rewrite rt_q. unfold cxy.
  pose proof (sin2_cos2 (2 * theta)) as H. unfold Rsqr in H.
  replace (cos (2 * theta) * K * (cos (2 * theta) * K)
           + sin (2 * theta) * K * (sin (2 * theta) * K))
    with ((sin (2 * theta) * sin (2 * theta) + cos (2 * theta) * cos (2 * theta))
          * ((B - A) * (B - A))) by (unfold K; ring).
  rewrite H, Rmult_1_l. apply sqrt_square. lra.
Qed.

Lemma rt_a : sqrt (2 / (A + B - (B - A))) = a.
Proof.
  replace (2 / (A + B - (B - A))) with (a * a).
  - apply sqrt_square. lra.
  - unfold A. field. lra.
Qed.

Lemma rt_b : sqrt (2 / (A + B + (B - A))) = b.
Proof.
  replace (2 / (A + B + (B - A))) with (b * b).
  - apply sqrt_square. lra.
  - unfold B. field. lra.
Qed.

Lemma rt_K : b < a -> K < 0.
Proof. intros H. pose proof (rt_AB_strict H). unfold K. lra. Qed.

Lemma rt_sin2_zero : sin (2 * theta) = 0 -> theta = 0 \/ theta = Rtrigo1.PI / 2.
Proof.
  intros Hs. pose proof PI_RGT_0 as Hpi.
  destruct (Rtotal_order theta 0) as [Hn | [Hz | Hp]].
  - pose proof (sin_lt_0_var (2 * theta)). lra.
  - now left.
  - destruct (Rle_lt_or_eq_dec theta (Rtrigo1.PI / 2) (proj2 Hth)) as [Hlt | Heq].
    + pose proof (sin_gt_0 (2 * theta)). lra.
    + now right.
Qed.

Lemma rt_theta :
  b < a -> theta <> Rtrigo1.PI / 4 -> theta <> - (Rtrigo1.PI / 4) ->
  axes_theta cxx cyy cxy = theta.
Proof.
  intros Hlt' Hne1 Hne2. pose proof PI_RGT_0 as Hpi. pose proof (rt_K Hlt') as HK.
  unfold axes_theta. rewrite rt_q.
  assert (Hlt : forall v, RA.ltb cyy cxx = v <-> RA.ltb 0 (cos (2 * theta) * K) = v).
  { intros v. rewrite <- rt_q. unfold RA.ltb.
    destruct (Rlt_dec cyy cxx), (Rlt_dec 0 (cxx - cyy)); split; intros; try easy; lra. }
  destruct (RA.eqb cxy 0) eqn:Ec.
  - apply RFacts.eqb_iff in Ec. unfold cxy in Ec.
    apply Rmult_integral in Ec. destruct Ec as [Ec | Ec]; [|lra].
    destruct (rt_sin2_zero Ec) as [E | E].
    + assert (Hc : cos (2 * theta) = 1) by (rewrite E, Rmult_0_r; apply cos_0).
      rewrite (proj2 (Hlt false)) by (rewrite Hc; apply RFacts.ltb_false; lra).
      rewrite RFacts.ltb_false by lra. now symmetry.
    + assert (Hc : cos (2 * theta) = -1)
        by (rewrite E; replace (2 * (Rtrigo1.PI / 2)) with Rtrigo1.PI by field; apply cos_PI).
      rewrite (proj2 (Hlt true)) by (rewrite Hc; apply RFacts.ltb_true; lra).
      rewrite RFacts.ltb_false by lra. lra.
  - apply not_true_iff_false in Ec. rewrite RFacts.eqb_iff in Ec.
    assert (Hs : sin (2 * theta) <> 0) by (intros E; apply Ec; unfold cxy; rewrite E; ring).
    destruct (Rtotal_order theta (- (Rtrigo1.PI / 4))) as [Hlo | [Heq | Hmid]]; [|lra|].
    + (* theta in (-PI/2, -PI/4) *)
      assert (Hc : cos (2 * theta) < 0).
      { rewrite <- cos_neg. apply cos_lt_0; lra. }
      rewrite RFacts.eqb_false by nra.
      replace (cxy / (cos (2 * theta) * K)) with (tan (2 * theta))
        by (unfold cxy, tan; field; split; lra).
      rewrite <- tan_shift by lra.
      rewrite atan_tan by lra.
      rewrite (proj2 (Hlt true)) by (apply RFacts.ltb_true; nra).
      rewrite RFacts.ltb_true by lra. lra.
    + destruct (Rtotal_order theta (Rtrigo1.PI / 4)) as [Hlo | [Heq | Hhi]]; [|lra|].
      * (* theta in (-PI/4, PI/4) *)
        assert (Hc : 0 < cos (2 * theta)) by (apply cos_gt_0; lra).
        rewrite RFacts.eqb_false by nra.
        replace (cxy / (cos (2 * theta) * K)) with (tan (2 * theta))
          by (unfold cxy, tan; field; split; lra).
        rewrite atan_tan by lra.
        rewrite (proj2 (Hlt false)) by (apply RFacts.ltb_false; nra).
        rewrite RFacts.ltb_false by lra. lra.
      * (* theta in (PI/4, PI/2) *)
        assert (Hc : cos (2 * theta) < 0) by (apply cos_lt_0; lra).
        assert (Hth2 : theta < Rtrigo1.PI / 2).
        { destruct (Rle_lt_or_eq_dec theta (Rtrigo1.PI / 2) (proj2 Hth)) as [H | H]; [assumption|].
          exfalso. apply Hs. rewrite H. replace (2 * (Rtrigo1.PI / 2)) with Rtrigo1.PI by field.
          apply sin_PI. }
        rewrite RFacts.eqb_false by nra.
        replace (cxy / (cos (2 * theta) * K)) with (tan (2 * theta - Rtrigo1.PI + Rtrigo1.PI))
          by (replace (2 * theta - Rtrigo1.PI + Rtrigo1.PI) with (2 * theta) by ring;
              unfold cxy, tan; field; split; lra).
        rewrite tan_shift
          by (replace (2 * theta - Rtrigo1.PI) with (2 * theta + - Rtrigo1.PI) by ring;
              rewrite cos_plus, cos_neg, sin_neg, cos_PI, sin_PI; lra).
        rewrite atan_tan by lra.
        rewrite (proj2 (Hlt true)) by (apply RFacts.ltb_true; nra).
        rewrite RFacts.ltb_false by lra. lra.
Qed.

Lemma rt_theta_circle : a = b -> axes_theta cxx cyy cxy = 0.
Proof.
  intros E. pose proof PI_RGT_0 as Hpi.
  assert (HK : K = 0) by (unfold K, A, B; rewrite E; ring).
  unfold axes_theta. rewrite rt_q.
  assert (Hq : cxx - cyy = 0) by (rewrite rt_q, HK; ring).
  rewrite RFacts.eqb_true by (unfold cxy; rewrite HK; ring).
  rewrite (RFacts.ltb_false cyy cxx) by lra.
  now rewrite RFacts.ltb_false by lra.
Qed.

Lemma rt_axes :
  sep_ellipse_axes cxx cyy cxy
  = (RETURN_OK, Some (a, b, axes_theta cxx cyy cxy)).
Proof.
  pose proof rt_AB as HAB.
  assert (HABp : 0 < A * B) by (apply Rmult_lt_0_compat; lra).
  rewrite axes_ok by (rewrite ?rt_det, ?rt_p; lra).
  rewrite rt_t, rt_p, rt_a, rt_b. reflexivity.
Qed.
End RoundTrip.

(** C6 (amended).  In exact arithmetic, for [a >= b > 0] and [theta] in
    [(-PI/2, PI/2]], converting to coefficients and back succeeds and
    recovers [a] and [b]; it recovers [theta] when [a > b] and [theta] is
    not [PI/4] or [-PI/4]; for a circle ([a = b]) the angle returned is 0
    whatever [theta] was. *)
Theorem ellipse_round_trip (a b theta : R) :
  (0 < b)%R -> (b <= a)%R ->
  (- (Rtrigo1.PI / 2) < theta <= Rtrigo1.PI / 2)%R ->
  exists theta',
    (let '(cxx, cyy, cxy) := sep_ellipse_coeffs a b theta in
     sep_ellipse_axes cxx cyy cxy) = (RETURN_OK, Some (a, b, theta'))
    /\ ((b < a)%R -> theta <> (Rtrigo1.PI / 4)%R ->
        theta <> (- (Rtrigo1.PI / 4))%R -> theta' = theta)
    /\ (a = b -> theta' = 0%R).
Proof.
  intros Hb Hab Hth. rewrite (rt_coeffs a b theta Hb Hab).
  eexists. split; [apply (rt_axes a b theta Hb Hab)|].
  split.
  - intros. now apply rt_theta.
  - intros. now apply rt_theta_circle.
Qed.

(** C6 (amended) at [a = 2], [b = 1], [theta = PI/3]. *)
Lemma ellipse_round_trip_witness :
  (let '(cxx, cyy, cxy) := sep_ellipse_coeffs 2%R 1%R (Rtrigo1.PI / 3)%R in
   sep_ellipse_axes cxx cyy cxy)
  = (RETURN_OK, Some (2%R, 1%R, (Rtrigo1.PI / 3)%R)).
Proof.
  pose proof PI_RGT_0 as Hpi.
  destruct (ellipse_round_trip 2%R 1%R (Rtrigo1.PI / 3)%R) as (th & E & Ht & _);
    try lra.
  rewrite E, Ht by lra. reflexivity.
Defined.

(** C6 as stated fails: for the circle [a = b = 1] and [theta = 1], which
    lies in [(-PI/2, PI/2]], the round trip returns the angle 0.  (On IEEE
    doubles too: [cxx] and [cyy] are the same two products added in
    either order and [cxy] is a multiple of [1/1 - 1/1 = 0].) *)
Lemma circle_angle_counterexample :
  (- (Rtrigo1.PI / 2) < 1 <= Rtrigo1.PI / 2)%R
  /\ (let '(cxx, cyy, cxy) := sep_ellipse_coeffs 1%R 1%R 1%R in
      sep_ellipse_axes cxx cyy cxy) = (RETURN_OK, Some (1%R, 1%R, 0%R))
  /\ (1%R, 1%R, 0%R) <> (1%R, 1%R, 1%R).
Proof.
  pose proof PI2_1 as H1. pose proof PI_RGT_0 as Hpi.
  split; [lra|]. split.
  - rewrite (rt_coeffs 1%R 1%R 1%R) by lra.
    rewrite (rt_axes 1%R 1%R 1%R) by lra.
    rewrite (rt_theta_circle 1%R 1%R 1%R) by (reflexivity || lra). reflexivity.
  - intros E. injection E as E. lra.
Qed.

(** Beside C6: at [theta = PI/4] (and [a = 2], [b = 1]) the difference
    [cxx - cyy] vanishes while [cxy] does not, the branch [q == 0. ? 0.]
    is taken and the angle returned is 0, although the comment in the
    source announces [(1/2) acot(q/cxy)], which is [PI/4] there. *)
Remark quarter_angle_lost :
  (let '(cxx, cyy, cxy) := sep_ellipse_coeffs 2%R 1%R (Rtrigo1.PI / 4)%R in
   sep_ellipse_axes cxx cyy cxy) = (RETURN_OK, Some (2%R, 1%R, 0%R)).
Proof.
  pose proof PI_RGT_0 as Hpi.
  assert (Hb : (0 < 1)%R) by lra. assert (Hab : (1 <= 2)%R) by lra.
  rewrite (rt_coeffs 2%R 1%R _ Hb Hab), (rt_axes 2%R 1%R _ Hb Hab).
  do 3 f_equal.
  pose proof (rt_K 2%R 1%R Hb Hab ltac:(lra)) as HK.
  unfold axes_theta. rewrite rt_q.
  replace (2 * (Rtrigo1.PI / 4))%R with (Rtrigo1.PI / 2)%R by field.
  rewrite cos_PI2, sin_PI2.
  assert (Hq : (cos (Rtrigo1.PI / 4) * cos (Rtrigo1.PI / 4) * / (2 * 2)
                + sin (Rtrigo1.PI / 4) * sin (Rtrigo1.PI / 4) * / (1 * 1)
                - (sin (Rtrigo1.PI / 4) * sin (Rtrigo1.PI / 4) * / (2 * 2)
                   + cos (Rtrigo1.PI / 4) * cos (Rtrigo1.PI / 4) * / (1 * 1))
                = 0)%R).
  { rewrite (rt_q 2%R 1%R (Rtrigo1.PI / 4)%R).
    replace (2 * (Rtrigo1.PI / 4))%R with (Rtrigo1.PI / 2)%R by field.
    rewrite cos_PI2. ring. }
  set (K := (/ (2 * 2) - / (1 * 1))%R) in *.
  rewrite (RFacts.eqb_false (1 * K)) by lra.
  rewrite (RFacts.eqb_true (0 * K)) by lra.
  match goal with
  | |- context [if RA.ltb ?u ?v then (_ + _)%R else _] =>
      rewrite (RFacts.ltb_false u v) by (apply Req_le, Rminus_diag_uniq, Hq)
  end.
  rewrite RFacts.ltb_false by lra. lra.
Qed.

(* ================================================================= *)
(** ** Arrays of known extent *)

Section Arrays.
Context {T : Type}.

Lemma upd_length (l : list T) (k : nat) (v : T) : length (upd l k v) = length l.
Proof.
  revert k. induction l as [|a l IH]; intros [|k]; simpl; try reflexivity.
  now rewrite IH.
Qed.

Lemma nth_error_upd_same (l : list T) (k : nat) (v : T) :
  (k < length l)%nat -> nth_error (upd l k v) k = Some v.
Proof.
  revert k. induction l as [|a l IH]; intros [|k] H; simpl in *; try lia.
  - reflexivity.
  - apply IH. lia.
Qed.

Lemma nth_error_upd_other (l : list T) (k i : nat) (v : T) :
  i <> k -> nth_error (upd l k v) i = nth_error l i.
Proof.
  revert k i. induction l as [|a l IH]; intros [|k] [|i] H; simpl; try reflexivity.
  - congruence.
  - apply IH. congruence.
Qed.

Lemma aget_some (l : list T) (j : Z) :
  0 <= j < Z.of_nat (length l) -> exists v, aget l j = Some v.
Proof.
  intros H. unfold aget. replace (j <? 0) with false by (symmetry; apply Z.ltb_ge; lia).
  destruct (nth_error l (Z.to_nat j)) as [v|] eqn:E; [now exists v|].
  apply nth_error_None in E. lia.
Qed.

Lemma aget_range (l : list T) (j : Z) (v : T) :
  aget l j = Some v -> 0 <= j < Z.of_nat (length l).
Proof.
  unfold aget. destruct (j <? 0) eqn:E; [discriminate|].
  intros H. apply Z.ltb_ge in E.
  assert (Hn : nth_error l (Z.to_nat j) <> None) by congruence.
  apply nth_error_Some in Hn. lia.
Qed.

Lemma aset_some (l : list T) (j : Z) (v : T) :
  0 <= j < Z.of_nat (length l) -> aset l j v = Some (upd l (Z.to_nat j) v).
Proof.
  intros H. unfold aset.
  replace (0 <=? j) with true by (symmetry; apply Z.leb_le; lia).
  now replace (j <? Z.of_nat (length l)) with true by (symmetry; apply Z.ltb_lt; lia).
Qed.

Lemma aget_upd_same (l : list T) (j : Z) (v : T) :
  0 <= j < Z.of_nat (length l) -> aget (upd l (Z.to_nat j) v) j = Some v.
Proof.
  intros H. unfold aget. replace (j <? 0) with false by (symmetry; apply Z.ltb_ge; lia).
  apply nth_error_upd_same. lia.
Qed.

Lemma aget_upd_other (l : list T) (j i : Z) (v : T) :
  0 <= j -> 0 <= i -> i <> j -> aget (upd l (Z.to_nat j) v) i = aget l i.
Proof.
  intros Hj Hi H. unfold aget. destruct (i <? 0); [reflexivity|].
  apply nth_error_upd_other. lia.
Qed.
End Arrays.

(* ================================================================= *)
(** ** Masking correction *)

Section MaskProps.
Context {D : Type} {A : Arith D} {M : Macros D}.

Lemma mask_ignore_loop (k : nat) :
  forall o, holds (Z.of_nat k) o ->
  exists o', down_loop k mask_ignore_body o = Some o'
    /\ o_sum o' = o_sum o /\ o_sumvar o' = o_sumvar o
    /\ o_maskarea o' = o_maskarea o
    /\ length (o_area o') = length (o_area o)
    /\ (forall j, 0 <= j < Z.of_nat k -> ignored o o' j)
    /\ (forall j, Z.of_nat k <= j -> aget (o_area o') j = aget (o_area o) j).
Proof.
  induction k as [|k IH]; intros o Ho.
  - exists o. cbn. repeat split; try reflexivity. intros j Hj. lia.
  - destruct Ho as (Hs & Hv & Ha & Hm). rewrite Nat2Z.inj_succ in Hs, Hv, Ha, Hm.
    cbn [down_loop]. unfold mask_ignore_body at 1.
    destruct (aget_some (o_area o) (Z.of_nat k)) as [a Ea]; [lia|].
    destruct (aget_some (o_maskarea o) (Z.of_nat k)) as [m Em]; [lia|].
    rewrite Ea, Em. cbn [bind]. rewrite aset_some by lia. cbn [bind].
    set (o1 := Accum _ _ _ _).
    destruct (IH o1) as (o' & E & Es & Ev & Emk & El & Hlow & Hhigh).
    { unfold holds, o1; cbn [o_sum o_sumvar o_area o_maskarea].
      rewrite upd_length. lia. }
    exists o'. split; [exact E|].
    unfold o1 in *; cbn [o_sum o_sumvar o_area o_maskarea] in *.
    rewrite upd_length in El.
    repeat split; try assumption.
    + intros j Hj a' m' Ea' Em'. rewrite Nat2Z.inj_succ in Hj.
      unfold ignored in Hlow; cbn [o_sum o_sumvar o_area o_maskarea] in Hlow.
      destruct (Z.eq_dec j (Z.of_nat k)) as [->|Hne].
      * rewrite Hhigh by lia.
        rewrite aget_upd_same by lia. congruence.
      * apply (Hlow j); [lia| |assumption].
        rewrite aget_upd_other by lia. assumption.
    + intros j Hj. rewrite Nat2Z.inj_succ in Hj. rewrite Hhigh by lia.
      rewrite aget_upd_other by lia. reflexivity.
Qed.


Lemma mask_rescale_loop (k : nat) :
  forall o, holds (Z.of_nat k) o ->
  exists o', down_loop k mask_rescale_body o = Some o'
    /\ o_area o' = o_area o /\ o_maskarea o' = o_maskarea o
    /\ length (o_sum o') = length (o_sum o)
    /\ length (o_sumvar o') = length (o_sumvar o)
    /\ (forall j, 0 <= j < Z.of_nat k -> rescaled o o' j)
    /\ (forall j, Z.of_nat k <= j ->
          aget (o_sum o') j = aget (o_sum o) j
          /\ aget (o_sumvar o') j = aget (o_sumvar o) j).
Proof.
  induction k as [|k IH]; intros o Ho.
  - exists o. cbn. repeat split; try reflexivity; intros; lia.
  - destruct Ho as (Hs & Hv & Ha & Hm). rewrite Nat2Z.inj_succ in Hs, Hv, Ha, Hm.
    cbn [down_loop]. unfold mask_rescale_body at 1.
    destruct (aget_some (o_area o) (Z.of_nat k)) as [a Ea]; [lia|].
    destruct (aget_some (o_maskarea o) (Z.of_nat k)) as [m Em]; [lia|].
    destruct (aget_some (o_sum o) (Z.of_nat k)) as [s Es]; [lia|].
    destruct (aget_some (o_sumvar o) (Z.of_nat k)) as [v Ev]; [lia|].
    rewrite Ea, Em, Es, Ev. cbn [bind]. rewrite !aset_some by lia. cbn [bind].
    fold (rescale_factor a m).
    set (o1 := Accum _ _ _ _).
    destruct (IH o1) as (o' & E & Ear & Emk & Els & Elv & Hlow & Hhigh).
    { unfold holds, o1; cbn [o_sum o_sumvar o_area o_maskarea].
      rewrite !upd_length. lia. }
    exists o'. split; [exact E|].
    unfold o1 in *; cbn [o_sum o_sumvar o_area o_maskarea] in *.
    rewrite upd_length in Els, Elv.
    split; [exact Ear|]. split; [exact Emk|]. split; [exact Els|].
    split; [exact Elv|]. split.
    + intros j Hj s' v' a' m' Es' Ev' Ea' Em'. rewrite Nat2Z.inj_succ in Hj.
      unfold rescaled in Hlow; cbn [o_sum o_sumvar o_area o_maskarea] in Hlow.
      destruct (Z.eq_dec j (Z.of_nat k)) as [->|Hne].
      * destruct (Hhigh (Z.of_nat k)) as [H1 H2]; [lia|]. rewrite H1, H2.
        rewrite !aget_upd_same by lia. split; congruence.
      * apply (Hlow j); try assumption; try lia;
          rewrite aget_upd_other by lia; assumption.
    + intros j Hj. rewrite Nat2Z.inj_succ in Hj.
      destruct (Hhigh j) as [H1 H2]; [lia|].
      rewrite H1, H2. split; apply aget_upd_other; lia.
Qed.

Lemma correct_masked_spec (inflag n : Z) (o : accum D) :
  0 <= n -> holds n o ->
  exists o', correct_masked inflag n o = Some o'
    /\ o_maskarea o' = o_maskarea o
    /\ if Z.land inflag SEP_MASK_IGNORE =? 0
       then o_area o' = o_area o /\ forall j, 0 <= j < n -> rescaled o o' j
       else o_sum o' = o_sum o /\ o_sumvar o' = o_sumvar o
            /\ forall j, 0 <= j < n -> ignored o o' j.
Proof.
  intros Hn Ho. unfold correct_masked.
  rewrite <- (Z2Nat.id n) in Ho by assumption.
  destruct (Z.land inflag SEP_MASK_IGNORE =? 0); cbn [negb].
  - destruct (mask_rescale_loop (Z.to_nat n) o Ho)
      as (o' & E & Ea & Em & _ & _ & Hlow & _).
    exists o'. split; [exact E|]. split; [exact Em|]. split; [exact Ea|].
    intros j Hj. apply Hlow. lia.
  - destruct (mask_ignore_loop (Z.to_nat n) o Ho)
      as (o' & E & Es & Ev & Em & _ & Hlow & _).
    exists o'. split; [exact E|]. split; [exact Em|]. split; [exact Es|].
    split; [exact Ev|].
    intros j Hj. apply Hlow. lia.
Qed.
End MaskProps.

(* ================================================================= *)
(** ** Failures of [sep_sum_circann_multi] *)

(** Run through the part of [sep_sum_circann_multi] that follows the
    resolution of the converters, in a hypothesis [H : ... = Some res]. *)
Ltac multi_tail H :=
  repeat lazymatch type of H with
    | bind ?m _ = Some _ =>
        let p := fresh "p" in
        destruct m as [p|]; [cbn [bind] in H | discriminate H];
        try (destruct p as [? ?])
    end;
  injection H as <-; cbn [r_status]; try reflexivity.

Section FailProps.
Context {D : Type} {A : Arith D} {M : Macros D} {C : Converters D}.

Lemma is_ok_iff (s : status) : is_ok s = true <-> s = RETURN_OK.
Proof. destruct s; cbn; split; intros; congruence. Qed.

Lemma memset0_zeroed (l : list D) (n : Z) :
  n <= Z.of_nat (length l) -> memset0 l n = Some (zeroed n l).
Proof.
  intros H. unfold memset0. now replace (n <=? Z.of_nat (length l)) with true
    by (symmetry; apply Z.leb_le; lia).
Qed.

Variables (data : buffer) (error mask : option buffer).
Variables (dtype edtype mdtype w h : Z) (maskthresh gain : D) (inflag : Z).
Variables (x y rmax : D) (n subpix : Z) (o : accum D) (flag : Z).

Let call := sep_sum_circann_multi data error mask dtype edtype mdtype w h
                                  maskthresh gain inflag x y rmax n subpix o flag.

Lemma multi_illegal_aper :
  (rmax <? lit 0 1)%D = true \/ n < 1 ->
  call = Some (MResult ILLEGAL_APER_PARAMS o flag []).
Proof.
  intros H. unfold call, sep_sum_circann_multi.
  replace ((rmax <? lit 0 1)%D || (n <? 1)) with true; [reflexivity|].
  symmetry. apply orb_true_iff. destruct H as [H|H]; [now left|right].
  now apply Z.ltb_lt.
Qed.

Lemma multi_illegal_subpix :
  (rmax <? lit 0 1)%D = false -> 1 <= n -> subpix < 1 ->
  call = Some (MResult ILLEGAL_SUBPIX o flag []).
Proof.
  intros H1 H2 H3. unfold call, sep_sum_circann_multi. rewrite H1.
  replace (n <? 1) with false by (symmetry; apply Z.ltb_ge; lia).
  now replace (subpix <? 1) with true by (symmetry; apply Z.ltb_lt; lia).
Qed.

Lemma multi_converter_failure :
  (rmax <? lit 0 1)%D = false -> 1 <= n -> 1 <= subpix ->
  clearable mask n o ->
  converter_status error mask dtype edtype mdtype <> RETURN_OK ->
  call = Some (MResult (converter_status error mask dtype edtype mdtype)
                       (cleared mask n o) 0 []).
Proof.
  intros H1 H2 H3 (Hs & Hv & Ha & Hm) Hc.
  unfold call, sep_sum_circann_multi. rewrite H1.
  replace (n <? 1) with false by (symmetry; apply Z.ltb_ge; lia).
  replace (subpix <? 1) with false by (symmetry; apply Z.ltb_ge; lia).
  cbn [orb]. rewrite !memset0_zeroed by assumption. cbn [bind].
  assert (Em : match mask with
               | Some _ => memset0 (o_maskarea o) n
               | None => Some (o_maskarea o)
               end = Some (o_maskarea (cleared mask n o))).
  { destruct mask; cbn; [now apply memset0_zeroed | reflexivity]. }
  rewrite Em. cbn [bind].
  unfold converter_status in *.
  destruct (get_converter dtype) as [[s c] z]. cbn [fst] in *.
  destruct (is_ok s) eqn:Es; cbn [negb] in *; [|reflexivity].
  destruct error as [e|].
  - destruct (get_converter edtype) as [[s' c'] z']. cbn [fst] in *.
    destruct (is_ok s') eqn:Es'; cbn [negb] in *; [|reflexivity].
    destruct mask as [m|].
    + destruct (get_converter mdtype) as [[s'' c''] z'']. cbn [fst] in *.
      destruct (is_ok s'') eqn:Es''; cbn [negb] in *; [|reflexivity].
      apply (proj1 (is_ok_iff _)) in Es''. contradiction.
    + rewrite Es' in *. cbn [negb] in *.
      apply (proj1 (is_ok_iff _)) in Es'. contradiction.
  - rewrite Es in *. cbn [negb] in *.
    destruct mask as [m|].
    + destruct (get_converter mdtype) as [[s'' c''] z'']. cbn [fst] in *.
      destruct (is_ok s'') eqn:Es''; cbn [negb] in *; [|reflexivity].
      apply (proj1 (is_ok_iff _)) in Es''. contradiction.
    + rewrite Es in *. cbn [negb] in *.
      apply (proj1 (is_ok_iff _)) in Es. contradiction.
Qed.

Lemma multi_no_late_failure (res : mresult) :
  (rmax <? lit 0 1)%D = false -> 1 <= n -> 1 <= subpix ->
  converter_status error mask dtype edtype mdtype = RETURN_OK ->
  call = Some res -> r_status res = RETURN_OK.
Proof.
  intros H1 H2 H3 Hc. unfold call, sep_sum_circann_multi. rewrite H1.
  replace (n <? 1) with false by (symmetry; apply Z.ltb_ge; lia).
  replace (subpix <? 1) with false by (symmetry; apply Z.ltb_ge; lia).
  cbn [orb]. unfold converter_status in Hc.
  destruct (memset0 (o_sum o) n); [|discriminate].
  destruct (memset0 (o_sumvar o) n); [|discriminate].
  destruct (memset0 (o_area o) n); [|discriminate].
  cbn [bind].
  destruct (match mask with Some _ => memset0 (o_maskarea o) n | None => _ end);
    [|discriminate].
  cbn [bind].
  destruct (get_converter dtype) as [[s c] z]. cbn [fst] in Hc.
  destruct (is_ok s) eqn:Es; cbn [negb] in *; [|subst s; discriminate].
  destruct error as [e|].
  - destruct (get_converter edtype) as [[s' c'] z']. cbn [fst] in Hc.
    destruct (is_ok s') eqn:Es'; cbn [negb] in *; [|subst s'; discriminate].
    destruct mask as [m|].
    + destruct (get_converter mdtype) as [[s'' c''] z'']. cbn [fst] in Hc.
      subst s''. cbn [is_ok negb]. intros H. multi_tail H.
    + rewrite Es'. cbn [negb]. intros H. multi_tail H.
      now apply is_ok_iff.
  - rewrite Es. cbn [negb].
    destruct mask as [m|].
    + destruct (get_converter mdtype) as [[s'' c''] z'']. cbn [fst] in Hc.
      rewrite Es in Hc. cbn [negb] in Hc.
      subst s''. cbn [is_ok negb]. intros H. multi_tail H.
    + rewrite Es. cbn [negb]. intros H. multi_tail H.
      now apply is_ok_iff.
Qed.
End FailProps.


(** C8 (amended).  In every arithmetic, [sep_sum_circann_multi] fails in
    exactly three places, all before the pixel scan (no access to a
    pixel grid is made):
    - [rmax < 0] or [n < 1]: [ILLEGAL_APER_PARAMS], the output arrays and
      [*flag] are as on entry;
    - otherwise [subpix < 1]: [ILLEGAL_SUBPIX], likewise;
    - otherwise a converter is not resolved: its status is returned,
      [*flag] is 0, the first [n] entries of [sum], [sumvar] and [area]
      are zero, and [maskarea] is zeroed when a mask buffer is supplied
      and left as on entry when [mask] is [NULL];
    and when the converters are resolved the status returned after the
    scan is [RETURN_OK]. *)
Theorem multi_failures :
  forall (D : Type) (A : Arith D) (M : Macros D) (C : Converters D)
         (data : buffer) (error mask : option buffer)
         (dtype edtype mdtype w h : Z) (maskthresh gain : D) (inflag : Z)
         (x y rmax : D) (n subpix : Z) (o : accum D) (flag : Z),
  let call := sep_sum_circann_multi data error mask dtype edtype mdtype w h
                maskthresh gain inflag x y rmax n subpix o flag in
  let cs := converter_status error mask dtype edtype mdtype in
  ((rmax <? lit 0 1)%D = true \/ n < 1 ->
   call = Some (MResult ILLEGAL_APER_PARAMS o flag []))
  /\ ((rmax <? lit 0 1)%D = false -> 1 <= n -> subpix < 1 ->
      call = Some (MResult ILLEGAL_SUBPIX o flag []))
  /\ ((rmax <? lit 0 1)%D = false -> 1 <= n -> 1 <= subpix ->
      clearable mask n o -> cs <> RETURN_OK ->
      call = Some (MResult cs (cleared mask n o) 0 []))
  /\ ((rmax <? lit 0 1)%D = false -> 1 <= n -> 1 <= subpix ->
      cs = RETURN_OK ->
      forall res, call = Some res -> r_status res = RETURN_OK).
Proof.
  intros. split; [|split; [|split]].
  - apply multi_illegal_aper.
  - apply multi_illegal_subpix.
  - apply multi_converter_failure.
  - intros H1 H2 H3 Hc res. now apply multi_no_late_failure.
Qed.

(** C8 (amended) on IEEE doubles: an unsupported mask encoding, with a
    mask buffer supplied. *)
Lemma multi_failures_witness :
  sep_sum_circann_multi flat_image None (Some flat_image) 82 82 81 20 20
    (f64 0 1) (f64 0 1) 0 (f64 10 1) (f64 10 1) (f64 1 1) 1 1
    (Accum [f64 7 1] [f64 7 1] [f64 7 1] [f64 7 1]) 99
  = Some (MResult ILLEGAL_DTYPE
            (Accum [f64 0 1] [f64 0 1] [f64 0 1] [f64 0 1]) 0 []).
Proof.
  apply (proj1 (proj2 (proj2
           (multi_failures PrimFloat.float Float64 Macros64 Converters64
              flat_image None (Some flat_image) 82 82 81 20 20
              (f64 0 1) (f64 0 1) 0 (f64 10 1) (f64 10 1) (f64 1 1) 1 1
              (Accum [f64 7 1] [f64 7 1] [f64 7 1] [f64 7 1]) 99)))).
  - reflexivity.
  - lia.
  - lia.
  - unfold clearable. cbn. lia.
  - discriminate.
Defined.

(** C8 as stated fails: with [mask = NULL] and an unsupported data
    encoding the call fails after the clearing, [sum], [sumvar] and
    [area] are zeroed, and [maskarea] still holds the 7 it held on
    entry. *)
Lemma multi_maskarea_counterexample :
  sep_sum_circann_multi flat_image None None 81 82 82 20 20
    (f64 0 1) (f64 0 1) 0 (f64 10 1) (f64 10 1) (f64 1 1) 1 1
    (Accum [f64 7 1] [f64 7 1] [f64 7 1] [f64 7 1]) 99
  = Some (MResult ILLEGAL_DTYPE
            (Accum [f64 0 1] [f64 0 1] [f64 0 1] [f64 7 1]) 0 [])
  /\ o_maskarea (cleared_claimed 1
                   (Accum [f64 7 1] [f64 7 1] [f64 7 1] [f64 7 1]))
     = [f64 0 1]
  /\ PrimFloat.eqb (f64 7 1) (f64 0 1) = false.
Proof.
  repeat split; vm_compute; reflexivity.
Qed.

(* ================================================================= *)
(** ** Row addressing of the scans *)

Section MultiLog.
Context {D : Type} {A : Arith D} {M : Macros D} {C : Converters D}.
Variables (data : buffer) (error mask : option buffer).
Variables (convert : elem -> D) (econvert mconvert : option (elem -> D)).
Variables (size esize msize : Z).
Variables (w h : Z) (maskthresh x y : D) (n subpix : Z).
Variables (errisarray errisstd : bool).
Variables (scale scale2 offset r_out2 step stepdens : D).
Variables (prevbinmargin nextbinmargin : D).

Let pixel := multi_pixel data error mask convert econvert mconvert maskthresh
               x y n subpix errisarray errisstd scale scale2 offset r_out2
               step stepdens prevbinmargin nextbinmargin.

Lemma multi_pixel_log (P : access -> Prop)
      (ix iy datat errort maskt : Z) (st st' : mstate D) :
  pixel ix iy datat errort maskt st = Some st' ->
  P (Access DATA iy ix datat) ->
  (errisarray = true -> P (Access ERROR iy ix errort)) ->
  (mask <> None -> P (Access MASK iy ix maskt)) ->
  Forall P (m_log st) -> Forall P (m_log st').
Proof.
  unfold pixel, multi_pixel. intros H Hd He Hm Hl.
  destruct (_ <? r_out2)%D; [|now injection H as <-].
  destruct errisarray.
  - destruct (rd econvert error errort) as [v|]; [|discriminate]. cbn [bind] in H.
    destruct mask as [mk|].
    + destruct (rd mconvert (Some mk) maskt) as [mv|]; [|discriminate].
      cbn [bind] in H.
      destruct (mv >? maskthresh)%D; cbn [bind] in H;
        (match type of H with bind ?m _ = _ => destruct m; [|discriminate] end);
        cbn [bind] in H; injection H as <-; cbn [m_log];
        repeat constructor; auto; apply Hm; discriminate.
    + cbn [bind] in H.
      (match type of H with bind ?m _ = _ => destruct m; [|discriminate] end);
        cbn [bind] in H; injection H as <-; cbn [m_log];
        repeat constructor; auto.
  - cbn [bind] in H.
    destruct mask as [mk|].
    + destruct (rd mconvert (Some mk) maskt) as [mv|]; [|discriminate].
      cbn [bind] in H.
      destruct (mv >? maskthresh)%D; cbn [bind] in H;
        (match type of H with bind ?m _ = _ => destruct m; [|discriminate] end);
        cbn [bind] in H; injection H as <-; cbn [m_log];
        repeat constructor; auto; apply Hm; discriminate.
    + cbn [bind] in H.
      (match type of H with bind ?m _ = _ => destruct m; [|discriminate] end);
        cbn [bind] in H; injection H as <-; cbn [m_log];
        repeat constructor; auto.
Qed.

Let pixels := multi_pixels data error mask convert econvert mconvert
                size esize msize maskthresh
                x y n subpix errisarray errisstd scale scale2 offset r_out2
                step stepdens prevbinmargin nextbinmargin.

Lemma multi_pixels_log (P : access -> Prop) (iy : Z) (k : nat) :
  forall (ix datat errort maskt : Z) (st st' : mstate D),
  pixels k ix iy datat errort maskt st = Some st' ->
  (forall i, 0 <= i < Z.of_nat k ->
     P (Access DATA iy (ix + i) (datat + i * size))) ->
  (errisarray = true -> forall i, 0 <= i < Z.of_nat k ->
     P (Access ERROR iy (ix + i) (errort + i * esize))) ->
  (mask <> None -> forall i, 0 <= i < Z.of_nat k ->
     P (Access MASK iy (ix + i) (maskt + i * msize))) ->
  Forall P (m_log st) -> Forall P (m_log st').
Proof.
  unfold pixels.
  induction k as [|k IH]; intros ix datat errort maskt st st' H Hd He Hm Hl.
  - cbn in H. now injection H as <-.
  - cbn [multi_pixels] in H.
    destruct (multi_pixel _ _ _ _ _ _ _ _ _ _ _ _ _ _ _ _ _ _ _ _ _ _ _ _ _ _ _)
      as [st1|] eqn:E1; [|discriminate].
    cbn [bind] in H. rewrite Nat2Z.inj_succ in Hd, He, Hm.
    apply (IH _ _ _ _ _ _ H).
    + intros i Hi. specialize (Hd (i + 1) ltac:(lia)).
      now replace (ix + 1 + i) with (ix + (i + 1)) by ring;
        replace (datat + size + i * size) with (datat + (i + 1) * size) by ring.
    + intros Ha i Hi. specialize (He Ha (i + 1) ltac:(lia)). rewrite Ha.
      now replace (ix + 1 + i) with (ix + (i + 1)) by ring;
        replace (errort + esize + i * esize) with (errort + (i + 1) * esize) by ring.
    + intros Hk i Hi. specialize (Hm Hk (i + 1) ltac:(lia)).
      now replace (ix + 1 + i) with (ix + (i + 1)) by ring;
        replace (maskt + msize + i * msize) with (maskt + (i + 1) * msize) by ring.
    + apply (multi_pixel_log P _ _ _ _ _ _ _ E1).
      * specialize (Hd 0 ltac:(lia)). now rewrite Z.add_0_r, Z.mul_0_l, Z.add_0_r in Hd.
      * intros Ha. specialize (He Ha 0 ltac:(lia)).
        now rewrite Z.add_0_r, Z.mul_0_l, Z.add_0_r in He.
      * intros Hk. specialize (Hm Hk 0 ltac:(lia)).
        now rewrite Z.add_0_r, Z.mul_0_l, Z.add_0_r in Hm.
      * assumption.
Qed.

Variable sz : grid -> Z.
Hypothesis sz_data : sz DATA = size.
Hypothesis sz_error : errisarray = true -> sz ERROR = esize.
Hypothesis sz_mask : mask <> None -> sz MASK = msize.

Let row := multi_row data error mask convert econvert mconvert
             size esize msize w h maskthresh
             x y n subpix errisarray errisstd scale scale2 offset r_out2
             step stepdens prevbinmargin nextbinmargin.

Let rows := multi_rows data error mask convert econvert mconvert
              size esize msize w h maskthresh
              x y n subpix errisarray errisstd scale scale2 offset r_out2
              step stepdens prevbinmargin nextbinmargin.

Lemma multi_row_log (bx : box) (iy : Z) (st st' : mstate D) :
  row bx iy st = Some st' -> 0 <= iy < h ->
  0 <= xmin bx -> xmax bx <= w ->
  Forall (row_major w h sz) (m_log st) ->
  Forall (row_major w h sz) (m_log st').
Proof.
  unfold row, multi_row. intros H Hiy Hx0 Hx1 Hl.
  replace (h =? 0) with false in H by (symmetry; apply Z.eqb_neq; lia).
  rewrite Z.rem_small in H by lia.
  destruct (int_val (iy * w)) as [rs|] eqn:E1; [|discriminate].
  apply int_val_some in E1 as [-> _]. cbn [bind] in H.
  destruct (int_val (iy * w + xmin bx)) as [pos|] eqn:E2; [|discriminate].
  apply int_val_some in E2 as [-> _]. cbn [bind] in H.
  apply (multi_pixels_log (row_major w h sz) _ _ _ _ _ _ _ _ H); try assumption.
  - intros i Hi. repeat split; cbn; first [lia | rewrite sz_data; ring].
  - intros Ha i Hi. rewrite Ha. repeat split; cbn;
      first [lia | rewrite (sz_error Ha); ring].
  - intros Hk i Hi. pose proof (sz_mask Hk) as Hz.
    destruct mask; [|congruence]. repeat split; cbn;
      first [lia | rewrite Hz; ring].
Qed.

Lemma multi_rows_log (bx : box) (k : nat) :
  forall (iy : Z) (st st' : mstate D),
  rows k bx iy st = Some st' -> 0 <= iy ->
  (k <> 0%nat -> iy + Z.of_nat k <= h) ->
  0 <= xmin bx -> xmax bx <= w ->
  Forall (row_major w h sz) (m_log st) ->
  Forall (row_major w h sz) (m_log st').
Proof.
  unfold rows.
  induction k as [|k IH]; intros iy st st' H H0 Hh Hx0 Hx1 Hl.
  - cbn in H. now injection H as <-.
  - cbn [multi_rows] in H. specialize (Hh ltac:(discriminate)).
    rewrite Nat2Z.inj_succ in Hh.
    destruct (multi_row _ _ _ _ _ _ _ _ _ _ _ _ _ _ _ _ _ _ _ _ _ _ _ _ _ _ _ _ _)
      as [st1|] eqn:E1; [|discriminate].
    cbn [bind] in H.
    apply (IH _ _ _ H); [lia | lia | assumption | assumption |].
    apply (multi_row_log _ _ _ _ E1); [lia | assumption | assumption | assumption].
Qed.
End MultiLog.


Section KronLog.
Context {D : Type} {A : Arith D} {M : Macros D} {C : Converters D}.
Variables (data : buffer) (mask : option buffer).
Variables (convert : elem -> D) (mconvert : option (elem -> D)).
Variables (size msize : Z).
Variables (w h : Z) (maskthresh x y cxx cyy cxy r2 : D).

Let pixel := kron_pixel data mask convert mconvert maskthresh x y cxx cyy cxy r2.
Let pixels := kron_pixels data mask convert mconvert size msize maskthresh
                          x y cxx cyy cxy r2.
Let row := kron_row data mask convert mconvert size msize w h maskthresh
                    x y cxx cyy cxy r2.
Let rows := kron_rows data mask convert mconvert size msize w h maskthresh
                      x y cxx cyy cxy r2.

Lemma kron_pixel_log (P : access -> Prop)
      (ix iy datat maskt : Z) (st st' : kstate D) :
  pixel ix iy datat maskt st = Some st' ->
  P (Access DATA iy ix datat) ->
  (mask <> None -> P (Access MASK iy ix maskt)) ->
  Forall P (k_log st) -> Forall P (k_log st').
Proof.
  unfold pixel, kron_pixel. intros H Hd Hm Hl.
  destruct (_ <=? r2)%D; [|now injection H as <-].
  destruct (_ <? - BIG)%D.
  - cbn [bind] in H. injection H as <-. cbn [k_log]. now constructor.
  - destruct mask as [mk|].
    + destruct (rd mconvert (Some mk) maskt) as [mv|]; [|discriminate].
      cbn [bind] in H.
      destruct (mv >? maskthresh)%D; injection H as <-; cbn [k_log];
        repeat constructor; auto; apply Hm; discriminate.
    + cbn [bind] in H. injection H as <-. cbn [k_log]. now constructor.
Qed.

Lemma kron_pixels_log (P : access -> Prop) (iy : Z) (k : nat) :
  forall (ix datat maskt : Z) (st st' : kstate D),
  pixels k ix iy datat maskt st = Some st' ->
  (forall i, 0 <= i < Z.of_nat k ->
     P (Access DATA iy (ix + i) (datat + i * size))) ->
  (mask <> None -> forall i, 0 <= i < Z.of_nat k ->
     P (Access MASK iy (ix + i) (maskt + i * msize))) ->
  Forall P (k_log st) -> Forall P (k_log st').
Proof.
  unfold pixels.
  induction k as [|k IH]; intros ix datat maskt st st' H Hd Hm Hl.
  - cbn in H. now injection H as <-.
  - cbn [kron_pixels] in H.
    match type of H with
    | bind ?m _ = _ => destruct m as [st1|] eqn:E1; [|discriminate]
    end.
    cbn [bind] in H. rewrite Nat2Z.inj_succ in Hd, Hm.
    apply (IH _ _ _ _ _ H).
    + intros i Hi. specialize (Hd (i + 1) ltac:(lia)).
      now replace (ix + 1 + i) with (ix + (i + 1)) by ring;
        replace (datat + size + i * size) with (datat + (i + 1) * size) by ring.
    + intros Hk i Hi. specialize (Hm Hk (i + 1) ltac:(lia)).
      now replace (ix + 1 + i) with (ix + (i + 1)) by ring;
        replace (maskt + msize + i * msize) with (maskt + (i + 1) * msize) by ring.
    + apply (kron_pixel_log P _ _ _ _ _ _ E1).
      * specialize (Hd 0 ltac:(lia)). now rewrite Z.add_0_r, Z.mul_0_l, Z.add_0_r in Hd.
      * intros Hk. specialize (Hm Hk 0 ltac:(lia)).
        now rewrite Z.add_0_r, Z.mul_0_l, Z.add_0_r in Hm.
      * assumption.
Qed.

Variable sz : grid -> Z.
Hypothesis sz_data : sz DATA = size.
Hypothesis sz_mask : mask <> None -> sz MASK = msize.

Lemma kron_row_log (bx : box) (iy : Z) (st st' : kstate D) :
  row bx iy st = Some st' -> 0 <= iy < h ->
  0 <= xmin bx -> xmax bx <= w ->
  Forall (row_major w h sz) (k_log st) ->
  Forall (row_major w h sz) (k_log st').
Proof.
  unfold row, kron_row. intros H Hiy Hx0 Hx1 Hl.
  replace (h =? 0) with false in H by (symmetry; apply Z.eqb_neq; lia).
  rewrite Z.rem_small in H by lia.
  destruct (int_val (iy * w)) as [rs|] eqn:E1; [|discriminate].
  apply int_val_some in E1 as [-> _]. cbn [bind] in H.
  destruct (int_val (iy * w + xmin bx)) as [pos|] eqn:E2; [|discriminate].
  apply int_val_some in E2 as [-> _]. cbn [bind] in H.
  apply (kron_pixels_log (row_major w h sz) _ _ _ _ _ _ _ H); try assumption.
  - intros i Hi. repeat split; cbn; first [lia | rewrite sz_data; ring].
  - intros Hk i Hi. pose proof (sz_mask Hk) as Hz.
    destruct mask; [|congruence]. repeat split; cbn;
      first [lia | rewrite Hz; ring].
Qed.

Lemma kron_rows_log (bx : box) (k : nat) :
  forall (iy : Z) (st st' : kstate D),
  rows k bx iy st = Some st' -> 0 <= iy ->
  (k <> 0%nat -> iy + Z.of_nat k <= h) ->
  0 <= xmin bx -> xmax bx <= w ->
  Forall (row_major w h sz) (k_log st) ->
  Forall (row_major w h sz) (k_log st').
Proof.
  unfold rows.
  induction k as [|k IH]; intros iy st st' H H0 Hh Hx0 Hx1 Hl.
  - cbn in H. now injection H as <-.
  - cbn [kron_rows] in H. specialize (Hh ltac:(discriminate)).
    rewrite Nat2Z.inj_succ in Hh.
    match type of H with
    | bind ?m _ = _ => destruct m as [st1|] eqn:E1; [|discriminate]
    end.
    cbn [bind] in H.
    apply (IH _ _ _ H); [lia | lia | assumption | assumption |].
    apply (kron_row_log _ _ _ _ E1); [lia | assumption | assumption | assumption].
Qed.
End KronLog.

Section SetLog.
Context {D : Type} {A : Arith D}.
Variables (w h : Z) (x y cxx cyy cxy r2 : D) (val : Z).

Lemma set_pixels_log (P : access -> Prop) (yi : Z) (dy dy2 : D) (k : nat) :
  forall (xi arrt : Z) (st st' : list Z * list access),
  set_pixels x cxx cyy cxy r2 val k xi yi arrt dy dy2 st = Some st' ->
  (forall i, 0 <= i < Z.of_nat k -> P (Access ARR yi (xi + i) (arrt + i))) ->
  Forall P (snd st) -> Forall P (snd st').
Proof.
  induction k as [|k IH]; intros xi arrt st st' H Hd Hl.
  - cbn in H. now injection H as <-.
  - cbn [set_pixels] in H. rewrite Nat2Z.inj_succ in Hd.
    match type of H with
    | bind ?m _ = _ => destruct m as [st1|] eqn:E1; [|discriminate]
    end.
    cbn [bind] in H.
    apply (IH _ _ _ _ H).
    + intros i Hi. specialize (Hd (i + 1) ltac:(lia)).
      now replace (xi + 1 + i) with (xi + (i + 1)) by ring;
        replace (arrt + 1 + i) with (arrt + (i + 1)) by ring.
    + destruct (_ <=? r2)%D.
      * destruct (aset (fst st) arrt val); [|discriminate].
        cbn [bind] in E1. injection E1 as <-. cbn [snd]. constructor; [|assumption].
        specialize (Hd 0 ltac:(lia)). now rewrite !Z.add_0_r in Hd.
      * now injection E1 as <-.
Qed.

Lemma set_rows_log (bx : box) (k : nat) :
  forall (yi : Z) (st st' : list Z * list access),
  set_rows w x y cxx cyy cxy r2 val k bx yi st = Some st' -> 0 <= yi ->
  (k <> 0%nat -> yi + Z.of_nat k <= h) ->
  0 <= xmin bx -> xmax bx <= w ->
  Forall (row_major w h (fun _ => 1)) (snd st) ->
  Forall (row_major w h (fun _ => 1)) (snd st').
Proof.
  induction k as [|k IH]; intros yi st st' H H0 Hh Hx0 Hx1 Hl.
  - cbn in H. now injection H as <-.
  - cbn [set_rows] in H. specialize (Hh ltac:(discriminate)).
    rewrite Nat2Z.inj_succ in Hh.
    match type of H with
    | bind ?m _ = _ => destruct m as [st1|] eqn:E1; [|discriminate]
    end.
    cbn [bind] in H.
    apply (IH _ _ _ H); [lia | lia | assumption | assumption |].
    unfold set_row in E1.
    destruct (int_val (yi * w)) as [rs|] eqn:E2; [|discriminate].
    apply int_val_some in E2 as [-> _]. cbn [bind] in E1.
    destruct (int_val (yi * w + xmin bx)) as [pos|] eqn:E3; [|discriminate].
    apply int_val_some in E3 as [-> _]. cbn [bind] in E1.
    apply (set_pixels_log (row_major w h (fun _ => 1)) _ _ _ _ _ _ _ _ E1);
      [|assumption].
    intros i Hi. repeat split; cbn; try lia.
Qed.
End SetLog.

Section LogProps.
Context {D : Type} {A : Arith D} {M : Macros D} {C : Converters D}.

Lemma multi_row_major
      (data : buffer) (error mask : option buffer)
      (dtype edtype mdtype w h : Z) (maskthresh gain : D) (inflag : Z)
      (x y rmax : D) (n subpix : Z) (o : accum D) (flag : Z) (res : mresult) :
  sep_sum_circann_multi data error mask dtype edtype mdtype w h
    maskthresh gain inflag x y rmax n subpix o flag = Some res ->
  Forall (row_major w h (grid_size dtype edtype mdtype)) (r_log res).
Proof.
  unfold sep_sum_circann_multi.
  destruct (_ || _); [intros H; injection H as <-; constructor|].
  destruct (subpix <? 1); [intros H; injection H as <-; constructor|].
  destruct (memset0 (o_sum o) n); [|discriminate].
  destruct (memset0 (o_sumvar o) n); [|discriminate].
  destruct (memset0 (o_area o) n); [|discriminate].
  cbn [bind].
  destruct (match mask with Some _ => memset0 (o_maskarea o) n | None => _ end);
    [|discriminate].
  cbn [bind]. unfold grid_size.
  destruct (get_converter dtype) as [[s c] z].
  destruct (negb (is_ok s)); [intros H; injection H as <-; constructor|].
  set (ec := match error with Some _ => _ | None => _ end).
  destruct ec as [[s' c'] z'] eqn:Eec.
  destruct (negb (is_ok s')); [intros H; injection H as <-; constructor|].
  set (mc := match mask with Some _ => _ | None => _ end).
  destruct mc as [[s'' c''] z''] eqn:Emc.
  destruct (negb (is_ok s'')); [intros H; injection H as <-; constructor|].
  intros H.
  match type of H with bind ?m _ = _ => destruct m as [varpix|]; [|discriminate] end.
  cbn [bind] in H.
  destruct (boxextent _ _ _ _ _ _ _) as [[bx fl]|] eqn:Ebx; [|discriminate].
  cbn [bind] in H.
  destruct (boxextent_inside _ _ _ _ _ _ _ _ _ Ebx) as (Hx0 & Hx1 & Hy0 & Hy1).
  match type of H with
  | bind ?m _ = _ => destruct m as [st|] eqn:Erows; [|discriminate]
  end.
  cbn [bind] in H.
  assert (Hlog : Forall (row_major w h (fun g => match g with
                    | DATA => snd (s, c, z)
                    | ERROR => snd (get_converter edtype)
                    | MASK => snd (get_converter mdtype)
                    | ARR => 1 end)) (m_log st)).
  { eapply multi_rows_log; [| | |exact Erows| | | | |].
    - reflexivity.
    - intros Ha. subst ec mc. destruct error as [e|]; [|discriminate].
      destruct (get_converter edtype) as [[? ?] ?]. now injection Eec as _ _ <-.
    - intros Hk. subst ec mc. destruct mask as [m|]; [|congruence].
      destruct (get_converter mdtype) as [[? ?] ?]. now injection Emc as _ _ <-.
    - assumption.
    - intros Hk. rewrite Z2Nat.id by lia. lia.
    - assumption.
    - assumption.
    - constructor. }
  repeat match type of H with
    | bind ?m _ = Some _ => destruct m; [cbn [bind] in H | discriminate H]
    end.
  injection H as <-. exact Hlog.
Qed.

Lemma kron_row_major
      (data : buffer) (mask : option buffer) (dtype mdtype w h : Z)
      (maskthresh x y cxx cyy cxy r kronrad : D) (res : kresult) :
  sep_kron_radius data mask dtype mdtype w h maskthresh x y cxx cyy cxy r kronrad
  = Some res ->
  Forall (row_major w h (grid_size dtype 0 mdtype)) (kr_log res).
Proof.
  unfold sep_kron_radius, grid_size.
  destruct (get_converter dtype) as [[s c] z].
  destruct (negb (is_ok s)); [intros H; injection H as <-; constructor|].
  set (mc := match mask with Some _ => _ | None => _ end).
  destruct mc as [[s'' c''] z''] eqn:Emc.
  destruct (negb (is_ok s'')); [intros H; injection H as <-; constructor|].
  intros H. unfold boxextent_ellipse in H.
  destruct (boxextent _ _ _ _ _ _ _) as [[bx fl]|] eqn:Ebx; [|discriminate].
  cbn [bind] in H.
  destruct (boxextent_inside _ _ _ _ _ _ _ _ _ Ebx) as (Hx0 & Hx1 & Hy0 & Hy1).
  match type of H with
  | bind ?m _ = _ => destruct m as [st|] eqn:Erows; [|discriminate]
  end.
  cbn [bind] in H.
  assert (Hlog : Forall (row_major w h (fun g => match g with
                    | DATA => snd (s, c, z)
                    | ERROR => snd (get_converter 0)
                    | MASK => snd (get_converter mdtype)
                    | ARR => 1 end)) (k_log st)).
  { eapply kron_rows_log; [| |exact Erows| | | | |].
    - reflexivity.
    - intros Hk. subst mc. destruct mask as [m|]; [|congruence].
      destruct (get_converter mdtype) as [[? ?] ?]. now injection Emc as _ _ <-.
    - assumption.
    - intros Hk. rewrite Z2Nat.id by lia. lia.
    - assumption.
    - assumption.
    - constructor. }
  destruct (_ ==? _)%D; [|destruct (_ || _)]; injection H as <-; exact Hlog.
Qed.

Lemma set_ellipse_row_major
      (arr : list Z) (w h : Z) (x y cxx cyy cxy r : D) (val : Z)
      (arr' : list Z) (log : list access) :
  sep_set_ellipse arr w h x y cxx cyy cxy r val = Some (arr', log) ->
  Forall (row_major w h (fun _ => 1)) log.
Proof.
  unfold sep_set_ellipse, boxextent_ellipse. intros H.
  destruct (boxextent _ _ _ _ _ _ _) as [[bx fl]|] eqn:Ebx; [|discriminate].
  cbn [bind] in H.
  destruct (boxextent_inside _ _ _ _ _ _ _ _ _ Ebx) as (Hx0 & Hx1 & Hy0 & Hy1).
  change log with (snd (arr', log)).
  eapply set_rows_log; [exact H|assumption| |assumption|assumption|constructor].
  intros Hk. rewrite Z2Nat.id by lia. lia.
Qed.
End LogProps.


(** C9 (amended).  In every arithmetic, every access that
    [sep_sum_circann_multi], [sep_kron_radius] and [sep_set_ellipse] make
    into a pixel grid is made for a pixel of the declared image,
    [0 <= ix < w] and [0 <= iy < h], at its row-major offset
    [iy * w + ix] (in bytes of the grid's element size for the typed
    buffers, in elements for the byte array of the rasterizer).  The
    scanned box is clamped to the image, so the [%] by which the first
    two functions reduce the row index never changes it, and the
    rasterizer has none: no row outside [0 .. h-1] is ever addressed. *)
Theorem scans_address_image_rows :
  forall (D : Type) (A : Arith D) (M : Macros D) (C : Converters D),
  (forall (data : buffer) (error mask : option buffer)
          (dtype edtype mdtype w h : Z) (maskthresh gain : D) (inflag : Z)
          (x y rmax : D) (n subpix : Z) (o : accum D) (flag : Z) (res : mresult),
      sep_sum_circann_multi data error mask dtype edtype mdtype w h
        maskthresh gain inflag x y rmax n subpix o flag = Some res ->
      Forall (row_major w h (grid_size dtype edtype mdtype)) (r_log res))
  /\ (forall (data : buffer) (mask : option buffer) (dtype mdtype w h : Z)
             (maskthresh x y cxx cyy cxy r kronrad : D) (res : kresult),
         sep_kron_radius data mask dtype mdtype w h maskthresh
           x y cxx cyy cxy r kronrad = Some res ->
         Forall (row_major w h (grid_size dtype 0 mdtype)) (kr_log res))
  /\ (forall (arr : list Z) (w h : Z) (x y cxx cyy cxy r : D) (val : Z)
             (arr' : list Z) (log : list access),
         sep_set_ellipse arr w h x y cxx cyy cxy r val = Some (arr', log) ->
         Forall (row_major w h (fun _ => 1)) log).
Proof.
  intros D A M C. split; [|split].
  - intros. eapply multi_row_major; eassumption.
  - intros. eapply kron_row_major; eassumption.
  - intros. eapply set_ellipse_row_major; eassumption.
Qed.

(** The amended C9 on IEEE doubles, for one run of each scan with a
    non-empty list of accesses: a 20 x 20 image of 8-byte doubles,
    center (10, 10). *)
Lemma scans_address_image_rows_witness :
  (exists res,
      sep_sum_circann_multi flat_image None (Some flat_image) 82 82 82 20 20
        (f64 2 1) (f64 0 1) 0 (f64 10 1) (f64 10 1) (f64 1 1) 1 1
        (Accum [f64 0 1] [f64 0 1] [f64 0 1] [f64 0 1]) 0 = Some res
      /\ r_log res <> []
      /\ Forall (row_major 20 20 (grid_size (D := PrimFloat.float) 82 82 82))
                (r_log res))
  /\ (exists res,
         sep_kron_radius flat_image None 82 82 20 20 (f64 0 1)
           (f64 10 1) (f64 10 1) (f64 1 1) (f64 1 1) (f64 0 1) (f64 1 1)
           (f64 0 1) = Some res
         /\ kr_log res <> []
         /\ Forall (row_major 20 20 (grid_size (D := PrimFloat.float) 82 0 82))
                   (kr_log res))
  /\ (exists arr' log,
         sep_set_ellipse (D := PrimFloat.float) (repeat 0 400) 20 20
           (f64 10 1) (f64 10 1) (f64 1 1) (f64 1 1) (f64 0 1) (f64 1 1) 9
         = Some (arr', log)
         /\ log <> []
         /\ Forall (row_major 20 20 (fun _ => 1)) log).
Proof.
  destruct (scans_address_image_rows PrimFloat.float Float64 Macros64
              Converters64) as (Hm & Hk & Hs).
  split; [|split].
  - eexists. split; [vm_compute; reflexivity|]. split; [discriminate|].
    refine (Hm flat_image None (Some flat_image) 82 82 82 20 20
               (f64 2 1) (f64 0 1) 0 (f64 10 1) (f64 10 1) (f64 1 1) 1 1
               (Accum [f64 0 1] [f64 0 1] [f64 0 1] [f64 0 1]) 0 _ _).
    vm_compute. reflexivity.
  - eexists. split; [vm_compute; reflexivity|]. split; [discriminate|].
    refine (Hk flat_image None 82 82 20 20 (f64 0 1)
               (f64 10 1) (f64 10 1) (f64 1 1) (f64 1 1) (f64 0 1) (f64 1 1)
               (f64 0 1) _ _).
    vm_compute. reflexivity.
  - do 2 eexists. split; [vm_compute; reflexivity|]. split; [discriminate|].
    refine (Hs (repeat 0 400) 20 20
               (f64 10 1) (f64 10 1) (f64 1 1) (f64 1 1) (f64 0 1) (f64 1 1) 9
               _ _ _).
    vm_compute. reflexivity.
Defined.

(** C9 as it is worded fails.  A window of 4 rows and 4 columns, and an
    aperture of radius 1 centered on the logical pixel (1, 5): the pixel
    passes the geometric test of each of the three scans, and in a
    wrapped window of height 4 its physical row would be [5 mod 4 = 1].
    The box is clamped to the rows below 4, so none of the scans makes
    the access: the multi-annulus sum only reads row 3, the Kron
    estimator reads nothing, and the rasterizer leaves the array as it
    was. *)
Lemma wrapped_window_counterexample :
  (exists res,
      sep_sum_circann_multi flat_image None None 82 82 82 4 4
        (f64 0 1) (f64 0 1) 0 (f64 1 1) (f64 5 1) (f64 1 1) 1 1
        (Accum [f64 0 1] [f64 0 1] [f64 0 1] [f64 0 1]) 0 = Some res
      /\ ~ addresses_wrapped 4 4 8 DATA
             (multi_hit (f64 1 1) (f64 5 1)
                ((f64 1 1 + f64 15 10) * (f64 1 1 + f64 15 10))%D)
             (r_log res))
  /\ (exists res,
         sep_kron_radius flat_image None 82 82 4 4 (f64 0 1)
           (f64 1 1) (f64 5 1) (f64 1 1) (f64 1 1) (f64 0 1) (f64 1 1)
           (f64 0 1) = Some res
         /\ kr_log res = []
         /\ ~ addresses_wrapped 4 4 8 DATA
                (in_ellipse (f64 1 1) (f64 5 1) (f64 1 1) (f64 1 1) (f64 0 1)
                   (f64 1 1 * f64 1 1)%D)
                (kr_log res))
  /\ (exists log,
         sep_set_ellipse (D := PrimFloat.float) (repeat 0 16) 4 4
           (f64 1 1) (f64 5 1) (f64 1 1) (f64 1 1) (f64 0 1) (f64 1 1) 9
         = Some (repeat 0 16, log)
         /\ ~ addresses_wrapped 4 4 1 ARR
                (set_hit (f64 1 1) (f64 5 1) (f64 1 1) (f64 1 1) (f64 0 1)
                   (f64 1 1 * f64 1 1)%D)
                log).
Proof.
  split; [|split].
  - eexists. split; [vm_compute; reflexivity|].
    intros H. specialize (H (1, 5) ltac:(cbn; lia) ltac:(vm_compute; reflexivity)).
    vm_compute in H.
    repeat (destruct H as [H|H]; [discriminate H|]). exact H.
  - eexists. split; [vm_compute; reflexivity|]. split; [reflexivity|].
    intros H. specialize (H (1, 5) ltac:(cbn; lia) ltac:(vm_compute; reflexivity)).
    vm_compute in H. exact H.
  - eexists. split; [vm_compute; reflexivity|].
    intros H. specialize (H (1, 5) ltac:(cbn; lia) ltac:(vm_compute; reflexivity)).
    vm_compute in H. exact H.
Qed.

(* ================================================================= *)
(** ** The Kron radius *)

(** The mask pointer after one pixel: the next column when a mask is
    supplied, still the null offset when not (then [msize] is 0). *)
Lemma mask_ptr_step (T : Type) (mask : option T) (msize p : Z) :
  (mask = None -> msize = 0) ->
  match mask with Some _ => p * msize | None => 0 end + msize
  = match mask with Some _ => (p + 1) * msize | None => 0 end.
Proof. intros H. destruct mask; [ring | rewrite H by reflexivity; ring]. Qed.

Lemma row_from_S (ix iy : Z) (k : nat) :
  row_from ix iy (S k) = (ix, iy) :: row_from (ix + 1) iy k.
Proof.
  unfold row_from. cbn [seq map]. rewrite Z.add_0_r. f_equal.
  rewrite <- seq_shift, map_map. apply map_ext. intros i. f_equal. lia.
Qed.

Lemma rows_from_S (bx : box) (iy : Z) (k : nat) :
  rows_from bx iy (S k)
  = row_from (xmin bx) iy (Z.to_nat (xmax bx - xmin bx)) ++ rows_from bx (iy + 1) k.
Proof.
  unfold rows_from. cbn [seq map flat_map]. rewrite Z.add_0_r. f_equal.
  - unfold zrange, row_from. now rewrite map_map.
  - rewrite <- seq_shift, map_map. f_equal. apply map_ext. intros i. lia.
Qed.

Section KronFold.
Context {D : Type} {A : Arith D} {M : Macros D} {C : Converters D}.
Variables (data : buffer) (mask : option buffer).
Variables (convert : elem -> D) (mconvert : option (elem -> D)).
Variables (size msize : Z).
Variables (w h : Z) (maskthresh x y cxx cyy cxy r2 : D).
Hypothesis mconvert_resolved : mask <> None -> mconvert <> None.
Hypothesis msize_null : mask = None -> msize = 0.

Let after := kron_after data mask convert mconvert size msize w h
                        maskthresh x y cxx cyy cxy r2.

Lemma kron_after_nil (c : D * D * D * Z) : after [] c = c.
Proof. unfold after, kron_after, kron_sums. cbn. now destruct c. Qed.

Lemma kron_after_app (l1 l2 : list (Z * Z)) (c : D * D * D * Z) :
  after (l1 ++ l2) c = after l2 (after l1 c).
Proof.
  unfold after, kron_after, kron_sums. cbn [fst snd].
  rewrite filter_app, fold_left_app, existsb_app. f_equal.
  destruct (existsb _ l1), (existsb _ l2); cbn [orb]; try reflexivity.
  now rewrite <- Z.lor_assoc, Z.lor_diag.
Qed.

Lemma kron_pixel_core (ix iy : Z) (st : kstate D) :
  0 <= iy < h ->
  exists st',
    kron_pixel data mask convert mconvert maskthresh x y cxx cyy cxy r2
      ix iy ((Z.rem iy h * w + ix) * size)
      (match mask with Some _ => (Z.rem iy h * w + ix) * msize | None => 0 end)
      st = Some st'
    /\ k_core st' = after [(ix, iy)] (k_core st).
Proof.
  intros Hiy. rewrite Z.rem_mod_nonneg by lia.
  unfold kron_pixel, after, kron_after, k_core, unusable, usable,
    in_ellipse, pix_at, masked_at, rpix2_at, kron_sums.
  cbn [filter existsb fst snd orb].
  destruct (_ <=? r2)%D; cbn [andb negb].
  2:{ exists st. split; [reflexivity|]. reflexivity. }
  destruct (_ <? - BIG)%D; cbn [andb negb bind].
  { eexists. split; [reflexivity|]. reflexivity. }
  destruct mask as [m|].
  - destruct mconvert as [c|]; [|exfalso; now apply mconvert_resolved].
    cbn [rd bind]. destruct (_ >? maskthresh)%D; cbn [negb];
      eexists; (split; [reflexivity|]); reflexivity.
  - cbn [bind negb]. eexists. split; [reflexivity|]. reflexivity.
Qed.

Lemma kron_pixels_core (iy : Z) (k : nat) :
  0 <= iy < h ->
  forall (ix : Z) (st : kstate D),
  exists st',
    kron_pixels data mask convert mconvert size msize maskthresh
      x y cxx cyy cxy r2 k
      ix iy ((Z.rem iy h * w + ix) * size)
      (match mask with Some _ => (Z.rem iy h * w + ix) * msize | None => 0 end)
      st = Some st'
    /\ k_core st' = after (row_from ix iy k) (k_core st).
Proof.
  intros Hiy. induction k as [|k IH]; intros ix st.
  - exists st. split; [reflexivity|]. now rewrite kron_after_nil.
  - cbn [kron_pixels]. destruct (kron_pixel_core ix iy st Hiy) as (st1 & E1 & H1).
    rewrite E1. cbn [bind].
    destruct (IH (ix + 1) st1) as (st' & E & H').
    exists st'. split.
    + rewrite (mask_ptr_step _ _ _ _ msize_null).
      replace (Z.rem iy h * w + (ix + 1)) with (Z.rem iy h * w + ix + 1) in E by ring.
      now replace ((Z.rem iy h * w + ix + 1) * size)
        with ((Z.rem iy h * w + ix) * size + size) in E by ring.
    + rewrite H', H1, row_from_S.
      change ((ix, iy) :: row_from (ix + 1) iy k)
        with ([(ix, iy)] ++ row_from (ix + 1) iy k).
      now rewrite kron_after_app.
Qed.

(** The rows of a box inside the image, when the offset of the first
    pixel of every row fits an [int]. *)
Lemma kron_rows_core (bx : box) (k : nat) :
  0 <= w -> 0 <= xmin bx -> (h - 1) * w + xmin bx <= INT_MAX ->
  forall (iy : Z) (st : kstate D),
  0 <= iy -> (k <> 0%nat -> iy + Z.of_nat k <= h) ->
  exists st',
    kron_rows data mask convert mconvert size msize w h maskthresh
      x y cxx cyy cxy r2 k bx iy st = Some st'
    /\ k_core st' = after (rows_from bx iy k) (k_core st).
Proof.
  intros Hw Hx0 Hmax.
  induction k as [|k IH]; intros iy st H0 Hh.
  - exists st. split; [reflexivity|]. now rewrite kron_after_nil.
  - specialize (Hh ltac:(discriminate)). rewrite Nat2Z.inj_succ in Hh.
    cbn [kron_rows]. unfold kron_row.
    replace (h =? 0) with false by (symmetry; apply Z.eqb_neq; lia).
    assert (Hrow : 0 <= Z.rem iy h * w <= (h - 1) * w).
    { rewrite Z.rem_small by lia. split; [lia|].
      apply Z.mul_le_mono_nonneg_r; lia. }
    rewrite int_val_eq by (unfold INT_MIN, INT_MAX in *; lia). cbn [bind].
    rewrite int_val_eq by (unfold INT_MIN, INT_MAX in *; lia). cbn [bind].
    destruct (kron_pixels_core iy (Z.to_nat (xmax bx - xmin bx)) ltac:(lia)
                (xmin bx) st) as (st1 & E1 & H1).
    rewrite E1. cbn [bind].
    destruct (IH (iy + 1) st1) as (st' & E & H'); [lia | lia |].
    exists st'. split; [exact E|].
    now rewrite H', H1, rows_from_S, kron_after_app.
Qed.
End KronFold.

Section KronTop.
Context {D : Type} {A : Arith D} {M : Macros D} {C : Converters D}.

Lemma rows_from_box (bx : box) :
  rows_from bx (ymin bx) (Z.to_nat (ymax bx - ymin bx)) = box_pixels bx.
Proof. unfold rows_from, box_pixels, zrange. reflexivity. Qed.

(** [sep_kron_radius] once the converters are resolved and the box is
    known, on an image whose row offsets fit an [int]: the scan leaves
    the sums over the usable pixels of the box, and the three-way test
    decides the output. *)
Lemma kron_radius_generic
      (data : buffer) (mask : option buffer) (dtype mdtype w h : Z)
      (maskthresh x y cxx cyy cxy r kronrad : D) (bx : box) (fl : Z) :
  is_ok (fst (fst (get_converter dtype))) = true ->
  (mask <> None -> is_ok (fst (fst (get_converter mdtype))) = true) ->
  boxextent_ellipse x y cxx cyy cxy r w h 0 = Some (bx, fl) ->
  0 <= w -> (h - 1) * w + xmin bx <= INT_MAX ->
  let convert := snd (fst (get_converter dtype)) in
  let size := snd (get_converter dtype) in
  let mconvert := match mask with
                  | Some _ => Some (snd (fst (get_converter mdtype)))
                  | None => None
                  end in
  let msize := match mask with
               | Some _ => snd (get_converter mdtype)
               | None => 0
               end in
  let c := kron_after data mask convert mconvert size msize w h maskthresh
                      x y cxx cyy cxy (r * r)%D (box_pixels bx)
                      (lit 0 1, lit 0 1, lit 0 1, fl) in
  let r1 := fst (fst (fst c)) in
  let v1 := snd (fst (fst c)) in
  let area := snd (fst c) in
  exists log,
    sep_kron_radius data mask dtype mdtype w h maskthresh x y cxx cyy cxy r kronrad
    = Some (if (area ==? of_int 0)%D
            then KResult RETURN_OK (lit 0 1) (Z.lor (snd c) SEP_APER_ALLMASKED) log
            else if ((r1 <=? lit 0 1) || (v1 <=? lit 0 1))%D
                 then KResult RETURN_OK (lit 0 1)
                              (Z.lor (snd c) SEP_APER_NONPOSITIVE) log
                 else KResult RETURN_OK (r1 / v1)%D (snd c) log).
Proof.
  intros Hd Hm Hbx Hw Hmax convert size mconvert msize c r1 v1 area.
  unfold sep_kron_radius.
  subst convert size. destruct (get_converter dtype) as [[s cv] z].
  cbn [fst snd] in *. rewrite Hd. cbn [negb].
  assert (Emc : (match mask with
                 | Some _ => let '(s0, c0, z0) := get_converter mdtype in (s0, Some c0, z0)
                 | None => (s, None, 0)
                 end) = (match mask with
                         | Some _ => fst (fst (get_converter mdtype))
                         | None => s end, mconvert, msize)).
  { subst mconvert msize. destruct mask; [|reflexivity].
    now destruct (get_converter mdtype) as [[? ?] ?]. }
  rewrite Emc.
  assert (Hok : is_ok (match mask with
                       | Some _ => fst (fst (get_converter mdtype))
                       | None => s end) = true).
  { destruct mask; [apply Hm; discriminate | exact Hd]. }
  rewrite Hok. cbn [negb]. rewrite Hbx. cbn [bind].
  unfold boxextent_ellipse in Hbx.
  destruct (boxextent_inside _ _ _ _ _ _ _ _ _ Hbx) as (Hx0 & _ & Hy0 & Hy1).
  destruct (kron_rows_core data mask cv mconvert z msize w h maskthresh
              x y cxx cyy cxy (r * r)%D
              ltac:(subst mconvert; destruct mask; congruence)
              ltac:(subst msize; intros ->; reflexivity)
              bx (Z.to_nat (ymax bx - ymin bx)) Hw Hx0 Hmax (ymin bx)
              (KState (lit 0 1) (lit 0 1) (lit 0 1) fl []))
    as (st & E & Hc); [lia | intros Hk; rewrite Z2Nat.id by lia; lia |].
  rewrite E. cbn [bind].
  rewrite rows_from_box in Hc. unfold k_core in Hc. cbn [k_r1 k_v1 k_area k_flag] in Hc.
  fold c in Hc.
  assert (H1 : k_r1 st = r1) by (subst r1; now rewrite <- Hc).
  assert (H2 : k_v1 st = v1) by (subst v1; now rewrite <- Hc).
  assert (H3 : k_area st = area) by (subst area; now rewrite <- Hc).
  assert (H4 : k_flag st = snd c) by (now rewrite <- Hc).
  rewrite H1, H2, H3, H4. exists (k_log st).
  destruct (area ==? of_int 0)%D; [reflexivity|].
  destruct ((r1 <=? lit 0 1) || (v1 <=? lit 0 1))%D; reflexivity.
Qed.
End KronTop.

Section KronReal.
Context {M : Macros R} {C : Converters R}.

(** In exact arithmetic the third sum is the number of pixels. *)
Lemma kron_sums_area (data : buffer) (convert : elem -> R) (size w h : Z)
      (x y cxx cyy cxy : R) (l : list (Z * Z)) :
  forall r v a : R,
  snd (kron_sums data convert size w h x y cxx cyy cxy l (r, v, a))
  = (a + INR (length l))%R.
Proof.
  induction l as [|p l IH]; intros r v a.
  - cbn [kron_sums fold_left snd length INR]. lra.
  - unfold kron_sums in *. cbn [fold_left length]. rewrite IH, S_INR.
    cbn [add lit RealArith]. lra.
Qed.

End KronReal.

(* ================================================================= *)
(** ** [sep_sum_circann_multi]: the contribution of one pixel *)

Section FoldOpt.
Context {S T : Type}.

Lemma fold_opt_app (f : T -> S -> option S) (l1 l2 : list T) (s : S) :
  fold_opt f (l1 ++ l2) s = let* s1 := fold_opt f l1 s in fold_opt f l2 s1.
Proof.
  revert s. induction l1 as [|a l1 IH]; intros s; [reflexivity|].
  cbn [app fold_opt]. destruct (f a s); [apply IH | reflexivity].
Qed.

Lemma fold_opt_ext (f g : T -> S -> option S) (l : list T) (s : S) :
  (forall a s', In a l -> f a s' = g a s') -> fold_opt f l s = fold_opt g l s.
Proof.
  revert s. induction l as [|a l IH]; intros s H; [reflexivity|].
  cbn [fold_opt]. rewrite (H a s) by now left.
  destruct (g a s); [|reflexivity]. apply IH. intros b s' Hb. apply H. now right.
Qed.

Lemma fold_opt_map {U : Type} (f : T -> S -> option S) (g : U -> T)
      (l : list U) (s : S) :
  fold_opt f (map g l) s = fold_opt (fun u => f (g u)) l s.
Proof.
  revert s. induction l as [|a l IH]; intros s; [reflexivity|].
  cbn [map fold_opt]. destruct (f (g a) s); [apply IH | reflexivity].
Qed.

Lemma fold_opt_flat_map {U : Type} (f : T -> S -> option S) (g : U -> list T)
      (l : list U) (s : S) :
  fold_opt f (flat_map g l) s = fold_opt (fun u => fold_opt f (g u)) l s.
Proof.
  revert s. induction l as [|a l IH]; intros s; [reflexivity|].
  cbn [flat_map fold_opt]. rewrite fold_opt_app.
  destruct (fold_opt f (g a) s); [apply IH | reflexivity].
Qed.
End FoldOpt.

Lemma zrange_S (a : Z) (k : nat) :
  map (fun i => a + Z.of_nat i) (seq 0 (S k))
  = a :: map (fun i => a + 1 + Z.of_nat i) (seq 0 k).
Proof.
  cbn [seq map]. rewrite Z.add_0_r. f_equal.
  rewrite <- seq_shift, map_map. apply map_ext. intros i. lia.
Qed.

Lemma zrange_0 (b : Z) :
  map (fun i => 0 + Z.of_nat i) (seq 0 (Z.to_nat b)) = zrange 0 b.
Proof. unfold zrange. now rewrite Z.sub_0_r. Qed.

Lemma in_zrange (a b i : Z) : In i (zrange a b) <-> a <= i < b.
Proof.
  unfold zrange. rewrite in_map_iff. split.
  - intros (k & <- & Hk). apply in_seq in Hk. lia.
  - intros H. exists (Z.to_nat (i - a)). split; [lia|]. apply in_seq. lia.
Qed.

Section ContributionR.
Open Scope R_scope.
Variables (n subpix : Z) (rmax : R) (pix varpix : R) (ismasked : bool).
Hypothesis rmax_pos : 0 < rmax.
Hypothesis n_pos : (1 <= n)%Z.
Hypothesis subpix_pos : (1 <= subpix)%Z.

(** The initializations of [sep_sum_circann_multi]. *)
Let scale : R := (lit 1 1 / of_int subpix)%D.
Let scale2 : R := (scale * scale)%D.
Let offset : R := (lit 5 10 * (scale - lit 1 1))%D.
Let step : R := (rmax / of_int n)%D.
Let stepdens : R := (lit 1 1 / step)%D.
Let prevbinmargin : R := lit 7072 10000.
Let nextbinmargin : R := (step - lit 7072 10000)%D.

Lemma step_pos : 0 < step.
Proof.
  unfold step. cbn [div of_int RealArith].
  apply Rdiv_lt_0_compat; [assumption|]. apply IZR_lt. lia.
Qed.

Lemma subpix_real_pos : 0 < IZR subpix.
Proof. apply IZR_lt. lia. Qed.

(** The cast of the code and the floor of the claim agree on the bin of
    a radius, as long as the bin index fits an [int]. *)
Lemma bin_cast (r : R) :
  0 <= r -> r * IZR n < 2147483648 * rmax ->
  to_int (r * stepdens)%D = Some (bin_index n rmax r).
Proof.
  intros Hr Hfit. pose proof step_pos as Hs.
  unfold step in Hs. cbn [div of_int RealArith] in Hs.
  assert (Hn : 0 < IZR n) by (apply IZR_lt; lia).
  cbn [to_int mul RealArith]. unfold bin_index.
  replace (r * stepdens) with (r / (rmax / IZR n)).
  2:{ unfold stepdens, step. cbn [div lit of_int RealArith]. field.
      split; lra. }
  assert (H0 : 0 <= r / (rmax / IZR n)).
  { apply Rmult_le_pos; [assumption|].
    apply Rlt_le, Rinv_0_lt_compat. exact Hs. }
  assert (H1 : r / (rmax / IZR n) < 2147483648).
  { apply Rmult_lt_reg_r with (rmax / IZR n); [exact Hs|].
    unfold Rdiv at 1. rewrite Rmult_assoc, Rinv_l by lra.
    apply Rmult_lt_reg_r with (IZR n); [exact Hn|].
    replace (2147483648 * (rmax / IZR n) * IZR n) with (2147483648 * rmax)
      by (field; lra).
    lra. }
  apply RFacts.to_int_eq; [now apply RFacts.trunc_nonneg|].
  pose proof (Zfloor_bound (r / (rmax / IZR n))) as Hb.
  pose proof (Zfloor_lub 0 _ H0) as Hl.
  assert (IZR (Zfloor (r / (rmax / IZR n))) < IZR 2147483648) by lra.
  apply lt_IZR in H. lia.
Qed.

(** The distance of a point from the center is at most the sum of its
    coordinates' sizes. *)
Lemma radius_le (u v : R) : sqrt (u * u + v * v) <= Rabs u + Rabs v.
Proof.
  pose proof (Rabs_pos u). pose proof (Rabs_pos v).
  apply Rsqr_incr_0_var; [|lra].
  rewrite Rsqr_sqrt by nra. unfold Rsqr.
  replace (u * u) with (Rabs u * Rabs u)
    by (unfold Rabs; destruct (Rcase_abs u); ring).
  replace (v * v) with (Rabs v * Rabs v)
    by (unfold Rabs; destruct (Rcase_abs v); ring).
  nra.
Qed.

(** The center of a sub-cell is less than half a pixel away from the
    center of its pixel, in each coordinate. *)
Lemma subcell_near (d : R) (k : Z) :
  (0 <= k < subpix)%Z ->
  Rabs (d - 1 / 2 + (IZR k + 1 / 2) / IZR subpix) <= Rabs d + 1 / 2.
Proof.
  intros Hk. pose proof subpix_real_pos as Hs.
  assert (H0 : 0 <= IZR k) by (apply IZR_le; lia).
  assert (H1 : IZR k + 1 <= IZR subpix)
    by (rewrite <- plus_IZR; apply IZR_le; lia).
  assert (Hq : 0 < (IZR k + 1 / 2) / IZR subpix < 1).
  { split.
    - apply Rdiv_lt_0_compat; lra.
    - apply Rmult_lt_reg_r with (IZR subpix); [exact Hs|].
      unfold Rdiv. rewrite Rmult_assoc, Rinv_l by lra. lra. }
  unfold Rabs. destruct (Rcase_abs _), (Rcase_abs d); lra.
Qed.

(** One sub-cell, as the inner loop body treats it. *)
Let sub_body (cx dy2 : R) (o : accum R) : option (accum R) :=
  let* j := to_int (dsqrt (cx * cx + dy2) * stepdens)%D in
  deposit n ismasked j scale2 (scale2 * pix)%D (scale2 * varpix)%D scale2 o.

Lemma sx_loop_fold (dx0 dy2 : R) (k : nat) :
  forall (k0 : Z) (o : accum R),
  sx_loop n scale scale2 stepdens k pix varpix ismasked
          (dx0 + IZR k0 * scale) dy2 o
  = fold_opt (fun kx => sub_body (dx0 + IZR kx * scale) dy2)
             (map (fun i => (k0 + Z.of_nat i)%Z) (seq 0 k)) o.
Proof.
  induction k as [|k IH]; intros k0 o; [reflexivity|].
  rewrite zrange_S. cbn [sx_loop fold_opt]. unfold sub_body at 1.
  destruct (to_int _) as [j|]; [|reflexivity]. cbn [bind].
  destruct (deposit _ _ _ _ _ _ _ _) as [o1|]; [|reflexivity]. cbn [bind].
  rewrite <- IH. f_equal. cbn [add RealArith]. rewrite plus_IZR. ring.
Qed.

Lemma sy_loop_fold (dx0 dy0 : R) (k : nat) :
  forall (k0 : Z) (o : accum R),
  sy_loop n subpix scale scale2 stepdens k pix varpix ismasked
          dx0 (dy0 + IZR k0 * scale) o
  = fold_opt
      (fun ky =>
         fold_opt (fun kx => sub_body (dx0 + IZR kx * scale)
                                      ((dy0 + IZR ky * scale)
                                       * (dy0 + IZR ky * scale)))
                  (zrange 0 subpix))
      (map (fun i => (k0 + Z.of_nat i)%Z) (seq 0 k)) o.
Proof.
  induction k as [|k IH]; intros k0 o; [reflexivity|].
  rewrite zrange_S. cbn [sy_loop fold_opt].
  assert (Hx : forall dy2 o,
             sx_loop n scale scale2 stepdens (Z.to_nat subpix) pix varpix
                     ismasked dx0 dy2 o
             = fold_opt (fun kx => sub_body (dx0 + IZR kx * scale) dy2)
                        (zrange 0 subpix) o).
  { intros dy2 o'. rewrite <- zrange_0, <- sx_loop_fold. f_equal. cbn. ring. }
  rewrite Hx. cbn [mul RealArith].
  destruct (fold_opt _ (zrange 0 subpix) o) as [o1|]; [|reflexivity].
  cbn [bind]. rewrite <- IH. f_equal.
  cbn [add RealArith]. rewrite plus_IZR. ring.
Qed.
Lemma sub_body_sample (dx dy : R) (kx ky : Z) (o : accum R) :
  (Rabs dx + Rabs dy + 1) * IZR n < 2147483648 * rmax ->
  (0 <= kx < subpix)%Z -> (0 <= ky < subpix)%Z ->
  sub_body (dx + offset + IZR kx * scale)
           ((dy + offset + IZR ky * scale) * (dy + offset + IZR ky * scale)) o
  = sample n rmax pix varpix ismasked (1 / (IZR subpix * IZR subpix))
           (dx - 1 / 2 + (IZR kx + 1 / 2) / IZR subpix,
            dy - 1 / 2 + (IZR ky + 1 / 2) / IZR subpix) o.
Proof.
  intros Hfit Hkx Hky.
  pose proof subpix_real_pos as Hs.
  assert (Ex : dx + offset + IZR kx * scale
               = dx - 1 / 2 + (IZR kx + 1 / 2) / IZR subpix).
  { unfold offset, scale. cbn [lit mul sub div of_int RealArith]. field. lra. }
  assert (Ey : dy + offset + IZR ky * scale
               = dy - 1 / 2 + (IZR ky + 1 / 2) / IZR subpix).
  { unfold offset, scale. cbn [lit mul sub div of_int RealArith]. field. lra. }
  assert (E2 : scale2 = 1 / (IZR subpix * IZR subpix)).
  { unfold scale2, scale. cbn [lit mul div of_int RealArith]. field. lra. }
  unfold sub_body, sample. cbn [fst snd add mul dsqrt RealArith].
  rewrite Ex, Ey, E2. rewrite bin_cast; [reflexivity | apply sqrt_pos |].
  pose proof (radius_le (dx - 1 / 2 + (IZR kx + 1 / 2) / IZR subpix)
                        (dy - 1 / 2 + (IZR ky + 1 / 2) / IZR subpix)) as Hr.
  pose proof (subcell_near dx kx Hkx). pose proof (subcell_near dy ky Hky).
  assert (Hn : 0 < IZR n) by (apply IZR_lt; lia).
  apply Rle_lt_trans with (2 := Hfit).
  apply Rmult_le_compat_r; lra.
Qed.


Lemma subdivided (dx dy : R) (o : accum R) :
  (Rabs dx + Rabs dy + 1) * IZR n < 2147483648 * rmax ->
  sy_loop n subpix scale scale2 stepdens (Z.to_nat subpix) pix varpix ismasked
          (dx + offset) (dy + offset) o
  = fold_opt (sample n rmax pix varpix ismasked (1 / (IZR subpix * IZR subpix)))
             (subcell_centers subpix dx dy) o.
Proof.
  intros Hfit.
  replace (dy + offset) with (dy + offset + IZR 0 * scale) at 1 by (cbn; ring).
  rewrite sy_loop_fold. unfold subcell_centers.
  rewrite zrange_0, fold_opt_flat_map.
  apply fold_opt_ext. intros ky s1 Hky. rewrite fold_opt_map.
  apply fold_opt_ext. intros kx s2 Hkx. apply in_zrange in Hky, Hkx.
  now apply sub_body_sample.
Qed.

(** In exact arithmetic, for a positive [rmax] and a pixel near enough
    for its bin indices to fit an [int], the code treats the pixel as
    the specification says. *)
Lemma bin_pixel_contribution (dx dy : R) (o : accum R) :
  (Rabs dx + Rabs dy + 1) * IZR n < 2147483648 * rmax ->
  bin_pixel n subpix scale scale2 offset step stepdens prevbinmargin
            nextbinmargin pix varpix ismasked dx dy (dx * dx + dy * dy) o
  = claimed_contribution n subpix rmax pix varpix ismasked dx dy o.
Proof.
  intros Hfit.
  unfold bin_pixel, claimed_contribution.
  cbn [dsqrt dfmod ltb add RealArith].
  set (d := RA.fmod (sqrt (dx * dx + dy * dy)) step).
  change (RA.fmod (sqrt (dx * dx + dy * dy)) (rmax / IZR n)) with d.
  assert (Ep : prevbinmargin = 7072 / 10000) by reflexivity.
  assert (En : nextbinmargin = rmax / IZR n - 7072 / 10000) by reflexivity.
  rewrite Ep, En.
  destruct (Rle_dec (7072 / 10000) d) as [H1|H1];
    [destruct (Rle_dec d (rmax / IZR n - 7072 / 10000)) as [H2|H2]|].
  - rewrite RFacts.ltb_false, RFacts.ltb_false by assumption.
    rewrite !RFacts.leb_true by assumption. cbn [orb andb].
    rewrite bin_cast; [|apply sqrt_pos|].
    2:{ assert (Hn : 0 < IZR n) by (apply IZR_lt; lia).
        pose proof (radius_le dx dy).
        apply Rle_lt_trans with (2 := Hfit).
        apply Rmult_le_compat_r; lra. }
    cbn [bind]. unfold sample.
    cbn [fst snd]. f_equal; cbn [lit RealArith]; field.
  - rewrite RFacts.ltb_false by assumption.
    rewrite (RFacts.ltb_true (rmax / IZR n - 7072 / 10000) d) by lra.
    rewrite RFacts.leb_true by assumption.
    rewrite (RFacts.leb_false d) by lra. cbn [orb andb].
    now apply subdivided.
  - rewrite RFacts.ltb_true by lra. rewrite RFacts.leb_false by lra.
    cbn [orb andb]. now apply subdivided.
Qed.
End ContributionR.

Lemma bin_pixel_contribution_witness :
  let z := [0; 0]%R in
  let o := Accum z z z z in
  let scale := (1 / 1 / IZR 3)%R in
  let step := (4 / IZR 2)%R in
  bin_pixel 2 3 scale (scale * scale)%R (5 / 10 * (scale - 1 / 1))%R
            step (1 / 1 / step)%R (7072 / 10000)%R (step - 7072 / 10000)%R
            5%R 1%R false 1%R 0%R (1 * 1 + 0 * 0)%R o
  = claimed_contribution 2 3 4%R 5%R 1%R false 1%R 0%R o.
Proof.
  apply (bin_pixel_contribution 2 3 4%R 5%R 1%R false); [lra | lia | lia |].
  rewrite Rabs_R0, Rabs_R1. lra.
Defined.

(** C1 (the code misses the claim at [rmax = 0]).  A 20 x 20 image of
    ones, center (10, 10), [rmax = 0], one bin, [subpix = 1], no error or
    mask array, on IEEE doubles.  The check [rmax < 0.0] lets the call
    through; [step = rmax/n] is 0 and [stepdens = 1/step] is infinite.
    For the pixel next to the center ([rpix = 1]), [fmod(rpix, step)] is
    not a number, so neither [d < 0.7072] nor [d > step - 0.7072] holds
    and the pixel is not subdivided; its bin index is the cast to [int]
    of an infinite product, which has no value, and the call as a whole
    has no defined result.  The same call with [rmax = 1] returns
    [RETURN_OK]. *)
Theorem multi_zero_radius_undefined :
  let rmax := f64 0 1 in
  let step := (rmax / of_int 1)%D in
  let stepdens := (lit 1 1 / step)%D in
  let rpix := dsqrt (f64 1 1) in
  let d := dfmod rpix step in
  let o := Accum [f64 0 1] [f64 0 1] [f64 0 1] [f64 0 1] in
  (* the input checks let the call through *)
  ((rmax <? lit 0 1)%D || (1 <? 1)) = false
  (* the bin width is 0 and the remainder is not a number *)
  /\ (step ==? f64 0 1)%D = true
  /\ (d ==? d)%D = false
  /\ ((d <? lit 7072 10000) || (d >? step - lit 7072 10000))%D = false
  (* the bin index of the pixel next to the center has no value *)
  /\ to_int (rpix * stepdens)%D = None
  /\ sep_sum_circann_multi flat_image None None 82 82 82 20 20
       (f64 0 1) (f64 0 1) 0 (f64 10 1) (f64 10 1) rmax 1 1 o 99
     = None
  (* with [rmax = 1] the same call returns *)
  /\ option_map (@r_status _)
       (sep_sum_circann_multi flat_image None None 82 82 82 20 20
          (f64 0 1) (f64 0 1) 0 (f64 10 1) (f64 10 1) (f64 1 1) 1 1 o 99)
     = Some RETURN_OK.
Proof.
  repeat split; vm_compute; reflexivity.
Qed.

(* ================================================================= *)
(** ** The ellipse behind the coefficients *)

(** The quadratic form in the coordinates along the axes. *)
Lemma coeffs_rotated (a b theta u v : R) :
  a <> 0%R -> b <> 0%R ->
  let '(cxx, cyy, cxy) := sep_ellipse_coeffs a b theta in
  (cxx * u * u + cyy * v * v + cxy * u * v
   = ((u * cos theta + v * sin theta) / a) * ((u * cos theta + v * sin theta) / a)
     + ((v * cos theta - u * sin theta) / b) * ((v * cos theta - u * sin theta) / b))%R.
Proof.
  intros Ha Hb. unfold sep_ellipse_coeffs.
  cbn [dcos dsin RealLibm add sub mul div lit RealArith].
  field. split; assumption.
Qed.

(** The quadratic form of [sep_ellipse_coeffs] is that of the ellipse
    with semi-axes [a] and [b] whose first axis makes the angle [theta]
    with the x axis: in the rotated coordinates
    [(u cos theta + v sin theta, v cos theta - u sin theta)] it is
    [u'^2/a^2 + v'^2/b^2]; its discriminant is [1/(a b)^2]. *)
Theorem coeffs_quadratic_form (a b theta u v : R) :
  a <> 0%R -> b <> 0%R ->
  let '(cxx, cyy, cxy) := sep_ellipse_coeffs a b theta in
  (cxx * u * u + cyy * v * v + cxy * u * v
   = ((u * cos theta + v * sin theta) / a) * ((u * cos theta + v * sin theta) / a)
     + ((v * cos theta - u * sin theta) / b) * ((v * cos theta - u * sin theta) / b))%R
  /\ (cxx * cyy - cxy * cxy / 4 = 1 / (a * a * (b * b)))%R.
Proof.
  intros Ha Hb. pose proof (coeffs_rotated a b theta u v Ha Hb) as Hrot.
  unfold sep_ellipse_coeffs in *.
  cbn [dcos dsin RealLibm add sub mul div lit RealArith] in *.
  pose proof (sin2_cos2 theta) as Hsc. unfold Rsqr in Hsc.
  split; [exact Hrot|].
  set (c := cos theta) in *. set (s := sin theta) in *.
  assert (E : forall A B : R,
             ((c * c * A + s * s * B) * (s * s * A + c * c * B)
              - (2 * c * s * (A - B)) * (2 * c * s * (A - B)) / 4
              = A * B * ((s * s + c * c) * (s * s + c * c)))%R)
    by (intros; field).
  replace (1 / (a * a * (b * b)))%R
    with ((1 / (a * a)) * (1 / (b * b)) * ((s * s + c * c) * (s * s + c * c)))%R
    by (rewrite Hsc; field; split; assumption).
  rewrite <- E. field. split; assumption.
Qed.

Lemma coeffs_quadratic_form_witness :
  let '(cxx, cyy, cxy) := sep_ellipse_coeffs 2%R 1%R 0%R in
  (cxx * 2 * 2 + cyy * 0 * 0 + cxy * 2 * 0
   = ((2 * cos 0 + 0 * sin 0) / 2) * ((2 * cos 0 + 0 * sin 0) / 2)
     + ((0 * cos 0 - 2 * sin 0) / 1) * ((0 * cos 0 - 2 * sin 0) / 1))%R
  /\ (cxx * cyy - cxy * cxy / 4 = 1 / (2 * 2 * (1 * 1)))%R.
Proof.
  apply (coeffs_quadratic_form 2%R 1%R 0%R 2%R 0%R); lra.
Defined.

(* ================================================================= *)
(** ** From coefficients to axes and back *)

Section AxesCoeffs.
Open Scope R_scope.
Variables cxx cyy cxy : R.
Hypothesis Hdet : 0 < cxx * cyy - cxy * cxy / 4.
Hypothesis Hp : 0 < cxx + cyy.
Let p := cxx + cyy.
Let q := cxx - cyy.
Let t := sqrt (q * q + cxy * cxy).
Let theta := axes_theta cxx cyy cxy.

Lemma ac_t_factor :
  q <> 0 -> t = Rabs q * sqrt (1 + (cxy / q)²).
Proof.
  intros Hq. unfold t.
  replace (q * q + cxy * cxy) with (q² * (1 + (cxy / q)²))
    by (unfold Rsqr; field; assumption).
  rewrite sqrt_mult_alt by apply Rle_0_sqr.
  now rewrite sqrt_Rsqr_abs.
Qed.

Lemma ac_root_pos (z : R) : 0 < sqrt (1 + z²).
Proof. apply sqrt_lt_R0. pose proof (Rle_0_sqr z). lra. Qed.

(** Twice the angle returned points against [(q, cxy)]. *)
Lemma ac_double_angle :
  cxx <> cyy \/ cxy = 0 ->
  t * cos (2 * theta) = - q /\ t * sin (2 * theta) = - cxy.
Proof.
  intros Hne. pose proof PI_RGT_0 as Hpi.
  unfold theta, axes_theta. fold q.
  destruct (Req_dec_T cxy 0) as [Hxy|Hxy].
  - (* no cross term *)
    rewrite (RFacts.eqb_true _ _ Hxy). cbv iota.
    assert (Et : t = Rabs q).
    { unfold t. rewrite Hxy, Rmult_0_r, Rplus_0_r. apply sqrt_Rsqr_abs. }
    destruct (Rlt_dec cyy cxx) as [Hlt|Hge].
    + rewrite (RFacts.ltb_true cyy cxx) by assumption. cbv iota.
      rewrite RFacts.ltb_false by lra. cbv iota.
      replace (2 * (0 + Rtrigo1.PI / 2)) with Rtrigo1.PI by field.
      rewrite cos_PI, sin_PI, Et, Rabs_right by (unfold q; lra). lra.
    + rewrite (RFacts.ltb_false cyy cxx) by lra. cbv iota.
      rewrite RFacts.ltb_false by lra. cbv iota.
      rewrite Rmult_0_r, cos_0, sin_0, Et, Rabs_left1 by (unfold q; lra). lra.
  - (* a cross term, and [q <> 0] *)
    assert (Hq : q <> 0) by (unfold q; destruct Hne; [lra | contradiction]).
    rewrite (RFacts.eqb_false _ _ Hxy). cbv iota.
    rewrite (RFacts.eqb_false _ _ Hq). cbv iota.
    set (z := cxy / q).
    pose proof (atan_bound z) as Hz.
    pose proof (ac_root_pos z) as Hr.
    pose proof (ac_t_factor Hq) as Et. fold z in Et.
    assert (Ec : t * cos (atan z) = Rabs q).
    { rewrite cos_atan, Et. field. lra. }
    assert (Es : t * sin (atan z) = Rabs q * z).
    { rewrite sin_atan, Et. field. lra. }
    destruct (Rlt_dec cyy cxx) as [Hlt|Hge].
    + rewrite (RFacts.ltb_true cyy cxx) by assumption. cbv iota.
      assert (Eq : Rabs q * z = cxy).
      { rewrite Rabs_right by (unfold q; lra). unfold z. field. assumption. }
      assert (Eq' : Rabs q = q) by (apply Rabs_right; unfold q; lra).
      destruct (Rlt_dec (Rtrigo1.PI / 2) (atan z / 2 + Rtrigo1.PI / 2)) as [Hw|Hw].
      * rewrite RFacts.ltb_true by assumption. cbv iota.
        replace (2 * (atan z / 2 + Rtrigo1.PI / 2 - Rtrigo1.PI))
          with (- (- atan z + Rtrigo1.PI)) by field.
        rewrite cos_neg, sin_neg, neg_cos, neg_sin, cos_neg, sin_neg. lra.
      * rewrite RFacts.ltb_false by lra. cbv iota.
        replace (2 * (atan z / 2 + Rtrigo1.PI / 2)) with (atan z + Rtrigo1.PI) by field.
        rewrite neg_cos, neg_sin. lra.
    + rewrite (RFacts.ltb_false cyy cxx) by lra. cbv iota.
      rewrite RFacts.ltb_false by lra. cbv iota.
      replace (2 * (atan z / 2)) with (atan z) by field.
      assert (Eq' : Rabs q = - q) by (apply Rabs_left; unfold q in *; lra).
      assert (Eq : Rabs q * z = - cxy).
      { rewrite Eq'. unfold z. field. assumption. }
      lra.
Qed.

Lemma ac_coeffs :
  cxx <> cyy \/ cxy = 0 ->
  sep_ellipse_coeffs (sqrt (2 / (p - t))) (sqrt (2 / (p + t))) theta
  = (cxx, cyy, cxy).
Proof.
  intros Hne.
  destruct (axes_t_lt_p cxx cyy cxy Hdet Hp) as [Ht0 Htp].
  change (0 <= t) in Ht0. change (t < p) in Htp.
  destruct (ac_double_angle Hne) as [Hc Hs].
  rewrite cos_2a in Hc. rewrite sin_2a in Hs.
  pose proof (sin2_cos2 theta) as Hsc. unfold Rsqr in Hsc.
  unfold sep_ellipse_coeffs.
  cbn [dcos dsin RealLibm add sub mul div lit RealArith].
  rewrite !sqrt_sqrt by (apply Rlt_le, Rdiv_lt_0_compat; lra).
  set (c := cos theta) in *. set (s := sin theta) in *.
  apply f_equal2; [apply f_equal2|].
  - transitivity ((p * (s * s + c * c) - t * (c * c - s * s)) / 2);
      [field; lra|]. rewrite Hsc, Hc. unfold p, q. field.
  - transitivity ((p * (s * s + c * c) + t * (c * c - s * s)) / 2);
      [field; lra|]. rewrite Hsc, Hc. unfold p, q. field.
  - transitivity (- (t * (2 * s * c))); [field; split; lra|]. rewrite Hs. ring.
Qed.
End AxesCoeffs.

(** In exact arithmetic, for coefficients of an ellipse
    ([cxx*cyy - cxy^2/4 > 0], [cxx + cyy > 0]) with [cxx <> cyy] or
    without cross term, [sep_ellipse_axes] succeeds and
    [sep_ellipse_coeffs] applied to its three outputs gives the
    coefficients back. *)
Theorem axes_coeffs_round_trip (cxx cyy cxy : R) :
  (0 < cxx * cyy - cxy * cxy / 4)%R -> (0 < cxx + cyy)%R ->
  cxx <> cyy \/ cxy = 0%R ->
  exists a b theta : R,
    sep_ellipse_axes cxx cyy cxy = (RETURN_OK, Some (a, b, theta))
    /\ sep_ellipse_coeffs a b theta = (cxx, cyy, cxy).
Proof.
  intros Hdet Hp Hne.
  eexists _, _, _. split.
  - apply axes_ok; assumption.
  - apply ac_coeffs; assumption.
Qed.

Lemma axes_coeffs_round_trip_witness :
  exists a b theta : R,
    sep_ellipse_axes 1%R 4%R 0%R = (RETURN_OK, Some (a, b, theta))
    /\ sep_ellipse_coeffs a b theta = (1%R, 4%R, 0%R).
Proof.
  apply (axes_coeffs_round_trip 1%R 4%R 0%R); [lra | lra | right; reflexivity].
Defined.

(** With [cxx = cyy] and a cross term the angle returned is 0, not a
    quarter turn, and the cross term is lost on the way back: the
    coefficients [(1, 1, 1)] come back with [cxy = 0]. *)
Remark axes_coeffs_cross_term_lost :
  exists a b : R,
    sep_ellipse_axes 1%R 1%R 1%R = (RETURN_OK, Some (a, b, 0%R))
    /\ snd (sep_ellipse_coeffs a b 0%R) = 0%R.
Proof.
  pose proof PI_RGT_0 as Hpi.
  eexists _, _. split.
  - rewrite axes_ok by lra. do 3 f_equal.
    unfold axes_theta. rewrite (RFacts.eqb_false 1 0) by lra. cbv iota.
    rewrite (RFacts.eqb_true (1 - 1) 0) by ring. cbv iota.
    rewrite (RFacts.ltb_false 1 1) by lra. cbv iota.
    rewrite RFacts.ltb_false by lra. lra.
  - unfold sep_ellipse_coeffs.
    cbn [dcos dsin RealLibm add sub mul div lit RealArith snd].
    rewrite sin_0. ring.
Qed.

(** C5.  The error status and the two semi-axes are as the claim says
    (see [sep_ellipse_axes_cases]); the position angle is not, where
    [cxx = cyy] with a cross term.  At [cxx = cyy = 1], [cxy = 1], in
    exact arithmetic, the call succeeds with [a = sqrt 2],
    [b = sqrt (2/3)] and the angle 0, through the branch [q == 0. ? 0.]
    of a line whose comment announces [(1/2) acot(q/cxy)] there.  The
    ellipse with these semi-axes at angle 0 has the coefficients
    [(1/2, 3/2, 0)]; the one at [-PI/4] has [(1, 1, 1)], the
    coefficients given: the position angle is [-PI/4]. *)
Theorem axes_angle_at_equal_diagonal :
  let a := sqrt 2 in
  let b := sqrt (2 / 3) in
  sep_ellipse_axes 1%R 1%R 1%R = (RETURN_OK, Some (a, b, 0%R))
  /\ sep_ellipse_coeffs a b 0%R = ((1 / 2)%R, (3 / 2)%R, 0%R)
  /\ sep_ellipse_coeffs a b (- (Rtrigo1.PI / 4))%R = (1%R, 1%R, 1%R)
  /\ (- (Rtrigo1.PI / 2) < - (Rtrigo1.PI / 4) <= Rtrigo1.PI / 2)%R.
Proof.
  intros a b. pose proof PI_RGT_0 as Hpi.
  assert (Ha : (a * a = 2)%R) by (apply sqrt_sqrt; lra).
  assert (Hb : (b * b = 2 / 3)%R) by (apply sqrt_sqrt; lra).
  assert (H2 : (sqrt 2 * sqrt 2 = 2)%R) by (apply sqrt_sqrt; lra).
  assert (Hs2 : (0 < sqrt 2)%R) by (apply sqrt_lt_R0; lra).
  split; [|split; [|split]].
  - rewrite axes_ok by lra.
    replace ((1 - 1) * (1 - 1) + 1 * 1)%R with 1%R by ring.
    rewrite sqrt_1.
    replace (2 / (1 + 1 - 1))%R with 2%R by field.
    replace (2 / (1 + 1 + 1))%R with (2 / 3)%R by field.
    do 3 f_equal.
    unfold axes_theta. rewrite (RFacts.eqb_false 1 0) by lra. cbv iota.
      rewrite (RFacts.eqb_true (1 - 1) 0) by ring. cbv iota.
      rewrite (RFacts.ltb_false 1 1) by lra. cbv iota.
      rewrite RFacts.ltb_false by lra. lra.
  - unfold sep_ellipse_coeffs.
    cbn [dcos dsin RealLibm add sub mul div lit RealArith].
    rewrite sin_0, cos_0, Ha, Hb.
    apply f_equal2; [apply f_equal2|]; field.
  - unfold sep_ellipse_coeffs.
    cbn [dcos dsin RealLibm add sub mul div lit RealArith].
    rewrite cos_neg, sin_neg, cos_PI4, sin_PI4, Ha, Hb.
    assert (Hh : (1 / sqrt 2 * (1 / sqrt 2) = 1 / 2)%R).
    { transitivity (1 / (sqrt 2 * sqrt 2))%R; [field; lra | now rewrite H2]. }
    apply f_equal2; [apply f_equal2|].
    + replace (- (1 / sqrt 2) * - (1 / sqrt 2))%R
        with (1 / sqrt 2 * (1 / sqrt 2))%R by ring.
      rewrite Hh. field.
    + replace (- (1 / sqrt 2) * - (1 / sqrt 2))%R
        with (1 / sqrt 2 * (1 / sqrt 2))%R by ring.
      rewrite Hh. field.
    + replace (2 / 1 * (1 / sqrt 2) * - (1 / sqrt 2) * (1 / 1 / 2 - 1 / 1 / (2 / 3)))%R
        with (2 * (1 / sqrt 2 * (1 / sqrt 2)))%R by (field; lra).
      rewrite Hh. field.
  - lra.
Qed.

(* ================================================================= *)
(** ** The box of [boxextent] and the image *)

(** In every arithmetic: the box that [boxextent] returns lies inside
    the image, so that each of its pixels [(ix, iy)] has
    [0 <= ix < w] and [0 <= iy < h]; the flag on exit is the flag on
    entry, with [SEP_APER_TRUNC] added in exactly when one of the four
    cast bounds was outside the image. *)
Theorem boxextent_within_image
        (D : Type) (A : Arith D) (M : Macros D)
        (x y rx ry : D) (w h flag : Z) (bx : box) (flag' : Z) :
  boxextent x y rx ry w h flag = Some (bx, flag') ->
  (forall ix iy, xmin bx <= ix < xmax bx -> ymin bx <= iy < ymax bx ->
                 0 <= ix < w /\ 0 <= iy < h)
  /\ exists a b c d,
       box_casts x y rx ry = Some (a, b, c, d)
       /\ (0 <= a /\ b <= w /\ 0 <= c /\ d <= h ->
           bx = Box a b c d /\ flag' = flag)
       /\ (~ (0 <= a /\ b <= w /\ 0 <= c /\ d <= h) ->
           flag' = Z.lor flag SEP_APER_TRUNC).
Proof.
  intros E. split.
  - intros ix iy Hx Hy.
    pose proof (boxextent_inside x y rx ry w h flag bx flag' E). lia.
  - rewrite boxextent_clamp in E.
    destruct (box_casts x y rx ry) as [[[[a b] c] d]|]; [|discriminate].
    cbn [bind] in E. injection E as <- <-.
    exists a, b, c, d. split; [reflexivity|]. split.
    + intros (Ha & Hb & Hc & Hd).
      rewrite (proj2 (Z.ltb_ge a 0)) by lia.
      rewrite (proj2 (Z.ltb_ge c 0)) by lia.
      rewrite !Z.gtb_ltb.
      rewrite (proj2 (Z.ltb_ge w b)) by lia.
      rewrite (proj2 (Z.ltb_ge h d)) by lia.
      cbn [orb]. split; [f_equal; lia | reflexivity].
    + intros Hn.
      destruct (a <? 0) eqn:Ha; [reflexivity|].
      destruct (b >? w) eqn:Hb; [reflexivity|].
      destruct (c <? 0) eqn:Hc; [reflexivity|].
      destruct (d >? h) eqn:Hd; [reflexivity|].
      exfalso. apply Hn. rewrite Z.gtb_ltb in Hb, Hd. lia.
Qed.

Lemma boxextent_within_image_witness :
  (forall ix iy, 0 <= ix < 2 -> 4 <= iy < 7 -> 0 <= ix < 10 /\ 0 <= iy < 10)
  /\ exists a b c d,
       box_casts (f64 2 10) (f64 5 1) (f64 1 1) (f64 1 1) = Some (a, b, c, d)
       /\ (0 <= a /\ b <= 10 /\ 0 <= c /\ d <= 10 ->
           Box 0 2 4 7 = Box a b c d /\ 0 = 0)
       /\ (~ (0 <= a /\ b <= 10 /\ 0 <= c /\ d <= 10) ->
           0 = Z.lor 0 SEP_APER_TRUNC).
Proof.
  apply (boxextent_within_image _ Float64 Macros64
           (f64 2 10) (f64 5 1) (f64 1 1) (f64 1 1) 10 10 0 (Box 0 2 4 7) 0).
  vm_compute. reflexivity.
Defined.

Module TruncFacts.
Open Scope R_scope.

(** [(int)] is monotone and fixes the integers. *)
Lemma trunc_le (x y : R) : x <= y -> (RA.trunc x <= RA.trunc y)%Z.
Proof.
  intros H. unfold RA.trunc.
  destruct (Rle_dec 0 x) as [Hx|Hx], (Rle_dec 0 y) as [Hy|Hy]; try lra.
  - now apply Zfloor_le.
  - pose proof (Zceil_bound x) as Hc. pose proof (Zfloor_lub 0 y Hy) as Hf.
    assert (IZR (Zceil x) < 1) by lra.
    apply lt_IZR in H0. lia.
  - now apply Zceil_le.
Qed.

Lemma trunc_IZR (z : Z) : RA.trunc (IZR z) = z.
Proof.
  unfold RA.trunc. destruct (Rle_dec 0 (IZR z)).
  - apply ZfloorZ.
  - apply Zceil_eq. lra.
Qed.

Lemma trunc_below (x : R) (z : Z) :
  (0 <= z)%Z -> x < IZR z + 1 -> (RA.trunc x <= z)%Z.
Proof.
  intros Hz H. unfold RA.trunc. destruct (Rle_dec 0 x).
  - pose proof (Zfloor_bound x) as Hb.
    assert (IZR (Zfloor x) < IZR (z + 1)) by (rewrite plus_IZR; lra).
    apply lt_IZR in H0. lia.
  - pose proof (Zceil_bound x) as Hb.
    assert (IZR (Zceil x) < IZR 1) by lra.
    apply lt_IZR in H0. lia.
Qed.

Lemma trunc_above (x : R) (z : Z) :
  (0 <= z)%Z -> IZR z <= x -> (z <= RA.trunc x)%Z.
Proof.
  intros Hz H. unfold RA.trunc.
  assert (0 <= x) by (apply IZR_le in Hz; lra).
  destruct (Rle_dec 0 x); [|contradiction]. now apply Zfloor_lub.
Qed.

(** Truncation toward zero does not exceed a non-negative bound of its
    argument. *)
Lemma trunc_upper (v b : R) : 0 <= b -> v <= b -> IZR (RA.trunc v) <= b.
Proof.
  intros Hb Hv. unfold RA.trunc. destruct (Rle_dec 0 v).
  - pose proof (Zfloor_bound v). lra.
  - assert (Zceil v <= 0)%Z.
    { pose proof (Zceil_bound v) as Hc.
      assert (IZR (Zceil v) < IZR 1) by lra. apply lt_IZR in H. lia. }
    apply IZR_le in H. lra.
Qed.

(** The cast is defined on the values between the bounds of [int]. *)
Lemma to_int_in_range (v : R) :
  -2147483648 <= v < 2147483648 -> RA.to_int v = Some (RA.trunc v).
Proof.
  intros [Hl Hu]. apply RFacts.to_int_eq; [reflexivity|]. split.
  - rewrite <- (trunc_IZR (- 2 ^ 31)). apply trunc_le.
    replace (IZR (- 2 ^ 31)) with (-2147483648) by (cbn; lra). exact Hl.
  - assert (RA.trunc v <= 2147483647)%Z; [|lia].
    apply trunc_below; [lia | lra].
Qed.
End TruncFacts.

Section BoxCover.
Context {M : Macros R}.
Open Scope R_scope.

(** The box on the reals, when [boxextent] returns one. *)
Lemma boxextent_R_some (x y rx ry : R) (w h flag : Z) (bx : box) (fl : Z) :
  boxextent x y rx ry w h flag = Some (bx, fl) ->
  bx = Box (Z.max 0 (RA.trunc (x - rx + 5 / 10)))
           (Z.min w (RA.trunc (x + rx + 14999999 / 10000000)))
           (Z.max 0 (RA.trunc (y - ry + 5 / 10)))
           (Z.min h (RA.trunc (y + ry + 14999999 / 10000000))).
Proof.
  rewrite boxextent_clamp. unfold box_casts.
  cbn [to_int add sub lit RealArith].
  destruct (RA.to_int (x - rx + _)) as [a|] eqn:Ea; [|discriminate].
  destruct (RA.to_int (x + rx + _)) as [b|] eqn:Eb; [|discriminate].
  destruct (RA.to_int (y - ry + _)) as [c|] eqn:Ec; [|discriminate].
  destruct (RA.to_int (y + ry + _)) as [d|] eqn:Ed; [|discriminate].
  apply RFacts.to_int_some in Ea as [<- _], Eb as [<- _],
    Ec as [<- _], Ed as [<- _].
  cbn [bind]. intros E. now injection E as <- _.
Qed.

(** It returns one when the aperture is within the reach of an [int]. *)
Lemma boxextent_R (x y rx ry : R) (w h flag : Z) :
  0 <= rx -> 0 <= ry ->
  Rabs x + rx <= 2147483646 -> Rabs y + ry <= 2147483646 ->
  exists fl,
    boxextent x y rx ry w h flag
    = Some (Box (Z.max 0 (RA.trunc (x - rx + 5 / 10)))
                (Z.min w (RA.trunc (x + rx + 14999999 / 10000000)))
                (Z.max 0 (RA.trunc (y - ry + 5 / 10)))
                (Z.min h (RA.trunc (y + ry + 14999999 / 10000000))), fl).
Proof.
  intros Hrx Hry Hx Hy.
  assert (Hax : - Rabs x <= x <= Rabs x)
    by (unfold Rabs; destruct (Rcase_abs x); lra).
  assert (Hay : - Rabs y <= y <= Rabs y)
    by (unfold Rabs; destruct (Rcase_abs y); lra).
  rewrite boxextent_clamp. unfold box_casts.
  cbn [to_int add sub lit RealArith].
  rewrite !TruncFacts.to_int_in_range by lra.
  cbn [bind]. eauto.
Qed.

(** Then the offset of the first pixel of every row of the box fits an
    [int], on an image of fewer than [2^31] pixels that the aperture is
    not too far from. *)
Lemma box_exists_fit (x y rx ry : R) (w h flag : Z) :
  0 <= rx -> 0 <= ry -> (0 <= w)%Z -> (0 <= h)%Z ->
  IZR (w * h) + Rabs x + rx <= 2147483646 -> Rabs y + ry <= 2147483646 ->
  exists bx fl,
    boxextent x y rx ry w h flag = Some (bx, fl)
    /\ ((h - 1) * w + xmin bx <= INT_MAX)%Z.
Proof.
  intros Hrx Hry Hw Hh Hx Hy.
  assert (Hwh : 0 <= IZR (w * h)) by (apply IZR_le; nia).
  destruct (boxextent_R x y rx ry w h flag) as [fl E]; try lra.
  eexists _, fl. split; [exact E|]. cbn [xmin].
  assert (Hax : x <= Rabs x) by (unfold Rabs; destruct (Rcase_abs x); lra).
  pose proof (Rabs_pos x) as Hp.
  pose proof (TruncFacts.trunc_upper (x - rx + 5 / 10) (Rabs x + 1)
                ltac:(lra) ltac:(lra)) as Ht.
  assert (Hm : IZR (Z.max 0 (RA.trunc (x - rx + 5 / 10))) <= Rabs x + 1).
  { destruct (Z.max_spec 0 (RA.trunc (x - rx + 5 / 10))) as [[_ ->]|[_ ->]];
      [exact Ht | lra]. }
  assert (Hz : ((h - 1) * w <= w * h)%Z) by nia.
  apply IZR_le in Hz.
  assert (Hs : IZR ((h - 1) * w + Z.max 0 (RA.trunc (x - rx + 5 / 10)))
               <= IZR 2147483647).
  { rewrite plus_IZR. lra. }
  apply le_IZR in Hs. unfold INT_MAX. lia.
Qed.

(** One coordinate of the coverage. *)

Lemma cover_axis (x rx : R) (w i : Z) :
  (0 <= i < w)%Z -> Rabs (IZR i - x) <= rx ->
  (Z.max 0 (RA.trunc (x - rx + 5 / 10)) <= i
   < Z.min w (RA.trunc (x + rx + 14999999 / 10000000)))%Z.
Proof.
  intros Hi Hd.
  assert (Hd' : - rx <= IZR i - x <= rx).
  { split; [|apply Rle_trans with (2 := Hd), Rle_abs].
    pose proof (Rle_abs (- (IZR i - x))). rewrite Rabs_Ropp in H. lra. }
  assert (H1 : (RA.trunc (x - rx + 5 / 10) <= i)%Z)
    by (apply TruncFacts.trunc_below; [lia | lra]).
  assert (H2 : (i + 1 <= RA.trunc (x + rx + 14999999 / 10000000))%Z)
    by (apply TruncFacts.trunc_above; [lia | rewrite plus_IZR; lra]).
  lia.
Qed.
End BoxCover.

(** A box that [boxextent] returns holds every pixel of the image
    whose center is within the radii. *)
Lemma box_cover_some (M : Macros R) (x y rx ry : R) (w h flag ix iy : Z)
      (bx : box) (fl : Z) :
  boxextent x y rx ry w h flag = Some (bx, fl) ->
  0 <= ix < w -> 0 <= iy < h ->
  (Rabs (IZR ix - x) <= rx)%R -> (Rabs (IZR iy - y) <= ry)%R ->
  xmin bx <= ix < xmax bx /\ ymin bx <= iy < ymax bx.
Proof.
  intros E Hx Hy Hdx Hdy. apply boxextent_R_some in E. subst bx.
  cbn [xmin xmax ymin ymax]. split; apply cover_axis; assumption.
Qed.

Lemma box_cover (M : Macros R) (x y rx ry : R) (w h flag ix iy : Z) :
  (Rabs x + rx <= 2147483646)%R -> (Rabs y + ry <= 2147483646)%R ->
  0 <= ix < w -> 0 <= iy < h ->
  (Rabs (IZR ix - x) <= rx)%R -> (Rabs (IZR iy - y) <= ry)%R ->
  exists bx fl,
    boxextent x y rx ry w h flag = Some (bx, fl)
    /\ xmin bx <= ix < xmax bx /\ ymin bx <= iy < ymax bx.
Proof.
  intros Hrx Hry Hx Hy Hdx Hdy.
  pose proof (Rabs_pos (IZR ix - x)). pose proof (Rabs_pos (IZR iy - y)).
  destruct (boxextent_R x y rx ry w h flag) as [fl E]; try lra.
  eexists _, fl. split; [exact E|].
  eapply box_cover_some; eassumption.
Qed.

(** In exact arithmetic and for an aperture within the reach of an
    [int] (the four bounds that [boxextent] casts lie between
    [-2147483646] and [2147483648]), [boxextent] returns a box, and the
    box misses no pixel of the image whose center is within [rx] of [x]
    and within [ry] of [y]. *)
Theorem boxextent_covers (M : Macros R) (x y rx ry : R) (w h flag ix iy : Z) :
  (Rabs x + rx <= 2147483646)%R -> (Rabs y + ry <= 2147483646)%R ->
  0 <= ix < w -> 0 <= iy < h ->
  (Rabs (IZR ix - x) <= rx)%R -> (Rabs (IZR iy - y) <= ry)%R ->
  exists bx fl,
    boxextent x y rx ry w h flag = Some (bx, fl)
    /\ xmin bx <= ix < xmax bx /\ ymin bx <= iy < ymax bx.
Proof. apply box_cover. Qed.

Lemma boxextent_covers_witness :
  exists bx fl,
    boxextent (M := MacrosR) 5%R 5%R 2%R 2%R 10 10 0 = Some (bx, fl)
    /\ xmin bx <= 3 < xmax bx /\ ymin bx <= 7 < ymax bx.
Proof.
  apply (boxextent_covers MacrosR 5%R 5%R 2%R 2%R 10 10 0 3 7); try lia;
    unfold Rabs; destruct (Rcase_abs _); lra.
Defined.

Section EllipseCover.
Open Scope R_scope.
Variables cxx cyy cxy r : R.
Hypothesis Hdet : 0 < cxx * cyy - cxy * cxy / 4.
Hypothesis Hp : 0 < cxx + cyy.
Hypothesis Hr : 0 <= r.

Lemma ec_pos : 0 < cxx /\ 0 < cyy.
Proof.
  assert (0 < cxx * cyy) by nra.
  split; nra.
Qed.

(** The half-width of the ellipse [Q <= r^2] along one axis: with [m] the
    coefficient left for [u] once [v] is minimised away. *)
Lemma ec_axis (c1 c2 u v : R) :
  0 < c2 -> 0 < c1 - cxy * cxy / (4 * c2) ->
  c1 * u * u + c2 * v * v + cxy * u * v <= r * r ->
  Rabs u <= r / sqrt (c1 - cxy * cxy / (4 * c2)).
Proof.
  intros H2 Hm HQ.
  set (m := c1 - cxy * cxy / (4 * c2)) in *.
  assert (Hs : 0 < sqrt m) by now apply sqrt_lt_R0.
  assert (Hss : sqrt m * sqrt m = m) by (apply sqrt_sqrt; lra).
  assert (Hq : m * (u * u) <= r * r).
  { assert (E : c1 * u * u + c2 * v * v + cxy * u * v
                = m * (u * u) + c2 * ((v + cxy * u / (2 * c2))
                                     * (v + cxy * u / (2 * c2))))
      by (unfold m; field; lra).
    pose proof (Rle_0_sqr (v + cxy * u / (2 * c2))) as Hsq. unfold Rsqr in Hsq.
    assert (0 <= c2 * ((v + cxy * u / (2 * c2)) * (v + cxy * u / (2 * c2))))
      by (apply Rmult_le_pos; lra).
    lra. }
  apply Rmult_le_reg_r with (sqrt m); [assumption|].
  replace (r / sqrt m * sqrt m) with r by (field; lra).
  assert (Ha : 0 <= Rabs u * sqrt m)
    by (apply Rmult_le_pos; [apply Rabs_pos | lra]).
  assert (Hsq : (Rabs u * sqrt m) * (Rabs u * sqrt m) <= r * r).
  { replace (Rabs u * sqrt m * (Rabs u * sqrt m))
      with ((Rabs u * Rabs u) * (sqrt m * sqrt m)) by ring.
    rewrite Hss. replace (Rabs u * Rabs u) with (u * u); [lra|].
    unfold Rabs. destruct (Rcase_abs u); ring. }
  nra.
Qed.
End EllipseCover.

(** For the coefficients of an ellipse, the radii that
    [boxextent_ellipse] hands to [boxextent] are the half-extents of the
    ellipse along the two axes. *)
Lemma ellipse_extents (M : Macros R) (x y cxx cyy cxy r : R) (w h flag : Z) :
  (0 < cxx * cyy - cxy * cxy / 4)%R -> (0 < cxx + cyy)%R ->
  (0 < cxx - cxy * cxy / (4 * cyy))%R /\ (0 < cyy - cxy * cxy / (4 * cxx))%R
  /\ boxextent_ellipse x y cxx cyy cxy r w h flag
     = boxextent x y (r / sqrt (cxx - cxy * cxy / (4 * cyy)))%R
                 (r / sqrt (cyy - cxy * cxy / (4 * cxx)))%R w h flag.
Proof.
  intros Hdet Hp.
  destruct (ec_pos cxx cyy cxy Hdet Hp) as [Hcx Hcy].
  assert (Hmx : (0 < cxx - cxy * cxy / (4 * cyy))%R).
  { replace (cxx - cxy * cxy / (4 * cyy))%R
      with ((cxx * cyy - cxy * cxy / 4) / cyy)%R by (field; lra).
    now apply Rdiv_lt_0_compat. }
  assert (Hmy : (0 < cyy - cxy * cxy / (4 * cxx))%R).
  { replace (cyy - cxy * cxy / (4 * cxx))%R
      with ((cxx * cyy - cxy * cxy / 4) / cxx)%R by (field; lra).
    now apply Rdiv_lt_0_compat. }
  split; [exact Hmx|]. split; [exact Hmy|].
  unfold boxextent_ellipse. cbn [lit add sub mul div dsqrt ltb RealArith].
  replace (4 / 1)%R with 4%R by field.
  replace (0 / 1)%R with 0%R by field.
  now rewrite !RFacts.ltb_true by assumption.
Qed.

(** A box that [boxextent_ellipse] returns holds every pixel of the
    image whose center is in the ellipse. *)
Lemma ellipse_box_cover_some
        (M : Macros R) (x y cxx cyy cxy r : R) (w h flag ix iy : Z)
        (bx : box) (fl : Z) :
  (0 < cxx * cyy - cxy * cxy / 4)%R -> (0 < cxx + cyy)%R -> (0 <= r)%R ->
  boxextent_ellipse x y cxx cyy cxy r w h flag = Some (bx, fl) ->
  0 <= ix < w -> 0 <= iy < h ->
  (let dx := IZR ix - x in
   let dy := IZR iy - y in
   cxx * dx * dx + cyy * dy * dy + cxy * dx * dy <= r * r)%R ->
  xmin bx <= ix < xmax bx /\ ymin bx <= iy < ymax bx.
Proof.
  intros Hdet Hp Hr E Hx Hy HQ. cbv zeta in HQ.
  destruct (ec_pos cxx cyy cxy Hdet Hp) as [Hcx Hcy].
  destruct (ellipse_extents M x y cxx cyy cxy r w h flag Hdet Hp)
    as (Hmx & Hmy & Ee).
  rewrite Ee in E.
  eapply box_cover_some; [exact E | assumption | assumption | |].
  - apply (ec_axis cxy r Hr cxx cyy _ (IZR iy - y)%R); [assumption..|].
    lra.
  - apply (ec_axis cxy r Hr cyy cxx _ (IZR ix - x)%R); [assumption..|].
    lra.
Qed.

(** [boxextent_ellipse] returns a box when the ellipse is within the
    reach of an [int]. *)
Lemma ellipse_box_exists
        (M : Macros R) (x y cxx cyy cxy r : R) (w h flag : Z) :
  (0 < cxx * cyy - cxy * cxy / 4)%R -> (0 < cxx + cyy)%R -> (0 <= r)%R ->
  (Rabs x + r / sqrt (cxx - cxy * cxy / (4 * cyy)) <= 2147483646)%R ->
  (Rabs y + r / sqrt (cyy - cxy * cxy / (4 * cxx)) <= 2147483646)%R ->
  exists bx fl,
    boxextent_ellipse x y cxx cyy cxy r w h flag = Some (bx, fl).
Proof.
  intros Hdet Hp Hr Hrx Hry.
  destruct (ellipse_extents M x y cxx cyy cxy r w h flag Hdet Hp)
    as (Hmx & Hmy & Ee).
  assert (H1 : (0 <= r / sqrt (cxx - cxy * cxy / (4 * cyy)))%R).
  { apply Rmult_le_pos; [assumption|].
    apply Rlt_le, Rinv_0_lt_compat. now apply sqrt_lt_R0. }
  assert (H2 : (0 <= r / sqrt (cyy - cxy * cxy / (4 * cxx)))%R).
  { apply Rmult_le_pos; [assumption|].
    apply Rlt_le, Rinv_0_lt_compat. now apply sqrt_lt_R0. }
  destruct (boxextent_R (M := M) x y _ _ w h flag H1 H2 Hrx Hry) as [fl E].
  rewrite Ee, E. eexists _, fl. reflexivity.
Qed.

(** The same with the offsets of the rows, on an image of fewer than
    [2^31] pixels. *)
Lemma ellipse_box_exists_fit
        (M : Macros R) (x y cxx cyy cxy r : R) (w h flag : Z) :
  (0 < cxx * cyy - cxy * cxy / 4)%R -> (0 < cxx + cyy)%R -> (0 <= r)%R ->
  0 <= w -> 0 <= h ->
  (IZR (w * h) + Rabs x + r / sqrt (cxx - cxy * cxy / (4 * cyy))
   <= 2147483646)%R ->
  (Rabs y + r / sqrt (cyy - cxy * cxy / (4 * cxx)) <= 2147483646)%R ->
  exists bx fl,
    boxextent_ellipse x y cxx cyy cxy r w h flag = Some (bx, fl)
    /\ (h - 1) * w + xmin bx <= INT_MAX.
Proof.
  intros Hdet Hp Hr Hw Hh Hrx Hry.
  destruct (ellipse_extents M x y cxx cyy cxy r w h flag Hdet Hp)
    as (Hmx & Hmy & Ee).
  assert (H1 : (0 <= r / sqrt (cxx - cxy * cxy / (4 * cyy)))%R).
  { apply Rmult_le_pos; [assumption|].
    apply Rlt_le, Rinv_0_lt_compat. now apply sqrt_lt_R0. }
  assert (H2 : (0 <= r / sqrt (cyy - cxy * cxy / (4 * cxx)))%R).
  { apply Rmult_le_pos; [assumption|].
    apply Rlt_le, Rinv_0_lt_compat. now apply sqrt_lt_R0. }
  rewrite Ee. now apply box_exists_fit.
Qed.

Lemma ellipse_box_cover
        (M : Macros R) (x y cxx cyy cxy r : R) (w h flag ix iy : Z) :
  (0 < cxx * cyy - cxy * cxy / 4)%R -> (0 < cxx + cyy)%R -> (0 <= r)%R ->
  (Rabs x + r / sqrt (cxx - cxy * cxy / (4 * cyy)) <= 2147483646)%R ->
  (Rabs y + r / sqrt (cyy - cxy * cxy / (4 * cxx)) <= 2147483646)%R ->
  0 <= ix < w -> 0 <= iy < h ->
  (let dx := IZR ix - x in
   let dy := IZR iy - y in
   cxx * dx * dx + cyy * dy * dy + cxy * dx * dy <= r * r)%R ->
  exists bx fl,
    boxextent_ellipse x y cxx cyy cxy r w h flag = Some (bx, fl)
    /\ xmin bx <= ix < xmax bx /\ ymin bx <= iy < ymax bx.
Proof.
  intros Hdet Hp Hr Hrx Hry Hx Hy HQ.
  destruct (ellipse_box_exists M x y cxx cyy cxy r w h flag Hdet Hp Hr Hrx Hry)
    as (bx & fl & E).
  exists bx, fl. split; [exact E|].
  eapply ellipse_box_cover_some; eassumption.
Qed.

(** In exact arithmetic, for the coefficients of an ellipse, a
    non-negative [r] and an ellipse within the reach of an [int] (its
    center and half-extents such that the four bounds that [boxextent]
    casts lie between [-2147483646] and [2147483648]),
    [boxextent_ellipse] returns a box, and the box misses no pixel of
    the image whose center satisfies
    [cxx*dx^2 + cyy*dy^2 + cxy*dx*dy <= r^2]. *)
Theorem boxextent_ellipse_covers
        (M : Macros R) (x y cxx cyy cxy r : R) (w h flag ix iy : Z) :
  (0 < cxx * cyy - cxy * cxy / 4)%R -> (0 < cxx + cyy)%R -> (0 <= r)%R ->
  (Rabs x + r / sqrt (cxx - cxy * cxy / (4 * cyy)) <= 2147483646)%R ->
  (Rabs y + r / sqrt (cyy - cxy * cxy / (4 * cxx)) <= 2147483646)%R ->
  0 <= ix < w -> 0 <= iy < h ->
  (let dx := IZR ix - x in
   let dy := IZR iy - y in
   cxx * dx * dx + cyy * dy * dy + cxy * dx * dy <= r * r)%R ->
  exists bx fl,
    boxextent_ellipse x y cxx cyy cxy r w h flag = Some (bx, fl)
    /\ xmin bx <= ix < xmax bx /\ ymin bx <= iy < ymax bx.
Proof. apply ellipse_box_cover. Qed.

Lemma boxextent_ellipse_covers_witness :
  exists bx fl,
    boxextent_ellipse (M := MacrosR) 5%R 5%R 1%R 4%R 0%R 2%R 10 10 0
    = Some (bx, fl)
    /\ xmin bx <= 4 < xmax bx /\ ymin bx <= 5 < ymax bx.
Proof.
  apply (boxextent_ellipse_covers MacrosR 5%R 5%R 1%R 4%R 0%R 2%R 10 10 0 4 5);
    try lia; try lra.
  - replace (1 - 0 * 0 / (4 * 4))%R with 1%R by lra.
    rewrite sqrt_1, Rabs_right by lra. lra.
  - replace (4 - 0 * 0 / (4 * 1))%R with (2 * 2)%R by lra.
    rewrite sqrt_square, Rabs_right by lra. lra.
Defined.

(* ================================================================= *)
(** ** The oversampling bands and the pixel square *)

Section Band.
Open Scope R_scope.

(** A unit pixel is within [sqrt (1/2)] of its center. *)
Lemma half_diagonal (u v : R) :
  - (1 / 2) <= u <= 1 / 2 -> - (1 / 2) <= v <= 1 / 2 -> u * u + v * v <= 1 / 2.
Proof. intros Hu Hv. nra. Qed.

(** A point [P + E] with [|E| <= c < m]: inside the circle of radius [r]
    when [|P| <= r - m], outside it when [|P| >= r + m]. *)
Lemma band_geometry (P1 P2 E1 E2 r m c : R) :
  0 <= c < m -> E1 * E1 + E2 * E2 <= c * c ->
  (0 < r - m -> P1 * P1 + P2 * P2 <= (r - m) * (r - m) ->
   (P1 + E1) * (P1 + E1) + (P2 + E2) * (P2 + E2) < r * r)
  /\ (0 <= r -> (r + m) * (r + m) <= P1 * P1 + P2 * P2 ->
      r * r < (P1 + E1) * (P1 + E1) + (P2 + E2) * (P2 + E2)).
Proof.
  intros Hc HE.
  set (d := sqrt (P1 * P1 + P2 * P2)).
  set (e := sqrt (E1 * E1 + E2 * E2)).
  assert (Hd0 : 0 <= d) by apply sqrt_pos.
  assert (He0 : 0 <= e) by apply sqrt_pos.
  assert (Hd2 : d * d = P1 * P1 + P2 * P2) by (apply sqrt_sqrt; nra).
  assert (He2 : e * e = E1 * E1 + E2 * E2) by (apply sqrt_sqrt; nra).
  assert (Hec : e <= c) by nra.
  set (s := P1 * E1 + P2 * E2).
  assert (Hcs : s * s <= (d * e) * (d * e)).
  { replace (d * e * (d * e)) with ((d * d) * (e * e)) by ring.
    rewrite Hd2, He2. unfold s.
    pose proof (Rle_0_sqr (P1 * E2 - P2 * E1)) as H. unfold Rsqr in H. nra. }
  assert (Hde : 0 <= d * e) by now apply Rmult_le_pos.
  assert (Hs : - (d * e) <= s <= d * e) by nra.
  assert (Ex : (P1 + E1) * (P1 + E1) + (P2 + E2) * (P2 + E2)
               = d * d + e * e + 2 * s) by (rewrite Hd2, He2; unfold s; ring).
  rewrite Ex. split.
  - intros Hr HP. rewrite <- Hd2 in HP.
    assert (Hdr : d <= r - m) by nra.
    assert (H1 : d * d + e * e + 2 * s <= (d + e) * (d + e)) by nra.
    assert (H2 : 0 <= d + e < r) by lra.
    nra.
  - intros Hr HP. rewrite <- Hd2 in HP.
    assert (Hdr : r + m <= d) by nra.
    assert (H1 : (d - e) * (d - e) <= d * d + e * e + 2 * s) by nra.
    assert (H2 : r < d - e) by lra.
    nra.
Qed.
End Band.

(** In exact arithmetic, for [r >= 0], the band
    [(r_in2, r_out2)] of [oversamp_ann_circle] brackets [r^2], and sorts
    the pixels by their center [(dx, dy)]: with [dx^2 + dy^2 <= r_in2]
    and [r_in2 > 0], every point of the unit pixel is strictly inside the
    circle of radius [r]; with [dx^2 + dy^2 >= r_out2] every point of it
    is strictly outside. *)
Theorem oversamp_circle_band (r : R) :
  (0 <= r)%R ->
  let '(r_in2, r_out2) := oversamp_ann_circle r in
  (0 <= r_in2 <= r * r)%R /\ (r * r < r_out2)%R
  /\ forall dx dy u v : R,
       (- (1 / 2) <= u <= 1 / 2)%R -> (- (1 / 2) <= v <= 1 / 2)%R ->
       ((0 < r_in2)%R -> (dx * dx + dy * dy <= r_in2)%R ->
        ((dx + u) * (dx + u) + (dy + v) * (dy + v) < r * r)%R)
       /\ ((r_out2 <= dx * dx + dy * dy)%R ->
           (r * r < (dx + u) * (dx + u) + (dy + v) * (dy + v))%R).
Proof.
  intros Hr. unfold oversamp_ann_circle.
  cbn [lit add sub mul ltb RealArith].
  replace (0 / 1)%R with 0%R by field.
  destruct (Rlt_dec 0 (r - 7072 / 10000)) as [Hm|Hm].
  - rewrite RFacts.ltb_true by assumption.
    split; [nra|]. split; [nra|].
    intros dx dy u v Hu Hv.
    pose proof (half_diagonal u v Hu Hv) as He.
    destruct (band_geometry dx dy u v r (7072 / 10000) (70711 / 100000))
      as [Hin Hout]; [lra | lra |].
    split; [intros _ H; now apply Hin | intros H; now apply Hout].
  - rewrite RFacts.ltb_false by lra.
    split; [nra|]. split; [nra|].
    intros dx dy u v Hu Hv.
    pose proof (half_diagonal u v Hu Hv) as He.
    destruct (band_geometry dx dy u v r (7072 / 10000) (70711 / 100000))
      as [_ Hout]; [lra | lra |].
    split; [intros H; lra | intros H; now apply Hout].
Qed.

Lemma oversamp_circle_band_witness :
  let '(r_in2, r_out2) := oversamp_ann_circle 3%R in
  (0 <= r_in2 <= 3 * 3)%R /\ (3 * 3 < r_out2)%R
  /\ forall dx dy u v : R,
       (- (1 / 2) <= u <= 1 / 2)%R -> (- (1 / 2) <= v <= 1 / 2)%R ->
       ((0 < r_in2)%R -> (dx * dx + dy * dy <= r_in2)%R ->
        ((dx + u) * (dx + u) + (dy + v) * (dy + v) < 3 * 3)%R)
       /\ ((r_out2 <= dx * dx + dy * dy)%R ->
           (3 * 3 < (dx + u) * (dx + u) + (dy + v) * (dy + v))%R).
Proof.
  apply (oversamp_circle_band 3%R). lra.
Defined.

(** In exact arithmetic, for semi-axes [a >= b > 0] and [r >= 0]: with
    the coefficients of [sep_ellipse_coeffs] and the form
    [Q(u, v) = cxx u^2 + cyy v^2 + cxy u v], the band of
    [oversamp_ann_ellipse] brackets [r^2], and sorts the pixels by their
    center: with [Q(dx, dy) <= r_in2] and [r_in2 > 0] every point of the
    unit pixel has [Q < r^2]; with [Q(dx, dy) >= r_out2] every point of
    it has [Q > r^2]. *)
Theorem oversamp_ellipse_band (a b theta r : R) :
  (0 < b)%R -> (b <= a)%R -> (0 <= r)%R ->
  let '(cxx, cyy, cxy) := sep_ellipse_coeffs a b theta in
  let '(r_in2, r_out2) := oversamp_ann_ellipse r b in
  let Q := fun u v : R => (cxx * u * u + cyy * v * v + cxy * u * v)%R in
  (0 <= r_in2 <= r * r)%R /\ (r * r < r_out2)%R
  /\ forall dx dy u v : R,
       (- (1 / 2) <= u <= 1 / 2)%R -> (- (1 / 2) <= v <= 1 / 2)%R ->
       ((0 < r_in2)%R -> (Q dx dy <= r_in2)%R -> (Q (dx + u) (dy + v) < r * r)%R)
       /\ ((r_out2 <= Q dx dy)%R -> (r * r < Q (dx + u) (dy + v))%R).
Proof.
  intros Hb Hab Hr.
  assert (Ha0 : a <> 0%R) by lra. assert (Hb0 : b <> 0%R) by lra.
  pose proof (fun u v => coeffs_rotated a b theta u v Ha0 Hb0) as Hrot.
  destruct (sep_ellipse_coeffs a b theta) as [[cxx cyy] cxy].
  unfold oversamp_ann_ellipse. cbn [lit add sub mul div ltb RealArith].
  replace (0 / 1)%R with 0%R by field.
  set (m := (7072 / 10000 / b)%R).
  assert (Hm : (0 < m)%R) by (apply Rdiv_lt_0_compat; lra).
  set (c := (70711 / 100000 / b)%R).
  assert (Hc : (0 <= c < m)%R).
  { unfold c, m. split.
    - apply Rlt_le, Rdiv_lt_0_compat; lra.
    - apply Rmult_lt_compat_r; [now apply Rinv_0_lt_compat | lra]. }
  (* the offset within the pixel, in the coordinates along the axes *)
  assert (HE : forall u v : R,
             (- (1 / 2) <= u <= 1 / 2)%R -> (- (1 / 2) <= v <= 1 / 2)%R ->
             (((u * cos theta + v * sin theta) / a)
              * ((u * cos theta + v * sin theta) / a)
              + ((v * cos theta - u * sin theta) / b)
                * ((v * cos theta - u * sin theta) / b) <= c * c)%R).
  { intros u v Hu Hv. pose proof (half_diagonal u v Hu Hv) as Hd.
    pose proof (sin2_cos2 theta) as Hsc. unfold Rsqr in Hsc.
    set (e1 := (u * cos theta + v * sin theta)%R).
    set (e2 := (v * cos theta - u * sin theta)%R).
    assert (He : (e1 * e1 + e2 * e2 = u * u + v * v)%R).
    { unfold e1, e2.
      transitivity ((u * u + v * v)
                    * (sin theta * sin theta + cos theta * cos theta))%R;
        [ring | rewrite Hsc; ring]. }
    assert (H1 : (e1 / a * (e1 / a) <= e1 / b * (e1 / b))%R).
    { replace (e1 / a * (e1 / a))%R with (e1 * e1 * (/ a * / a))%R
        by (field; assumption).
      replace (e1 / b * (e1 / b))%R with (e1 * e1 * (/ b * / b))%R
        by (field; assumption).
      apply Rmult_le_compat_l; [nra|].
      assert (0 < / a)%R by (apply Rinv_0_lt_compat; lra).
      assert (/ a <= / b)%R by (apply Rinv_le_contravar; lra).
      nra. }
    apply Rle_trans with ((e1 * e1 + e2 * e2) / (b * b))%R.
    - replace ((e1 * e1 + e2 * e2) / (b * b))%R
        with (e1 / b * (e1 / b) + e2 / b * (e2 / b))%R by (field; assumption).
      lra.
    - rewrite He. unfold c.
      replace (70711 / 100000 / b * (70711 / 100000 / b))%R
        with ((70711 / 100000) * (70711 / 100000) / (b * b))%R
        by (field; assumption).
      apply Rmult_le_compat_r; [|lra].
      apply Rlt_le, Rinv_0_lt_compat. nra. }
  assert (Hgeo : forall dx dy u v : R,
             (- (1 / 2) <= u <= 1 / 2)%R -> (- (1 / 2) <= v <= 1 / 2)%R ->
             ((0 < r - m)%R ->
              (cxx * dx * dx + cyy * dy * dy + cxy * dx * dy
               <= (r - m) * (r - m))%R ->
              (cxx * (dx + u) * (dx + u) + cyy * (dy + v) * (dy + v)
               + cxy * (dx + u) * (dy + v) < r * r)%R)
             /\ ((r + m) * (r + m)
                 <= cxx * dx * dx + cyy * dy * dy + cxy * dx * dy ->
                 r * r < cxx * (dx + u) * (dx + u) + cyy * (dy + v) * (dy + v)
                         + cxy * (dx + u) * (dy + v))%R).
  { intros dx dy u v Hu Hv.
    rewrite (Hrot dx dy), (Hrot (dx + u) (dy + v))%R.
    destruct (band_geometry
                ((dx * cos theta + dy * sin theta) / a)
                ((dy * cos theta - dx * sin theta) / b)
                ((u * cos theta + v * sin theta) / a)
                ((v * cos theta - u * sin theta) / b) r m c Hc (HE u v Hu Hv))
      as [Hin Hout].
    replace (((dx + u) * cos theta + (dy + v) * sin theta) / a)%R
      with ((dx * cos theta + dy * sin theta) / a
            + (u * cos theta + v * sin theta) / a)%R by (field; assumption).
    replace (((dy + v) * cos theta - (dx + u) * sin theta) / b)%R
      with ((dy * cos theta - dx * sin theta) / b
            + (v * cos theta - u * sin theta) / b)%R by (field; assumption).
    split; [exact Hin | intros H; now apply Hout]. }
  fold m. cbv zeta.
  destruct (Rlt_dec 0 (r - m)) as [Hlt|Hge].
  - rewrite RFacts.ltb_true by assumption.
    split; [nra|]. split; [nra|].
    intros dx dy u v Hu Hv. destruct (Hgeo dx dy u v Hu Hv) as [Hin Hout].
    split; [intros _ H; now apply Hin | exact Hout].
  - rewrite RFacts.ltb_false by lra.
    split; [nra|]. split; [nra|].
    intros dx dy u v Hu Hv. destruct (Hgeo dx dy u v Hu Hv) as [_ Hout].
    split; [intros H; lra | exact Hout].
Qed.

Lemma oversamp_ellipse_band_witness :
  let '(cxx, cyy, cxy) := sep_ellipse_coeffs 2%R 1%R 0%R in
  let '(r_in2, r_out2) := oversamp_ann_ellipse 3%R 1%R in
  let Q := fun u v : R => (cxx * u * u + cyy * v * v + cxy * u * v)%R in
  (0 <= r_in2 <= 3 * 3)%R /\ (3 * 3 < r_out2)%R
  /\ forall dx dy u v : R,
       (- (1 / 2) <= u <= 1 / 2)%R -> (- (1 / 2) <= v <= 1 / 2)%R ->
       ((0 < r_in2)%R -> (Q dx dy <= r_in2)%R -> (Q (dx + u) (dy + v) < 3 * 3)%R)
       /\ ((r_out2 <= Q dx dy)%R -> (3 * 3 < Q (dx + u) (dy + v))%R).
Proof.
  apply (oversamp_ellipse_band 2%R 1%R 0%R 3%R); lra.
Defined.

(* ================================================================= *)
(** ** [sep_ppf] in exact arithmetic: range, order, inverse *)

Section PpfReal.
Open Scope R_scope.
Variables (xmax : R) (y : list R).
Hypothesis y_bins : y <> [].
Let n := length y.
Let step := xmax / IZR (Z.of_nat n).

Lemma pr_n_pos : (0 < n)%nat.
Proof. unfold n. destruct y; [congruence | simpl; lia]. Qed.

Lemma pr_n_real : 0 < IZR (Z.of_nat n).
Proof. apply IZR_lt. pose proof pr_n_pos. lia. Qed.

Lemma pr_step_n : step * IZR (Z.of_nat n) = xmax.
Proof. unfold step. field. pose proof pr_n_real. lra. Qed.

Lemma pr_reaches (t : R) (k : nat) :
  ppf_reaches y t k = true <-> t <= ppf_cum y k.
Proof.
  unfold ppf_reaches. rewrite negb_true_iff. cbn [ltb RealArith].
  apply RFacts.ltb_false_iff.
Qed.

Lemma pr_not_reaches (t : R) (k : nat) :
  ppf_reaches y t k = false <-> ppf_cum y k < t.
Proof.
  unfold ppf_reaches. rewrite negb_false_iff. cbn [ltb RealArith].
  apply RFacts.ltb_iff.
Qed.

(** Where the scan stops at a count [S j] below [n]: the bin [j] just
    added is positive and carries the cumulative sum across the
    target. *)
Lemma pr_found (t : R) (j : nat) :
  find (ppf_reaches y t) (seq 0 n) = Some (S j) ->
  (S j < n)%nat
  /\ ppf_cum y j < t <= ppf_cum y (S j)
  /\ ppf_cum y (S j) = ppf_cum y j + yget y (Z.of_nat j)
  /\ (forall k, (k <= j)%nat -> ppf_cum y k < t).
Proof.
  intros Hf. apply find_seq_first in Hf. destruct Hf as (Hj & Hr & Hfirst).
  apply pr_reaches in Hr.
  assert (Hall : forall k, (k <= j)%nat -> ppf_cum y k < t).
  { intros k Hk. apply pr_not_reaches, Hfirst. lia. }
  split; [lia|]. split; [split; [apply Hall; lia | exact Hr]|].
  split; [|exact Hall].
  rewrite ppf_cum_S by (unfold n in Hj; lia). reflexivity.
Qed.

(** The interpolated radius lies in the bin where the scan stops. *)
Lemma pr_interp_bin (t : R) (j : nat) :
  0 <= xmax ->
  find (ppf_reaches y t) (seq 0 n) = Some (S j) ->
  step * IZR (Z.of_nat j) <= ppf_interp xmax y t (S j)
  <= step * IZR (Z.of_nat (S j)).
Proof.
  intros Hx Hf. destruct (pr_found t j Hf) as (Hj & [Hlo Hhi] & Ec & _).
  unfold ppf_interp. cbn [of_int add sub mul div RealArith].
  fold n. fold step.
  replace (Z.of_nat (S j) - 1)%Z with (Z.of_nat j) by lia.
  set (v := yget y (Z.of_nat j)) in *.
  assert (Hv : 0 < v) by lra.
  assert (Hs : 0 <= step).
  { unfold step. apply Rmult_le_pos; [assumption|].
    apply Rlt_le, Rinv_0_lt_compat, pr_n_real. }
  rewrite Nat2Z.inj_succ, succ_IZR.
  assert (Hd : -1 < (t - ppf_cum y (S j)) / v <= 0).
  { split.
    - apply Rmult_lt_reg_r with v; [assumption|].
      replace ((t - ppf_cum y (S j)) / v * v) with (t - ppf_cum y (S j))
        by (field; lra). lra.
    - apply Rmult_le_reg_r with v; [assumption|].
      replace ((t - ppf_cum y (S j)) / v * v) with (t - ppf_cum y (S j))
        by (field; lra). lra. }
  split; nra.
Qed.

Lemma pr_spec_range (frac : R) :
  0 <= xmax -> 0 <= ppf_spec xmax y frac <= xmax.
Proof.
  intros Hx. unfold ppf_spec. fold n.
  set (t := (frac * ppf_cum y n)%D).
  destruct (find _ _) as [[|j]|] eqn:Hf.
  - cbn. lra.
  - pose proof (pr_interp_bin t j Hx Hf) as Hb.
    destruct (pr_found t j Hf) as (Hj & _).
    assert (Hs : 0 <= step).
    { unfold step. apply Rmult_le_pos; [assumption|].
      apply Rlt_le, Rinv_0_lt_compat, pr_n_real. }
    assert (H0 : 0 <= IZR (Z.of_nat j)) by (apply IZR_le; lia).
    assert (H1 : IZR (Z.of_nat (S j)) <= IZR (Z.of_nat n)) by (apply IZR_le; lia).
    pose proof pr_step_n as En.
    split; [nra|].
    apply Rle_trans with (step * IZR (Z.of_nat (S j))); [lra|].
    rewrite <- En. now apply Rmult_le_compat_l.
  - lra.
Qed.

Lemma pr_spec_monotone (f1 f2 : R) :
  0 <= xmax -> 0 <= ppf_cum y n -> f1 <= f2 ->
  ppf_spec xmax y f1 <= ppf_spec xmax y f2.
Proof.
  intros Hx Hsum Hf.
  pose proof (pr_spec_range f2 Hx) as R2.
  pose proof (pr_spec_range f1 Hx) as R1.
  unfold ppf_spec in R1, R2 |- *. fold n in R1, R2 |- *.
  cbn [mul RealArith] in R1, R2 |- *.
  set (t1 := f1 * ppf_cum y n) in *. set (t2 := f2 * ppf_cum y n) in *.
  assert (Ht : t1 <= t2) by (unfold t1, t2; nra).
  assert (Hs : 0 <= step).
  { unfold step. apply Rmult_le_pos; [assumption|].
    apply Rlt_le, Rinv_0_lt_compat, pr_n_real. }
  destruct (find (ppf_reaches y t1) (seq 0 n)) as [[|j1]|] eqn:E1.
  - (* the first radius is 0 *) cbn [lit RealArith] in *. lra.
  - destruct (pr_found t1 j1 E1) as (Hj1 & [Hlo1 Hhi1] & Ec1 & Hall1).
    pose proof (pr_interp_bin t1 j1 Hx E1) as B1.
    destruct (find (ppf_reaches y t2) (seq 0 n)) as [[|j2]|] eqn:E2.
    + (* the second scan cannot stop before the first *)
      apply find_seq_first in E2. destruct E2 as (_ & Hr & _).
      apply pr_reaches in Hr. specialize (Hall1 0%nat ltac:(lia)). lra.
    + destruct (pr_found t2 j2 E2) as (Hj2 & [Hlo2 Hhi2] & Ec2 & Hall2).
      pose proof (pr_interp_bin t2 j2 Hx E2) as B2.
      destruct (Nat.lt_trichotomy j1 j2) as [Hlt|[Heq|Hgt]].
      * assert (IZR (Z.of_nat (S j1)) <= IZR (Z.of_nat j2)) by (apply IZR_le; lia).
        nra.
      * subst j2. unfold ppf_interp. cbn [of_int add sub mul div RealArith].
        fold n. fold step.
        replace (Z.of_nat (S j1) - 1)%Z with (Z.of_nat j1) by lia.
        set (v := yget y (Z.of_nat j1)) in *.
        assert (Hv : 0 < v) by lra.
        assert ((t1 - ppf_cum y (S j1)) / v <= (t2 - ppf_cum y (S j1)) / v).
        { apply Rmult_le_compat_r; [apply Rlt_le, Rinv_0_lt_compat; lra | lra]. }
        nra.
      * (* [S j2 <= j1]: the first scan passed a count that reaches [t2] *)
        specialize (Hall1 (S j2) ltac:(lia)). lra.
    + (* the second radius is [xmax] *)
      assert (H1 : IZR (Z.of_nat (S j1)) <= IZR (Z.of_nat n)) by (apply IZR_le; lia).
      pose proof pr_step_n as En. nra.
  - (* the first radius is [xmax]: so is the second *)
    destruct (find (ppf_reaches y t2) (seq 0 n)) as [j2|] eqn:E2; [|lra].
    apply find_seq_first in E2. destruct E2 as (Hj2 & Hr & _).
    apply pr_reaches in Hr.
    pose proof (find_seq_none _ _ _ E1 j2 ltac:(lia)) as Hn.
    apply pr_not_reaches in Hn. lra.
Qed.

(** The profile at the interpolated radius. *)
Lemma pr_profile_interp (t : R) (j : nat) :
  0 < xmax ->
  find (ppf_reaches y t) (seq 0 n) = Some (S j) ->
  ppf_profile xmax y (ppf_interp xmax y t (S j)) = t.
Proof.
  intros Hx Hf. destruct (pr_found t j Hf) as (Hj & [Hlo Hhi] & Ec & _).
  assert (Hs : 0 < step).
  { unfold step. apply Rdiv_lt_0_compat; [assumption | apply pr_n_real]. }
  unfold ppf_profile. fold n. fold step.
  set (v := yget y (Z.of_nat j)) in *.
  assert (Hv : 0 < v) by lra.
  assert (Er : ppf_interp xmax y t (S j) / step
               = IZR (Z.of_nat (S j)) + (t - ppf_cum y (S j)) / v).
  { unfold ppf_interp. cbn [of_int add sub mul div RealArith].
    fold n. fold step.
    replace (Z.of_nat (S j) - 1)%Z with (Z.of_nat j) by lia. fold v.
    field. lra. }
  rewrite Er. rewrite Nat2Z.inj_succ, succ_IZR.
  set (d := (t - ppf_cum y (S j)) / v).
  assert (Hdv : d * v = t - ppf_cum y (S j)) by (unfold d; field; lra).
  destruct (Req_dec_T t (ppf_cum y (S j))) as [Heq|Hne].
  - (* the target is met exactly at the end of bin [j] *)
    assert (Hd0 : d = 0) by (unfold d; rewrite Heq; field; lra).
    rewrite Hd0, Rplus_0_r.
    replace (IZR (Z.of_nat j) + 1) with (IZR (Z.of_nat j + 1)) by (rewrite plus_IZR; lra).
    rewrite ZfloorZ.
    replace (Z.to_nat (Z.of_nat j + 1)) with (S j) by lia. lra.
  - assert (Hd : -1 < d < 0).
    { split.
      - apply Rmult_lt_reg_r with v; [assumption|]. lra.
      - apply Rmult_lt_reg_r with v; [assumption|]. lra. }
    rewrite (Zfloor_eq (Z.of_nat j)) by lra.
    rewrite Nat2Z.id. fold v. nra.
Qed.
End PpfReal.

Lemma ppf_radii_range (xmax : R) (y frac : list R) (nfrac : Z) :
  y <> [] -> (0 <= xmax)%R ->
  Forall (fun r => 0 <= r <= xmax)%R
         (sep_ppf xmax y (Z.of_nat (length y)) frac nfrac).
Proof.
  intros Hy Hx. rewrite sep_ppf_spec by assumption.
  apply Forall_forall. intros r Hr. apply in_map_iff in Hr.
  destruct Hr as (f & <- & _). now apply pr_spec_range.
Qed.

(** In exact arithmetic, for a profile of [n >= 1] bins (of either sign)
    and [xmax >= 0], every radius that [sep_ppf] returns lies in
    [[0, xmax]], whatever the fractions. *)
Theorem sep_ppf_range (xmax : R) (y frac : list R) (nfrac : Z) :
  y <> [] -> (0 <= xmax)%R ->
  Forall (fun r => 0 <= r <= xmax)%R
         (sep_ppf xmax y (Z.of_nat (length y)) frac nfrac).
Proof. apply ppf_radii_range. Qed.

Lemma sep_ppf_range_witness :
  Forall (fun r => 0 <= r <= 4)%R
         (sep_ppf 4%R [10; -5; 10; 10]%R (Z.of_nat (length [10; -5; 10; 10]%R))
                  [1 / 2; 2; -1]%R 3).
Proof.
  apply (sep_ppf_range 4%R [10; -5; 10; 10]%R [1 / 2; 2; -1]%R 3);
    [discriminate | lra].
Defined.

(** In exact arithmetic, for a profile of [n >= 1] bins whose sum is not
    negative and [xmax >= 0], the radius that [sep_ppf] returns for a
    fraction does not decrease when the fraction grows. *)
Theorem sep_ppf_monotone (xmax : R) (y : list R) (f1 f2 : R) :
  y <> [] -> (0 <= xmax)%R -> (0 <= ppf_sum y (Z.of_nat (length y)))%R ->
  (f1 <= f2)%R ->
  exists r1 r2 : R,
    sep_ppf xmax y (Z.of_nat (length y)) [f1; f2] 2 = [r1; r2] /\ (r1 <= r2)%R.
Proof.
  intros Hy Hx Hs Hf. rewrite sep_ppf_spec by assumption.
  change (Z.to_nat 2) with 2%nat. cbn [firstn map].
  eexists _, _. split; [reflexivity|].
  rewrite ppf_sum_cum in Hs. now apply pr_spec_monotone.
Qed.

Lemma sep_ppf_monotone_witness :
  exists r1 r2 : R,
    sep_ppf 4%R [10; 10; 10; 10]%R (Z.of_nat (length [10; 10; 10; 10]%R))
            [1 / 4; 1 / 2]%R 2 = [r1; r2] /\ (r1 <= r2)%R.
Proof.
  apply (sep_ppf_monotone 4%R [10; 10; 10; 10]%R (1 / 4)%R (1 / 2)%R);
    [discriminate | lra | | lra].
  unfold ppf_sum. reval. lra.
Defined.

(** In exact arithmetic, for a profile of [n >= 1] bins and [xmax > 0]:
    when the target [frac * sum] is positive and reached by the
    cumulative sum of fewer than [n] bins, the radius that [sep_ppf]
    returns is a radius at which the cumulative profile equals the
    target. *)
Theorem sep_ppf_inverse (xmax : R) (y : list R) (frac : R) (k : nat) :
  y <> [] -> (0 < xmax)%R ->
  let targsum := (frac * ppf_sum y (Z.of_nat (length y)))%R in
  (0 < targsum)%R -> (k < length y)%nat -> (targsum <= ppf_cum y k)%R ->
  exists r : R,
    sep_ppf xmax y (Z.of_nat (length y)) [frac] 1 = [r]
    /\ ppf_profile xmax y r = targsum.
Proof.
  intros Hy Hx targsum Ht Hk Hreach. rewrite sep_ppf_spec by assumption.
  change (Z.to_nat 1) with 1%nat. cbn [firstn map].
  eexists. split; [reflexivity|].
  unfold targsum in *. rewrite ppf_sum_cum in *.
  unfold ppf_spec. cbn [mul RealArith].
  set (t := (frac * ppf_cum y (length y))%R) in *.
  destruct (find (ppf_reaches y t) (seq 0 (length y))) as [[|j]|] eqn:Hf.
  - apply find_seq_first in Hf. destruct Hf as (_ & Hr & _).
    apply (pr_reaches y) in Hr. unfold ppf_cum in Hr at 1. cbn in Hr. lra.
  - now apply pr_profile_interp.
  - pose proof (find_seq_none _ _ _ Hf k ltac:(lia)) as Hn.
    apply (pr_not_reaches y) in Hn. lra.
Qed.

Lemma sep_ppf_inverse_witness :
  exists r : R,
    sep_ppf 4%R [10; 10; 10; 10]%R (Z.of_nat (length [10; 10; 10; 10]%R))
            [1 / 4]%R 1 = [r]
    /\ ppf_profile 4%R [10; 10; 10; 10]%R r
       = (1 / 4 * ppf_sum [10; 10; 10; 10] (Z.of_nat (length [10; 10; 10; 10]%R)))%R.
Proof.
  apply (sep_ppf_inverse 4%R [10; 10; 10; 10]%R (1 / 4)%R 1%nat);
    [discriminate | lra | | simpl; lia | ].
  - unfold ppf_sum. reval. lra.
  - unfold ppf_sum, ppf_cum. reval. lra.
Defined.

(* ================================================================= *)
(** ** [sep_set_ellipse]: the array after the call *)

Lemma in_box_pixels (bx : box) (ix iy : Z) :
  In (ix, iy) (box_pixels bx)
  <-> xmin bx <= ix < xmax bx /\ ymin bx <= iy < ymax bx.
Proof.
  unfold box_pixels. rewrite in_flat_map. split.
  - intros (j & Hj & Hp). apply in_map_iff in Hp. destruct Hp as (i & E & Hi).
    injection E as <- <-. apply in_zrange in Hj. apply in_zrange in Hi. lia.
  - intros [Hx Hy]. exists iy. split; [now apply in_zrange|].
    apply in_map_iff. exists ix. split; [reflexivity | now apply in_zrange].
Qed.

Section SetFold.
Context {D : Type} {A : Arith D} {M : Macros D}.
Variables (w h : Z) (x y cxx cyy cxy r2 : D) (val : Z).

Let hit := set_hit x y cxx cyy cxy r2.
Let paint1 := paint w x y cxx cyy cxy r2 val.

(** The loops of [sep_set_ellipse] apply [paint] to the pixels of the
    box in scan order. *)
Lemma set_pixels_paint (yi : Z) (k : nat) :
  forall (xi : Z) (st : list Z * list access),
  option_map fst
    (set_pixels x cxx cyy cxy r2 val k xi yi (yi * w + xi)
                (of_int yi - y)%D ((of_int yi - y) * (of_int yi - y))%D st)
  = fold_opt paint1 (row_from xi yi k) (fst st).
Proof.
  induction k as [|k IH]; intros xi st; [reflexivity|].
  rewrite row_from_S. cbn [set_pixels fold_opt].
  unfold paint1 at 1, paint, set_hit. cbn [fst snd].
  destruct (_ <=? r2)%D.
  - destruct (aset (fst st) (yi * w + xi) val) as [arr|]; [|reflexivity].
    cbn [bind]. replace (yi * w + xi + 1) with (yi * w + (xi + 1)) by ring.
    now rewrite IH.
  - cbn [bind]. replace (yi * w + xi + 1) with (yi * w + (xi + 1)) by ring.
    now rewrite IH.
Qed.

Lemma set_rows_paint (bx : box) (k : nat) :
  0 <= w -> 0 <= xmin bx -> (h - 1) * w + xmin bx <= INT_MAX ->
  forall (yi : Z) (st : list Z * list access),
  0 <= yi -> (k <> 0%nat -> yi + Z.of_nat k <= h) ->
  option_map fst (set_rows w x y cxx cyy cxy r2 val k bx yi st)
  = fold_opt paint1 (rows_from bx yi k) (fst st).
Proof.
  intros Hw Hx0 Hmax.
  induction k as [|k IH]; intros yi st H0 Hh; [reflexivity|].
  specialize (Hh ltac:(discriminate)). rewrite Nat2Z.inj_succ in Hh.
  rewrite rows_from_S, fold_opt_app. cbn [set_rows].
  unfold set_row.
  assert (Hrow : 0 <= yi * w <= (h - 1) * w).
  { split; [lia|]. apply Z.mul_le_mono_nonneg_r; lia. }
  rewrite int_val_eq by (unfold INT_MIN, INT_MAX in *; lia). cbn [bind].
  rewrite int_val_eq by (unfold INT_MIN, INT_MAX in *; lia). cbn [bind].
  rewrite <- set_pixels_paint.
  destruct (set_pixels _ _ _ _ _ _ _ _ _ _ _ _ st) as [st1|]; [|reflexivity].
  cbn [bind option_map]. apply IH; lia.
Qed.

(** What a run of [paint] over a list of pixels leaves in the array,
    when every pixel of the list has its offset inside the array. *)
Lemma paint_fold (l : list (Z * Z)) :
  forall arr : list Z,
  (forall p, In p l -> 0 <= snd p * w + fst p < Z.of_nat (length arr)) ->
  exists arr',
    fold_opt paint1 l arr = Some arr'
    /\ length arr' = length arr
    /\ forall k, aget arr' k
                 = if painted w x y cxx cyy cxy r2 l k then Some val
                   else aget arr k.
Proof.
  induction l as [|p l IH]; intros arr Hin.
  - exists arr. repeat split. 
  - cbn [fold_opt]. unfold paint1 at 1, paint. fold hit.
    assert (Hp : 0 <= snd p * w + fst p < Z.of_nat (length arr))
      by (apply Hin; now left).
    destruct (hit p) eqn:Eh.
    + rewrite aset_some by assumption. cbn [bind].
      destruct (IH (upd arr (Z.to_nat (snd p * w + fst p)) val))
        as (arr' & E & El & Hk).
      { intros q Hq. rewrite upd_length. apply Hin. now right. }
      exists arr'. split; [exact E|]. rewrite upd_length in El.
      split; [exact El|]. intros k. rewrite Hk.
      unfold painted. cbn [existsb]. fold hit. rewrite Eh. cbn [andb].
      destruct (existsb _ l); [now rewrite orb_true_r|]. rewrite orb_false_r.
      destruct (Z.eqb_spec (snd p * w + fst p) k) as [<-|Hne].
      * now apply aget_upd_same.
      * destruct (Z_lt_dec k 0) as [Hneg|Hpos].
        -- unfold aget. now replace (k <? 0) with true
             by (symmetry; apply Z.ltb_lt; lia).
        -- apply aget_upd_other; lia.
    + cbn [bind]. destruct (IH arr) as (arr' & E & El & Hk).
      { intros q Hq. apply Hin. now right. }
      exists arr'. split; [exact E|]. split; [exact El|].
      intros k. rewrite Hk. unfold painted. cbn [existsb]. fold hit.
      now rewrite Eh.
Qed.
End SetFold.

Section SetReal.
Context {M : Macros R}.
Open Scope R_scope.
Variables (arr : list Z) (w h : Z) (x y cxx cyy cxy r : R) (val : Z).
Hypothesis Hdet : 0 < cxx * cyy - cxy * cxy / 4.
Hypothesis Hp : 0 < cxx + cyy.
Hypothesis Hr : 0 <= r.
Hypothesis Hw0 : (0 <= w)%Z.
Hypothesis Hh0 : (0 <= h)%Z.
Hypothesis Hrx :
  IZR (w * h) + Rabs x + r / sqrt (cxx - cxy * cxy / (4 * cyy)) <= 2147483646.
Hypothesis Hry : Rabs y + r / sqrt (cyy - cxy * cxy / (4 * cxx)) <= 2147483646.
Hypothesis Hlen : (w * h <= Z.of_nat (length arr))%Z.

Lemma sr_offset (xi yi : Z) :
  (0 <= xi < w)%Z -> (0 <= yi < h)%Z -> (0 <= yi * w + xi < w * h)%Z.
Proof. intros Hx Hy. nia. Qed.

Lemma sr_hit (xi yi : Z) :
  set_hit x y cxx cyy cxy (r * r)%D (xi, yi) = true
  <-> cxx * (IZR xi - x) * (IZR xi - x) + cyy * (IZR yi - y) * (IZR yi - y)
      + cxy * (IZR xi - x) * (IZR yi - y) <= r * r.
Proof.
  unfold set_hit. cbn [fst snd of_int sub mul add leb RealArith].
  rewrite RFacts.leb_iff.
  replace (cyy * ((IZR yi - y) * (IZR yi - y)))
    with (cyy * (IZR yi - y) * (IZR yi - y)) by ring.
  reflexivity.
Qed.

Lemma set_ellipse_real :
  exists (arr' : list Z) (log : list access),
    sep_set_ellipse arr w h x y cxx cyy cxy r val = Some (arr', log)
    /\ length arr' = length arr
    /\ (forall xi yi : Z, (0 <= xi < w)%Z -> (0 <= yi < h)%Z ->
          aget arr' (yi * w + xi)
          = if set_hit x y cxx cyy cxy (r * r)%D (xi, yi) then Some val
            else aget arr (yi * w + xi))
    /\ (forall k : Z, (w * h <= k)%Z -> aget arr' k = aget arr k).
Proof.
  unfold sep_set_ellipse.
  destruct (ellipse_box_exists_fit M x y cxx cyy cxy r w h 0
              Hdet Hp Hr Hw0 Hh0 Hrx Hry) as (bx & fl & Eb & Hfit).
  rewrite Eb. cbn [bind].
  pose proof (boxextent_inside _ _ _ _ _ _ _ _ _ Eb) as Hbox.
  assert (Hin : forall p, In p (box_pixels bx) ->
                  (0 <= fst p < w /\ 0 <= snd p < h)%Z).
  { intros [xi yi] Hq. apply in_box_pixels in Hq. cbn [fst snd]. lia. }
  destruct (paint_fold w x y cxx cyy cxy (r * r)%D val (box_pixels bx) arr)
    as (arr' & E & El & Hk).
  { intros q Hq. destruct (Hin q Hq) as [Hx Hy].
    pose proof (sr_offset _ _ Hx Hy). lia. }
  pose proof (set_rows_paint w h x y cxx cyy cxy (r * r)%D val bx
                (Z.to_nat (ymax bx - ymin bx)) Hw0 ltac:(lia) Hfit
                (ymin bx) (arr, []) ltac:(lia)
                ltac:(intros Hnz; lia)) as Hrows.
  rewrite rows_from_box in Hrows. cbn [fst] in Hrows. rewrite E in Hrows.
  destruct (set_rows _ _ _ _ _ _ _ _ _ _ _ _) as [[arr1 log]|];
    [|discriminate]. cbn [option_map fst] in Hrows. injection Hrows as ->.
  exists arr', log. split; [reflexivity|]. split; [exact El|]. split.
  - intros xi yi Hx Hy. rewrite Hk.
    replace (painted w x y cxx cyy cxy (r * r)%D (box_pixels bx) (yi * w + xi))
      with (set_hit x y cxx cyy cxy (r * r)%D (xi, yi)); [reflexivity|].
    destruct (set_hit x y cxx cyy cxy (r * r)%D (xi, yi)) eqn:Eh; symmetry.
    + (* a pixel of the ellipse is a pixel of the box *)
      apply existsb_exists. exists (xi, yi). cbn [fst snd].
      split; [|now rewrite Eh, Z.eqb_refl].
      apply in_box_pixels. apply sr_hit in Eh.
      apply (ellipse_box_cover_some M x y cxx cyy cxy r w h 0 xi yi bx fl);
        try assumption; cbv zeta; lra.
    + (* no other pixel of the box is stored at this offset *)
      apply not_true_is_false. intros Hex. apply existsb_exists in Hex.
      destruct Hex as ([xi' yi'] & Hq & Hh). cbn [fst snd] in Hh.
      apply andb_true_iff in Hh. destruct Hh as [Hh He].
      apply Z.eqb_eq in He. destruct (Hin _ Hq) as [Hx' Hy'].
      cbn [fst snd] in Hx', Hy'.
      assert (yi' = yi) by nia. subst yi'.
      assert (xi' = xi) by lia. subst xi'. congruence.
  - intros k Hge. rewrite Hk.
    replace (painted w x y cxx cyy cxy (r * r)%D (box_pixels bx) k) with false;
      [reflexivity|].
    symmetry. apply not_true_is_false. intros Hex. apply existsb_exists in Hex.
    destruct Hex as (q & Hq & Hh). apply andb_true_iff in Hh.
    destruct Hh as [_ He]. apply Z.eqb_eq in He.
    destruct (Hin q Hq) as [Hx Hy]. pose proof (sr_offset _ _ Hx Hy). lia.
Qed.
End SetReal.

(** In exact arithmetic, for the coefficients of an ellipse, [r >= 0],
    an image and an ellipse within the reach of an [int] (the image has
    fewer than [2^31] pixels, and with the center and the half-extents
    of the ellipse the bounds that [boxextent] casts and the row
    offsets [yi*w + xmin] stay below [2^31]), and an array that holds
    the [w * h] pixels of the image: [sep_set_ellipse] is defined, keeps
    the size of the array, stores [val] at every pixel of the image
    whose center satisfies [cxx*dx^2 + cyy*dy^2 + cxy*dx*dy <= r^2], and
    leaves every other entry as it was. *)
Theorem sep_set_ellipse_paints
        (M : Macros R) (arr : list Z) (w h : Z) (x y cxx cyy cxy r : R) (val : Z) :
  (0 < cxx * cyy - cxy * cxy / 4)%R -> (0 < cxx + cyy)%R -> (0 <= r)%R ->
  0 <= w -> 0 <= h ->
  (IZR (w * h) + Rabs x + r / sqrt (cxx - cxy * cxy / (4 * cyy))
   <= 2147483646)%R ->
  (Rabs y + r / sqrt (cyy - cxy * cxy / (4 * cxx)) <= 2147483646)%R ->
  w * h <= Z.of_nat (length arr) ->
  exists (arr' : list Z) (log : list access),
    sep_set_ellipse arr w h x y cxx cyy cxy r val = Some (arr', log)
    /\ length arr' = length arr
    /\ (forall xi yi : Z, 0 <= xi < w -> 0 <= yi < h ->
          let dx := (IZR xi - x)%R in
          let dy := (IZR yi - y)%R in
          ((cxx * dx * dx + cyy * dy * dy + cxy * dx * dy <= r * r)%R ->
           aget arr' (yi * w + xi) = Some val)
          /\ ((r * r < cxx * dx * dx + cyy * dy * dy + cxy * dx * dy)%R ->
              aget arr' (yi * w + xi) = aget arr (yi * w + xi)))
    /\ (forall k : Z, w * h <= k -> aget arr' k = aget arr k).
Proof.
  intros Hdet Hp Hr Hw Hh Hrx Hry Hlen.
  destruct (set_ellipse_real arr w h x y cxx cyy cxy r val Hdet Hp Hr
              Hw Hh Hrx Hry Hlen)
    as (arr' & log & E & El & Hpix & Hout).
  exists arr', log. split; [exact E|]. split; [exact El|].
  split; [|exact Hout].
  intros xi yi Hx Hy dx dy. rewrite (Hpix xi yi Hx Hy). split.
  - intros HQ. apply (sr_hit x y cxx cyy cxy r) in HQ. now rewrite HQ.
  - intros HQ.
    destruct (set_hit x y cxx cyy cxy (r * r)%D (xi, yi)) eqn:Eh; [|reflexivity].
    apply (sr_hit x y cxx cyy cxy r) in Eh. unfold dx, dy in HQ. lra.
Qed.

Lemma sep_set_ellipse_paints_witness :
  exists (arr' : list Z) (log : list access),
    sep_set_ellipse (M := MacrosR) [0; 0; 0; 0] 2 2 0%R 0%R 1%R 1%R 0%R (1 / 2)%R 9
    = Some (arr', log)
    /\ length arr' = length [0; 0; 0; 0]
    /\ (forall xi yi : Z, 0 <= xi < 2 -> 0 <= yi < 2 ->
          let dx := (IZR xi - 0)%R in
          let dy := (IZR yi - 0)%R in
          ((1 * dx * dx + 1 * dy * dy + 0 * dx * dy <= 1 / 2 * (1 / 2))%R ->
           aget arr' (yi * 2 + xi) = Some 9)
          /\ ((1 / 2 * (1 / 2) < 1 * dx * dx + 1 * dy * dy + 0 * dx * dy)%R ->
              aget arr' (yi * 2 + xi) = aget [0; 0; 0; 0] (yi * 2 + xi)))
    /\ (forall k : Z, 2 * 2 <= k -> aget arr' k = aget [0; 0; 0; 0] k).
Proof.
  apply (sep_set_ellipse_paints MacrosR [0; 0; 0; 0] 2 2 0%R 0%R 1%R 1%R 0%R
           (1 / 2)%R 9); try lra; try lia.
  - replace (1 - 0 * 0 / (4 * 1))%R with 1%R by lra.
    rewrite sqrt_1, Rabs_R0. cbn. lra.
  - replace (1 - 0 * 0 / (4 * 1))%R with 1%R by lra.
    rewrite sqrt_1, Rabs_R0. lra.
  - simpl. lia.
Defined.

(* ================================================================= *)
(** ** [sep_kron_radius]: unresolved encodings, and the size of the
       radius *)

(** In every arithmetic: when a converter fails, the call returns its
    status at once. *)
Lemma kron_failure (D : Type) (A : Arith D) (M : Macros D) (C : Converters D)
      (data : buffer) (mask : option buffer) (dtype mdtype w h : Z)
      (maskthresh x y cxx cyy cxy r kronrad : D) :
  let s := converter_status None mask dtype dtype mdtype in
  is_ok s = false ->
  sep_kron_radius data mask dtype mdtype w h maskthresh x y cxx cyy cxy r kronrad
  = Some (KResult s kronrad 0 []).
Proof.
  intros s. subst s. unfold converter_status, sep_kron_radius.
  destruct (get_converter dtype) as [[s cv] z]. cbn [fst snd].
  destruct (is_ok s) eqn:Es; cbn [negb].
  - destruct mask as [m|].
    + destruct (get_converter mdtype) as [[s' cv'] z']. cbn [fst snd].
      intros ->. reflexivity.
    + rewrite Es. discriminate.
  - reflexivity.
Qed.

(** In every arithmetic, the converters decide the status of
    [sep_kron_radius].  When one of them fails (the data converter, or
    the mask converter when a mask is supplied), the call returns its
    status at once: [*kronrad] is as it was, [*flag] has been reset to 0
    and no pixel was read.  When they resolve, a call that returns at
    all returns [RETURN_OK]. *)
Theorem kron_status_from_converters
        (D : Type) (A : Arith D) (M : Macros D) (C : Converters D)
        (data : buffer) (mask : option buffer) (dtype mdtype w h : Z)
        (maskthresh x y cxx cyy cxy r kronrad : D) :
  let s := converter_status None mask dtype dtype mdtype in
  (s <> RETURN_OK ->
   sep_kron_radius data mask dtype mdtype w h maskthresh x y cxx cyy cxy r
                   kronrad
   = Some (KResult s kronrad 0 []))
  /\ (s = RETURN_OK ->
      forall res,
        sep_kron_radius data mask dtype mdtype w h maskthresh x y cxx cyy cxy r
                        kronrad = Some res ->
        kr_status res = RETURN_OK).
Proof.
  intros s. split.
  - intros Hs. apply kron_failure. fold s.
    destruct (is_ok s) eqn:Es; [|reflexivity]. now apply is_ok_iff in Es.
  - subst s. unfold converter_status, sep_kron_radius.
    destruct (get_converter dtype) as [[s cv] z]. cbn [fst snd].
    destruct (is_ok s) eqn:Es; cbn [negb]; [|intros ->; discriminate].
    intros Hs res.
    destruct mask as [m|];
      [destruct (get_converter mdtype) as [[s' cv'] z']; cbn [fst snd] in Hs;
       subst s'; cbn [is_ok negb]
      |rewrite Es; cbn [negb]];
      (destruct (boxextent_ellipse _ _ _ _ _ _ _ _ _) as [[bx fl]|];
       [|discriminate]);
      cbn [bind];
      (match goal with
       | |- context [bind ?m _] => destruct m as [st|]; [|discriminate]
       end);
      cbn [bind];
      (destruct (_ ==? _)%D; [|destruct (_ || _)]);
      intros E; injection E as <-; reflexivity.
Qed.

(** On IEEE doubles: an unsupported data encoding, then a supported one
    on a 20 x 20 image. *)
Lemma kron_status_from_converters_witness :
  sep_kron_radius flat_image None 81 82 20 20 (f64 0 1)
    (f64 10 1) (f64 10 1) (f64 1 1) (f64 1 1) (f64 0 1) (f64 3 1) (f64 5 1)
  = Some (KResult ILLEGAL_DTYPE (f64 5 1) 0 [])
  /\ (exists res,
        sep_kron_radius flat_image None 82 82 20 20 (f64 0 1)
          (f64 10 1) (f64 10 1) (f64 1 1) (f64 1 1) (f64 0 1) (f64 3 1)
          (f64 5 1) = Some res
        /\ kr_status res = RETURN_OK).
Proof.
  split.
  - apply (kron_status_from_converters PrimFloat.float Float64 Macros64
             Converters64 flat_image None 81 82 20 20 (f64 0 1)
             (f64 10 1) (f64 10 1) (f64 1 1) (f64 1 1) (f64 0 1) (f64 3 1)
             (f64 5 1)).
    vm_compute. discriminate.
  - assert (E : exists res,
               sep_kron_radius flat_image None 82 82 20 20 (f64 0 1)
                 (f64 10 1) (f64 10 1) (f64 1 1) (f64 1 1) (f64 0 1) (f64 3 1)
                 (f64 5 1) = Some res)
      by (eexists; vm_compute; reflexivity).
    destruct E as [res E]. exists res. split; [exact E|].
    pose proof (kron_status_from_converters PrimFloat.float Float64 Macros64
                  Converters64 flat_image None 82 82 20 20 (f64 0 1)
                  (f64 10 1) (f64 10 1) (f64 1 1) (f64 1 1) (f64 0 1) (f64 3 1)
                  (f64 5 1)) as H.
    cbv zeta in H. destruct H as [_ H].
    apply H; [vm_compute; reflexivity | exact E].
Defined.

Section KronBound.
Context {M : Macros R} {C : Converters R}.
Open Scope R_scope.
Variables (data : buffer) (convert : elem -> R) (size w h : Z).
Variables (x y cxx cyy cxy r : R).

Let rpix2 := rpix2_at x y cxx cyy cxy.
Let pix := pix_at data convert size w h.

(** The weighted sum stays below [|r|] times the plain sum while the
    pixels added are non-negative and inside the ellipse. *)
Lemma kron_sums_bound (l : list (Z * Z)) :
  (forall p, In p l -> rpix2 p <= r * r /\ 0 <= pix p) ->
  forall r1 v1 a : R,
  0 <= r1 <= Rabs r * v1 ->
  let s := kron_sums data convert size w h x y cxx cyy cxy l (r1, v1, a) in
  0 <= fst (fst s) <= Rabs r * snd (fst s).
Proof.
  induction l as [|p l IH]; intros Hl r1 v1 a H0; [exact H0|].
  cbv zeta. unfold kron_sums. cbn [fold_left].
  apply IH; [intros q Hq; apply Hl; now right|].
  destruct (Hl p (or_introl eq_refl)) as [Hq Hv].
  fold rpix2 pix. cbn [add mul dsqrt RealArith].
  assert (Hs : 0 <= sqrt (rpix2 p) <= Rabs r).
  { split; [apply sqrt_pos|].
    rewrite <- sqrt_Rsqr_abs. apply sqrt_le_1_alt. exact Hq. }
  pose proof (Rabs_pos r). nra.
Qed.
End KronBound.

Lemma kron_radius_bound
      (M : Macros R) (C : Converters R)
      (data : buffer) (mask : option buffer) (dtype mdtype w h : Z)
      (maskthresh x y cxx cyy cxy r kronrad : R) :
  (0 < cxx * cyy - cxy * cxy / 4)%R -> (0 < cxx + cyy)%R -> (0 <= r)%R ->
  0 <= w -> 0 <= h ->
  (IZR (w * h) + Rabs x + r / sqrt (cxx - cxy * cxy / (4 * cyy))
   <= 2147483646)%R ->
  (Rabs y + r / sqrt (cyy - cxy * cxy / (4 * cxx)) <= 2147483646)%R ->
  is_ok (fst (fst (get_converter dtype))) = true ->
  (mask <> None -> is_ok (fst (fst (get_converter mdtype))) = true) ->
  (forall off : Z, 0 <= snd (fst (get_converter dtype)) (data off))%R ->
  exists (kr : R) (flag : Z) (log : list access),
    sep_kron_radius data mask dtype mdtype w h maskthresh x y cxx cyy cxy r kronrad
    = Some (KResult RETURN_OK kr flag log)
    /\ (0 <= kr <= r)%R.
Proof.
  intros Hdet Hsum Hr0 Hw Hh Hrx Hry Hd Hm Hpos.
  destruct (ellipse_box_exists_fit M x y cxx cyy cxy r w h 0
              Hdet Hsum Hr0 Hw Hh Hrx Hry) as (bx & fl & Hbe & Hfit).
  destruct (kron_radius_generic data mask dtype mdtype w h maskthresh
              x y cxx cyy cxy r kronrad bx fl Hd Hm Hbe Hw Hfit) as (log & E).
  cbv zeta in E. unfold kron_after in E. cbn [fst snd lit mul RealArith] in E.
  rewrite !Rdiv_0_l in E.
  set (convert := snd (fst (get_converter dtype))) in *.
  set (size := snd (get_converter dtype)) in *.
  set (used := filter _ (box_pixels bx)) in *.
  pose proof (kron_sums_bound data convert size w h x y cxx cyy cxy r used) as Hb.
  cbv zeta in Hb. specialize (Hb
    ltac:(intros p Hp; apply filter_In in Hp; destruct Hp as [_ Hu];
          unfold usable in Hu; apply andb_true_iff in Hu; destruct Hu as [Hu _];
          apply andb_true_iff in Hu; destruct Hu as [Hu _];
          unfold in_ellipse in Hu; cbn [leb RealArith] in Hu;
          apply RFacts.leb_iff in Hu; split; [exact Hu | apply Hpos])
    0%R 0%R 0%R ltac:(rewrite Rmult_0_r; lra)).
  set (s := kron_sums data convert size w h x y cxx cyy cxy used (0%R, 0%R, 0%R)) in *.
  rewrite (Rabs_right r) in Hb by lra.
  cbn [eqb leb of_int div RealArith] in E.
  destruct (RA.eqb (snd s) 0).
  - eexists _, _, log. split; [exact E | lra].
  - destruct (RA.leb (fst (fst s)) 0 || RA.leb (snd (fst s)) 0) eqn:El.
    + eexists _, _, log. split; [exact E | lra].
    + eexists _, _, log. split; [exact E|].
      apply orb_false_iff in El. destruct El as [El1 El2].
      apply RFacts.leb_false_iff in El1, El2.
      split.
      * apply Rlt_le, Rdiv_lt_0_compat; assumption.
      * apply Rmult_le_reg_r with (snd (fst s)); [assumption|].
        replace (fst (fst s) / snd (fst s) * snd (fst s))%R with (fst (fst s))
          by (field; lra). lra.
Qed.

(** In exact arithmetic, for the coefficients of an ellipse, [r >= 0],
    an image and an ellipse within the reach of an [int] (the image has
    fewer than [2^31] pixels, and with the center and the half-extents
    of the ellipse the bounds that [boxextent] casts and the row
    offsets stay below [2^31]), once the converters resolve and when no
    element of the data buffer decodes to a negative value:
    [sep_kron_radius] returns [RETURN_OK] with a radius between 0 and
    [r].  The Kron radius, in units of the ellipse, never exceeds the
    scaling [r] of the ellipse it is measured in. *)
Theorem kron_radius_within_scale
      (M : Macros R) (C : Converters R)
      (data : buffer) (mask : option buffer) (dtype mdtype w h : Z)
      (maskthresh x y cxx cyy cxy r kronrad : R) :
  (0 < cxx * cyy - cxy * cxy / 4)%R -> (0 < cxx + cyy)%R -> (0 <= r)%R ->
  0 <= w -> 0 <= h ->
  (IZR (w * h) + Rabs x + r / sqrt (cxx - cxy * cxy / (4 * cyy))
   <= 2147483646)%R ->
  (Rabs y + r / sqrt (cyy - cxy * cxy / (4 * cxx)) <= 2147483646)%R ->
  is_ok (fst (fst (get_converter dtype))) = true ->
  (mask <> None -> is_ok (fst (fst (get_converter mdtype))) = true) ->
  (forall off : Z, 0 <= snd (fst (get_converter dtype)) (data off))%R ->
  exists (kr : R) (flag : Z) (log : list access),
    sep_kron_radius data mask dtype mdtype w h maskthresh x y cxx cyy cxy r kronrad
    = Some (KResult RETURN_OK kr flag log)
    /\ (0 <= kr <= r)%R.
Proof. apply kron_radius_bound. Qed.

Lemma kron_radius_within_scale_witness :
  exists (kr : R) (flag : Z) (log : list access),
    sep_kron_radius (M := MacrosR) (C := ConvertersR) (fun _ => 1%R) None
                    82 82 20 20 0%R 10%R 10%R 1%R 1%R 0%R 3%R 0%R
    = Some (KResult RETURN_OK kr flag log)
    /\ (0 <= kr <= 3)%R.
Proof.
  apply (kron_radius_within_scale MacrosR ConvertersR (fun _ => 1%R) None
           82 82 20 20 0%R 10%R 10%R 1%R 1%R 0%R 3%R 0%R); try lra; try lia.
  - replace (1 - 0 * 0 / (4 * 1))%R with 1%R by lra.
    rewrite sqrt_1, Rabs_right by lra. cbn. lra.
  - replace (1 - 0 * 0 / (4 * 1))%R with 1%R by lra.
    rewrite sqrt_1, Rabs_right by lra. lra.
  - reflexivity.
  - intros H. now contradiction H.
  - intros off. cbn. lra.
Defined.

(* ================================================================= *)
(** ** [sep_sum_circann_multi]: what the scan keeps *)

Section Shape.
Context {D : Type}.

Lemma same_shape_refl (o : accum D) : same_shape o o.
Proof. repeat split. Qed.

Lemma same_shape_trans (o1 o2 o3 : accum D) :
  same_shape o1 o2 -> same_shape o2 o3 -> same_shape o1 o3.
Proof. unfold same_shape. intuition congruence. Qed.

Lemma aset_length {T : Type} (l l' : list T) (j : Z) (v : T) :
  aset l j v = Some l' -> length l' = length l.
Proof.
  unfold aset. destruct (_ && _); [|discriminate].
  intros H. injection H as <-. apply upd_length.
Qed.

Lemma down_loop_keeps {S : Type} (P : S -> S -> Prop)
      (body : Z -> S -> option S) :
  (forall s, P s s) ->
  (forall s1 s2 s3, P s1 s2 -> P s2 s3 -> P s1 s3) ->
  (forall j s s', body j s = Some s' -> P s s') ->
  forall (k : nat) (s s' : S), down_loop k body s = Some s' -> P s s'.
Proof.
  intros Hrefl Htrans Hbody. induction k as [|k IH]; intros s s' H.
  - cbn in H. injection H as <-. apply Hrefl.
  - cbn [down_loop] in H. destruct (body (Z.of_nat k) s) as [s1|] eqn:E;
      [|discriminate]. cbn [bind] in H.
    apply Htrans with s1; [now apply Hbody with (Z.of_nat k) | now apply IH].
Qed.
End Shape.

Section MultiShape.
Context {D : Type} {A : Arith D} {M : Macros D} {C : Converters D}.
Variables (data : buffer) (error mask : option buffer).
Variables (convert : elem -> D) (econvert mconvert : option (elem -> D)).
Variables (size esize msize : Z).
Variables (w h : Z) (maskthresh x y : D) (n subpix : Z).
Variables (errisarray errisstd : bool).
Variables (scale scale2 offset r_out2 step stepdens : D).
Variables (prevbinmargin nextbinmargin : D).

Lemma keeps_refl (im : bool) (o : accum D) : keeps im o o.
Proof. split; [apply same_shape_refl | reflexivity]. Qed.

Lemma keeps_trans (im : bool) (o1 o2 o3 : accum D) :
  keeps im o1 o2 -> keeps im o2 o3 -> keeps im o1 o3.
Proof.
  intros [H1 E1] [H2 E2]. split; [now apply same_shape_trans with o2|].
  intros Him. now rewrite E2, E1.
Qed.

Lemma addto_length (l l' : list D) (j : Z) (v : D) :
  addto l j v = Some l' -> length l' = length l.
Proof.
  unfold addto. destruct (aget l j); [|discriminate]. cbn [bind].
  apply aset_length.
Qed.

Lemma deposit_keeps (im : bool) (j : Z) (dm ds dv da : D) (o o' : accum D) :
  deposit n im j dm ds dv da o = Some o' -> keeps im o o'.
Proof.
  unfold deposit. destruct (j <? n); [|intros H; injection H as <-; apply keeps_refl].
  destruct im.
  - destruct (addto (o_maskarea o) j dm) as [m|] eqn:Em; [|discriminate].
    cbn [bind o_area o_sum o_sumvar o_maskarea].
    destruct (addto (o_area o) j da) as [a|] eqn:Ea; [|discriminate].
    cbn [bind]. intros H. injection H as <-.
    apply addto_length in Em, Ea.
    split; [repeat split; cbn; assumption | discriminate].
  - destruct (addto (o_sum o) j ds) as [s|] eqn:Es; [|discriminate].
    cbn [bind].
    destruct (addto (o_sumvar o) j dv) as [v|] eqn:Ev; [|discriminate].
    cbn [bind o_area o_sum o_sumvar o_maskarea].
    destruct (addto (o_area o) j da) as [a|] eqn:Ea; [|discriminate].
    cbn [bind]. intros H. injection H as <-.
    apply addto_length in Es, Ev, Ea.
    split; [repeat split; cbn; assumption | reflexivity].
Qed.

Lemma sx_loop_keeps (pix varpix : D) (im : bool) (dy2 : D) (k : nat) :
  forall (dx1 : D) (o o' : accum D),
  sx_loop n scale scale2 stepdens k pix varpix im dx1 dy2 o = Some o' ->
  keeps im o o'.
Proof.
  induction k as [|k IH]; intros dx1 o o' H.
  - cbn in H. injection H as <-. apply keeps_refl.
  - cbn [sx_loop] in H.
    destruct (to_int _) as [j|]; [|discriminate]. cbn [bind] in H.
    destruct (deposit _ _ _ _ _ _ _ _) as [o1|] eqn:E1; [|discriminate].
    cbn [bind] in H. apply keeps_trans with o1.
    + exact (deposit_keeps _ _ _ _ _ _ _ _ E1).
    + exact (IH _ _ _ H).
Qed.

Lemma sy_loop_keeps (pix varpix : D) (im : bool) (dx : D) (k : nat) :
  forall (dy : D) (o o' : accum D),
  sy_loop n subpix scale scale2 stepdens k pix varpix im dx dy o = Some o' ->
  keeps im o o'.
Proof.
  induction k as [|k IH]; intros dy o o' H.
  - cbn in H. injection H as <-. apply keeps_refl.
  - cbn [sy_loop] in H.
    destruct (sx_loop _ _ _ _ _ _ _ _ _ _ _) as [o1|] eqn:E1; [|discriminate].
    cbn [bind] in H. apply keeps_trans with o1.
    + exact (sx_loop_keeps _ _ _ _ _ _ _ _ E1).
    + exact (IH _ _ _ H).
Qed.

Lemma bin_pixel_keeps (pix varpix : D) (im : bool) (dx dy rpix2 : D)
      (o o' : accum D) :
  bin_pixel n subpix scale scale2 offset step stepdens prevbinmargin
            nextbinmargin pix varpix im dx dy rpix2 o = Some o' ->
  keeps im o o'.
Proof.
  unfold bin_pixel. destruct (_ || _).
  - apply sy_loop_keeps.
  - destruct (to_int _) as [j|]; [|discriminate]. cbn [bind].
    apply deposit_keeps.
Qed.

Let scan_keeps := scan_keeps (D := D) mask.

Lemma scan_keeps_refl (st : mstate D) : scan_keeps st st.
Proof. unfold scan_keeps. split; [apply same_shape_refl | auto]. Qed.

Lemma scan_keeps_trans (s1 s2 s3 : mstate D) :
  scan_keeps s1 s2 -> scan_keeps s2 s3 -> scan_keeps s1 s3.
Proof.
  unfold scan_keeps. intros [H1 E1] [H2 E2]. split; [now apply same_shape_trans with (m_out s2)|].
  intros Hm Hi. destruct (E1 Hm Hi) as (Ha & Hb & Hc).
  destruct (E2 Hm Ha) as (Ha' & Hb' & Hc'). repeat split; congruence.
Qed.

Let pixel := multi_pixel data error mask convert econvert mconvert maskthresh
               x y n subpix errisarray errisstd scale scale2 offset r_out2
               step stepdens prevbinmargin nextbinmargin.

Lemma multi_pixel_keeps (ix iy datat errort maskt : Z) (st st' : mstate D) :
  pixel ix iy datat errort maskt st = Some st' -> scan_keeps st st'.
Proof.
  unfold pixel, multi_pixel. intros H.
  destruct (_ <? r_out2)%D; [|injection H as <-; apply scan_keeps_refl].
  destruct (if errisarray then _ else _) as [[varpix log]|]; [|discriminate].
  cbn [bind] in H.
  destruct mask as [mk|].
  - destruct (rd mconvert (Some mk) maskt) as [mv|]; [|discriminate].
    cbn [bind] in H.
    destruct (mv >? maskthresh)%D; cbn [bind] in H;
      (match type of H with bind ?m _ = _ => destruct m eqn:Eb; [|discriminate] end);
      cbn [bind] in H; injection H as <-; cbn [m_out];
      (split; [exact (proj1 (bin_pixel_keeps _ _ _ _ _ _ _ _ Eb)) | intros Hn; discriminate Hn]).
  - cbn [bind] in H.
    (match type of H with bind ?m _ = _ => destruct m eqn:Eb; [|discriminate] end).
    cbn [bind] in H. injection H as <-. cbn [m_out m_ismasked m_flag].
    destruct (bin_pixel_keeps _ _ _ _ _ _ _ _ Eb) as [Hs Hm].
    split; [exact Hs|]. intros _ Hi. auto.
Qed.

Let pixels := multi_pixels data error mask convert econvert mconvert
                size esize msize maskthresh
                x y n subpix errisarray errisstd scale scale2 offset r_out2
                step stepdens prevbinmargin nextbinmargin.

Lemma multi_pixels_keeps (iy : Z) (k : nat) :
  forall (ix datat errort maskt : Z) (st st' : mstate D),
  pixels k ix iy datat errort maskt st = Some st' -> scan_keeps st st'.
Proof.
  unfold pixels. induction k as [|k IH]; intros ix datat errort maskt st st' H.
  - cbn in H. injection H as <-. apply scan_keeps_refl.
  - cbn [multi_pixels] in H.
    destruct (multi_pixel _ _ _ _ _ _ _ _ _ _ _ _ _ _ _ _ _ _ _ _ _ _ _ _ _ _ _)
      as [st1|] eqn:E1; [|discriminate].
    cbn [bind] in H. apply scan_keeps_trans with st1.
    + exact (multi_pixel_keeps _ _ _ _ _ _ _ E1).
    + exact (IH _ _ _ _ _ _ H).
Qed.

Let rows := multi_rows data error mask convert econvert mconvert
              size esize msize w h maskthresh
              x y n subpix errisarray errisstd scale scale2 offset r_out2
              step stepdens prevbinmargin nextbinmargin.

Lemma multi_rows_keeps (bx : box) (k : nat) :
  forall (iy : Z) (st st' : mstate D),
  rows k bx iy st = Some st' -> scan_keeps st st'.
Proof.
  unfold rows. induction k as [|k IH]; intros iy st st' H.
  - cbn in H. injection H as <-. apply scan_keeps_refl.
  - cbn [multi_rows] in H.
    destruct (multi_row _ _ _ _ _ _ _ _ _ _ _ _ _ _ _ _ _ _ _ _ _ _ _ _ _ _ _ _ _)
      as [st1|] eqn:E1; [|discriminate].
    cbn [bind] in H. apply scan_keeps_trans with st1; [|exact (IH _ _ _ H)].
    unfold multi_row in E1. destruct (h =? 0); [discriminate|].
    destruct (int_val (Z.rem iy h * w)); [|discriminate]. cbn [bind] in E1.
    destruct (int_val (_ + xmin bx)); [|discriminate]. cbn [bind] in E1.
    exact (multi_pixels_keeps _ _ _ _ _ _ _ _ E1).
Qed.
End MultiShape.

(** Step through the binds of a hypothesis [H : ... = Some _]. *)
Ltac multi_run H :=
  repeat first
    [ match type of H with
      | bind ?m _ = Some _ =>
          destruct m eqn:?; [cbn [bind] in H | discriminate H]
      end
    | match type of H with
      | (let '(_, _) := ?p in _) = Some _ => destruct p
      end ].

Section MultiTop.
Context {D : Type} {A : Arith D} {M : Macros D} {C : Converters D}.

Lemma memset0_length (l l' : list D) (n : Z) :
  memset0 l n = Some l' -> length l' = length l.
Proof.
  unfold memset0. destruct (n <=? Z.of_nat (length l)) eqn:E; [|discriminate].
  intros H. injection H as <-. apply Z.leb_le in E.
  rewrite length_app, repeat_length, length_skipn. lia.
Qed.

Lemma mask_ignore_body_shape (j : Z) (o o' : accum D) :
  mask_ignore_body j o = Some o' ->
  same_shape o o' /\ o_maskarea o' = o_maskarea o.
Proof.
  unfold mask_ignore_body.
  destruct (aget (o_area o) j); [|discriminate].
  destruct (aget (o_maskarea o) j); [|discriminate]. cbn [bind].
  destruct (aset _ _ _) as [a|] eqn:Ea; [|discriminate]. cbn [bind].
  intros H. injection H as <-. apply aset_length in Ea.
  repeat split; cbn; assumption.
Qed.

Lemma mask_rescale_body_shape (j : Z) (o o' : accum D) :
  mask_rescale_body j o = Some o' ->
  same_shape o o' /\ o_maskarea o' = o_maskarea o.
Proof.
  unfold mask_rescale_body.
  destruct (aget (o_area o) j); [|discriminate].
  destruct (aget (o_maskarea o) j); [|discriminate]. cbn [bind].
  destruct (aget (o_sum o) j); [|discriminate]. cbn [bind].
  destruct (aset (o_sum o) _ _) as [s|] eqn:Es; [|discriminate]. cbn [bind].
  destruct (aget (o_sumvar o) j); [|discriminate]. cbn [bind].
  destruct (aset (o_sumvar o) _ _) as [v|] eqn:Ev; [|discriminate]. cbn [bind].
  intros H. injection H as <-. apply aset_length in Es, Ev.
  repeat split; cbn; assumption.
Qed.

Lemma poisson_body_shape (gain : D) (j : Z) (o o' : accum D) :
  poisson_body gain j o = Some o' ->
  same_shape o o' /\ o_maskarea o' = o_maskarea o.
Proof.
  unfold poisson_body. destruct (aget (o_sum o) j) as [s|]; [|discriminate].
  cbn [bind]. destruct (_ >? _)%D.
  - destruct (addto _ _ _) as [v|] eqn:Ev; [|discriminate]. cbn [bind].
    intros H. injection H as <-. apply addto_length in Ev.
    repeat split; cbn; assumption.
  - intros H. injection H as <-. split; [apply same_shape_refl | reflexivity].
Qed.

Lemma shape_loop (body : Z -> accum D -> option (accum D)) :
  (forall j o o', body j o = Some o' ->
     same_shape o o' /\ o_maskarea o' = o_maskarea o) ->
  forall (k : nat) (o o' : accum D), down_loop k body o = Some o' ->
  same_shape o o' /\ o_maskarea o' = o_maskarea o.
Proof.
  intros Hb.
  apply (down_loop_keeps
           (fun o o' => same_shape o o' /\ o_maskarea o' = o_maskarea o)).
  - intros o. split; [apply same_shape_refl | reflexivity].
  - intros o1 o2 o3 [H1 E1] [H2 E2].
    split; [now apply same_shape_trans with o2 | congruence].
  - exact Hb.
Qed.

Lemma correct_masked_shape (inflag n : Z) (o o' : accum D) :
  correct_masked inflag n o = Some o' ->
  same_shape o o' /\ o_maskarea o' = o_maskarea o.
Proof.
  unfold correct_masked. destruct (negb _).
  - apply shape_loop, mask_ignore_body_shape.
  - apply shape_loop, mask_rescale_body_shape.
Qed.

Variables (data : buffer) (error mask : option buffer).
Variables (dtype edtype mdtype w h : Z) (maskthresh gain : D) (inflag : Z).
Variables (x y rmax : D) (n subpix : Z) (o : accum D) (flag : Z).

(** The part of [sep_sum_circann_multi] after the resolution of the
    converters keeps the shape of the arrays; without a mask it keeps
    [maskarea]. *)
Lemma multi_shape (res : mresult) :
  sep_sum_circann_multi data error mask dtype edtype mdtype w h
                        maskthresh gain inflag x y rmax n subpix o flag
  = Some res ->
  same_shape o (r_out res)
  /\ (mask = None -> o_maskarea (r_out res) = o_maskarea o).
Proof.
  unfold sep_sum_circann_multi.
  destruct (_ || _);
    [intros H; injection H as <-; split; [apply same_shape_refl | reflexivity]|].
  destruct (subpix <? 1);
    [intros H; injection H as <-; split; [apply same_shape_refl | reflexivity]|].
  destruct (memset0 (o_sum o) n) as [s0|] eqn:Es; [|discriminate].
  destruct (memset0 (o_sumvar o) n) as [v0|] eqn:Ev; [|discriminate].
  destruct (memset0 (o_area o) n) as [a0|] eqn:Ea; [|discriminate].
  cbn [bind].
  apply memset0_length in Es, Ev, Ea.
  assert (Hfin : forall (s0' : status) (m0 : list D) (st : mstate D)
                        (o1 o2 : accum D) (l : list access) (fl : Z) (vp : D),
            length m0 = length (o_maskarea o) ->
            (mask = None -> m0 = o_maskarea o) ->
            scan_keeps mask (MState (Accum s0 v0 a0 m0) fl vp false [])
                       st ->
            same_shape (m_out st) o1 /\ o_maskarea o1 = o_maskarea (m_out st) ->
            same_shape o1 o2 /\ o_maskarea o2 = o_maskarea o1 ->
            Some (MResult s0' o2 (m_flag st) l) = Some res ->
            same_shape o (r_out res)
            /\ (mask = None -> o_maskarea (r_out res) = o_maskarea o)).
  { intros s0' m0 st o1 o2 l fl vp Hml Hme [Hs1 Hk1] [Ha1 Hb1] [Ha2 Hb2] H.
    injection H as <-. cbn [r_out m_out m_ismasked m_flag] in *. split.
    - apply same_shape_trans with (Accum s0 v0 a0 m0);
        [repeat split; cbn; assumption|].
      apply same_shape_trans with (m_out st); [assumption|].
      now apply same_shape_trans with o1.
    - intros Hm. destruct (Hk1 Hm eq_refl) as (_ & Hmk & _).
      rewrite Hb2, Hb1, Hmk. now apply Hme. }
  assert (Hfail : forall (m0 : list D) s fl l,
            length m0 = length (o_maskarea o) ->
            (mask = None -> m0 = o_maskarea o) ->
            Some (MResult s (Accum s0 v0 a0 m0) fl l) = Some res ->
            same_shape o (r_out res)
            /\ (mask = None -> o_maskarea (r_out res) = o_maskarea o)).
  { intros m0 s fl l Hml Hme H. injection H as <-. cbn [r_out].
    split; [repeat split; cbn; assumption | exact Hme]. }
  assert (Hpoisson : forall o1 o2,
            (if (gain >? lit 0 1)%D
             then down_loop (Z.to_nat n) (poisson_body gain) o1
             else Some o1) = Some o2 ->
            same_shape o1 o2 /\ o_maskarea o2 = o_maskarea o1).
  { intros o1 o2 Ep. destruct (gain >? lit 0 1)%D.
    - now apply shape_loop in Ep; [|apply poisson_body_shape].
    - injection Ep as <-. split; [apply same_shape_refl | reflexivity]. }
  destruct mask as [mk|].
  - (* a mask is supplied *)
    destruct (memset0 (o_maskarea o) n) as [m0|] eqn:Em; [|discriminate].
    cbn [bind]. apply memset0_length in Em.
    destruct (get_converter dtype) as [[s c] z].
    destruct (negb (is_ok s)); [apply Hfail; [assumption | discriminate]|].
    destruct error as [e|].
    + destruct (get_converter edtype) as [[s' c'] z'].
      destruct (negb (is_ok s')); [apply Hfail; [assumption | discriminate]|].
      destruct (get_converter mdtype) as [[s'' c''] z''].
      destruct (negb (is_ok s'')); [apply Hfail; [assumption | discriminate]|].
      intros H.
      multi_run H.
      match goal with Er : context [multi_rows] |- _ =>
        apply multi_rows_keeps in Er;
        match goal with Ec : correct_masked _ _ _ = Some _ |- _ =>
          apply correct_masked_shape in Ec;
          match goal with Ep : (if _ then _ else _) = Some _ |- _ =>
            apply Hpoisson in Ep;
            exact (Hfin _ _ _ _ _ _ _ _ Em ltac:(discriminate) Er Ec Ep H)
          end
        end
      end.
    + destruct (negb (is_ok s)); [apply Hfail; [assumption | discriminate]|].
      destruct (get_converter mdtype) as [[s'' c''] z''].
      destruct (negb (is_ok s'')); [apply Hfail; [assumption | discriminate]|].
      cbn [bind]. intros H.
      multi_run H.
      match goal with Er : context [multi_rows] |- _ =>
        apply multi_rows_keeps in Er;
        match goal with Ec : correct_masked _ _ _ = Some _ |- _ =>
          apply correct_masked_shape in Ec;
          match goal with Ep : (if _ then _ else _) = Some _ |- _ =>
            apply Hpoisson in Ep;
            exact (Hfin _ _ _ _ _ _ _ _ Em ltac:(discriminate) Er Ec Ep H)
          end
        end
      end.
  - (* no mask *)
    cbn [bind].
    destruct (get_converter dtype) as [[s c] z].
    destruct (negb (is_ok s)) eqn:Eok; [apply Hfail; reflexivity|].
    destruct error as [e|].
    + destruct (get_converter edtype) as [[s' c'] z'].
      destruct (negb (is_ok s')) eqn:Eok'; [apply Hfail; reflexivity|].
      rewrite ?Eok'. intros H.
      multi_run H.
      match goal with Er : context [multi_rows] |- _ =>
        apply multi_rows_keeps in Er;
        match goal with Ep : (if (gain >? _)%D then _ else _) = Some _ |- _ =>
          apply Hpoisson in Ep;
          refine (Hfin _ _ _ _ _ _ _ _ eq_refl (fun _ => eq_refl) Er _ Ep H);
          split; [apply same_shape_refl | reflexivity]
        end
      end.
    + rewrite ?Eok. cbn [bind]. intros H.
      multi_run H.
      match goal with Er : context [multi_rows] |- _ =>
        apply multi_rows_keeps in Er;
        match goal with Ep : (if (gain >? _)%D then _ else _) = Some _ |- _ =>
          apply Hpoisson in Ep;
          refine (Hfin _ _ _ _ _ _ _ _ eq_refl (fun _ => eq_refl) Er _ Ep H);
          split; [apply same_shape_refl | reflexivity]
        end
      end.
Qed.
End MultiTop.

(** In every arithmetic, whatever [sep_sum_circann_multi] returns, the
    four output arrays have kept their lengths, and when no mask is
    supplied [maskarea] is exactly as it was on entry: it is neither
    cleared nor written. *)
Theorem multi_maskarea_untouched
        (D : Type) (A : Arith D) (M : Macros D) (C : Converters D)
        (data : buffer) (error : option buffer)
        (dtype edtype mdtype w h : Z) (maskthresh gain : D) (inflag : Z)
        (x y rmax : D) (n subpix : Z) (o : accum D) (flag : Z) (res : mresult) :
  sep_sum_circann_multi data error None dtype edtype mdtype w h
                        maskthresh gain inflag x y rmax n subpix o flag
  = Some res ->
  same_shape o (r_out res) /\ o_maskarea (r_out res) = o_maskarea o.
Proof.
  intros H. apply multi_shape in H. destruct H as [Hs Hm].
  split; [exact Hs | now apply Hm].
Qed.

Lemma multi_maskarea_untouched_witness :
  same_shape (Accum [f64 7 1] [f64 7 1] [f64 7 1] [f64 7 1])
             (Accum [f64 1 1] [f64 0 1] [f64 1 1] [f64 7 1])
  /\ [f64 7 1] = [f64 7 1].
Proof.
  apply (multi_maskarea_untouched _ Float64 Macros64 Converters64
           flat_image None 82 82 82 1 1 (f64 0 1) (f64 0 1) 0
           (f64 0 1) (f64 0 1) (f64 1 1) 1 1
           (Accum [f64 7 1] [f64 7 1] [f64 7 1] [f64 7 1]) 99
           (MResult RETURN_OK (Accum [f64 1 1] [f64 0 1] [f64 1 1] [f64 7 1]) 16
                    [Access DATA 0 0 0])).
  vm_compute. reflexivity.
Defined.

(* ================================================================= *)
(** ** [sep_sum_circann_multi]: the Poisson term *)

Section Poisson.
Context {D : Type} {A : Arith D}.
Variable gain : D.

Lemma poisson_loop (k : nat) :
  forall o, holds (Z.of_nat k) o ->
  exists o', down_loop k (poisson_body gain) o = Some o'
    /\ o_sum o' = o_sum o /\ o_area o' = o_area o
    /\ o_maskarea o' = o_maskarea o
    /\ length (o_sumvar o') = length (o_sumvar o)
    /\ (forall j s v, 0 <= j < Z.of_nat k ->
          aget (o_sum o) j = Some s -> aget (o_sumvar o) j = Some v ->
          aget (o_sumvar o') j
          = Some (if (s >? lit 0 1)%D then (v + s / gain)%D else v))
    /\ (forall j, Z.of_nat k <= j -> aget (o_sumvar o') j = aget (o_sumvar o) j).
Proof.
  induction k as [|k IH]; intros o Ho.
  - exists o. cbn. repeat split; try reflexivity. intros; lia.
  - destruct Ho as (Hs & Hv & Ha & Hm). rewrite Nat2Z.inj_succ in Hs, Hv, Ha, Hm.
    cbn [down_loop]. unfold poisson_body at 1.
    destruct (aget_some (o_sum o) (Z.of_nat k)) as [s Es]; [lia|].
    destruct (aget_some (o_sumvar o) (Z.of_nat k)) as [v Ev]; [lia|].
    rewrite Es. cbn [bind].
    set (o1 := if (s >? lit 0 1)%D
               then Accum (o_sum o)
                          (upd (o_sumvar o) (Z.to_nat (Z.of_nat k)) (v + s / gain)%D)
                          (o_area o) (o_maskarea o)
               else o).
    assert (E1 : (if (s >? lit 0 1)%D
                  then let* sumvar := addto (o_sumvar o) (Z.of_nat k) (s / gain)%D in
                       Some (Accum (o_sum o) sumvar (o_area o) (o_maskarea o))
                  else Some o) = Some o1).
    { unfold o1, addto. destruct (s >? lit 0 1)%D; [|reflexivity].
      rewrite Ev. cbn [bind]. rewrite aset_some by lia. reflexivity. }
    rewrite E1. cbn [bind].
    assert (Hsum1 : o_sum o1 = o_sum o) by (unfold o1; now destruct (_ >? _)%D).
    assert (Harea1 : o_area o1 = o_area o) by (unfold o1; now destruct (_ >? _)%D).
    assert (Hmask1 : o_maskarea o1 = o_maskarea o)
      by (unfold o1; now destruct (_ >? _)%D).
    assert (Hlen1 : length (o_sumvar o1) = length (o_sumvar o)).
    { unfold o1. destruct (_ >? _)%D; [cbn; apply upd_length | reflexivity]. }
    assert (Hk1 : aget (o_sumvar o1) (Z.of_nat k)
                  = Some (if (s >? lit 0 1)%D then (v + s / gain)%D else v)).
    { unfold o1. destruct (_ >? _)%D; [cbn; apply aget_upd_same; lia | exact Ev]. }
    assert (Ho1 : forall j, j <> Z.of_nat k ->
                    aget (o_sumvar o1) j = aget (o_sumvar o) j).
    { intros j Hj. unfold o1. destruct (_ >? _)%D; [|reflexivity].
      cbn [o_sumvar]. destruct (Z_lt_dec j 0) as [Hneg|Hpos].
      - unfold aget. now replace (j <? 0) with true
          by (symmetry; apply Z.ltb_lt; lia).
      - apply aget_upd_other; lia. }
    destruct (IH o1) as (o' & E & Es' & Ea' & Em' & El' & Hlow & Hhigh).
    { unfold holds. rewrite Hsum1, Harea1, Hmask1, Hlen1. lia. }
    exists o'. split; [exact E|].
    split; [congruence|]. split; [congruence|]. split; [congruence|].
    split; [congruence|]. split.
    + intros j s' v' Hj Es'' Ev''. rewrite Nat2Z.inj_succ in Hj.
      destruct (Z.eq_dec j (Z.of_nat k)) as [->|Hne].
      * rewrite Hhigh by lia. rewrite Hk1.
        rewrite Es in Es''. injection Es'' as <-.
        rewrite Ev in Ev''. injection Ev'' as <-. reflexivity.
      * apply Hlow; [lia | now rewrite Hsum1 | now rewrite Ho1].
    + intros j Hj. rewrite Nat2Z.inj_succ in Hj.
      rewrite Hhigh by lia. apply Ho1. lia.
Qed.
End Poisson.

(** In every arithmetic, the block "add poisson noise" of
    [sep_sum_circann_multi], on arrays that hold the [n] bins, is
    defined and leaves [sum], [area] and [maskarea] alone; when [gain > 0]
    it adds [sum[j] / gain] to [sumvar[j]] in each bin with [sum[j] > 0]
    and leaves the other bins alone; when [gain > 0] does not hold it
    changes nothing. *)
Theorem poisson_noise
        (D : Type) (A : Arith D) (gain : D) (n : Z) (o : accum D) :
  0 <= n -> holds n o ->
  exists o',
    (if (gain >? lit 0 1)%D
     then down_loop (Z.to_nat n) (poisson_body gain) o
     else Some o) = Some o'
    /\ o_sum o' = o_sum o /\ o_area o' = o_area o
    /\ o_maskarea o' = o_maskarea o
    /\ if (gain >? lit 0 1)%D
       then forall j s v, 0 <= j < n ->
              aget (o_sum o) j = Some s -> aget (o_sumvar o) j = Some v ->
              aget (o_sumvar o') j
              = Some (if (s >? lit 0 1)%D then (v + s / gain)%D else v)
       else o' = o.
Proof.
  intros Hn Ho. destruct (gain >? lit 0 1)%D.
  - rewrite <- (Z2Nat.id n) in Ho by assumption.
    destruct (poisson_loop gain (Z.to_nat n) o Ho)
      as (o' & E & Es & Ea & Em & _ & Hlow & _).
    exists o'. split; [exact E|]. split; [exact Es|]. split; [exact Ea|].
    split; [exact Em|]. intros j s v Hj. apply Hlow. lia.
  - exists o. repeat split.
Qed.

Lemma poisson_noise_witness :
  exists o',
    (if (f64 2 1 >? lit 0 1)%D
     then down_loop (Z.to_nat 2) (poisson_body (f64 2 1))
                    (Accum [f64 8 1; f64 (-4) 1] [f64 1 1; f64 1 1]
                           [f64 4 1; f64 4 1] [f64 0 1; f64 0 1])
     else Some (Accum [f64 8 1; f64 (-4) 1] [f64 1 1; f64 1 1]
                      [f64 4 1; f64 4 1] [f64 0 1; f64 0 1])) = Some o'
    /\ o_sum o' = [f64 8 1; f64 (-4) 1] /\ o_area o' = [f64 4 1; f64 4 1]
    /\ o_maskarea o' = [f64 0 1; f64 0 1]
    /\ if (f64 2 1 >? lit 0 1)%D
       then forall j s v, 0 <= j < 2 ->
              aget [f64 8 1; f64 (-4) 1] j = Some s ->
              aget [f64 1 1; f64 1 1] j = Some v ->
              aget (o_sumvar o') j
              = Some (if (s >? lit 0 1)%D then (v + s / f64 2 1)%D else v)
       else o' = Accum [f64 8 1; f64 (-4) 1] [f64 1 1; f64 1 1]
                       [f64 4 1; f64 4 1] [f64 0 1; f64 0 1].
Proof.
  apply (poisson_noise _ Float64 (f64 2 1) 2
           (Accum [f64 8 1; f64 (-4) 1] [f64 1 1; f64 1 1]
                  [f64 4 1; f64 4 1] [f64 0 1; f64 0 1])).
  - lia.
  - unfold holds. cbn. lia.
Defined.

(* ================================================================= *)
(** ** [sep_sum_circann_multi] in exact arithmetic: every access is
       inside the arrays *)

Lemma holds_shape {D : Type} (n : Z) (o o' : accum D) :
  same_shape o o' -> holds n o -> holds n o'.
Proof. unfold same_shape, holds. intros (-> & -> & -> & ->). auto. Qed.

Lemma trunc_nonneg_value (v : R) : (0 <= v)%R -> 0 <= RA.trunc v.
Proof. intros H. rewrite RFacts.trunc_nonneg by assumption. now apply Zfloor_lub. Qed.

Section MultiDefined.
Context {M : Macros R} {C : Converters R}.
Variables (data : buffer) (error mask : option buffer).
Variables (convert : elem -> R) (econvert mconvert : option (elem -> R)).
Variables (size esize msize : Z).
Variables (w h : Z) (maskthresh x y rmax : R) (n subpix : Z).
Variables (errisarray errisstd : bool).
Hypothesis rmax_pos : (0 < rmax)%R.
Hypothesis n_pos : 1 <= n.
Hypothesis subpix_pos : 1 <= subpix.
Hypothesis bins_fit : ((2 * rmax + 4) * IZR n <= 2147483648 * rmax)%R.
Hypothesis error_read : errisarray = true -> error <> None /\ econvert <> None.
Hypothesis mask_read : mask <> None -> mconvert <> None.

(** The initializations of [sep_sum_circann_multi]. *)
Let scale : R := (lit 1 1 / of_int subpix)%D.
Let scale2 : R := (scale * scale)%D.
Let offset : R := (lit 5 10 * (scale - lit 1 1))%D.
Let r_out2 : R := ((rmax + lit 15 10) * (rmax + lit 15 10))%D.
Let step : R := (rmax / of_int n)%D.
Let stepdens : R := (lit 1 1 / step)%D.
Let prevbinmargin : R := lit 7072 10000.
Let nextbinmargin : R := (step - lit 7072 10000)%D.

Lemma addto_defined (l : list R) (j : Z) (v : R) :
  0 <= j < Z.of_nat (length l) -> exists l', addto l j v = Some l'.
Proof.
  intros Hj. unfold addto. destruct (aget_some l j Hj) as [a ->]. cbn [bind].
  rewrite aset_some by assumption. eauto.
Qed.

Lemma deposit_defined (im : bool) (j : Z) (dm ds dv da : R) (o : accum R) :
  0 <= j -> holds n o ->
  exists o', deposit n im j dm ds dv da o = Some o' /\ holds n o'.
Proof.
  intros Hj Ho. destruct Ho as (Hs & Hv & Ha & Hm).
  assert (Hex : exists o', deposit n im j dm ds dv da o = Some o').
  { unfold deposit. destruct (j <? n) eqn:E; [|eauto]. apply Z.ltb_lt in E.
    destruct im.
    - destruct (addto_defined (o_maskarea o) j dm) as [m ->]; [lia|].
      cbn [bind o_area]. destruct (addto_defined (o_area o) j da) as [a ->]; [lia|].
      cbn [bind]. eauto.
    - destruct (addto_defined (o_sum o) j ds) as [s ->]; [lia|]. cbn [bind].
      destruct (addto_defined (o_sumvar o) j dv) as [v ->]; [lia|].
      cbn [bind o_area]. destruct (addto_defined (o_area o) j da) as [a ->]; [lia|].
      cbn [bind]. eauto. }
  destruct Hex as [o' E]. exists o'. split; [exact E|].
  apply holds_shape with o; [|repeat split; assumption].
  exact (proj1 (deposit_keeps n im j dm ds dv da o o' E)).
Qed.

(** A sample of the specification lands in an array entry that
    exists. *)
Lemma sample_defined (pix varpix : R) (im : bool) (wgt : R) (c : R * R)
      (o : accum R) :
  holds n o ->
  exists o', sample n rmax pix varpix im wgt c o = Some o' /\ holds n o'.
Proof.
  intros Ho. unfold sample. apply deposit_defined; [|assumption].
  unfold bin_index. apply Zfloor_lub. cbn [IZR].
  assert (0 < IZR n)%R by (apply IZR_lt; lia).
  apply Rmult_le_pos; [apply sqrt_pos|].
  apply Rlt_le, Rinv_0_lt_compat. now apply Rdiv_lt_0_compat.
Qed.

Lemma samples_defined (pix varpix : R) (im : bool) (wgt : R)
      (l : list (R * R)) :
  forall o : accum R, holds n o ->
  exists o', fold_opt (sample n rmax pix varpix im wgt) l o = Some o'
             /\ holds n o'.
Proof.
  induction l as [|c l IH]; intros o Ho; [cbn; eauto|].
  cbn [fold_opt].
  destruct (sample_defined pix varpix im wgt c o Ho) as (o1 & -> & H1).
  cbn [bind]. now apply IH.
Qed.

(** A pixel that passed [rpix2 < r_out2] is near enough for its bin
    indices to fit an [int]. *)
Lemma near_fits (dx dy : R) :
  (dx * dx + dy * dy < r_out2)%R ->
  ((Rabs dx + Rabs dy + 1) * IZR n < 2147483648 * rmax)%R.
Proof.
  unfold r_out2. cbn [lit add mul RealArith]. intros Hq.
  assert (Hn : (0 < IZR n)%R) by (apply IZR_lt; lia).
  assert (Hb : forall u v : R,
             (u * u + v * v < (rmax + 15 / 10) * (rmax + 15 / 10))%R ->
             (Rabs u < rmax + 15 / 10)%R).
  { intros u v Huv. unfold Rabs. destruct (Rcase_abs u); nra. }
  pose proof (Hb dx dy Hq) as Hx.
  pose proof (Hb dy dx ltac:(lra)) as Hy.
  apply Rlt_le_trans with ((2 * rmax + 4) * IZR n)%R; [|exact bins_fit].
  apply Rmult_lt_compat_r; lra.
Qed.

Lemma bin_pixel_defined (pix varpix : R) (im : bool) (dx dy : R)
      (o : accum R) :
  (dx * dx + dy * dy < r_out2)%R -> holds n o ->
  exists o', bin_pixel n subpix scale scale2 offset step stepdens prevbinmargin
                       nextbinmargin pix varpix im dx dy (dx * dx + dy * dy)%R o
             = Some o'
             /\ holds n o'.
Proof.
  intros Hq Ho.
  assert (E : bin_pixel n subpix scale scale2 offset step stepdens prevbinmargin
                        nextbinmargin pix varpix im dx dy (dx * dx + dy * dy)%R o
              = claimed_contribution n subpix rmax pix varpix im dx dy o)
    by exact (bin_pixel_contribution n subpix rmax pix varpix im
                rmax_pos n_pos subpix_pos dx dy o (near_fits dx dy Hq)).
  rewrite E. unfold claimed_contribution.
  destruct (_ && _); [now apply sample_defined | now apply samples_defined].
Qed.

Let pixel := multi_pixel data error mask convert econvert mconvert maskthresh
               x y n subpix errisarray errisstd scale scale2 offset r_out2
               step stepdens prevbinmargin nextbinmargin.

Lemma multi_pixel_defined (ix iy datat errort maskt : Z) (st : mstate R) :
  holds n (m_out st) ->
  exists st', pixel ix iy datat errort maskt st = Some st' /\ holds n (m_out st').
Proof.
  intros Ho. unfold pixel, multi_pixel.
  destruct (_ <? r_out2)%D eqn:Eq; [|eauto].
  cbn [ltb add sub mul of_int RealArith] in Eq. apply RFacts.ltb_iff in Eq.
  assert (Hbin : forall (pix varpix : R) (im : bool)
                        (k : accum R -> option (mstate R)),
             (forall o', holds n o' ->
                exists st', k o' = Some st' /\ holds n (m_out st')) ->
             exists st',
               bind (bin_pixel n subpix scale scale2 offset step stepdens
                               prevbinmargin nextbinmargin pix varpix im
                               (of_int ix - x)%D (of_int iy - y)%D
                               ((of_int ix - x) * (of_int ix - x)
                                + (of_int iy - y) * (of_int iy - y))%D
                               (m_out st)) k = Some st'
               /\ holds n (m_out st')).
  { intros pix varpix im k Hk.
    destruct (bin_pixel_defined pix varpix im (IZR ix - x)%R (IZR iy - y)%R
                (m_out st) Eq Ho) as (o' & E' & Ho').
    cbn [add sub mul of_int RealArith]. rewrite E'.
    cbn [bind]. now apply Hk. }
  destruct errisarray.
  - destruct (error_read eq_refl) as [He Hc].
    destruct error as [e|]; [|congruence].
    destruct econvert as [ec|]; [|congruence]. cbn [rd bind].
    destruct mask as [mk|].
    + destruct mconvert as [mc|]; [|exfalso; now apply mask_read].
      cbn [rd bind]. destruct (_ >? maskthresh)%D; cbn [bind];
        apply Hbin; intros o' Ho'; eexists; (split; [reflexivity | exact Ho']).
    + cbn [bind]. apply Hbin. intros o' Ho'. eexists.
      split; [reflexivity | exact Ho'].
  - cbn [bind].
    destruct mask as [mk|].
    + destruct mconvert as [mc|]; [|exfalso; now apply mask_read].
      cbn [rd bind]. destruct (_ >? maskthresh)%D; cbn [bind];
        apply Hbin; intros o' Ho'; eexists; (split; [reflexivity | exact Ho']).
    + cbn [bind]. apply Hbin. intros o' Ho'. eexists.
      split; [reflexivity | exact Ho'].
Qed.

Let pixels := multi_pixels data error mask convert econvert mconvert
                size esize msize maskthresh
                x y n subpix errisarray errisstd scale scale2 offset r_out2
                step stepdens prevbinmargin nextbinmargin.

Lemma multi_pixels_defined (iy : Z) (k : nat) :
  forall (ix datat errort maskt : Z) (st : mstate R),
  holds n (m_out st) ->
  exists st', pixels k ix iy datat errort maskt st = Some st'
              /\ holds n (m_out st').
Proof.
  unfold pixels. induction k as [|k IH]; intros ix datat errort maskt st Ho;
    [cbn; eauto|].
  cbn [multi_pixels].
  destruct (multi_pixel_defined ix iy datat errort maskt st Ho) as (st1 & E1 & H1).
  unfold pixel in E1. rewrite E1. cbn [bind]. now apply IH.
Qed.

Let rows := multi_rows data error mask convert econvert mconvert
              size esize msize w h maskthresh
              x y n subpix errisarray errisstd scale scale2 offset r_out2
              step stepdens prevbinmargin nextbinmargin.

Lemma multi_rows_defined (bx : box) (k : nat) :
  0 <= w -> 0 <= xmin bx -> (h - 1) * w + xmin bx <= INT_MAX ->
  forall (iy : Z) (st : mstate R),
  0 <= iy -> (k <> 0%nat -> iy + Z.of_nat k <= h) ->
  holds n (m_out st) ->
  exists st', rows k bx iy st = Some st' /\ holds n (m_out st').
Proof.
  unfold rows. intros Hw Hx0 Hmax.
  induction k as [|k IH]; intros iy st H0 Hh Ho; [cbn; eauto|].
  specialize (Hh ltac:(discriminate)). rewrite Nat2Z.inj_succ in Hh.
  cbn [multi_rows]. unfold multi_row.
  replace (h =? 0) with false by (symmetry; apply Z.eqb_neq; lia).
  assert (Hrow : 0 <= Z.rem iy h * w <= (h - 1) * w).
  { rewrite Z.rem_small by lia. split; [lia|].
    apply Z.mul_le_mono_nonneg_r; lia. }
  rewrite int_val_eq by (unfold INT_MIN, INT_MAX in *; lia). cbn [bind].
  rewrite int_val_eq by (unfold INT_MIN, INT_MAX in *; lia). cbn [bind].
  destruct (multi_pixels_defined iy (Z.to_nat (xmax bx - xmin bx)) (xmin bx)
              ((Z.rem iy h * w + xmin bx) * size)
              (if errisarray then (Z.rem iy h * w + xmin bx) * esize else 0)
              (match mask with
               | Some _ => (Z.rem iy h * w + xmin bx) * msize
               | None => 0
               end) st Ho) as (st1 & E1 & H1).
  unfold pixels in E1. rewrite E1. cbn [bind].
  apply IH; [lia | lia | assumption].
Qed.
End MultiDefined.

Section MultiDefinedTop.
Context {M : Macros R} {C : Converters R}.
Variables (data : buffer) (error mask : option buffer).
Variables (dtype edtype mdtype w h : Z) (maskthresh gain : R) (inflag : Z).
Variables (x y rmax : R) (n subpix : Z) (o : accum R) (flag : Z).
Hypothesis rmax_pos : (0 < rmax)%R.
Hypothesis n_pos : 1 <= n.
Hypothesis subpix_pos : 1 <= subpix.
Hypothesis arrays : holds n o.
Hypothesis converters :
  converter_status error mask dtype edtype mdtype = RETURN_OK.
Hypothesis w_nonneg : 0 <= w.
Hypothesis h_nonneg : 0 <= h.
Hypothesis x_reach :
  (IZR (w * h) + Rabs x + (rmax + 15 / 10) <= 2147483646)%R.
Hypothesis y_reach : (Rabs y + (rmax + 15 / 10) <= 2147483646)%R.
Hypothesis bins_fit : ((2 * rmax + 4) * IZR n <= 2147483648 * rmax)%R.

Lemma md_zeroed (l : list R) :
  n <= Z.of_nat (length l) -> n <= Z.of_nat (length (zeroed n l)).
Proof.
  intros H. unfold zeroed. rewrite length_app, repeat_length, length_skipn. lia.
Qed.

(** The steps after the resolution of the converters, on the cleared
    arrays. *)
Ltac md_tail :=
  (* the scalar variance *)
  repeat match goal with
    | |- context [if ?b then _ else _] =>
        match b with
        | negb (Z.land inflag SEP_ERROR_IS_ARRAY =? 0) => destruct b eqn:?
        end
    end;
  cbn [rd bind];
  (* the box *)
  assert (Hro : (0 <= (rmax + lit 15 10)%D)%R)
    by (cbn [lit add RealArith]; lra);
  destruct (box_exists_fit (M := M) x y (rmax + lit 15 10)%D
              (rmax + lit 15 10)%D w h 0 Hro Hro
              w_nonneg h_nonneg x_reach y_reach)
    as (bx & fl & Eb & Hfit);
  rewrite Eb; cbn [bind];
  pose proof (boxextent_inside _ _ _ _ _ _ _ _ _ Eb) as Hbox;
  (* the scan *)
  match goal with
  | |- context [bind ?m _] =>
      let Er := fresh "Er" in
      let Hst := fresh "Hst" in
      let st := fresh "st" in
      assert (exists st', m = Some st' /\ holds n (m_out st')) as (st & Er & Hst);
      [ apply multi_rows_defined;
        first
          [ assumption
          | lia
          | intros Hk; lia
          | intros He; split; congruence
          | congruence
          | cbn [m_out]; destruct arrays as (? & ? & ? & ?);
            repeat split; cbn [o_sum o_sumvar o_area o_maskarea];
            try apply md_zeroed; assumption ]
      | rewrite Er; cbn [bind] ]
  end.

Lemma md_finish (o1 : accum R) (s : status) (fl : Z) (l : list access) :
  holds n o1 ->
  exists res,
    (let* o2 := if (gain >? lit 0 1)%D
                then down_loop (Z.to_nat n) (poisson_body gain) o1
                else Some o1 in
     Some (MResult s o2 fl l)) = Some res.
Proof.
  intros Ho1. destruct (gain >? lit 0 1)%D.
  - rewrite <- (Z2Nat.id n) in Ho1 by lia.
    destruct (poisson_loop gain (Z.to_nat n) o1 Ho1) as (o2 & -> & _).
    cbn [bind]. eauto.
  - cbn [bind]. eauto.
Qed.

Lemma md_correct (st : mstate R) (s : status) :
  holds n (m_out st) ->
  exists res,
    (let* o1 := correct_masked inflag n (m_out st) in
     let* o2 := if (gain >? lit 0 1)%D
                then down_loop (Z.to_nat n) (poisson_body gain) o1
                else Some o1 in
     Some (MResult s o2 (m_flag st) (m_log st))) = Some res.
Proof.
  intros Hst.
  destruct (correct_masked_spec inflag n (m_out st) ltac:(lia) Hst)
    as (o1 & Ec & _).
  rewrite Ec. cbn [bind]. apply md_finish.
  apply holds_shape with (m_out st); [|assumption].
  exact (proj1 (correct_masked_shape _ _ _ _ Ec)).
Qed.

Lemma multi_returns :
  exists res,
    sep_sum_circann_multi data error mask dtype edtype mdtype w h
                          maskthresh gain inflag x y rmax n subpix o flag
    = Some res.
Proof.
  pose proof converters as Hc.
  unfold sep_sum_circann_multi.
  assert (Hlt : (rmax <? lit 0 1)%D = false).
  { cbn [ltb lit RealArith]. apply RFacts.ltb_false. rewrite Rdiv_0_l. lra. }
  rewrite Hlt.
  replace (n <? 1) with false by (symmetry; apply Z.ltb_ge; lia).
  replace (subpix <? 1) with false by (symmetry; apply Z.ltb_ge; lia).
  cbn [orb]. destruct arrays as (Hs & Hv & Ha & Hm).
  rewrite !memset0_zeroed by assumption. cbn [bind].
  unfold converter_status in Hc.
  destruct (get_converter dtype) as [[s c] z]. cbn [fst] in Hc.
  destruct (is_ok s) eqn:Es; cbn [negb] in *;
    [|subst s; discriminate].
  destruct error as [e|], mask as [mk|].
  - destruct (get_converter edtype) as [[s' c'] z']. cbn [fst] in Hc.
    destruct (is_ok s') eqn:Es'; cbn [negb] in *; [|subst s'; discriminate].
    destruct (get_converter mdtype) as [[s'' c''] z'']. cbn [fst] in Hc.
    subst s''. cbn [is_ok negb].
    rewrite ?memset0_zeroed by assumption. cbn [bind].
    md_tail; apply md_correct; assumption.
  - destruct (get_converter edtype) as [[s' c'] z']. cbn [fst] in Hc.
    destruct (is_ok s') eqn:Es'; cbn [negb] in *; [|subst s'; discriminate].
    rewrite ?Es'. cbn [negb bind].
    md_tail; apply md_finish; assumption.
  - rewrite Es in *. cbn [negb] in *.
    destruct (get_converter mdtype) as [[s'' c''] z'']. cbn [fst] in Hc.
    subst s''. cbn [is_ok negb].
    rewrite ?memset0_zeroed by assumption. cbn [bind].
    md_tail; apply md_correct; assumption.
  - rewrite ?Es. cbn [negb bind].
    md_tail; apply md_finish; assumption.
Qed.
End MultiDefinedTop.

(** In exact arithmetic, with [rmax > 0], [n >= 1], [subpix >= 1],
    output arrays that hold the [n] bins, supported encodings, and an
    image and an aperture within the reach of an [int]: the image has
    fewer than [2^31] pixels, the bounds that [boxextent] casts and the
    row offsets stay below [2^31], and the bins are not so narrow that
    the index of a pixel of the scanned disk overflows,
    [(2*rmax + 4) * n <= 2^31 * rmax].  Then [sep_sum_circann_multi]
    returns, with [RETURN_OK]: every cast it makes has a value, every
    bin index it uses lies in [[0, n)], every pixel it reads is read
    through a resolved converter, and the arrays keep their lengths. *)
Theorem multi_defined_in_exact_arithmetic
        (M : Macros R) (C : Converters R)
        (data : buffer) (error mask : option buffer)
        (dtype edtype mdtype w h : Z) (maskthresh gain : R) (inflag : Z)
        (x y rmax : R) (n subpix : Z) (o : accum R) (flag : Z) :
  (0 < rmax)%R -> 1 <= n -> 1 <= subpix -> holds n o ->
  converter_status error mask dtype edtype mdtype = RETURN_OK ->
  0 <= w -> 0 <= h ->
  (IZR (w * h) + Rabs x + (rmax + 15 / 10) <= 2147483646)%R ->
  (Rabs y + (rmax + 15 / 10) <= 2147483646)%R ->
  ((2 * rmax + 4) * IZR n <= 2147483648 * rmax)%R ->
  exists res,
    sep_sum_circann_multi data error mask dtype edtype mdtype w h
                          maskthresh gain inflag x y rmax n subpix o flag
    = Some res
    /\ r_status res = RETURN_OK
    /\ same_shape o (r_out res).
Proof.
  intros Hr Hn Hs Ho Hc Hw Hh Hx Hy Hb.
  destruct (multi_returns data error mask dtype edtype mdtype w h maskthresh
              gain inflag x y rmax n subpix o flag Hr Hn Hs Ho Hc
              Hw Hh Hx Hy Hb) as [res E].
  exists res. split; [exact E|]. split.
  - apply (multi_no_late_failure data error mask dtype edtype mdtype w h
             maskthresh gain inflag x y rmax n subpix o flag res);
      try assumption.
    cbn [ltb lit RealArith]. apply RFacts.ltb_false. rewrite Rdiv_0_l. lra.
  - exact (proj1 (multi_shape _ _ _ _ _ _ _ _ _ _ _ _ _ _ _ _ _ _ _ E)).
Qed.

Lemma multi_defined_in_exact_arithmetic_witness :
  exists res,
    sep_sum_circann_multi (M := MacrosR) (C := ConvertersR)
      (fun _ => 1%R) None None 82 82 82 20 20 0%R 0%R 0
      10%R 10%R 5%R 2 3 (Accum [7; 7]%R [7; 7]%R [7; 7]%R [7; 7]%R) 99
    = Some res
    /\ r_status res = RETURN_OK
    /\ same_shape (Accum [7; 7]%R [7; 7]%R [7; 7]%R [7; 7]%R) (r_out res).
Proof.
  apply (multi_defined_in_exact_arithmetic MacrosR ConvertersR
           (fun _ => 1%R) None None 82 82 82 20 20 0%R 0%R 0
           10%R 10%R 5%R 2 3 (Accum [7; 7]%R [7; 7]%R [7; 7]%R [7; 7]%R) 99).
  - lra.
  - lia.
  - lia.
  - unfold holds. cbn. lia.
  - reflexivity.
  - lia.
  - lia.
  - rewrite Rabs_right by lra. cbn. lra.
  - rewrite Rabs_right by lra. lra.
  - lra.
Defined.

(* ================================================================= *)
(** ** [sep_flux_radius]: failures and the range of the radii *)

Section FluxGeneric.
Context {D : Type} {A : Arith D} {M : Macros D} {C : Converters D}.

Lemma zrange_length (a b : Z) : length (zrange a b) = Z.to_nat (b - a).
Proof. unfold zrange. now rewrite length_map, length_seq. Qed.

Lemma flux_buffers (stack : Z -> D) :
  holds FLUX_RADIUS_BUFSIZE
        (Accum (repeat (lit 0 1) (Z.to_nat FLUX_RADIUS_BUFSIZE))
               (map stack (zrange 0 FLUX_RADIUS_BUFSIZE))
               (map stack (zrange FLUX_RADIUS_BUFSIZE (2 * FLUX_RADIUS_BUFSIZE)))
               (map stack (zrange (2 * FLUX_RADIUS_BUFSIZE)
                                  (3 * FLUX_RADIUS_BUFSIZE)))).
Proof.
  unfold holds. cbn [o_sum o_sumvar o_area o_maskarea].
  rewrite repeat_length, !length_map, !zrange_length.
  unfold FLUX_RADIUS_BUFSIZE. repeat split; reflexivity.
Qed.

(** A profile of zeros sends every fraction to the radius 0, in an
    arithmetic where [0 < f * 0] holds for no [f]. *)
Lemma ppf_zero_profile (xmax : D) (k : nat) (frac : list D) (nfrac : Z) :
  (forall f : D,
     (lit 0 1 <? f * ppf_sum (repeat (lit 0 1) (S k)) (Z.of_nat (S k)))%D = false) ->
  sep_ppf xmax (repeat (lit 0 1) (S k)) (Z.of_nat (S k)) frac nfrac
  = map (fun _ => lit 0 1) (firstn (Z.to_nat nfrac) frac).
Proof.
  intros Hz. unfold sep_ppf. apply map_ext. intros f. unfold ppf_one.
  rewrite Nat2Z.id. cbn [ppf_while].
  replace (0 <? Z.of_nat (S k)) with true by (symmetry; apply Z.ltb_lt; lia).
  rewrite Hz. reflexivity.
Qed.
End FluxGeneric.

(** On the reals no fraction of zero is positive. *)
Lemma zero_target_R (k : nat) (f : R) :
  (lit 0 1 <? f * ppf_sum (repeat (lit 0 1) k) (Z.of_nat k))%D = false.
Proof.
  assert (E : ppf_sum (repeat (lit 0 1 : R) k) (Z.of_nat k) = 0%R).
  { unfold ppf_sum. rewrite Nat2Z.id, firstn_all2 by (rewrite repeat_length; lia).
    assert (H : forall c : R, fold_left add (repeat (lit 0 1 : R) k) c = c).
    { induction k as [|k IH]; intros c; [reflexivity|].
      cbn [repeat fold_left]. rewrite IH. cbn. lra. }
    rewrite H. cbn. lra. }
  rewrite E. cbn [ltb lit mul RealArith]. apply RFacts.ltb_false.
  rewrite Rdiv_0_l. lra.
Qed.

(** On IEEE doubles the product of any double and [+0.0] is a zero or
    not a number, and [0.0 < ] it is false. *)
Lemma zero_target_F64 (f : PrimFloat.float) :
  PrimFloat.ltb (f64 0 1) (PrimFloat.mul f (f64 0 1)) = false.
Proof.
  rewrite FloatAxioms.ltb_spec, FloatAxioms.mul_spec.
  change (FloatOps.Prim2SF (f64 0 1)) with (SpecFloat.S754_zero false).
  destruct (FloatOps.Prim2SF f) as [s|s| |s m e]; try destruct s; reflexivity.
Qed.

Section FluxFailure.
Context {D : Type} {A : Arith D} {M : Macros D} {C : Converters D}.
Hypothesis zero_target :
  forall f : D,
    (lit 0 1 <? f * ppf_sum (repeat (lit 0 1) 64) 64)%D = false.

Lemma repeat_zeroed (k : nat) :
  zeroed (Z.of_nat k) (repeat (lit 0 1 : D) k) = repeat (lit 0 1) k.
Proof.
  unfold zeroed. rewrite Nat2Z.id, skipn_all2 by (rewrite repeat_length; lia).
  apply app_nil_r.
Qed.

Lemma flux_failure
      (stack : Z -> D) (data : buffer) (error mask : option buffer)
      (dtype edtype mdtype w h : Z) (maskthresh gain : D) (inflag : Z)
      (x y rmax : D) (subpix : Z) (fluxfrac : list D) (n : Z) (flag : Z) :
  let s := first_failure rmax FLUX_RADIUS_BUFSIZE subpix error mask
                         dtype edtype mdtype in
  s <> RETURN_OK ->
  exists fl,
    sep_flux_radius stack data error mask dtype edtype mdtype w h maskthresh
                    gain inflag x y rmax subpix fluxfrac n flag
    = Some (FResult s (map (fun _ => lit 0 1) (firstn (Z.to_nat n) fluxfrac))
                    fl []).
Proof.
  intros s Hs. subst s. unfold first_failure in *. unfold sep_flux_radius.
  pose proof (flux_buffers stack) as Hb.
  set (o := Accum _ _ _ _) in *.
  pose proof (ppf_zero_profile rmax 63 fluxfrac n zero_target) as Hz.
  change (Z.of_nat 64) with FLUX_RADIUS_BUFSIZE in Hz.
  change (Z.to_nat FLUX_RADIUS_BUFSIZE) with 64%nat in *.
  destruct ((rmax <? lit 0 1)%D) eqn:E1; cbn [orb] in *.
  - rewrite multi_illegal_aper by now left.
    cbn [bind r_out r_status r_flag r_log o_sum o]. rewrite Hz. eauto.
  - change (FLUX_RADIUS_BUFSIZE <? 1) with false in *. cbn iota in *.
    destruct (subpix <? 1) eqn:E2.
    + apply Z.ltb_lt in E2.
      rewrite multi_illegal_subpix by (try assumption; unfold FLUX_RADIUS_BUFSIZE; lia).
      cbn [bind r_out r_status r_flag r_log o_sum o]. rewrite Hz. eauto.
    + apply Z.ltb_ge in E2.
      rewrite multi_converter_failure;
        try assumption; try (unfold FLUX_RADIUS_BUFSIZE; lia).
      * cbn [bind r_out r_status r_flag r_log o_sum o cleared].
        change FLUX_RADIUS_BUFSIZE with (Z.of_nat 64) at 1.
        rewrite repeat_zeroed. change (Z.of_nat 64) with FLUX_RADIUS_BUFSIZE.
        rewrite Hz. eauto.
      * destruct Hb as (H1 & H2 & H3 & H4). unfold clearable.
        repeat split; try assumption. now destruct mask.
Qed.
End FluxFailure.

(** Whenever a check of the multi-annulus sum fails (a negative [rmax],
    [subpix < 1], an unsupported encoding), [sep_flux_radius] returns
    the status of that failure and every radius it writes is [0.0],
    whatever the fractions: [sep_ppf] runs on the zero-initialized
    [sumbuf].  In exact arithmetic and on IEEE doubles. *)
Theorem flux_radius_failure :
  (forall (M : Macros R) (C : Converters R)
          (stack : Z -> R) (data : buffer) (error mask : option buffer)
          (dtype edtype mdtype w h : Z) (maskthresh gain : R) (inflag : Z)
          (x y rmax : R) (subpix : Z) (fluxfrac : list R) (n : Z) (flag : Z),
      let s := first_failure rmax FLUX_RADIUS_BUFSIZE subpix error mask
                             dtype edtype mdtype in
      s <> RETURN_OK ->
      exists fl,
        sep_flux_radius stack data error mask dtype edtype mdtype w h maskthresh
                        gain inflag x y rmax subpix fluxfrac n flag
        = Some (FResult s (map (fun _ => 0 / 1)%R (firstn (Z.to_nat n) fluxfrac))
                        fl []))
  /\ (forall (M : Macros PrimFloat.float) (C : Converters PrimFloat.float)
             (stack : Z -> PrimFloat.float) (data : buffer)
             (error mask : option buffer)
             (dtype edtype mdtype w h : Z) (maskthresh gain : PrimFloat.float)
             (inflag : Z) (x y rmax : PrimFloat.float) (subpix : Z)
             (fluxfrac : list PrimFloat.float) (n : Z) (flag : Z),
         let s := first_failure rmax FLUX_RADIUS_BUFSIZE subpix error mask
                                dtype edtype mdtype in
         s <> RETURN_OK ->
         exists fl,
           sep_flux_radius stack data error mask dtype edtype mdtype w h
                           maskthresh gain inflag x y rmax subpix fluxfrac n flag
           = Some (FResult s (map (fun _ => f64 0 1)
                                  (firstn (Z.to_nat n) fluxfrac)) fl [])).
Proof.
  split.
  - intros M C. apply (@flux_failure R RealArith M C).
    intros f. apply (zero_target_R 64).
  - intros M C. apply (@flux_failure PrimFloat.float Float64 M C). intros f.
    replace (ppf_sum (repeat (lit 0 1) 64) 64) with (f64 0 1)
      by (vm_compute; reflexivity).
    apply zero_target_F64.
Qed.

Lemma flux_radius_failure_witness :
  exists fl,
    sep_flux_radius (fun _ => f64 7 1) flat_image None None 82 82 82 20 20
                    (f64 0 1) (f64 0 1) 0 (f64 10 1) (f64 10 1) (f64 (-1) 1) 5
                    [f64 5 10; f64 9 10] 2 99
    = Some (FResult ILLEGAL_APER_PARAMS
                    (map (fun _ => f64 0 1)
                         (firstn (Z.to_nat 2) [f64 5 10; f64 9 10])) fl []).
Proof.
  apply (proj2 flux_radius_failure Macros64 Converters64
           (fun _ => f64 7 1) flat_image None None 82 82 82 20 20
           (f64 0 1) (f64 0 1) 0 (f64 10 1) (f64 10 1) (f64 (-1) 1) 5
           [f64 5 10; f64 9 10] 2 99).
  vm_compute. discriminate.
Defined.

(** In exact arithmetic, with [rmax >= 1.25e-7] (so that no index of the
    64 bins overflows an [int]), [subpix >= 1], supported encodings, and
    an image and an aperture within the reach of an [int] (fewer than
    [2^31] pixels, the bounds that [boxextent] casts and the row offsets
    below [2^31]): [sep_flux_radius] returns [RETURN_OK], and every
    radius it writes lies between 0 and [rmax], whatever the pixel
    values and the requested fractions are. *)
Theorem flux_radius_range
        (M : Macros R) (C : Converters R)
        (stack : Z -> R) (data : buffer) (error mask : option buffer)
        (dtype edtype mdtype w h : Z) (maskthresh gain : R) (inflag : Z)
        (x y rmax : R) (subpix : Z) (fluxfrac : list R) (n : Z) (flag : Z) :
  (1 / 8000000 <= rmax)%R -> 1 <= subpix ->
  converter_status error mask dtype edtype mdtype = RETURN_OK ->
  0 <= w -> 0 <= h ->
  (IZR (w * h) + Rabs x + (rmax + 15 / 10) <= 2147483646)%R ->
  (Rabs y + (rmax + 15 / 10) <= 2147483646)%R ->
  exists res,
    sep_flux_radius stack data error mask dtype edtype mdtype w h maskthresh
                    gain inflag x y rmax subpix fluxfrac n flag
    = Some res
    /\ f_status res = RETURN_OK
    /\ Forall (fun r => 0 <= r <= rmax)%R (f_r res).
Proof.
  intros Hr8 Hs Hc Hw Hh Hx Hy. unfold sep_flux_radius.
  assert (Hr : (0 < rmax)%R) by lra.
  pose proof (flux_buffers stack) as Hb.
  set (o := Accum _ _ _ _) in *.
  assert (Hn : 1 <= FLUX_RADIUS_BUFSIZE) by (unfold FLUX_RADIUS_BUFSIZE; lia).
  assert (Hfit : ((2 * rmax + 4) * IZR FLUX_RADIUS_BUFSIZE
                  <= 2147483648 * rmax)%R)
    by (unfold FLUX_RADIUS_BUFSIZE; lra).
  destruct (multi_returns data error mask dtype edtype mdtype w h maskthresh
              gain inflag x y rmax FLUX_RADIUS_BUFSIZE subpix o flag
              Hr Hn Hs Hb Hc Hw Hh Hx Hy Hfit) as [res E].
  rewrite E. cbn [bind]. eexists. split; [reflexivity|].
  cbn [f_status f_r]. split.
  - apply (multi_no_late_failure data error mask dtype edtype mdtype w h
             maskthresh gain inflag x y rmax FLUX_RADIUS_BUFSIZE subpix o flag res);
      try assumption.
    cbn [ltb lit RealArith]. apply RFacts.ltb_false. rewrite Rdiv_0_l. lra.
  - destruct (multi_shape _ _ _ _ _ _ _ _ _ _ _ _ _ _ _ _ _ _ _ E)
      as [(Hlen & _) _].
    assert (Hl : FLUX_RADIUS_BUFSIZE = Z.of_nat (length (o_sum (r_out res)))).
    { rewrite Hlen. unfold o. cbn [o_sum]. rewrite repeat_length. reflexivity. }
    rewrite Hl at 1. apply ppf_radii_range; [|lra].
    intros Hnil. rewrite Hnil in Hl. discriminate Hl.
Qed.

Lemma flux_radius_range_witness :
  exists res,
    sep_flux_radius (M := MacrosR) (C := ConvertersR)
                    (fun _ => 7%R) (fun _ => 1%R) None None 82 82 82 20 20
                    0%R 0%R 0 10%R 10%R 5%R 5 [1 / 2; 9 / 10]%R 2 99
    = Some res
    /\ f_status res = RETURN_OK
    /\ Forall (fun r => 0 <= r <= 5)%R (f_r res).
Proof.
  apply (flux_radius_range MacrosR ConvertersR
           (fun _ => 7%R) (fun _ => 1%R) None None 82 82 82 20 20
           0%R 0%R 0 10%R 10%R 5%R 5 [1 / 2; 9 / 10]%R 2 99).
  - lra.
  - lia.
  - reflexivity.
  - lia.
  - lia.
  - rewrite Rabs_right by lra. cbn. lra.
  - rewrite Rabs_right by lra. lra.
Defined.

(* ================================================================= *)
(** ** [sep_sum_circann_multi] on an image of constant value *)

Section Flat.
Context {M : Macros R} {C : Converters R}.
Variables (data : buffer) (error : option buffer).
Variables (convert : elem -> R) (econvert : option (elem -> R)).
Variables (size esize : Z).
Variables (w h : Z) (maskthresh x y : R) (n subpix : Z).
Variables (errisarray errisstd : bool).
Variables (scale scale2 offset r_out2 step stepdens : R).
Variables (prevbinmargin nextbinmargin : R).
Variable c : R.
Hypothesis flat : forall off : Z, convert (data off) = c.

Lemma addto_get (l l' : list R) (j : Z) (v : R) :
  addto l j v = Some l' ->
  exists old, aget l j = Some old
              /\ aget l' j = Some (old + v)%R
              /\ forall i, i <> j -> aget l' i = aget l i.
Proof.
  unfold addto. destruct (aget l j) as [old|] eqn:E; [|discriminate].
  cbn [bind]. pose proof (aget_range _ _ _ E) as Hj.
  rewrite aset_some by assumption. intros H. injection H as <-.
  exists old. split; [reflexivity|]. split; [now apply aget_upd_same|].
  intros i Hi. destruct (Z_lt_dec i 0) as [Hneg|Hpos].
  - unfold aget. now replace (i <? 0) with true by (symmetry; apply Z.ltb_lt; lia).
  - apply aget_upd_other; lia.
Qed.

Lemma deposit_proportional (j : Z) (dm ds dv da : R) (o o' : accum R) :
  ds = (c * da)%R -> proportional c n o ->
  deposit n false j dm ds dv da o = Some o' -> proportional c n o'.
Proof.
  intros Hds Ho. unfold deposit.
  destruct (j <? n); [|intros H; now injection H as <-].
  destruct (addto (o_sum o) j ds) as [s|] eqn:Es; [|discriminate]. cbn [bind].
  destruct (addto (o_sumvar o) j dv) as [v|] eqn:Ev; [|discriminate].
  cbn [bind o_area o_sum o_sumvar o_maskarea].
  destruct (addto (o_area o) j da) as [a|] eqn:Ea; [|discriminate].
  cbn [bind]. intros H. injection H as <-.
  destruct (addto_get _ _ _ _ Es) as (s0 & Hs0 & Hs1 & Hs2).
  destruct (addto_get _ _ _ _ Ea) as (a0 & Ha0 & Ha1 & Ha2).
  intros i si ai Hi Hsi Hai. cbn [o_sum o_area] in Hsi, Hai.
  destruct (Z.eq_dec i j) as [->|Hne].
  - rewrite Hs1 in Hsi. rewrite Ha1 in Hai.
    injection Hsi as <-. injection Hai as <-.
    rewrite (Ho j s0 a0 Hi Hs0 Ha0), Hds. ring.
  - rewrite Hs2 in Hsi by assumption. rewrite Ha2 in Hai by assumption.
    exact (Ho i si ai Hi Hsi Hai).
Qed.

Lemma sx_loop_proportional (varpix dy2 : R) (k : nat) :
  forall (dx1 : R) (o o' : accum R), proportional c n o ->
  sx_loop n scale scale2 stepdens k c varpix false dx1 dy2 o = Some o' ->
  proportional c n o'.
Proof.
  induction k as [|k IH]; intros dx1 o o' Ho H.
  - cbn in H. now injection H as <-.
  - cbn [sx_loop] in H.
    destruct (to_int _) as [j|]; [|discriminate]. cbn [bind] in H.
    destruct (deposit _ _ _ _ _ _ _ _) as [o1|] eqn:E1; [|discriminate].
    cbn [bind] in H. apply (IH _ _ _) with (2 := H).
    eapply deposit_proportional; [ | exact Ho | exact E1]; cbn; ring.
Qed.

Lemma sy_loop_proportional (varpix dx : R) (k : nat) :
  forall (dy : R) (o o' : accum R), proportional c n o ->
  sy_loop n subpix scale scale2 stepdens k c varpix false dx dy o = Some o' ->
  proportional c n o'.
Proof.
  induction k as [|k IH]; intros dy o o' Ho H.
  - cbn in H. now injection H as <-.
  - cbn [sy_loop] in H.
    destruct (sx_loop _ _ _ _ _ _ _ _ _ _ _) as [o1|] eqn:E1; [|discriminate].
    cbn [bind] in H.
    apply (IH _ _ _ (sx_loop_proportional _ _ _ _ _ _ Ho E1) H).
Qed.

Lemma bin_pixel_proportional (varpix dx dy rpix2 : R) (o o' : accum R) :
  proportional c n o ->
  bin_pixel n subpix scale scale2 offset step stepdens prevbinmargin
            nextbinmargin c varpix false dx dy rpix2 o = Some o' ->
  proportional c n o'.
Proof.
  intros Ho. unfold bin_pixel. destruct (_ || _).
  - now apply sy_loop_proportional.
  - destruct (to_int _) as [j|]; [|discriminate]. cbn [bind].
    apply deposit_proportional; [cbn; field | assumption].
Qed.

(** The state of a scan without mask over the constant image. *)
Let good (st : mstate R) : Prop :=
  m_ismasked st = false /\ proportional c n (m_out st).

Lemma multi_pixel_proportional (ix iy datat errort maskt : Z) (st st' : mstate R) :
  good st ->
  multi_pixel data error None convert econvert None maskthresh
              x y n subpix errisarray errisstd scale scale2 offset r_out2
              step stepdens prevbinmargin nextbinmargin
              ix iy datat errort maskt st = Some st' ->
  good st'.
Proof.
  intros [Hi Ho]. unfold multi_pixel.
  destruct (_ <? r_out2)%D; [|intros H; injection H as <-; now split].
  destruct (if errisarray then _ else _) as [[varpix log]|]; [|discriminate].
  cbn [bind]. rewrite flat, Hi.
  destruct (bin_pixel _ _ _ _ _ _ _ _ _ _ _ _ _ _ _ _) as [o'|] eqn:Eb;
    [|discriminate].
  cbn [bind]. intros H. injection H as <-. split; [reflexivity|]. cbn [m_out].
  exact (bin_pixel_proportional _ _ _ _ _ _ Ho Eb).
Qed.

Lemma multi_pixels_proportional (iy : Z) (k : nat) :
  forall (ix datat errort maskt : Z) (st st' : mstate R),
  good st ->
  multi_pixels data error None convert econvert None size esize 0 maskthresh
               x y n subpix errisarray errisstd scale scale2 offset r_out2
               step stepdens prevbinmargin nextbinmargin
               k ix iy datat errort maskt st = Some st' ->
  good st'.
Proof.
  induction k as [|k IH]; intros ix datat errort maskt st st' Hg H.
  - cbn in H. now injection H as <-.
  - cbn [multi_pixels] in H.
    destruct (multi_pixel _ _ _ _ _ _ _ _ _ _ _ _ _ _ _ _ _ _ _ _ _ _ _ _ _ _ _)
      as [st1|] eqn:E1; [|discriminate].
    cbn [bind] in H.
    exact (IH _ _ _ _ _ _ (multi_pixel_proportional _ _ _ _ _ _ _ Hg E1) H).
Qed.

Lemma multi_rows_proportional (bx : box) (k : nat) :
  forall (iy : Z) (st st' : mstate R),
  good st ->
  multi_rows data error None convert econvert None size esize 0 w h maskthresh
             x y n subpix errisarray errisstd scale scale2 offset r_out2
             step stepdens prevbinmargin nextbinmargin
             k bx iy st = Some st' ->
  proportional c n (m_out st').
Proof.
  induction k as [|k IH]; intros iy st st' Hg H.
  - cbn in H. injection H as <-. exact (proj2 Hg).
  - cbn [multi_rows] in H.
    destruct (multi_row _ _ _ _ _ _ _ _ _ _ _ _ _ _ _ _ _ _ _ _ _ _ _ _ _ _ _ _ _)
      as [st1|] eqn:E1; [|discriminate].
    cbn [bind] in H. apply (IH _ _ _) with (2 := H).
    unfold multi_row in E1. destruct (h =? 0); [discriminate|].
    destruct (int_val (Z.rem iy h * w)); [|discriminate]. cbn [bind] in E1.
    destruct (int_val (_ + xmin bx)); [|discriminate]. cbn [bind] in E1.
    exact (multi_pixels_proportional _ _ _ _ _ _ _ _ Hg E1).
Qed.
End Flat.

Lemma zeroed_get (n j : Z) (l : list R) :
  0 <= j < n -> n <= Z.of_nat (length l) ->
  aget (zeroed n l) j = Some (lit 0 1).
Proof.
  intros Hj Hn. unfold aget, zeroed.
  replace (j <? 0) with false by (symmetry; apply Z.ltb_ge; lia).
  rewrite nth_error_app1 by (rewrite repeat_length; lia).
  rewrite nth_error_repeat by lia. reflexivity.
Qed.

Lemma poisson_keeps_sums (gain : R) (k : nat) (o o' : accum R) :
  down_loop k (poisson_body gain) o = Some o' ->
  o_sum o' = o_sum o /\ o_area o' = o_area o.
Proof.
  revert k o o'.
  apply (down_loop_keeps
           (fun o o' : accum R => o_sum o' = o_sum o /\ o_area o' = o_area o)).
  - intros o. split; reflexivity.
  - intros o1 o2 o3 [H1 H2] [H3 H4]. split; congruence.
  - intros j o o'. unfold poisson_body.
    destruct (aget (o_sum o) j) as [s|]; [|discriminate]. cbn [bind].
    destruct (_ >? _)%D.
    + destruct (addto _ _ _) as [v|]; [|discriminate]. cbn [bind].
      intros H. injection H as <-. split; reflexivity.
    + intros H. injection H as <-. split; reflexivity.
Qed.

Section FlatTop.
Context {M : Macros R} {C : Converters R}.
Variables (data : buffer) (error : option buffer).
Variables (dtype edtype mdtype w h : Z) (maskthresh gain : R) (inflag : Z).
Variables (x y rmax : R) (n subpix : Z) (o : accum R) (flag : Z).
Variable c : R.
Hypothesis flat : forall off : Z, snd (fst (get_converter dtype)) (data off) = c.
Hypothesis arrays : holds n o.
Hypothesis n_pos : 1 <= n.

Lemma flat_sums (res : mresult) :
  sep_sum_circann_multi data error None dtype edtype mdtype w h
                        maskthresh gain inflag x y rmax n subpix o flag
  = Some res ->
  r_status res = RETURN_OK ->
  proportional c n (r_out res).
Proof.
  unfold sep_sum_circann_multi.
  destruct (_ || _); [intros H; injection H as <-; discriminate|].
  destruct (subpix <? 1); [intros H; injection H as <-; discriminate|].
  destruct arrays as (Hs & Hv & Ha & Hm).
  rewrite !memset0_zeroed by assumption. cbn [bind].
  assert (Hinit : forall fl vp,
            m_ismasked (MState (Accum (zeroed n (o_sum o)) (zeroed n (o_sumvar o))
                                      (zeroed n (o_area o)) (o_maskarea o))
                               fl vp false []) = false
            /\ proportional c n
                 (m_out (MState (Accum (zeroed n (o_sum o)) (zeroed n (o_sumvar o))
                                       (zeroed n (o_area o)) (o_maskarea o))
                                fl vp false []))).
  { intros fl vp. split; [reflexivity|]. intros j s a Hj Hsj Haj.
    cbn [m_out o_sum o_area] in Hsj, Haj.
    rewrite zeroed_get in Hsj, Haj by assumption.
    injection Hsj as <-. injection Haj as <-. cbn. lra. }
  assert (Hfin : forall (st : mstate R) (o2 : accum R) s l,
            proportional c n (m_out st) ->
            (if (gain >? lit 0 1)%D
             then down_loop (Z.to_nat n) (poisson_body gain) (m_out st)
             else Some (m_out st)) = Some o2 ->
            Some (MResult s o2 (m_flag st) l) = Some res ->
            proportional c n (r_out res)).
  { intros st o2 s l Hp Ep H. injection H as <-. cbn [r_out].
    assert (Hk : o_sum o2 = o_sum (m_out st) /\ o_area o2 = o_area (m_out st)).
    { destruct (gain >? lit 0 1)%D.
      - now apply poisson_keeps_sums in Ep.
      - injection Ep as <-. split; reflexivity. }
    destruct Hk as [E1 E2]. intros j s' a' Hj. rewrite E1, E2. now apply Hp. }
  destruct (get_converter dtype) as [[s cv] z]. cbn [fst snd] in flat.
  destruct (negb (is_ok s)) eqn:Eok0;
    [intros H Hok; injection H as <-; cbn [r_status] in Hok; subst s;
     discriminate|].
  destruct error as [e|].
  - destruct (get_converter edtype) as [[s' c'] z'].
    destruct (negb (is_ok s')) eqn:Eok'.
    + intros H Hok. injection H as <-. cbn [r_status] in Hok. subst s'.
      discriminate.
    + rewrite ?Eok'. intros H _. multi_run H.
      match goal with Er : context [multi_rows] |- _ =>
        eapply multi_rows_proportional in Er; [|exact flat|apply Hinit];
        match goal with Ep : (if (gain >? _)%D then _ else _) = Some _ |- _ =>
          exact (Hfin _ _ _ _ Er Ep H)
        end
      end.
  - rewrite ?Eok0. cbn [bind]. intros H _. multi_run H.
    match goal with Er : context [multi_rows] |- _ =>
      eapply multi_rows_proportional in Er; [|exact flat|apply Hinit];
      match goal with Ep : (if (gain >? _)%D then _ else _) = Some _ |- _ =>
        exact (Hfin _ _ _ _ Er Ep H)
      end
    end.
Qed.
End FlatTop.

(** In exact arithmetic, on an image whose pixels all decode to the
    value [c], without mask, with [rmax > 0], [n >= 1], [subpix >= 1],
    arrays that hold the [n] bins, supported encodings, and an image and
    an aperture within the reach of an [int] (fewer than [2^31] pixels,
    the bounds that [boxextent] casts and the row offsets below [2^31],
    and [(2*rmax + 4) * n <= 2^31 * rmax] so that no bin index
    overflows): [sep_sum_circann_multi] returns [RETURN_OK] and in every
    bin the sum is [c] times the area, [sum[j] = c * area[j]]. *)
Theorem flat_image_sum_is_value_times_area
        (M : Macros R) (C : Converters R)
        (data : buffer) (error : option buffer)
        (dtype edtype mdtype w h : Z) (maskthresh gain : R) (inflag : Z)
        (x y rmax : R) (n subpix : Z) (o : accum R) (flag : Z) (c : R) :
  (forall off : Z, snd (fst (get_converter dtype)) (data off) = c) ->
  (0 < rmax)%R -> 1 <= n -> 1 <= subpix -> holds n o ->
  converter_status error None dtype edtype mdtype = RETURN_OK ->
  0 <= w -> 0 <= h ->
  (IZR (w * h) + Rabs x + (rmax + 15 / 10) <= 2147483646)%R ->
  (Rabs y + (rmax + 15 / 10) <= 2147483646)%R ->
  ((2 * rmax + 4) * IZR n <= 2147483648 * rmax)%R ->
  exists res,
    sep_sum_circann_multi data error None dtype edtype mdtype w h
                          maskthresh gain inflag x y rmax n subpix o flag
    = Some res
    /\ r_status res = RETURN_OK
    /\ forall (j : Z) (s a : R), 0 <= j < n ->
         aget (o_sum (r_out res)) j = Some s ->
         aget (o_area (r_out res)) j = Some a -> s = (c * a)%R.
Proof.
  intros Hflat Hr Hn Hs Ho Hc Hw Hh Hx Hy Hb.
  destruct (multi_returns data error None dtype edtype mdtype w h maskthresh
              gain inflag x y rmax n subpix o flag Hr Hn Hs Ho Hc
              Hw Hh Hx Hy Hb) as [res E].
  assert (Hok : r_status res = RETURN_OK).
  { apply (multi_no_late_failure data error None dtype edtype mdtype w h
             maskthresh gain inflag x y rmax n subpix o flag res);
      try assumption.
    cbn [ltb lit RealArith]. apply RFacts.ltb_false. rewrite Rdiv_0_l. lra. }
  exists res. split; [exact E|]. split; [exact Hok|].
  exact (flat_sums data error dtype edtype mdtype w h maskthresh gain inflag
                   x y rmax n subpix o flag c Hflat Ho res E Hok).
Qed.

Lemma flat_image_sum_is_value_times_area_witness :
  exists res,
    sep_sum_circann_multi (M := MacrosR) (C := ConvertersR)
      (fun _ => 3%R) None None 82 82 82 20 20 0%R 0%R 0
      10%R 10%R 5%R 2 3 (Accum [7; 7]%R [7; 7]%R [7; 7]%R [7; 7]%R) 99
    = Some res
    /\ r_status res = RETURN_OK
    /\ forall (j : Z) (s a : R), 0 <= j < 2 ->
         aget (o_sum (r_out res)) j = Some s ->
         aget (o_area (r_out res)) j = Some a -> s = (3 * a)%R.
Proof.
  apply (flat_image_sum_is_value_times_area MacrosR ConvertersR
           (fun _ => 3%R) None 82 82 82 20 20 0%R 0%R 0
           10%R 10%R 5%R 2 3 (Accum [7; 7]%R [7; 7]%R [7; 7]%R [7; 7]%R) 99
           3%R).
  - intros off. reflexivity.
  - lra.
  - lia.
  - lia.
  - unfold holds. cbn. lia.
  - reflexivity.
  - lia.
  - lia.
  - rewrite Rabs_right by lra. cbn. lra.
  - rewrite Rabs_right by lra. lra.
  - lra.
Defined.

(* ================================================================= *)
(** ** The pixels that [sep_kron_radius] sums over *)

Section SubRange.

Lemma map_seq_from {T : Type} (k : nat) :
  forall (f : nat -> T) (s : nat),
  map f (seq s k) = map (fun i => f (s + i)%nat) (seq 0 k).
Proof.
  induction k as [|k IH]; intros f s; [reflexivity|].
  cbn [seq map]. rewrite Nat.add_0_r. f_equal.
  rewrite (IH f (S s)), (IH (fun i => f (s + i)%nat) 1%nat).
  apply map_ext. intros i. f_equal. lia.
Qed.

Lemma zrange_split (a m b : Z) :
  a <= m <= b -> zrange a b = zrange a m ++ zrange m b.
Proof.
  intros H. unfold zrange.
  replace (Z.to_nat (b - a)) with (Z.to_nat (m - a) + Z.to_nat (b - m))%nat by lia.
  rewrite seq_app, map_app. f_equal.
  rewrite map_seq_from. apply map_ext. intros i. lia.
Qed.

Lemma filter_none {T : Type} (f : T -> bool) (l : list T) :
  (forall v, In v l -> f v = false) -> filter f l = [].
Proof.
  induction l as [|v l IH]; intros H; [reflexivity|].
  cbn [filter]. rewrite (H v) by now left. apply IH. intros u Hu. apply H.
  now right.
Qed.

(** Filtering a range by a test that fails outside a sub-range. *)
Lemma filter_subrange (f : Z -> bool) (a b a' b' : Z) :
  a <= a' -> b' <= b ->
  (forall i, a <= i < b -> f i = true -> a' <= i < b') ->
  filter f (zrange a b) = filter f (zrange a' b').
Proof.
  intros Ha Hb Hf.
  assert (Hout : forall i, a <= i < b -> ~ a' <= i < b' -> f i = false).
  { intros i Hi Hn. destruct (f i) eqn:E; [|reflexivity].
    exfalso. apply Hn. now apply Hf. }
  destruct (Z_le_gt_dec a' b') as [Hle|Hgt].
  - rewrite (zrange_split a a' b) by lia. rewrite (zrange_split a' b' b) by lia.
    rewrite !filter_app.
    rewrite (filter_none f (zrange a a')), (filter_none f (zrange b' b)).
    + now rewrite app_nil_r.
    + intros i Hi. apply in_zrange in Hi. apply Hout; lia.
    + intros i Hi. apply in_zrange in Hi. apply Hout; lia.
  - rewrite (filter_none f (zrange a b)).
    + symmetry. apply filter_none. intros i Hi. apply in_zrange in Hi. lia.
    + intros i Hi. apply in_zrange in Hi. apply Hout; lia.
Qed.

Lemma filter_flat_map {T U : Type} (f : U -> bool) (g : T -> list U) (l : list T) :
  filter f (flat_map g l) = flat_map (fun v => filter f (g v)) l.
Proof.
  induction l as [|v l IH]; [reflexivity|].
  cbn [flat_map]. now rewrite filter_app, IH.
Qed.

Lemma flat_map_ext_on {T U : Type} (g g' : T -> list U) (l : list T) :
  (forall v, In v l -> g v = g' v) -> flat_map g l = flat_map g' l.
Proof.
  induction l as [|v l IH]; intros H; [reflexivity|].
  cbn [flat_map]. rewrite (H v) by now left. f_equal. apply IH.
  intros u Hu. apply H. now right.
Qed.

Lemma flat_map_none {T U : Type} (g : T -> list U) (l : list T) :
  (forall v, In v l -> g v = []) -> flat_map g l = [].
Proof.
  induction l as [|v l IH]; intros H; [reflexivity|].
  cbn [flat_map]. rewrite (H v) by now left. apply IH. intros u Hu. apply H.
  now right.
Qed.

(** The same for the concatenation of lists indexed by a range. *)
Lemma flat_map_subrange {U : Type} (g : Z -> list U) (a b a' b' : Z) :
  a <= a' -> b' <= b ->
  (forall i, a <= i < b -> ~ a' <= i < b' -> g i = []) ->
  flat_map g (zrange a b) = flat_map g (zrange a' b').
Proof.
  intros Ha Hb Hout.
  destruct (Z_le_gt_dec a' b') as [Hle|Hgt].
  - rewrite (zrange_split a a' b) by lia. rewrite (zrange_split a' b' b) by lia.
    rewrite !flat_map_app.
    rewrite (flat_map_none g (zrange a a')), (flat_map_none g (zrange b' b)).
    + now rewrite app_nil_r.
    + intros i Hi. apply in_zrange in Hi. apply Hout; lia.
    + intros i Hi. apply in_zrange in Hi. apply Hout; lia.
  - rewrite (flat_map_none g (zrange a b)).
    + symmetry. apply flat_map_none. intros i Hi. apply in_zrange in Hi. lia.
    + intros i Hi. apply in_zrange in Hi. apply Hout; lia.
Qed.

Lemma filter_map_swap {T U : Type} (f : U -> bool) (g : T -> U) (l : list T) :
  filter f (map g l) = map g (filter (fun v => f (g v)) l).
Proof.
  induction l as [|v l IH]; [reflexivity|].
  cbn [map filter]. destruct (f (g v)); cbn [map]; now rewrite IH.
Qed.

(** Filtering the pixels of a box by a test that fails outside a
    smaller box. *)
Lemma filter_subbox (f : Z * Z -> bool) (big small : box) :
  xmin big <= xmin small -> xmax small <= xmax big ->
  ymin big <= ymin small -> ymax small <= ymax big ->
  (forall ix iy, xmin big <= ix < xmax big -> ymin big <= iy < ymax big ->
     f (ix, iy) = true ->
     xmin small <= ix < xmax small /\ ymin small <= iy < ymax small) ->
  filter f (box_pixels big) = filter f (box_pixels small).
Proof.
  intros Hx0 Hx1 Hy0 Hy1 Hf. unfold box_pixels. rewrite !filter_flat_map.
  set (row := fun (bx : box) (iy : Z) =>
                filter f (map (fun ix => (ix, iy)) (zrange (xmin bx) (xmax bx)))).
  change (flat_map (row big) (zrange (ymin big) (ymax big))
          = flat_map (row small) (zrange (ymin small) (ymax small))).
  assert (Hin : forall iy, ymin big <= iy < ymax big ->
                  ymin small <= iy < ymax small -> row big iy = row small iy).
  { intros iy Hy Hys. unfold row. rewrite !filter_map_swap. f_equal.
    apply filter_subrange; [assumption..|].
    intros ix Hix Hfx. now apply (Hf ix iy). }
  assert (Hout : forall iy, ymin big <= iy < ymax big ->
                   ~ ymin small <= iy < ymax small -> row big iy = []).
  { intros iy Hy Hys. unfold row. rewrite filter_map_swap.
    rewrite filter_none; [reflexivity|].
    intros ix Hix. apply in_zrange in Hix.
    destruct (f (ix, iy)) eqn:Efx; [|reflexivity].
    exfalso. apply Hys. now apply (Hf ix iy Hix Hy Efx). }
  rewrite (flat_map_subrange (row big) _ _ (ymin small) (ymax small))
    by assumption.
  apply flat_map_ext_on. intros iy Hiy. apply in_zrange in Hiy.
  apply Hin; lia.
Qed.
End SubRange.

Lemma existsb_filter {T : Type} (f : T -> bool) (l : list T) :
  existsb f l = match filter f l with [] => false | _ :: _ => true end.
Proof.
  induction l as [|v l IH]; [reflexivity|].
  cbn [existsb filter]. destruct (f v); [reflexivity | exact IH].
Qed.

Section KronImage.
Context {M : Macros R} {C : Converters R}.
Open Scope R_scope.
Variables (data : buffer) (mask : option buffer).
Variables (convert : elem -> R) (mconvert : option (elem -> R)).
Variables (size msize : Z).
Variables (w h : Z) (maskthresh x y cxx cyy cxy r : R).
Hypothesis Hdet : 0 < cxx * cyy - cxy * cxy / 4.
Hypothesis Hp : 0 < cxx + cyy.
Hypothesis Hr : 0 <= r.

Let inside := in_ellipse x y cxx cyy cxy (r * r)%D.

(** A test that only pixels of the ellipse pass cannot tell the box of
    [boxextent_ellipse] from the whole image. *)
Lemma kron_box_or_image (f : Z * Z -> bool) (bx : box) (fl : Z) :
  boxextent_ellipse x y cxx cyy cxy r w h 0 = Some (bx, fl) ->
  (forall p, f p = true -> inside p = true) ->
  filter f (box_pixels bx) = filter f (box_pixels (Box 0 w 0 h)).
Proof.
  intros Eb Hf. symmetry.
  pose proof Eb as Eb'. unfold boxextent_ellipse in Eb'.
  pose proof (boxextent_inside _ _ _ _ _ _ _ _ _ Eb') as Hbox.
  apply filter_subbox; cbn [xmin xmax ymin ymax]; try lia.
  intros ix iy Hx Hy Hfp. apply Hf in Hfp.
  unfold inside, in_ellipse, rpix2_at in Hfp.
  cbn [fst snd of_int sub mul add leb RealArith] in Hfp.
  apply RFacts.leb_iff in Hfp.
  apply (ellipse_box_cover_some M x y cxx cyy cxy r w h 0 ix iy bx fl);
    try assumption; cbv zeta; lra.
Qed.
End KronImage.

(** C7.  In exact arithmetic, for the coefficients of an ellipse,
    [r >= 0], and an image and an ellipse within the reach of an [int]
    (the image has fewer than [2^31] pixels, and with the center and
    the half-extents of the ellipse the bounds that [boxextent] casts
    and the row offsets stay below [2^31]): once the converters resolve,
    [sep_kron_radius] returns [RETURN_OK], whatever the pixel values
    are.  With [used] the pixels of the whole image that lie in the
    ellipse, are not below [-BIG] and are not masked, [r1] the sum of
    [sqrt(rpix2) * pix] and [v1] the sum of [pix] over them (the
    accumulated area is their number), [fl] the truncation flag of the
    box and [fl'] the flags of the scan ([fl], with
    [SEP_APER_HASMASKED] when some pixel of the image in the ellipse is
    not usable):
    - no such pixel: radius 0, flag [fl' | SEP_APER_ALLMASKED];
    - some, and [r1 <= 0] or [v1 <= 0]: radius 0, flag
      [fl' | SEP_APER_NONPOSITIVE];
    - otherwise radius [r1 / v1], flag [fl']. *)
Theorem kron_radius_outcomes
        (M : Macros R) (C : Converters R)
        (data : buffer) (mask : option buffer) (dtype mdtype w h : Z)
        (maskthresh x y cxx cyy cxy r kronrad : R) :
  (0 < cxx * cyy - cxy * cxy / 4)%R -> (0 < cxx + cyy)%R -> (0 <= r)%R ->
  0 <= w -> 0 <= h ->
  (IZR (w * h) + Rabs x + r / sqrt (cxx - cxy * cxy / (4 * cyy))
   <= 2147483646)%R ->
  (Rabs y + r / sqrt (cyy - cxy * cxy / (4 * cxx)) <= 2147483646)%R ->
  is_ok (fst (fst (get_converter dtype))) = true ->
  (mask <> None -> is_ok (fst (fst (get_converter mdtype))) = true) ->
  let convert := snd (fst (get_converter dtype)) in
  let size := snd (get_converter dtype) in
  let mconvert := match mask with
                  | Some _ => Some (snd (fst (get_converter mdtype)))
                  | None => None
                  end in
  let msize := match mask with
               | Some _ => snd (get_converter mdtype)
               | None => 0
               end in
  let image := box_pixels (Box 0 w 0 h) in
  let used := filter (usable data mask convert mconvert size msize w h
                             maskthresh x y cxx cyy cxy (r * r)%R) image in
  let s := kron_sums data convert size w h x y cxx cyy cxy used
                     (0%R, 0%R, 0%R) in
  let r1 := fst (fst s) in
  let v1 := snd (fst s) in
  exists (bx : box) (fl : Z) (kr : R) (flag : Z) (log : list access),
    boxextent_ellipse x y cxx cyy cxy r w h 0 = Some (bx, fl)
    /\ sep_kron_radius data mask dtype mdtype w h maskthresh
         x y cxx cyy cxy r kronrad
       = Some (KResult RETURN_OK kr flag log)
    /\ snd s = INR (length used)
    /\ let fl' := if existsb (unusable data mask convert mconvert size msize w h
                                       maskthresh x y cxx cyy cxy (r * r)%R)
                             image
                  then Z.lor fl SEP_APER_HASMASKED else fl in
       (used = [] -> kr = 0%R /\ flag = Z.lor fl' SEP_APER_ALLMASKED)
       /\ (used <> [] -> (r1 <= 0 \/ v1 <= 0)%R ->
           kr = 0%R /\ flag = Z.lor fl' SEP_APER_NONPOSITIVE)
       /\ (used <> [] -> (0 < r1)%R -> (0 < v1)%R ->
           kr = (r1 / v1)%R /\ flag = fl').
Proof.
  intros Hdet Hsum Hr Hw Hh Hrx Hry Hd Hm convert size mconvert msize
         image used s r1 v1.
  destruct (ellipse_box_exists_fit M x y cxx cyy cxy r w h 0
              Hdet Hsum Hr Hw Hh Hrx Hry) as (bx & fl & Hbe & Hfit).
  destruct (kron_radius_generic data mask dtype mdtype w h maskthresh
              x y cxx cyy cxy r kronrad bx fl Hd Hm Hbe Hw Hfit) as (log & E).
  cbv zeta in E. fold convert size mconvert msize in E.
  unfold kron_after in E. cbn [fst snd lit mul RealArith] in E.
  rewrite !Rdiv_0_l in E.
  (* from the box to the image *)
  rewrite (kron_box_or_image w h x y cxx cyy cxy r Hdet Hsum Hr _ bx fl Hbe) in E.
  2:{ intros p Hu. unfold usable in Hu. apply andb_true_iff in Hu.
      destruct Hu as [Hu _]. apply andb_true_iff in Hu. now destruct Hu. }
  rewrite (existsb_filter _ (box_pixels bx)) in E.
  rewrite (kron_box_or_image w h x y cxx cyy cxy r Hdet Hsum Hr _ bx fl Hbe) in E.
  2:{ intros p Hu. unfold unusable in Hu. apply andb_true_iff in Hu.
      now destruct Hu. }
  rewrite <- existsb_filter in E.
  fold image used in E. fold s in E.
  set (fl' := if existsb _ image then _ else _) in *.
  assert (Harea : snd s = INR (length used)).
  { subst s. destruct used; [cbn; lra|]. rewrite kron_sums_area. lra. }
  cbn [eqb leb of_int div RealArith] in E.
  destruct (RA.eqb (snd s) 0) eqn:Ea.
  - apply RFacts.eqb_iff in Ea. rewrite Harea in Ea.
    assert (Hu : used = []).
    { destruct used; [reflexivity|]. cbn [length] in Ea. rewrite S_INR in Ea.
      pose proof (pos_INR (length used)). lra. }
    exists bx, fl, 0%R, (Z.lor fl' SEP_APER_ALLMASKED), log.
    split; [exact Hbe|]. split; [exact E|]. split; [exact Harea|]. cbv zeta.
    split; [auto|]. split; intros; contradiction.
  - apply not_true_iff_false in Ea. rewrite RFacts.eqb_iff in Ea.
    assert (Hu : used <> []).
    { intros Hu. apply Ea. rewrite Harea, Hu. reflexivity. }
    destruct (RA.leb (fst (fst s)) 0 || RA.leb (snd (fst s)) 0) eqn:El.
    + exists bx, fl, 0%R, (Z.lor fl' SEP_APER_NONPOSITIVE), log.
      split; [exact Hbe|]. split; [exact E|]. split; [exact Harea|]. cbv zeta.
      split; [intros; contradiction|]. split; [auto|].
      intros _ H1 H2. apply orb_true_iff in El.
      destruct El as [El|El]; apply RFacts.leb_iff in El;
        unfold r1, v1 in *; lra.
    + exists bx, fl, (fst (fst s) / snd (fst s))%R, fl', log.
      split; [exact Hbe|]. split; [exact E|]. split; [exact Harea|]. cbv zeta.
      split; [intros; contradiction|].
      apply orb_false_iff in El. destruct El as [El1 El2].
      apply RFacts.leb_false_iff in El1, El2.
      split; [intros _ [H|H]; unfold r1, v1 in *; lra | auto].
Qed.

(** Without a mask and on data above the floor, a pixel counts exactly
    when it is in the ellipse. *)
Lemma usable_unmasked (M : Macros R) (C : Converters R) (data : buffer)
      (convert : elem -> R) (size msize w h : Z)
      (maskthresh x y cxx cyy cxy r2 : R) (p : Z * Z) :
  (forall off, - BIG <= convert (data off))%R ->
  usable data None convert None size msize w h maskthresh x y cxx cyy cxy r2 p
  = in_ellipse x y cxx cyy cxy r2 p.
Proof.
  intros Hb. unfold usable, pix_at, masked_at, converted.
  cbn [to_float ltb neg RealArith].
  rewrite RFacts.ltb_false by apply Hb.
  cbn [negb]. now rewrite !andb_true_r.
Qed.

(** The unit circle around the pixel (1, 1). *)
Lemma unit_circle_test (ix iy : Z) :
  in_ellipse 1%R 1%R 1%R 1%R 0%R (1 * 1)%R (ix, iy)
  = RA.leb ((IZR ix - 1) * (IZR ix - 1) + (IZR iy - 1) * (IZR iy - 1)) 1.
Proof.
  unfold in_ellipse, rpix2_at. cbn [fst snd of_int sub mul add leb RealArith].
  f_equal; ring.
Qed.

Lemma unit_circle_radius (ix iy : Z) :
  rpix2_at 1%R 1%R 1%R 1%R 0%R (ix, iy)
  = ((IZR ix - 1) * (IZR ix - 1) + (IZR iy - 1) * (IZR iy - 1))%R.
Proof.
  unfold rpix2_at. cbn [fst snd of_int sub mul add RealArith]. ring.
Qed.

(** C7 on a 3 x 3 image of ones without mask, the unit circle around
    the middle pixel: the five pixels of the cross count, the four
    neighbours are at distance 1, and the radius is 4/5 with no flag. *)
Lemma kron_radius_outcomes_witness :
  exists log,
    sep_kron_radius (M := MacrosR) (C := ConvertersR) (fun _ => 1%R) None
                    82 82 3 3 0%R 1%R 1%R 1%R 1%R 0%R 1%R 0%R
    = Some (KResult RETURN_OK (4 / 5)%R 0 log).
Proof.
  assert (Hs : sqrt (1 - 0 * 0 / (4 * 1)) = 1%R).
  { replace (1 - 0 * 0 / (4 * 1))%R with 1%R by lra. apply sqrt_1. }
  destruct (kron_radius_outcomes MacrosR ConvertersR (fun _ => 1%R) None
              82 82 3 3 0%R 1%R 1%R 1%R 1%R 0%R 1%R 0%R)
    as (bx & fl & kr & flag & log & Eb & E & _ & H);
    try lra; try lia.
  - rewrite Hs, Rabs_R1. cbn. lra.
  - rewrite Hs, Rabs_R1. lra.
  - reflexivity.
  - intros H. now contradiction H.
  - cbv zeta in H. destruct H as (_ & _ & H).
    (* the box is the whole image, nothing is truncated *)
    assert (Efl : fl = 0).
    { destruct (ellipse_extents MacrosR 1%R 1%R 1%R 1%R 0%R 1%R 3 3 0)
        as (_ & _ & Ee); try lra.
      rewrite Ee, Hs, boxextent_clamp in Eb. unfold box_casts in Eb.
      cbn [to_int add sub lit RealArith] in Eb.
      assert (T0 : RA.to_int (1 - 1 / 1 + 5 / 10) = Some 0)
        by (apply RFacts.to_int_eq; [apply RFacts.trunc_eq_nonneg; lra | lia]).
      assert (T3 : RA.to_int (1 + 1 / 1 + 14999999 / 10000000) = Some 3)
        by (apply RFacts.to_int_eq; [apply RFacts.trunc_eq_nonneg; lra | lia]).
      rewrite T0, T3 in Eb.
      cbn [bind Z.ltb Z.gtb Z.compare Pos.compare Pos.compare_cont orb Z.max Z.min] in Eb. now injection Eb as _ <-. }
    (* the pixels that count *)
    assert (Hb : forall off : Z, (- BIG <= snd (fst (get_converter 82)) 1)%R).
    { intros _. unfold BIG, MacrosR. assert (0 <= IZR (10 ^ 30))%R by (apply IZR_le; lia). cbn [get_converter ConvertersR one_converter fst snd Z.eqb Pos.eqb]. lra. }
    assert (Eu : filter (usable (fun _ : Z => 1%R) None (snd (fst (get_converter 82)))
                           None (snd (get_converter 82)) 0 3 3 0%R 1%R 1%R 1%R 1%R
                           0%R (1 * 1)%R)
                        (box_pixels (Box 0 3 0 3))
                 = [(1, 0); (0, 1); (1, 1); (2, 1); (1, 2)]).
    { rewrite (filter_ext _ (in_ellipse 1%R 1%R 1%R 1%R 0%R (1 * 1)%R))
        by (intros p; now apply usable_unmasked).
      change (box_pixels (Box 0 3 0 3))
        with [(0, 0); (1, 0); (2, 0); (0, 1); (1, 1); (2, 1);
              (0, 2); (1, 2); (2, 2)].
      cbn [filter]. rewrite !unit_circle_test.
      repeat first [ rewrite RFacts.leb_true by lra
                   | rewrite RFacts.leb_false by lra ].
      reflexivity. }
    assert (En : existsb (unusable (fun _ : Z => 1%R) None
                            (snd (fst (get_converter 82))) None
                            (snd (get_converter 82)) 0 3 3 0%R 1%R 1%R 1%R 1%R
                            0%R (1 * 1)%R)
                         (box_pixels (Box 0 3 0 3)) = false).
    { apply not_true_is_false. intros Hex. apply existsb_exists in Hex.
      destruct Hex as (p & _ & Hp). unfold unusable in Hp.
      rewrite usable_unmasked in Hp by exact Hb.
      now destruct (in_ellipse _ _ _ _ _ _ p). }
    rewrite Eu, En in H.
    (* the two sums *)
    unfold kron_sums in H. cbn [fold_left] in H.
    rewrite !unit_circle_radius in H. unfold pix_at, converted in H.
    cbn [to_float add mul dsqrt lit RealArith get_converter ConvertersR
         one_converter fst snd] in H.
    change (snd (fst (one_converter 82)) 1%R) with 1%R in H.
    replace ((1 - 1) * (1 - 1) + (0 - 1) * (0 - 1))%R with 1%R in H by ring.
    replace ((0 - 1) * (0 - 1) + (1 - 1) * (1 - 1))%R with 1%R in H by ring.
    replace ((1 - 1) * (1 - 1) + (1 - 1) * (1 - 1))%R with 0%R in H by ring.
    replace ((2 - 1) * (2 - 1) + (1 - 1) * (1 - 1))%R with 1%R in H by ring.
    replace ((1 - 1) * (1 - 1) + (2 - 1) * (2 - 1))%R with 1%R in H by ring.
    rewrite sqrt_1, sqrt_0 in H.
    destruct H as [Ek Ef]; [discriminate | lra | lra |].
    exists log. rewrite E, Ek, Ef, Efl. do 2 f_equal. field.
Defined.

(* ================================================================= *)
(** ** [sep_sum_circann_multi]: the masking correction of a call *)

Section Corrected.
Context {D : Type} {A : Arith D} {M : Macros D}.

(** The two blocks that follow the scan, bin by bin. *)
Lemma corrected_bins (inflag n : Z) (gain : D) (o o1 o2 : accum D) :
  0 <= n -> holds n o ->
  correct_masked inflag n o = Some o1 ->
  (if (gain >? lit 0 1)%D
   then down_loop (Z.to_nat n) (poisson_body gain) o1
   else Some o1) = Some o2 ->
  o_maskarea o2 = o_maskarea o
  /\ forall j, 0 <= j < n ->
       exists s v a m,
         aget (o_sum o) j = Some s /\ aget (o_sumvar o) j = Some v
         /\ aget (o_area o) j = Some a /\ aget (o_maskarea o) j = Some m
         /\ if Z.land inflag SEP_MASK_IGNORE =? 0
            then aget (o_area o2) j = Some a
                 /\ aget (o_sum o2) j = Some (s * rescale_factor a m)%D
                 /\ aget (o_sumvar o2) j
                    = Some (with_noise gain (s * rescale_factor a m)%D
                                       (v * rescale_factor a m)%D)
            else aget (o_area o2) j = Some (a - m)%D
                 /\ aget (o_sum o2) j = Some s
                 /\ aget (o_sumvar o2) j = Some (with_noise gain s v).
Proof.
  intros Hn Ho Ec Ep.
  destruct (correct_masked_spec inflag n o Hn Ho) as (o1' & E1 & Em & H).
  rewrite E1 in Ec. injection Ec as ->.
  assert (Ho1 : holds n o1).
  { apply holds_shape with o; [|assumption].
    exact (proj1 (correct_masked_shape _ _ _ _ E1)). }
  (* the Poisson block *)
  assert (Hp : o_sum o2 = o_sum o1 /\ o_area o2 = o_area o1
               /\ o_maskarea o2 = o_maskarea o1
               /\ forall j s v, 0 <= j < n ->
                    aget (o_sum o1) j = Some s -> aget (o_sumvar o1) j = Some v ->
                    aget (o_sumvar o2) j = Some (with_noise gain s v)).
  { unfold with_noise. destruct (gain >? lit 0 1)%D; cbn [andb].
    - pose proof Ho1 as Ho1'. rewrite <- (Z2Nat.id n) in Ho1' by assumption.
      destruct (poisson_loop gain (Z.to_nat n) o1 Ho1')
        as (o2' & E2 & Hs & Ha & Hm & _ & Hlow & _).
      rewrite E2 in Ep. injection Ep as ->.
      repeat split; try assumption. intros j s v Hj. apply Hlow. lia.
    - injection Ep as <-. repeat split. intros j s v _ _ Hv. exact Hv. }
  destruct Hp as (Ps & Pa & Pm & Pv).
  split; [congruence|].
  intros j Hj. destruct Ho as (Hs & Hv & Ha & Hm).
  destruct (aget_some (o_sum o) j) as [s Es]; [lia|].
  destruct (aget_some (o_sumvar o) j) as [v Ev]; [lia|].
  destruct (aget_some (o_area o) j) as [a Ea]; [lia|].
  destruct (aget_some (o_maskarea o) j) as [m Emk]; [lia|].
  exists s, v, a, m. repeat (split; [assumption|]).
  destruct (Z.land inflag SEP_MASK_IGNORE =? 0).
  - destruct H as [Har H]. destruct (H j Hj s v a m Es Ev Ea Emk) as [H1 H2].
    rewrite Pa, Ps, Har. split; [exact Ea|]. split; [exact H1|].
    now apply Pv.
  - destruct H as (Hsu & Hsv & H). specialize (H j Hj a m Ea Emk).
    rewrite Pa, Ps, Hsu. split; [exact H|]. split; [exact Es|].
    apply Pv; [assumption | now rewrite Hsu | now rewrite Hsv].
Qed.

Lemma memset0_some (l l' : list D) (n : Z) :
  memset0 l n = Some l' -> n <= Z.of_nat (length l').
Proof.
  intros E. pose proof (memset0_length _ _ _ E) as El. unfold memset0 in E.
  destruct (n <=? Z.of_nat (length l)) eqn:En; [|discriminate].
  apply Z.leb_le in En. lia.
Qed.
End Corrected.

Section CorrectedTop.
Context {D : Type} {A : Arith D} {M : Macros D} {C : Converters D}.
Variables (data : buffer) (error : option buffer) (mk : buffer).
Variables (dtype edtype mdtype w h : Z) (maskthresh gain : D) (inflag : Z).
Variables (x y rmax : D) (n subpix : Z) (o : accum D) (flag : Z).

(** A call with a mask that returns [RETURN_OK] went through the scan,
    the masking correction and the Poisson block. *)
Lemma multi_corrected (res : mresult) :
  sep_sum_circann_multi data error (Some mk) dtype edtype mdtype w h
                        maskthresh gain inflag x y rmax n subpix o flag
  = Some res ->
  r_status res = RETURN_OK ->
  exists st o1,
    multi_scan data error (Some mk) dtype edtype mdtype w h maskthresh inflag
               x y rmax n subpix o = Some st
    /\ 1 <= n /\ holds n (m_out st)
    /\ correct_masked inflag n (m_out st) = Some o1
    /\ (if (gain >? lit 0 1)%D
        then down_loop (Z.to_nat n) (poisson_body gain) o1
        else Some o1) = Some (r_out res).
Proof.
  unfold sep_sum_circann_multi, multi_scan.
  destruct (_ || (n <? 1)) eqn:Echeck;
    [intros H Hok; injection H as <-; discriminate Hok|].
  apply orb_false_iff in Echeck. destruct Echeck as [_ Hn].
  apply Z.ltb_ge in Hn.
  destruct (subpix <? 1); [intros H Hok; injection H as <-; discriminate Hok|].
  destruct (memset0 (o_sum o) n) as [s0|] eqn:Es; [|discriminate].
  destruct (memset0 (o_sumvar o) n) as [v0|] eqn:Ev; [|discriminate].
  destruct (memset0 (o_area o) n) as [a0|] eqn:Ea; [|discriminate].
  destruct (memset0 (o_maskarea o) n) as [m0|] eqn:Em; [|discriminate].
  cbn [bind].
  apply memset0_some in Es, Ev, Ea, Em.
  assert (Hbad : forall (s : status) a fl l,
             is_ok s = false ->
             Some (MResult s a fl l) = Some res -> r_status res = RETURN_OK ->
             False).
  { intros s a fl l Hs H Hok. injection H as <-. cbn [r_status] in Hok.
    subst s. discriminate. }
  assert (Hfin : forall (st : mstate D) (o1 o2 : accum D) (s : status)
                        (st' : option (mstate D)),
             st' = Some st ->
             same_shape (Accum s0 v0 a0 m0) (m_out st) ->
             correct_masked inflag n (m_out st) = Some o1 ->
             (if (gain >? lit 0 1)%D
              then down_loop (Z.to_nat n) (poisson_body gain) o1
              else Some o1) = Some o2 ->
             Some (MResult s o2 (m_flag st) (m_log st)) = Some res ->
             exists st1 o1',
               st' = Some st1 /\ 1 <= n /\ holds n (m_out st1)
               /\ correct_masked inflag n (m_out st1) = Some o1'
               /\ (if (gain >? lit 0 1)%D
                   then down_loop (Z.to_nat n) (poisson_body gain) o1'
                   else Some o1') = Some (r_out res)).
  { intros st o1 o2 s st' -> Hsh Ec Ep H. injection H as <-. cbn [r_out].
    exists st, o1. split; [reflexivity|]. split; [exact Hn|].
    split; [|split; assumption].
    apply holds_shape with (Accum s0 v0 a0 m0); [exact Hsh|].
    repeat split; assumption. }
  destruct (get_converter dtype) as [[s c] z].
  destruct (negb (is_ok s)) eqn:Eok;
    [intros H Hok; exfalso; apply negb_true_iff in Eok;
     exact (Hbad _ _ _ _ Eok H Hok)|].
  destruct error as [e|].
  - destruct (get_converter edtype) as [[s' c'] z'].
    destruct (negb (is_ok s')) eqn:Eok';
      [intros H Hok; exfalso; apply negb_true_iff in Eok';
       exact (Hbad _ _ _ _ Eok' H Hok)|].
    destruct (get_converter mdtype) as [[s'' c''] z''].
    destruct (negb (is_ok s'')) eqn:Eok'';
      [intros H Hok; exfalso; apply negb_true_iff in Eok'';
       exact (Hbad _ _ _ _ Eok'' H Hok)|].
    intros H _. multi_run H.
    cbn [bind].
    match goal with Er : context [multi_rows] |- _ =>
      pose proof Er as Hk; apply multi_rows_keeps in Hk; destruct Hk as [Hk _];
      match goal with Ec : correct_masked _ _ _ = Some _ |- _ =>
        match goal with Ep : (if (gain >? _)%D then _ else _) = Some _ |- _ =>
          exact (Hfin _ _ _ _ _ Er Hk Ec Ep H)
        end
      end
    end.
  - destruct (negb (is_ok s)) eqn:Eok'; [discriminate Eok|].
    destruct (get_converter mdtype) as [[s'' c''] z''].
    destruct (negb (is_ok s'')) eqn:Eok'';
      [intros H Hok; exfalso; apply negb_true_iff in Eok'';
       exact (Hbad _ _ _ _ Eok'' H Hok)|].
    cbn [bind]. intros H _. multi_run H.
    cbn [bind].
    match goal with Er : context [multi_rows] |- _ =>
      pose proof Er as Hk; apply multi_rows_keeps in Hk; destruct Hk as [Hk _];
      match goal with Ec : correct_masked _ _ _ = Some _ |- _ =>
        match goal with Ep : (if (gain >? _)%D then _ else _) = Some _ |- _ =>
          exact (Hfin _ _ _ _ _ Er Hk Ec Ep H)
        end
      end
    end.
Qed.
End CorrectedTop.

(** A bin that is masked entirely, [area == maskarea]: the factor is 0.
    On doubles the product of a finite sum with it is a zero; in exact
    arithmetic the sum and the variance returned are 0. *)
Lemma f64_rescale_all_masked (s a : PrimFloat.float) :
  PrimFloat.eqb a a = true -> F64.finite s = true ->
  rescale_factor a a = PrimFloat.zero
  /\ F64.is_zero (s * rescale_factor a a)%D = true.
Proof.
  intros Ha Hs.
  assert (E : rescale_factor a a = PrimFloat.zero).
  { unfold rescale_factor. cbn [eqb Float64]. rewrite Ha. vm_compute. reflexivity. }
  split; [exact E|]. rewrite E.
  unfold F64.is_zero, F64.finite in *. cbn [mul Float64].
  rewrite FloatAxioms.mul_spec.
  change (FloatOps.Prim2SF PrimFloat.zero) with (SpecFloat.S754_zero false).
  destruct (FloatOps.Prim2SF s); try discriminate; reflexivity.
Qed.

Lemma real_rescale_all_masked (gain s v a : R) :
  rescale_factor a a = 0%R
  /\ (s * rescale_factor a a)%D = 0%R
  /\ with_noise gain (s * rescale_factor a a)%D (v * rescale_factor a a)%D = 0%R.
Proof.
  assert (E : rescale_factor a a = 0%R).
  { unfold rescale_factor. cbn [eqb lit RealArith].
    rewrite RFacts.eqb_true by reflexivity. lra. }
  rewrite E. cbn [mul RealArith]. split; [reflexivity|]. split; [ring|].
  unfold with_noise. cbn [ltb lit RealArith].
  rewrite (RFacts.ltb_false _ (s * 0)) by (cbn; lra).
  rewrite andb_false_r. ring.
Qed.

(** C2.  In every arithmetic, for a call of [sep_sum_circann_multi] with
    a mask buffer that returns [RETURN_OK]: with [st] the state in which
    the scan of the pixels left the four arrays, [maskarea] is returned
    as the scan left it, and in every bin [j] below [n], from the sum
    [s], the variance [v], the area [a] and the masked area [m] that the
    scan left there,
    - under [SEP_MASK_IGNORE] the area returned is [a - m] and the sum
      returned is [s];
    - otherwise (rescale) the area returned is [a] and the sum returned
      is [s * tmp], where [tmp] is [0.0] when [a == m] and
      [a / (a - m)] otherwise;
    the variance returned is [v], respectively [v * tmp], with the
    Poisson term of the block that follows ([sum / gain] is added when
    [gain > 0] and the sum returned is positive).  For a bin that is
    masked entirely, [a == m]: in exact arithmetic the factor, the sum
    and the variance returned are 0; on doubles the factor is [0.] and
    the product of a finite sum with it is a zero, not NaN and not
    infinite. *)
Theorem mask_correction :
  (forall (D : Type) (A : Arith D) (M : Macros D) (C : Converters D)
          (data : buffer) (error : option buffer) (mk : buffer)
          (dtype edtype mdtype w h : Z) (maskthresh gain : D) (inflag : Z)
          (x y rmax : D) (n subpix : Z) (o : accum D) (flag : Z)
          (res : mresult),
      sep_sum_circann_multi data error (Some mk) dtype edtype mdtype w h
        maskthresh gain inflag x y rmax n subpix o flag = Some res ->
      r_status res = RETURN_OK ->
      exists st,
        multi_scan data error (Some mk) dtype edtype mdtype w h maskthresh
                   inflag x y rmax n subpix o = Some st
        /\ o_maskarea (r_out res) = o_maskarea (m_out st)
        /\ forall j, 0 <= j < n ->
             exists s v a m,
               aget (o_sum (m_out st)) j = Some s
               /\ aget (o_sumvar (m_out st)) j = Some v
               /\ aget (o_area (m_out st)) j = Some a
               /\ aget (o_maskarea (m_out st)) j = Some m
               /\ if Z.land inflag SEP_MASK_IGNORE =? 0
                  then aget (o_area (r_out res)) j = Some a
                       /\ aget (o_sum (r_out res)) j
                          = Some (s * rescale_factor a m)%D
                       /\ aget (o_sumvar (r_out res)) j
                          = Some (with_noise gain (s * rescale_factor a m)%D
                                             (v * rescale_factor a m)%D)
                  else aget (o_area (r_out res)) j = Some (a - m)%D
                       /\ aget (o_sum (r_out res)) j = Some s
                       /\ aget (o_sumvar (r_out res)) j
                          = Some (with_noise gain s v))
  /\ (forall gain s v a : R,
         rescale_factor a a = 0%R
         /\ (s * rescale_factor a a)%D = 0%R
         /\ with_noise gain (s * rescale_factor a a)%D
                        (v * rescale_factor a a)%D = 0%R)
  /\ (forall s a : PrimFloat.float,
         PrimFloat.eqb a a = true -> F64.finite s = true ->
         rescale_factor a a = PrimFloat.zero
         /\ F64.is_zero (s * rescale_factor a a)%D = true).
Proof.
  split.
  - intros D A M C data error mk dtype edtype mdtype w h maskthresh gain inflag
           x y rmax n subpix o flag res E Hok.
    destruct (multi_corrected data error mk dtype edtype mdtype w h maskthresh
                gain inflag x y rmax n subpix o flag res E Hok)
      as (st & o1 & Es & Hn & Hst & Ec & Ep).
    exists st. split; [exact Es|].
    exact (corrected_bins inflag n gain (m_out st) o1 (r_out res)
             ltac:(lia) Hst Ec Ep).
  - split.
    + exact real_rescale_all_masked.
    + exact f64_rescale_all_masked.
Qed.

(** C2 on IEEE doubles: a 3 x 3 image of ones whose middle pixel is
    masked, one bin of radius 2 around the middle pixel, [subpix = 1].
    The scan leaves the sum 8, the area 9 and the masked area 1.  Under
    the rescale policy the sum returned is [8 * 9/8 = 9] with the area
    9; under [SEP_MASK_IGNORE] the sum returned is 8 with the area
    [9 - 1 = 8].  Had the 9 pixels been masked, the product of the sum
    with the factor would be a zero. *)
Lemma mask_correction_witness :
  let o := Accum [f64 0 1] [f64 0 1] [f64 0 1] [f64 0 1] in
  let call := fun inflag =>
    sep_sum_circann_multi flat_image None (Some middle_mask) 82 82 82 3 3
      (f64 5 10) (f64 0 1) inflag (f64 1 1) (f64 1 1) (f64 2 1) 1 1 o 0 in
  exists res res' st,
    call 0 = Some res /\ call SEP_MASK_IGNORE = Some res'
    /\ multi_scan flat_image None (Some middle_mask) 82 82 82 3 3
         (f64 5 10) 0 (f64 1 1) (f64 1 1) (f64 2 1) 1 1 o = Some st
    /\ o_sum (m_out st) = [f64 8 1] /\ o_area (m_out st) = [f64 9 1]
    /\ o_maskarea (m_out st) = [f64 1 1]
    /\ o_sum (r_out res) = [f64 9 1] /\ o_area (r_out res) = [f64 9 1]
    /\ o_sum (r_out res') = [f64 8 1] /\ o_area (r_out res') = [f64 8 1]
    /\ (exists s v a m,
          aget (o_sum (m_out st)) 0 = Some s
          /\ aget (o_sumvar (m_out st)) 0 = Some v
          /\ aget (o_area (m_out st)) 0 = Some a
          /\ aget (o_maskarea (m_out st)) 0 = Some m
          /\ aget (o_area (r_out res)) 0 = Some a
          /\ aget (o_sum (r_out res)) 0 = Some (s * rescale_factor a m)%D
          /\ aget (o_sumvar (r_out res)) 0
             = Some (with_noise (f64 0 1) (s * rescale_factor a m)%D
                                (v * rescale_factor a m)%D))
    /\ F64.is_zero (f64 8 1 * rescale_factor (f64 9 1) (f64 9 1))%D = true.
Proof.
  intros o call.
  assert (E : exists res, call 0 = Some res /\ r_status res = RETURN_OK
                          /\ o_sum (r_out res) = [f64 9 1]
                          /\ o_area (r_out res) = [f64 9 1]).
  { eexists. split; [vm_compute; reflexivity|].
    repeat split; vm_compute; reflexivity. }
  destruct E as (res & E & Hok & Hs & Ha).
  destruct (proj1 mask_correction _ Float64 Macros64 Converters64
              flat_image None middle_mask 82 82 82 3 3 (f64 5 10) (f64 0 1) 0
              (f64 1 1) (f64 1 1) (f64 2 1) 1 1 o 0 res E Hok)
    as (st & Est & _ & Hj).
  exists res. eexists. exists st.
  split; [exact E|]. split; [vm_compute; reflexivity|].
  split; [exact Est|].
  assert (Est' := Est). vm_compute in Est'. injection Est' as <-.
  repeat (split; [first [exact Hs | exact Ha | vm_compute; reflexivity]|]).
  destruct (Hj 0 ltac:(lia)) as (s & v & a & m & H1 & H2 & H3 & H4 & H5).
  split.
  - exists s, v, a, m. cbn [Z.land Z.eqb] in H5. tauto.
  - apply (proj2 (proj2 mask_correction) (f64 8 1) (f64 9 1));
      vm_compute; reflexivity.
Defined.
